(** * Reactivity core and keyed children diff of VueSourceCode

    A shallow embedding of
    - [src/core/vdom/patch.js]: [sameVnode], [sameInputType],
      [createKeyToOldIdx], [findIdxInOld], [updateChildren] and the host
      operations it issues;
    - [src/core/observer/watcher.js]: the [Watcher] methods [get], [addDep],
      [cleanupDeps], [update], [run], [evaluate], [depend], [teardown];
    - [src/core/observer/scheduler.js]: [queueWatcher],
      [flushSchedulerQueue], [resetSchedulerState];
    - [src/core/observer/array.js]: the seven intercepted array methods;
    - [src/core/observer/traverse.js]: [traverse], [_traverse];
    - [src/core/instance/lifecycle.js]: [callHook] and the statements of
      [$destroy] that deal with the watchers.

    JavaScript values are a small tagged union; numbers are the integers
    ([Z]), which is all the modelled code computes with (ids, indices,
    counters), and [NaN], the one value that is not strictly equal to
    itself.  Exceptions are explicit: fallible code returns a
    [completion]. *)

From stdpp Require Import gmap strings list pretty sorting.
From Stdlib Require Import ZArith Lia Ascii.

(** ** JavaScript values *)

Module JS.

Inductive value :=
  | VUndef
  | VNull
  | VBool (b : bool)
  | VNum (n : Z)
  | VNaN
  | VStr (s : string)
  | VObj (ref : nat).

#[global] Instance value_eq_dec : EqDecision value.
Proof. solve_decision. Defined.

(** [a === b]: on primitives equality of the values, on objects equality of
    the references; [NaN] is strictly equal to nothing, itself included. *)
Definition strict_eq (a b : value) : bool :=
  match a with
  | VNaN => false
  | _ => bool_decide (a = b)
  end.

(** [a === b] as a proposition: one value, which is not [NaN]. *)
Definition identical (a b : value) : Prop := a = b /\ a <> VNaN.

(** A normal completion or a thrown value. *)
Inductive completion (A : Type) :=
  | Return (a : A)
  | Throw (e : value).
Arguments Return {A} a.
Arguments Throw {A} e.

#[global] Instance completion_ret : MRet completion := fun A a => Return a.
#[global] Instance completion_bind : MBind completion := fun A B k c =>
  match c with
  | Return a => k a
  | Throw e => Throw e
  end.

(** [isDef] of a field that either holds an object or is [undefined]. *)
Definition isDefO {A} (o : option A) : bool :=
  match o with Some _ => true | None => false end.

(** The value thrown when a property of [undefined] is read. *)
Definition TypeError : value := VStr "TypeError".

(** Modelled from the spec: [core/util] is not among the sources. "Absent"
    is [undefined] or [null]; [isDef] is its negation, [isTrue] is strict
    equality with [true], and an object is a non-primitive ("the result is
    a non-primitive"). *)
Definition isUndef (v : value) : bool :=
  match v with VUndef | VNull => true | _ => false end.
Definition isDef (v : value) : bool := negb (isUndef v).
Definition isTrue (v : value) : bool := strict_eq v (VBool true).
Definition isObject (v : value) : bool :=
  match v with VObj _ => true | _ => false end.

(** The string a value denotes when it is used as a property name of a
    plain object ([map[key]]). *)
Definition toPropertyKey (v : value) : string :=
  match v with
  | VUndef => "undefined"
  | VNull => "null"
  | VBool true => "true"
  | VBool false => "false"
  | VNum n => pretty n
  | VNaN => "NaN"
  | VStr s => s
  | VObj _ => "[object Object]"
  end.

(** The names of the properties of [Object.prototype], which every plain
    object ([{}]) inherits. *)
Definition Object_prototype : list string :=
  ["constructor"; "__defineGetter__"; "__defineSetter__"; "hasOwnProperty";
   "__lookupGetter__"; "__lookupSetter__"; "isPrototypeOf";
   "propertyIsEnumerable"; "toString"; "valueOf"; "__proto__";
   "toLocaleString"].

(** A plain object whose own properties hold numbers, as
    [createKeyToOldIdx] builds one. [map[k] = i] writes an own property,
    except under the name [__proto__]: that is the inherited setter, which
    ignores a number. *)
Definition set_prop (map : gmap string Z) (k : string) (i : Z) : gmap string Z :=
  if decide (k = "__proto__") then map else <[k := i]> map.

(** What [map[k]] reads: the number of an own property, the function or
    object inherited under a name of [Object.prototype], or [undefined]. *)
Inductive read :=
  | Own (i : Z)
  | Inherited
  | Missing.

#[global] Instance read_eq_dec : EqDecision read.
Proof. solve_decision. Defined.

Definition get_prop (map : gmap string Z) (k : string) : read :=
  match map !! k with
  | Some i => Own i
  | None => if decide (k ∈ Object_prototype) then Inherited else Missing
  end.

(** A string that begins with a digit or a sign, as the name that a number
    reads as does. *)
Definition first_char (s : string) : option Ascii.ascii :=
  match s with
  | String c _ => Some c
  | EmptyString => None
  end.

Definition numeric_start : list Ascii.ascii :=
  ["0"; "1"; "2"; "3"; "4"; "5"; "6"; "7"; "8"; "9"; "-"]%char.

Definition starts_numeric (s : string) : Prop :=
  exists c, first_char s = Some c /\ c ∈ numeric_start.

(** An index or [undefined], as a value read from such an object is. *)
Definition found (r : option Z) : read :=
  match r with
  | Some i => Own i
  | None => Missing
  end.

(** [arr[i]] for an integer index: [undefined] outside the array. *)
Definition at_index {A} (l : list A) (i : Z) : option A :=
  if (i <? 0)%Z then None else l !! Z.to_nat i.

End JS.

(** ** Render nodes and the sameness predicate *)

Module VDom.
Import JS.

(** The part of a node's data bag the reconciler reads in [sameInputType]:
    [data.attrs], a plain object from attribute names to values, read under
    the name [type] only. *)
Record VNodeData := mkData {
  attrs : option (gmap string value)
}.

(** A render node, with the fields [sameVnode] and [updateChildren] read.
    [asyncFactory] is a reference to a factory function (compared by
    identity); the factory's [error] property lives in the factory object
    and is read through [factoryError] below. [elm] is the materialised host
    node. *)
Record VNode := mkVNode {
  tag : option string;
  data : option VNodeData;
  key : value;
  isComment : bool;
  asyncFactory : option nat;
  isAsyncPlaceholder : bool;
  elm : option nat
}.

#[global] Instance VNodeData_eq_dec : EqDecision VNodeData.
Proof. solve_decision. Defined.
#[global] Instance VNode_eq_dec : EqDecision VNode.
Proof. solve_decision. Defined.

Section Sameness.

(** [isTextInputType] is imported from [web/util/element], which is not
    among the sources; it is a table lookup on the value it is given. *)
Variable isTextInputType : value -> bool.

(** The [error] property of each async factory object. *)
Variable factoryError : nat -> value.

(** [isDef(i = v.data) && isDef(i = i.attrs) && i.type]: [false] when the
    data bag or its [attrs] is absent, otherwise [attrs.type] (which is
    [undefined] when [attrs] has no such property). *)
Definition inputType (v : VNode) : value :=
  match data v with
  | None => VBool false
  | Some d =>
      match attrs d with
      | None => VBool false
      | Some at_ => default VUndef (at_ !! "type")
      end
  end.

Definition sameInputType (a b : VNode) : bool :=
  if negb (bool_decide (tag a = Some "input")) then true
  else
    let typeA := inputType a in
    let typeB := inputType b in
    strict_eq typeA typeB || (isTextInputType typeA && isTextInputType typeB).

(** [sameVnode(a, b)]. Either argument may be [undefined] (a consumed
    slot), whose property read throws; so does [b.asyncFactory.error]
    when [b.asyncFactory] is [undefined]. *)
Definition sameVnode (oa ob : option VNode) : completion bool :=
  match oa, ob with
  | Some a, Some b =>
      if strict_eq (key a) (key b) && bool_decide (asyncFactory a = asyncFactory b) then
        if bool_decide (tag a = tag b)
           && bool_decide (isComment a = isComment b)
           && bool_decide (isDefO (data a) = isDefO (data b))
           && sameInputType a b
        then Return true
        else if isAsyncPlaceholder a then
          match asyncFactory b with
          | Some f => Return (isUndef (factoryError f))
          | None => Throw TypeError
          end
        else Return false
      else Return false
  | _, _ => Throw TypeError
  end.

End Sameness.

(** *** The children diff

    [updateChildren(parentElm, oldCh, newCh, insertedVnodeQueue, removeOnly)]
    works on two arrays and on the child list of [parentElm]. The state
    below holds the three of them, a supply of fresh host nodes, and the log
    of what was done to the host. *)

Inductive op :=
  | Patch (oldElm : option nat) (index : Z)
      (* patchVnode(oldVnode, newCh[index], ...) *)
  | Move (elm : nat) (ref : option nat)
      (* nodeOps.insertBefore(parentElm, elm, ref) on an existing node *)
  | Create (elm : nat) (ref : option nat)
      (* createElm(newCh[index], ..., parentElm, ref, ...) *)
  | Remove (elm : nat).
      (* removeNode(elm) *)

#[global] Instance op_eq_dec : EqDecision op.
Proof. solve_decision. Defined.

Record diff := mkDiff {
  oldCh : list (option VNode);  (* a slot is [None] once set to [undefined] *)
  newCh : list VNode;
  host : list nat;              (* the child nodes of parentElm, in order *)
  fresh : nat;                  (* the next host node to be created *)
  ops : list op
}.

Definition isMove (o : op) : bool := match o with Move _ _ => true | _ => false end.
Definition isCreate (o : op) : bool := match o with Create _ _ => true | _ => false end.
Definition isRemove (o : op) : bool := match o with Remove _ => true | _ => false end.

(** Modelled from the spec: the node operations are an external
    collaborator ("insert-before, remove child, query parent,
    next-sibling"), not among the sources. They act on the child list of
    [parentElm] as the DOM does. [without e h] is [h] after [e] has been
    taken out of it. *)
Definition without (e : nat) (h : list nat) : list nat :=
  filter (fun x => x <> e) h.

(** Modelled from the spec: "insert-before" puts [e] in front of the child
    [r]. *)
Fixpoint insert_at_ref (e r : nat) (h : list nat) : list nat :=
  match h with
  | [] => []
  | x :: t => if decide (x = r) then e :: x :: t else x :: insert_at_ref e r t
  end.

Definition NotFoundError : value := VStr "NotFoundError".

(** Modelled from the spec: [nodeOps.insertBefore(parentElm, e, ref)].
    Inserting a node that is already a child moves it; without a reference
    node the node goes to the end; a reference node that is not a child is
    an error. *)
Definition insertBefore (h : list nat) (e : nat) (ref : option nat) : completion (list nat) :=
  match ref with
  | None => Return (without e h ++ [e])
  | Some r =>
      if decide (r ∈ h) then
        if decide (r = e) then Return h
        else Return (insert_at_ref e r (without e h))
      else Throw NotFoundError
  end.

(** Modelled from the spec: [nodeOps.nextSibling(e)], the child after [e],
    if any. *)
Fixpoint nextSibling (h : list nat) (e : nat) : option nat :=
  match h with
  | [] => None
  | x :: t => if decide (x = e) then head t else nextSibling t e
  end.

Definition set_elm (v : VNode) (e : option nat) : VNode :=
  mkVNode (tag v) (data v) (key v) (isComment v) (asyncFactory v)
          (isAsyncPlaceholder v) e.

Definition set_new_elm (index : Z) (e : option nat) (l : list VNode) : list VNode :=
  if (index <? 0)%Z then l
  else alter (fun v => set_elm v e) (Z.to_nat index) l.

(** [patchVnode(oldVnode, vnode, insertedVnodeQueue, newCh, index)], as far
    as the child list of [parentElm] is concerned: the new node takes over
    the host node of the old one ([vnode.elm = oldVnode.elm]); the hooks and
    the reconciliation of the node's own children work below that host
    node. *)
Definition patchVnode (oldVnode : VNode) (index : Z) (d : diff) : diff :=
  mkDiff (oldCh d) (set_new_elm index (elm oldVnode) (newCh d)) (host d)
         (fresh d) (ops d ++ [Patch (elm oldVnode) index]).

(** [insert(parent, elm, ref)]. *)
Definition insert (h : list nat) (e : nat) (ref : option nat) : completion (list nat) :=
  match ref with
  | Some r => if decide (r ∈ h) then insertBefore h e (Some r) else Return h
  | None => Return (without e h ++ [e])
  end.

(** [createElm(newCh[index], insertedVnodeQueue, parentElm, refElm, false,
    newCh, index)]: a host node is created for the new child, recorded in
    [vnode.elm] and inserted before [refElm]. *)
Definition createElm (index : Z) (refElm : option nat) (d : diff) : completion diff :=
  let e := fresh d in
  h ← insert (host d) e refElm;
  Return (mkDiff (oldCh d) (set_new_elm index (Some e) (newCh d)) h
                 (S e) (ops d ++ [Create e refElm])).

(** [addVnodes(parentElm, refElm, newCh, startIdx, endIdx, ...)]: the loop
    runs for [endIdx - startIdx + 1] indices when that is positive. *)
Fixpoint addVnodes_from (n : nat) (refElm : option nat) (startIdx : Z) (d : diff)
  : completion diff :=
  match n with
  | O => Return d
  | S n' =>
      d' ← createElm startIdx refElm d;
      addVnodes_from n' refElm (startIdx + 1)%Z d'
  end.

Definition addVnodes (refElm : option nat) (startIdx endIdx : Z) (d : diff)
  : completion diff :=
  addVnodes_from (Z.to_nat (endIdx - startIdx + 1)) refElm startIdx d.

(** [removeNode(el)]: the node is taken out of its parent, if it has one. *)
Definition removeNode (el : option nat) (d : diff) : completion diff :=
  match el with
  | None => Throw TypeError
  | Some e =>
      Return (mkDiff (oldCh d) (newCh d) (without e (host d)) (fresh d)
                     (ops d ++ [Remove e]))
  end.

(** [removeVnodes(oldCh, startIdx, endIdx)]: every slot that still holds a
    node has its host node removed (for an element after the remove hooks,
    for a text node at once). *)
Fixpoint removeVnodes_from (n : nat) (startIdx : Z) (d : diff) : completion diff :=
  match n with
  | O => Return d
  | S n' =>
      d' ← match mjoin (at_index (oldCh d) startIdx) with
           | Some ch => removeNode (elm ch) d
           | None => Return d
           end;
      removeVnodes_from n' (startIdx + 1)%Z d'
  end.

Definition removeVnodes (startIdx endIdx : Z) (d : diff) : completion diff :=
  removeVnodes_from (Z.to_nat (endIdx - startIdx + 1)) startIdx d.

Section Diff.

Variable isTextInputType : value -> bool.
Variable factoryError : nat -> value.

Local Abbreviation same := (sameVnode isTextInputType factoryError).

(** [createKeyToOldIdx(children, beginIdx, endIdx)]: a plain object from
    keys to indices, given by its own properties; a later child with the
    same key overwrites. *)
Fixpoint createKeyToOldIdx_from (n : nat) (children : list (option VNode))
    (i : Z) (map : gmap string Z) : completion (gmap string Z) :=
  match n with
  | O => Return map
  | S n' =>
      match mjoin (at_index children i) with
      | None => Throw TypeError
      | Some c =>
          let map' := if isDef (key c) then set_prop map (toPropertyKey (key c)) i
                      else map in
          createKeyToOldIdx_from n' children (i + 1)%Z map'
      end
  end.

Definition createKeyToOldIdx (children : list (option VNode)) (beginIdx endIdx : Z)
  : completion (gmap string Z) :=
  createKeyToOldIdx_from (Z.to_nat (endIdx - beginIdx + 1)) children beginIdx ∅.

(** [findIdxInOld(node, oldCh, start, end)]: [for (i = start; i < end; i++)]. *)
Fixpoint findIdxInOld_from (n : nat) (node : option VNode)
    (oldCh : list (option VNode)) (i : Z) : completion (option Z) :=
  match n with
  | O => Return None
  | S n' =>
      match mjoin (at_index oldCh i) with
      | Some c =>
          s ← same node (Some c);
          if s : bool then Return (Some i)
          else findIdxInOld_from n' node oldCh (i + 1)%Z
      | None => findIdxInOld_from n' node oldCh (i + 1)%Z
      end
  end.

Definition findIdxInOld (node : option VNode) (oldCh : list (option VNode))
    (start end_ : Z) : completion (option Z) :=
  findIdxInOld_from (Z.to_nat (end_ - start)) node oldCh start.

(** The local variables of [updateChildren]. *)
Record cursors := mkCur {
  oldStartIdx : Z;
  newStartIdx : Z;
  oldEndIdx : Z;
  newEndIdx : Z;
  oldStartVnode : option VNode;
  oldEndVnode : option VNode;
  newStartVnode : option VNode;
  newEndVnode : option VNode;
  oldKeyToIdx : option (gmap string Z)
}.

Definition old_at (d : diff) (i : Z) : option VNode := mjoin (at_index (oldCh d) i).
Definition new_at (d : diff) (i : Z) : option VNode := at_index (newCh d) i.

Definition elm_of (v : option VNode) : completion (option nat) :=
  match v with
  | Some n => Return (elm n)
  | None => Throw TypeError
  end.

(** A move is issued only when [canMove]; its node must exist. *)
Definition move (canMove : bool) (e ref : option nat) (d : diff) : completion diff :=
  if canMove then
    match e with
    | None => Throw TypeError
    | Some n =>
        h ← insertBefore (host d) n ref;
        Return (mkDiff (oldCh d) (newCh d) h (fresh d) (ops d ++ [Move n ref]))
    end
  else Return d.

Definition patch (old : option VNode) (index : Z) (d : diff) : completion diff :=
  match old with
  | Some o => Return (patchVnode o index d)
  | None => Throw TypeError
  end.

Definition clear_old (i : Z) (d : diff) : diff :=
  mkDiff (if (i <? 0)%Z then oldCh d else <[Z.to_nat i := None]> (oldCh d))
         (newCh d) (host d) (fresh d) (ops d).

(** The [if (isUndef(idxInOld)) ... else ...] of the keyed fallback: the
    new start child is created before the host node [r], unless the old
    child at [idxInOld] is the same node, which is then patched, cleared
    from its slot and moved. An [idxInOld] that is no number (a name of
    [Object.prototype] read from the map) selects no old child:
    [oldCh[idxInOld]] is [undefined], whose key [sameVnode] reads. *)
Definition reuse_or_create (canMove : bool) (nsi : Z) (nsv : option VNode)
    (r : option nat) (idxInOld : read) (d : diff) : completion diff :=
  match idxInOld with
  | Missing => createElm nsi r d
  | Inherited => _ ← same None nsv; Throw TypeError
  | Own i =>
      let vnodeToMove := old_at d i in
      s5 ← same vnodeToMove nsv;
      if s5 : bool then
        d1 ← patch vnodeToMove nsi d;
        e ← elm_of vnodeToMove;
        move canMove e r (clear_old i d1)
      else createElm nsi r d
  end.

(** One turn of the [while] loop. *)
Definition step (canMove : bool) (c : cursors) (d : diff) : completion (cursors * diff) :=
  let '(mkCur osi nsi oei nei osv oev nsv nev k2i) := c in
  if negb (isDefO osv) then
    Return (mkCur (osi + 1) nsi oei nei (old_at d (osi + 1)) oev nsv nev k2i, d)
  else if negb (isDefO oev) then
    Return (mkCur osi nsi (oei - 1) nei osv (old_at d (oei - 1)) nsv nev k2i, d)
  else
    s1 ← same osv nsv;
    if s1 : bool then
      d1 ← patch osv nsi d;
      Return (mkCur (osi + 1) (nsi + 1) oei nei
                    (old_at d1 (osi + 1)) oev (new_at d1 (nsi + 1)) nev k2i, d1)
    else
    s2 ← same oev nev;
    if s2 : bool then
      d1 ← patch oev nei d;
      Return (mkCur osi nsi (oei - 1) (nei - 1)
                    osv (old_at d1 (oei - 1)) nsv (new_at d1 (nei - 1)) k2i, d1)
    else
    s3 ← same osv nev;
    if s3 : bool then
      d1 ← patch osv nei d;
      e ← elm_of osv;
      r ← elm_of oev;
      d2 ← (if canMove then
              match r with
              | Some r' => move canMove e (nextSibling (host d1) r') d1
              | None => Throw TypeError
              end
            else Return d1);
      Return (mkCur (osi + 1) nsi oei (nei - 1)
                    (old_at d2 (osi + 1)) oev nsv (new_at d2 (nei - 1)) k2i, d2)
    else
    s4 ← same oev nsv;
    if s4 : bool then
      d1 ← patch oev nsi d;
      e ← elm_of oev;
      r ← elm_of osv;
      d2 ← move canMove e r d1;
      Return (mkCur osi (nsi + 1) (oei - 1) nei
                    osv (old_at d2 (oei - 1)) (new_at d2 (nsi + 1)) nev k2i, d2)
    else
      map ← match k2i with
            | Some m => Return m
            | None => createKeyToOldIdx (oldCh d) osi oei
            end;
      k ← match nsv with Some n => Return (key n) | None => Throw TypeError end;
      idxInOld ← (if isDef k then Return (get_prop map (toPropertyKey k))
                  else i ← findIdxInOld nsv (oldCh d) osi oei; Return (found i));
      r ← elm_of osv;
      d2 ← reuse_or_create canMove nsi nsv r idxInOld d;
      Return (mkCur osi (nsi + 1) oei nei osv oev (new_at d2 (nsi + 1)) nev (Some map), d2).

(** The [while] loop; [None] when the turns allowed are used up. *)
Fixpoint loop (fuel : nat) (canMove : bool) (c : cursors) (d : diff)
  : option (completion (cursors * diff)) :=
  if ((oldStartIdx c <=? oldEndIdx c) && (newStartIdx c <=? newEndIdx c))%Z then
    match fuel with
    | O => None
    | S fuel' =>
        match step canMove c d with
        | Return (c', d') => loop fuel' canMove c' d'
        | Throw e => Some (Throw e)
        end
    end
  else Some (Return (c, d)).

Definition init (d : diff) : cursors :=
  let oei := (Z.of_nat (length (oldCh d)) - 1)%Z in
  let nei := (Z.of_nat (length (newCh d)) - 1)%Z in
  mkCur 0 0 oei nei (old_at d 0) (old_at d oei) (new_at d 0) (new_at d nei) None.

(** What follows the loop. *)
Definition finish (c : cursors) (d : diff) : completion diff :=
  if (oldStartIdx c >? oldEndIdx c)%Z then
    let refElm := match new_at d (newEndIdx c + 1) with
                  | None => None
                  | Some n => elm n
                  end in
    addVnodes refElm (newStartIdx c) (newEndIdx c) d
  else if (newStartIdx c >? newEndIdx c)%Z then
    removeVnodes (oldStartIdx c) (oldEndIdx c) d
  else Return d.

(** [updateChildren]. Every turn of the loop moves a cursor inwards, so
    the loop is given as many turns as there are children. The check for
    duplicate keys only warns and is left out. *)
Definition updateChildren (removeOnly : bool) (d : diff) : option (completion diff) :=
  match loop (length (oldCh d) + length (newCh d)) (negb removeOnly) (init d) d with
  | None => None
  | Some (Throw e) => Some (Throw e)
  | Some (Return (c, d')) => Some (finish c d')
  end.

End Diff.

(** How far apart the cursors of the two arrays are; every turn of the loop
    lowers it. *)
Definition gap (c : cursors) : Z :=
  (oldEndIdx c - oldStartIdx c) + (newEndIdx c - newStartIdx c).

(** Modelled from the spec: [web/util/element] is not among the sources; the
    spec speaks of "a text-input element". The table taken here holds the
    text-like input types; what is proved from it only needs that it accepts
    two different types. *)
Definition isTextInputType_web (v : value) : bool :=
  bool_decide (toPropertyKey v ∈ ["text"; "number"; "password"; "search";
                                  "email"; "tel"; "url"]).

(** The sameness predicate in the words of the spec, equality being [===]:
    equal keys, the same async factory, and either equal tags, equal comment flags, data bags
    both present or both absent and, for an [input], equal [type]s, or an
    unresolved async placeholder whose factory has recorded no error. *)
Definition stated_sameness (factoryError : nat -> value) (a b : VNode) : Prop :=
  identical (key a) (key b) /\ asyncFactory a = asyncFactory b /\
  ((tag a = tag b /\ isComment a = isComment b /\
    isDefO (data a) = isDefO (data b) /\
    (tag a = Some "input" -> identical (inputType a) (inputType b)))
   \/ (isAsyncPlaceholder a = true /\
       exists f, asyncFactory b = Some f /\ isUndef (factoryError f) = true)).

(** The same, with what the code accepts for two [input]s: equal [type]s
    or two text-like ones. *)
Definition sameness (isTextInputType : value -> bool) (factoryError : nat -> value)
    (a b : VNode) : Prop :=
  identical (key a) (key b) /\ asyncFactory a = asyncFactory b /\
  ((tag a = tag b /\ isComment a = isComment b /\
    isDefO (data a) = isDefO (data b) /\
    (tag a = Some "input" ->
       identical (inputType a) (inputType b)
       \/ (isTextInputType (inputType a) = true /\ isTextInputType (inputType b) = true)))
   \/ (isAsyncPlaceholder a = true /\
       exists f, asyncFactory b = Some f /\ isUndef (factoryError f) = true)).

(** A plain keyed element [<li key=k>], materialised as host node [e]. *)
Definition li (k : Z) (e : option nat) : VNode :=
  mkVNode (Some "li") None (VNum k) false None false e.

(** An element [<t>] without a key, materialised as host node [e]. *)
Definition plain (t : string) (e : option nat) : VNode :=
  mkVNode (Some t) None VUndef false None false e.

(** An element [<li key="k">], the key being a string. *)
Definition named (k : string) (e : option nat) : VNode :=
  mkVNode (Some "li") None (VStr k) false None false e.

(** An [<input type=t>] element. *)
Definition input_of_type (t : string) (k : value) : VNode :=
  mkVNode (Some "input") (Some (mkData (Some {[ "type" := VStr t ]}))) k
          false None false None.

End VDom.

(** ** Watchers, Deps and the scheduler *)

Module Reactive.
Import JS.

(** A [Watcher] object. Watchers and Deps are referred to by their [id]
    (both are numbered by a counter when they are created, so the id
    identifies the object); [deps] and [newDeps] are the two arrays of Deps,
    [depIds] and [newDepIds] the two id sets. [before] says whether the
    options carry a [before] hook. *)
Record Watcher := mkWatcher {
  vm : nat;
  deep : bool;
  user : bool;
  lazy : bool;
  sync : bool;
  before : bool;
  dirty : bool;
  active : bool;
  deps : list Z;
  newDeps : list Z;
  depIds : gset Z;
  newDepIds : gset Z;
  value : value
}.

(** The fields of a component instance that [teardown] reads and writes. *)
Record Vm := mkVm {
  _isBeingDestroyed : bool;
  _watchers : list Z
}.

(** What the scheduler does, as a ghost trace kept with its state. *)
Inductive sched_event :=
  | SBefore (id : Z)      (* watcher.before() *)
  | SRun (id : Z)         (* watcher.run() *)
  | SWarn (id : Z) (user : bool)  (* warn(...): the infinite-loop diagnostic *)
  | SNextTick             (* nextTick(flushSchedulerQueue) *)
  | SUpdated (queue : list Z).    (* callUpdatedHooks(updatedQueue) *)

(** The module-level variables of the scheduler. [has] holds [true] or
    [null] per id, [circular] a count per id: plain objects that are read
    and written under the ids of watchers only, which are numbers, so that
    nothing inherited is ever read from them. *)
Record Scheduler := mkSched {
  queue : list Z;
  has : gmap Z JS.value;
  circular : gmap Z Z;
  waiting : bool;
  flushing : bool;
  index : Z;
  trace : list sched_event
}.

(** What watchers do that is visible outside them: calls of user code
    (getter, callback), of the external error handler [handleError], and of
    [addSub] and [removeSub] on Deps. *)
Inductive event :=
  | EGetter (w : Z)
  | ECallback (w : Z) (newValue oldValue : JS.value)
  | EHandleError (e : JS.value) (w : Z)
  | EAddSub (dep w : Z)
  | ERemoveSub (dep w : Z).

#[global] Instance Watcher_eq_dec : EqDecision Watcher.
Proof. solve_decision. Defined.
#[global] Instance Vm_eq_dec : EqDecision Vm.
Proof. solve_decision. Defined.
#[global] Instance sched_event_eq_dec : EqDecision sched_event.
Proof. solve_decision. Defined.
#[global] Instance event_eq_dec : EqDecision event.
Proof. solve_decision. Defined.

Definition MAX_UPDATE_COUNT : Z := 100.

Section World.

(** The application's own state, and the user code that runs against it. A
    getter reads: it yields the Deps whose [depend()] it triggers, in order,
    and returns or throws. The deep traversal of an object value reads
    likewise. A callback or a [before] hook writes: it yields the new
    application state and the Deps it notifies, in order, and returns or
    throws. *)
Variable U : Type.
Variable getter : Z -> U -> list Z * completion JS.value.
Variable deepReads : JS.value -> U -> list Z * completion unit.
Variable cb : Z -> JS.value -> JS.value -> U -> U * list Z * completion unit.
Variable beforeHook : Z -> U -> U * list Z * completion unit.

(** [process.env.NODE_ENV === 'production'] and [config.async]. *)
Variable production : bool.
Variable config_async : bool.

Record World := mkWorld {
  app : U;
  watchers : gmap Z Watcher;
  vms : gmap nat Vm;
  subs : gmap Z (list Z);        (* dep.subs, per Dep *)
  targetStack : list (option Z);  (* the last pushed target first *)
  sched : Scheduler;
  log : list event
}.

Definition set_app (u : U) (s : World) : World :=
  mkWorld u (watchers s) (vms s) (subs s) (targetStack s) (sched s) (log s).
Definition set_watcher (w : Z) (x : Watcher) (s : World) : World :=
  mkWorld (app s) (<[w := x]> (watchers s)) (vms s) (subs s) (targetStack s)
          (sched s) (log s).
Definition set_vm (v : nat) (x : Vm) (s : World) : World :=
  mkWorld (app s) (watchers s) (<[v := x]> (vms s)) (subs s) (targetStack s)
          (sched s) (log s).
Definition set_subs (d : Z) (l : list Z) (s : World) : World :=
  mkWorld (app s) (watchers s) (vms s) (<[d := l]> (subs s)) (targetStack s)
          (sched s) (log s).
Definition set_stack (t : list (option Z)) (s : World) : World :=
  mkWorld (app s) (watchers s) (vms s) (subs s) t (sched s) (log s).
Definition set_sched (c : Scheduler) (s : World) : World :=
  mkWorld (app s) (watchers s) (vms s) (subs s) (targetStack s) c (log s).
Definition emit (e : event) (s : World) : World :=
  mkWorld (app s) (watchers s) (vms s) (subs s) (targetStack s) (sched s)
          (log s ++ [e]).

(** *** Dep *)

(** Modelled from the spec: [observer/dep.js] is not among the sources. A
    Subject "owns an ordered collection of subscriber references (no
    duplicates)": the subscribers of Dep [d], in order. *)
Definition subs_of (d : Z) (s : World) : list Z := default [] (subs s !! d).

(** Modelled from the spec: "subscribe(observer) adds an observer if not
    already present (idempotent)". *)
Definition addSub (d w : Z) (s : World) : World :=
  emit (EAddSub d w)
       (if decide (w ∈ subs_of d s) then s else set_subs d (subs_of d s ++ [w]) s).

(** Modelled from the spec: "unsubscribe(observer) removes it". *)
Definition removeSub (d w : Z) (s : World) : World :=
  emit (ERemoveSub d w) (set_subs d (filter (fun x => x <> w) (subs_of d s)) s).

(** Modelled from the spec: the pointer to the watcher being evaluated "is
    a stack (push/pop)"; [pushTarget(t)] pushes. *)
Definition pushTarget (t : option Z) (s : World) : World :=
  set_stack (t :: targetStack s) s.

(** Modelled from the spec: [popTarget()] pops. *)
Definition popTarget (s : World) : World :=
  set_stack (tail (targetStack s)) s.

(** Modelled from the spec: [Dep.target], "the Computation Observer
    currently evaluating", is the top of the stack. *)
Definition target (s : World) : option Z :=
  match targetStack s with
  | t :: _ => t
  | [] => None
  end.

(** *** Watcher *)

Definition with_collect (x : Watcher) (nd : list Z) (ni : gset Z) : Watcher :=
  mkWatcher (vm x) (deep x) (user x) (lazy x) (sync x) (before x) (dirty x)
            (active x) (deps x) nd (depIds x) ni (value x).

(** [addDep(dep)]. *)
Definition addDep (w d : Z) (s : World) : World :=
  match watchers s !! w with
  | None => s
  | Some x =>
      if decide (d ∈ newDepIds x) then s
      else
        let s1 := set_watcher w (with_collect x (newDeps x ++ [d]) ({[d]} ∪ newDepIds x)) s in
        if decide (d ∈ depIds x) then s1 else addSub d w s1
  end.

(** Modelled from the spec: [dep.depend()], called by a property read: "the
    getter, when a Computation Observer is currently evaluating, registers
    that observer with the property's Subject". *)
Definition depend (s : World) (d : Z) : World :=
  match target s with
  | Some w => addDep w d s
  | None => s
  end.

Definition read_all (ds : list Z) (s : World) : World := foldl depend s ds.

(** [traverse(value)]: nothing for a value that is not an object; otherwise
    the reads of the nested properties. *)
Definition traverse (v : JS.value) (s : World) : World * completion unit :=
  if isObject v then
    let '(ds, r) := deepReads v (app s) in (read_all ds s, r)
  else (s, Return tt).

(** The [while (i--)] loop of [cleanupDeps]: the old Deps from the last to
    the first. *)
Definition drop_stale (w : Z) (ni : gset Z) (old : list Z) (s : World) : World :=
  foldl (fun s d => if decide (d ∈ ni) then s else removeSub d w s) s (reverse old).

(** [cleanupDeps()]. *)
Definition cleanupDeps (w : Z) (s : World) : World :=
  match watchers s !! w with
  | None => s
  | Some x =>
      let s1 := drop_stale w (newDepIds x) (deps x) s in
      set_watcher w
        (mkWatcher (vm x) (deep x) (user x) (lazy x) (sync x) (before x) (dirty x)
                   (active x) (newDeps x) [] (newDepIds x) ∅ (value x)) s1
  end.

(** The [finally] block of [get]. *)
Definition get_finally (w : Z) (isDeep : bool) (v : JS.value) (s : World)
  : World * completion unit :=
  let '(s1, r) := if isDeep then traverse v s else (s, Return tt) in
  match r with
  | Throw e => (s1, Throw e)
  | Return _ => (cleanupDeps w (popTarget s1), Return tt)
  end.

(** [get()]. *)
Definition get (w : Z) (s : World) : World * completion JS.value :=
  match watchers s !! w with
  | None => (s, Throw TypeError)
  | Some x =>
      let s1 := pushTarget (Some w) s in
      let '(ds, r) := getter w (app s1) in
      let s2 := read_all ds (emit (EGetter w) s1) in
      match r with
      | Return v =>
          let '(s3, f) := get_finally w (deep x) v s2 in
          (s3, match f with Return _ => Return v | Throw e => Throw e end)
      | Throw e =>
          if user x then
            let '(s3, f) := get_finally w (deep x) VUndef (emit (EHandleError e w) s2) in
            (s3, match f with Return _ => Return VUndef | Throw e' => Throw e' end)
          else
            let '(s3, f) := get_finally w (deep x) VUndef s2 in
            (s3, match f with Return _ => Throw e | Throw e' => Throw e' end)
      end
  end.

Definition with_value (x : Watcher) (v : JS.value) : Watcher :=
  mkWatcher (vm x) (deep x) (user x) (lazy x) (sync x) (before x) (dirty x)
            (active x) (deps x) (newDeps x) (depIds x) (newDepIds x) v.
Definition with_dirty (x : Watcher) (b : bool) : Watcher :=
  mkWatcher (vm x) (deep x) (user x) (lazy x) (sync x) (before x) b
            (active x) (deps x) (newDeps x) (depIds x) (newDepIds x) (value x).
Definition with_active (x : Watcher) (b : bool) : Watcher :=
  mkWatcher (vm x) (deep x) (user x) (lazy x) (sync x) (before x) (dirty x)
            b (deps x) (newDeps x) (depIds x) (newDepIds x) (value x).

(** Modelled from the spec: [remove(arr, item)] of [core/util], which is not
    among the sources; the spec has no word on it beyond its use, and it is
    taken to splice the first occurrence of the item out of the array. *)
Fixpoint remove (arr : list Z) (item : Z) : list Z :=
  match arr with
  | [] => []
  | x :: t => if decide (x = item) then t else x :: remove t item
  end.

(** [teardown()]. *)
Definition teardown (w : Z) (s : World) : World * completion unit :=
  match watchers s !! w with
  | None => (s, Throw TypeError)
  | Some x =>
      if active x then
        match vms s !! vm x with
        | None => (s, Throw TypeError)
        | Some v =>
            let s1 := if _isBeingDestroyed v then s
                      else set_vm (vm x) (mkVm (_isBeingDestroyed v) (remove (_watchers v) w)) s in
            let s2 := foldl (fun s d => removeSub d w s) s1 (reverse (deps x)) in
            (set_watcher w (with_active x false) s2, Return tt)
        end
      else (s, Return tt)
  end.

(** The events of the evaluation of watcher [w]: its getter, the errors of
    its getter, and its subscriptions; not its callback. *)
Definition own_event (w : Z) (e : event) : Prop :=
  match e with
  | EGetter w' | EHandleError _ w' | EAddSub _ w' | ERemoveSub _ w' => w' = w
  | ECallback _ _ _ => False
  end.

(** A watcher after [cleanupDeps]: the collected Deps are the current ones
    and the new-set containers are empty. *)
Definition reconciled (x : Watcher) (nd : list Z) (ni : gset Z) : Watcher :=
  mkWatcher (vm x) (deep x) (user x) (lazy x) (sync x) (before x) (dirty x)
            (active x) nd [] ni ∅ (value x).

(** Two states of a watcher that differ at most in the collected Deps. *)
Definition same_config (x x' : Watcher) : Prop :=
  vm x = vm x' /\ deep x = deep x' /\ user x = user x' /\ lazy x = lazy x'
  /\ sync x = sync x' /\ before x = before x' /\ dirty x = dirty x'
  /\ active x = active x' /\ value x = value x'.

(** [s'] comes from [s] by an evaluation of [w]: only the Deps collected by
    [w], the subscriber lists and the target stack may differ, and the log
    has grown by events of that evaluation. *)
Definition evaluates (w : Z) (s s' : World) : Prop :=
  app s' = app s /\ vms s' = vms s /\ sched s' = sched s
  /\ (forall w', w' <> w -> watchers s' !! w' = watchers s !! w')
  /\ (forall x, watchers s !! w = Some x ->
        exists x', watchers s' !! w = Some x' /\ same_config x x')
  /\ exists l, log s' = log s ++ l /\ Forall (own_event w) l.

(** The Deps collected by a run of reads, from what was collected before:
    [newDeps] and [newDepIds] after the [addDep] calls. *)
Definition collect (ds : list Z) (nd : list Z) (ni : gset Z) : list Z * gset Z :=
  foldl (fun '(nd, ni) d =>
           if decide (d ∈ ni) then (nd, ni) else (nd ++ [d], {[d]} ∪ ni))
        (nd, ni) ds.

(** *** Scheduler *)

Definition has_null (c : Scheduler) (id : Z) : bool :=
  isUndef (default VUndef (has c !! id)).

(** [while (i > index && queue[i].id > watcher.id) i--], started at
    [i = n - 1]; the result is the final [i]. *)
Fixpoint scan_back (q : list Z) (idx id : Z) (n : nat) : Z :=
  match n with
  | O => -1
  | S n' =>
      match q !! n' with
      | Some x =>
          if ((Z.of_nat n' >? idx) && (x >? id))%Z then scan_back q idx id n'
          else Z.of_nat n'
      | None => Z.of_nat n'
      end
  end.

(** [queue.splice(pos, 0, id)] for [0 <= pos]. *)
Definition splice_in (q : list Z) (pos : Z) (id : Z) : list Z :=
  take (Z.to_nat pos) q ++ id :: drop (Z.to_nat pos) q.

(** The part of [queueWatcher] that marks the id and puts the watcher into
    the queue. *)
Definition enqueue (id : Z) (c : Scheduler) : Scheduler :=
  let h := <[id := VBool true]> (has c) in
  if negb (flushing c) then
    mkSched (queue c ++ [id]) h (circular c) (waiting c) (flushing c) (index c) (trace c)
  else
    let i := scan_back (queue c) (index c) id (length (queue c)) in
    mkSched (splice_in (queue c) (i + 1) id) h (circular c) (waiting c) (flushing c)
            (index c) (trace c).

Definition set_waiting (b : bool) (c : Scheduler) : Scheduler :=
  mkSched (queue c) (has c) (circular c) b (flushing c) (index c) (trace c).
Definition set_flushing (b : bool) (c : Scheduler) : Scheduler :=
  mkSched (queue c) (has c) (circular c) (waiting c) b (index c) (trace c).
Definition set_queue (q : list Z) (c : Scheduler) : Scheduler :=
  mkSched q (has c) (circular c) (waiting c) (flushing c) (index c) (trace c).
Definition set_index (i : Z) (c : Scheduler) : Scheduler :=
  mkSched (queue c) (has c) (circular c) (waiting c) (flushing c) i (trace c).
Definition set_has (id : Z) (v : JS.value) (c : Scheduler) : Scheduler :=
  mkSched (queue c) (<[id := v]> (has c)) (circular c) (waiting c) (flushing c)
          (index c) (trace c).
Definition set_circular (id : Z) (n : Z) (c : Scheduler) : Scheduler :=
  mkSched (queue c) (has c) (<[id := n]> (circular c)) (waiting c) (flushing c)
          (index c) (trace c).
Definition note (e : sched_event) (c : Scheduler) : Scheduler :=
  mkSched (queue c) (has c) (circular c) (waiting c) (flushing c) (index c)
          (trace c ++ [e]).

(** [resetSchedulerState()]. In a production build [circular] is left as
    it is. *)
Definition resetSchedulerState (c : Scheduler) : Scheduler :=
  mkSched [] ∅ (if production then circular c else ∅) false false 0 (trace c).

(** The scheduler is at watcher [w] within a flush: [w] is the running
    entry, its mark in [has] has been cleared, and all that is still to come
    has a greater id. *)
Definition running (w : Z) (c : Scheduler) : Prop :=
  flushing c = true /\ waiting c = true /\ has_null c w = true
  /\ at_index (queue c) (index c) = Some w
  /\ Forall (fun v => (w < v)%Z) (drop (Z.to_nat (index c) + 1) (queue c)).

(** From [c] to [c'] watcher [w] has been queued again, right after the
    running entry, and whatever else was queued has a greater id; the tally
    and the trace are as they were. *)
Definition requeued (w : Z) (c c' : Scheduler) : Prop :=
  flushing c' = true /\ waiting c' = true /\ index c' = index c
  /\ circular c' = circular c
  /\ trace c' = trace c /\ has_null c' w = false
  /\ exists rest,
       queue c' = take (Z.to_nat (index c) + 1) (queue c) ++ w :: rest
       /\ Forall (fun v => (w < v)%Z) rest.

(** Code that may run watchers: a state transformer that returns or throws,
    or is cut short, with [None] for a result and the state it had reached,
    when the turns it was allowed are used up. *)
Definition M (A : Type) : Type := World -> World * option (completion A).

Definition ret {A} (a : A) : M A := fun s => (s, Some (Return a)).
Definition throw {A} (e : JS.value) : M A := fun s => (s, Some (Throw e)).
Definition bindM {A B} (m : M A) (k : A -> M B) : M B := fun s =>
  match m s with
  | (s', Some (Return a)) => k a s'
  | (s', Some (Throw e)) => (s', Some (Throw e))
  | (s', None) => (s', None)
  end.
Definition lift {A} (f : World -> World * completion A) : M A := fun s =>
  let '(s', r) := f s in (s', Some r).
Definition modify (f : World -> World) : M unit := fun s => (f s, Some (Return tt)).
Definition on_sched (f : Scheduler -> Scheduler) : M unit :=
  modify (fun s => set_sched (f (sched s)) s).

(** [for (x of l) body(x)]. *)
Fixpoint for_each {A} (body : A -> M unit) (l : list A) : M unit :=
  match l with
  | [] => ret tt
  | x :: t => bindM (body x) (fun _ => for_each body t)
  end.

Section Calls.

(** The two calls that re-enter: [watcher.run()] on some watcher, and
    [flushSchedulerQueue()]. *)
Variable call_run : Z -> M unit.
Variable call_flush : M unit.

(** [queueWatcher(watcher)]. *)
Definition queueWatcher (id : Z) : M unit := fun s =>
  if has_null (sched s) id then
    let s1 := set_sched (enqueue id (sched s)) s in
    if negb (waiting (sched s1)) then
      let s2 := set_sched (set_waiting true (sched s1)) s1 in
      if negb production && negb config_async then call_flush s2
      else on_sched (note SNextTick) s2
    else (s1, Some (Return tt))
  else (s, Some (Return tt)).

(** [update()]. *)
Definition update (w : Z) : M unit := fun s =>
  match watchers s !! w with
  | None => (s, Some (Throw TypeError))
  | Some x =>
      if lazy x then (set_watcher w (with_dirty x true) s, Some (Return tt))
      else if sync x then call_run w s
      else queueWatcher w s
  end.

(** Modelled from the spec: "notify() iterates a snapshot of current
    subscribers and invokes each one's invalidation entry point". *)
Definition notify (d : Z) : M unit := fun s =>
  for_each update (subs_of d s) s.

(** User code that writes: the application state is replaced, the Deps it
    wrote to are notified in turn, and it returns or throws. *)
Definition writes (code : U -> U * list Z * completion unit) : M unit := fun s =>
  let '(u, ds, r) := code (app s) in
  bindM (for_each notify ds) (fun _ s' => (s', Some r)) (set_app u s).

(** Modelled from the spec: [invokeWithErrorHandling(handler, ...)] of
    [core/util], which is not among the sources. For user observers errors
    "are caught and funneled to an external error handler ... never
    propagated": what the handler throws goes to [handleError]. *)
Definition invokeWithErrorHandling (w : Z) (m : M unit) : M unit := fun s =>
  match m s with
  | (s', Some (Return a)) => (s', Some (Return a))
  | (s', Some (Throw e)) => (emit (EHandleError e w) s', Some (Return tt))
  | (s', None) => (s', None)
  end.

(** [run()]. *)
Definition run (w : Z) : M unit := fun s =>
  match watchers s !! w with
  | None => (s, Some (Throw TypeError))
  | Some x =>
      if active x then
        bindM (lift (get w)) (fun v s1 =>
          match watchers s1 !! w with
          | None => (s1, Some (Throw TypeError))
          | Some x1 =>
              if negb (strict_eq v (value x1)) || isObject v || deep x1 then
                let oldValue := value x1 in
                let s2 := emit (ECallback w v oldValue)
                               (set_watcher w (with_value x1 v) s1) in
                if user x1 then invokeWithErrorHandling w (writes (cb w v oldValue)) s2
                else writes (cb w v oldValue) s2
              else (s1, Some (Return tt))
          end) s
      else (s, Some (Return tt))
  end.

(** [if (watcher.before) watcher.before()]. *)
Definition run_before (w : Z) : M unit := fun s =>
  match watchers s !! w with
  | None => (s, Some (Throw TypeError))
  | Some x =>
      if before x then
        bindM (on_sched (note (SBefore w))) (fun _ => writes (beforeHook w)) s
      else (s, Some (Return tt))
  end.

(** The body of the [for] loop of [flushSchedulerQueue], for the watcher
    [w = queue[index]]; the result says whether the loop was left by
    [break]. *)
Definition flush_one (w : Z) : M bool :=
  bindM (run_before w) (fun _ =>
  bindM (on_sched (set_has w VNull)) (fun _ =>
  bindM (on_sched (note (SRun w))) (fun _ =>
  bindM (call_run w) (fun _ s =>
    let c := sched s in
    if negb production && negb (has_null c w) then
      let n := (default 0 (circular c !! w) + 1)%Z in
      let c1 := set_circular w n c in
      if (n >? MAX_UPDATE_COUNT)%Z then
        let u := match watchers s !! w with Some x => user x | None => false end in
        (set_sched (note (SWarn w u) c1) s, Some (Return true))
      else (set_sched c1 s, Some (Return false))
    else (s, Some (Return false)))))).

(** [for (index = 0; index < queue.length; index++) { ... }], from the
    current [index]. *)
Fixpoint flush_loop (fuel : nat) : M unit := fun s =>
  let c := sched s in
  if (index c <? Z.of_nat (length (queue c)))%Z then
    match fuel with
    | O => (s, None)
    | S fuel' =>
        match at_index (queue c) (index c) with
        | None => (s, Some (Throw TypeError))
        | Some w =>
            bindM (flush_one w) (fun stop : bool =>
              if stop then ret tt
              else bindM (on_sched (fun c => set_index (index c + 1) c))
                         (fun _ => flush_loop fuel')) s
        end
    end
  else (s, Some (Return tt)).

(** [flushSchedulerQueue()]. The time stamp, the activated children and the
    devtools event take no part in the scheduling and are left out; the
    [updated] hooks are recorded as called. *)
Definition flushSchedulerQueue (fuel : nat) : M unit :=
  bindM (on_sched (fun c =>
           set_index 0 (set_queue (merge_sort Z.le (queue c)) (set_flushing true c))))
        (fun _ =>
  bindM (flush_loop fuel) (fun _ =>
  on_sched (fun c => note (SUpdated (queue c)) (resetSchedulerState c)))).

End Calls.

(** The calls closed up: [fuel] bounds the depth of re-entrant calls and the
    turns of each flush loop. *)
Fixpoint exec_run (fuel : nat) (w : Z) : M unit :=
  match fuel with
  | O => fun s => (s, None)
  | S f => run (exec_run f) (exec_flush f) w
  end
with exec_flush (fuel : nat) : M unit :=
  match fuel with
  | O => fun s => (s, None)
  | S f => flushSchedulerQueue (exec_run f) (exec_flush f) f
  end.

(** The watchers [l] exist and have no [before] hook. *)
Definition no_before_hook (l : list Z) (s : World) : Prop :=
  forall v, v ∈ l -> exists x, watchers s !! v = Some x /\ before x = false.

(** What reaches the system from outside between evaluations: a Dep
    invalidates a watcher, a Dep notifies its subscribers, the host runs the
    requested flush, a watcher is torn down. What a stimulus throws is lost
    to the caller; the next stimulus finds the state it left. *)
Inductive stimulus :=
  | Invalidate (w : Z)
  | NotifyDep (d : Z)
  | NextTick
  | Teardown (w : Z).

Definition stimulate (fuel : nat) (st : stimulus) : M unit :=
  match st with
  | Invalidate w => update (exec_run fuel) (exec_flush fuel) w
  | NotifyDep d => notify (exec_run fuel) (exec_flush fuel) d
  | NextTick => exec_flush fuel
  | Teardown w => lift (teardown w)
  end.

Fixpoint stimulate_all (fuel : nat) (l : list stimulus) (s : World) : World :=
  match l with
  | [] => s
  | st :: l' => stimulate_all fuel l' (stimulate fuel st s).1
  end.

(** Watcher [w] exists and is not active. *)
Definition inactive (w : Z) (s : World) : Prop :=
  exists x, watchers s !! w = Some x /\ active x = false.

(** An event that is not a call of the getter or of the callback of [w]. *)
Definition not_run_of (w : Z) (e : event) : Prop :=
  match e with
  | EGetter w' | ECallback w' _ _ => w' <> w
  | _ => True
  end.

(** From [s] to [s'] watcher [w] stays inactive and neither its getter nor
    its callback is called. *)
Definition silent (w : Z) (s s' : World) : Prop :=
  inactive w s' /\ exists l, log s' = log s ++ l /\ Forall (not_run_of w) l.

(** A computation that keeps an inactive [w] silent. *)
Definition Silent (w : Z) {A} (m : M A) : Prop :=
  forall s, inactive w s -> silent w s (m s).1.

End World.

Arguments mkWorld {U} _ _ _ _ _ _ _.
Arguments app {U} _.
Arguments watchers {U} _.
Arguments vms {U} _.
Arguments subs {U} _.
Arguments targetStack {U} _.
Arguments sched {U} _.
Arguments log {U} _.
Arguments evaluates {U} _ _ _.
Arguments set_app {U} _ _.
Arguments set_watcher {U} _ _ _.
Arguments set_vm {U} _ _ _.
Arguments set_subs {U} _ _ _.
Arguments set_stack {U} _ _.
Arguments set_sched {U} _ _.
Arguments emit {U} _ _.
Arguments subs_of {U} _ _.
Arguments addSub {U} _ _ _.
Arguments removeSub {U} _ _ _.
Arguments pushTarget {U} _ _.
Arguments popTarget {U} _.
Arguments target {U} _.
Arguments addDep {U} _ _ _.
Arguments depend {U} _ _.
Arguments read_all {U} _ _.
Arguments traverse {U} _ _ _.
Arguments drop_stale {U} _ _ _ _.
Arguments cleanupDeps {U} _ _.
Arguments get_finally {U} _ _ _ _ _.
Arguments get {U} _ _ _ _.
Arguments teardown {U} _ _.
Arguments ret {U A} _ _.
Arguments throw {U A} _ _.
Arguments bindM {U A B} _ _ _.
Arguments lift {U A} _ _.
Arguments modify {U} _ _.
Arguments on_sched {U} _ _.
Arguments for_each {U A} _ _ _.
Arguments queueWatcher {U} _ _ _ _ _.
Arguments update {U} _ _ _ _ _ _.
Arguments notify {U} _ _ _ _ _ _.
Arguments writes {U} _ _ _ _ _ _.
Arguments invokeWithErrorHandling {U} _ _ _.
Arguments run {U} _ _ _ _ _ _ _ _ _.
Arguments run_before {U} _ _ _ _ _ _ _.
Arguments flush_one {U} _ _ _ _ _ _ _.
Arguments flush_loop {U} _ _ _ _ _ _ _.
Arguments flushSchedulerQueue {U} _ _ _ _ _ _.
Arguments exec_run {U} _ _ _ _ _ _ _ _.
Arguments exec_flush {U} _ _ _ _ _ _ _.
Arguments stimulate {U} _ _ _ _ _ _ _ _.
Arguments stimulate_all {U} _ _ _ _ _ _ _ _ _.
Arguments no_before_hook {U} _ _.
Arguments inactive {U} _ _.
Arguments silent {U} _ _ _.
Arguments Silent {U} _ {A} _.

End Reactive.

(** ** The intercepted array methods *)

Module ArrayMethods.
Import JS.

Inductive method := push | pop | shift | unshift | splice | sort | reverse.

#[global] Instance method_eq_dec : EqDecision method.
Proof. solve_decision. Defined.

Definition methodsToPatch : list method :=
  [push; pop; shift; unshift; splice; sort; reverse].

(** What a call of a patched method does, in order. *)
Inductive call :=
  | Original (m : method) (args : list value)  (* original.apply(this, args) *)
  | ObserveArray (inserted : list value)       (* ob.observeArray(inserted) *)
  | Notify (ob : nat).                         (* ob.dep.notify() *)

#[global] Instance call_eq_dec : EqDecision call.
Proof. solve_decision. Defined.

(** An instrumented array: its elements and its observer [__ob__]. *)
Record Arr := mkArr {
  items : list value;
  __ob__ : nat
}.

Section Mutator.

(** [Array.prototype[method]], the host's own method: from the elements and
    the arguments to the elements afterwards and the result, or a throw. *)
Variable R : Type.
Variable original : method -> list value -> list value -> list value * completion R.

(** The [switch (method)]: [inserted] stays [undefined] unless the method is
    one of the three that insert. *)
Definition inserted (m : method) (args : list value) : option (list value) :=
  match m with
  | push | unshift => Some args
  | splice => Some (drop 2 args)
  | _ => None
  end.

(** [mutator(...args)] for the patched method [m]. *)
Definition mutator (m : method) (this : Arr) (args : list value)
  : Arr * list call * completion R :=
  let '(items', result) := original m (items this) args in
  let this' := mkArr items' (__ob__ this) in
  match result with
  | Throw e => (this', [Original m args], Throw e)
  | Return r =>
      let ob := __ob__ this' in
      let observed := match inserted m args with
                      | Some ins => [ObserveArray ins]
                      | None => []
                      end in
      (this', [Original m args] ++ observed ++ [Notify ob], Return r)
  end.

End Mutator.

Arguments mutator {R} _ _ _ _.

Definition isNotify (c : call) : bool := match c with Notify _ => true | _ => false end.
Definition isObserveArray (c : call) : bool :=
  match c with ObserveArray _ => true | _ => false end.

(** The host's [push]: the arguments are appended and the new length is the
    result. *)
Definition native_push (l args : list value) : list value * completion value :=
  (l ++ args, Return (VNum (Z.of_nat (length (l ++ args))))).

End ArrayMethods.

(** ** A small application

    One counter, held in Dep 10, and a title, held in Dep 14. Watcher 0
    watches the title. Watcher 1 is a user watcher of the counter whose
    callback increments the counter it watches. Watcher 2 watches, deeply,
    an object one of whose nested accessors throws. *)

Module Scenario.
Import JS Reactive.

Definition app_getter (w : Z) (u : Z) : list Z * completion JS.value :=
  if decide (w = 2%Z) then ([11%Z], Return (VObj 0))
  else if decide (w = 0%Z) then ([14%Z], Return (VStr "title"))
  else ([10%Z], Return (VNum u)).

Definition no_deep_reads (v : JS.value) (u : Z) : list Z * completion unit :=
  ([], Return tt).

Definition throwing_accessor (v : JS.value) (u : Z) : list Z * completion unit :=
  ([12%Z], Throw (VStr "accessor failed")).

Definition bump (w : Z) (newValue oldValue : JS.value) (u : Z)
  : Z * list Z * completion unit :=
  ((u + 1)%Z, [10%Z], Return tt).

Definition no_hook (w : Z) (u : Z) : Z * list Z * completion unit :=
  (u, [], Return tt).

Definition watcher1 : Watcher :=
  mkWatcher 0 false true false false false false true [] [] ∅ ∅ VUndef.

Definition watcher2 : Watcher :=
  mkWatcher 0 true true false false false false true [13%Z] [] {[13%Z]} ∅ VUndef.

Definition idle : Scheduler := mkSched [] ∅ ∅ false false 0 [].

(** Watcher 1 queued and the flush requested. *)
Definition pending1 : Scheduler :=
  mkSched [1%Z] {[1%Z := VBool true]} ∅ true false 0 [].

(** Watchers 1 and 0 queued, in that order, and the flush requested. *)
Definition pending10 : Scheduler :=
  mkSched [1%Z; 0%Z] {[0%Z := VBool true; 1%Z := VBool true]} ∅ true false 0 [].

(** In the middle of a flush: entry 0 is running, 3 and 5 are to come. *)
Definition flushing135 : Scheduler :=
  mkSched [1%Z; 3%Z; 5%Z] {[1%Z := VNull; 3%Z := VBool true; 5%Z := VBool true]}
          ∅ true true 0 [SRun 1%Z].

Definition world (c : Scheduler) : World Z :=
  mkWorld 0%Z {[1%Z := watcher1; 2%Z := watcher2]} {[0%nat := mkVm false [1%Z; 2%Z]]}
          {[13%Z := [2%Z]]} [] c [].

(** Watcher 0 after its first evaluation: it holds the title and subscribes
    to Dep 14. *)
Definition title_watcher : Watcher :=
  mkWatcher 0 false true false false false false true [14%Z] [] {[14%Z]} ∅ (VStr "title").

(** Watcher 1 after an evaluation that found the counter at [n]: it
    subscribes to Dep 10. *)
Definition counting_watcher (n : Z) : Watcher :=
  mkWatcher 0 false true false false false false true [10%Z] [] {[10%Z]} ∅ (VNum n).

(** The application after the counter, first seen at 0, has been set to 1. *)
Definition counting (c : Scheduler) : World Z :=
  mkWorld 1%Z {[0%Z := title_watcher; 1%Z := counting_watcher 0]}
          {[0%nat := mkVm false [0%Z; 1%Z]]} {[10%Z := [1%Z]; 14%Z := [0%Z]]} [] c [].

(** Between two runs: watcher 0 holds the title, watcher 1 holds a count
    that is no longer the counter's, and is the one subscriber of Dep 10. *)
Definition counts (s : World Z) : Prop :=
  watchers s !! 0%Z = Some title_watcher
  /\ exists n, watchers s !! 1%Z = Some (counting_watcher n)
               /\ n <> app s /\ subs_of 10 s = [1%Z].

End Scenario.

(** ** What the diff is measured by *)

Module DiffSpec.
Import JS VDom.

(** From [d] to [d'] the operations [l] were issued, in that order. *)
Definition issued (d d' : diff) (l : list op) : Prop := ops d' = ops d ++ l.

(** The patches of the pairs (old child [i], new child [i]) for the old
    children [olds], from index [i] on. *)
Fixpoint patches_from (i : Z) (olds : list VNode) : list op :=
  match olds with
  | [] => []
  | o :: t => Patch (elm o) i :: patches_from (i + 1) t
  end.

(** From [d] to [d'] nothing was moved. *)
Definition unmoved (d d' : diff) : Prop :=
  exists l, issued d d' l /\ Forall (fun o => isMove o = false) l.

End DiffSpec.

Module KeyMapSpec.
Import JS VDom.
Local Open Scope Z_scope.

(** Child [j] of [children] carries a key that reads [s] as a property
    name. *)
Definition keyed_at (children : list (option VNode)) (s : string) (j : Z) : Prop :=
  exists c, mjoin (at_index children j) = Some c
            /\ isDef (key c) = true /\ toPropertyKey (key c) = s.

(** [j] is the last index from [lo] to [hi] whose child is keyed [s]. *)
Definition last_keyed (children : list (option VNode)) (lo hi : Z) (s : string) (j : Z)
  : Prop :=
  lo <= j <= hi /\ keyed_at children s j
  /\ forall j', j < j' <= hi -> ~ keyed_at children s j'.

End KeyMapSpec.

(** ** More of the watcher *)

Module WatcherMethods.
Import JS Reactive.

Section Methods.

Variable U : Type.
Variable getter : Z -> U -> list Z * completion JS.value.
Variable deepReads : JS.value -> U -> list Z * completion unit.

(** [evaluate()], called by the getter of a computed property:
    [this.value = this.get(); this.dirty = false]. *)
Definition evaluate (w : Z) (s : World U) : World U * completion unit :=
  let '(s1, r) := get getter deepReads w s in
  match r with
  | Throw e => (s1, Throw e)
  | Return v =>
      match watchers s1 !! w with
      | None => (s1, Throw TypeError)
      | Some x => (set_watcher w (with_dirty (with_value x v) false) s1, Return tt)
      end
  end.

(** [depend()]: [let i = this.deps.length; while (i--) this.deps[i].depend()],
    every Dep of the watcher registers with the watcher being evaluated. *)
Definition depend (w : Z) (s : World U) : World U * completion unit :=
  match watchers s !! w with
  | None => (s, Throw TypeError)
  | Some x => (foldl Reactive.depend s (reverse (deps x)), Return tt)
  end.

(** What [if (this.deep) traverse(value)] reads for the watcher [x], [r]
    being what the getter returned or threw: [value] is [undefined] after a
    throw, and [traverse] enters objects only. *)
Definition traversed (x : Watcher) (r : completion JS.value) (u : U)
  : list Z * completion unit :=
  if deep x then
    match r with
    | Return v => if isObject v then deepReads v u else ([], Return tt)
    | Throw _ => ([], Return tt)
    end
  else ([], Return tt).

(** Watcher [w] is a subscriber of exactly the Deps [ds]. *)
Definition subscribed_to (w : Z) (s : World U) (ds : gset Z) : Prop :=
  forall d, w ∈ subs_of d s <-> d ∈ ds.

(** A watcher between two evaluations: nothing is being collected, and
    [deps] and [depIds] hold the same Deps. *)
Definition settled (x : Watcher) : Prop :=
  newDeps x = [] /\ newDepIds x = ∅ /\ forall d, d ∈ deps x <-> d ∈ depIds x.

End Methods.

Arguments evaluate {U} _ _ _ _.
Arguments depend {U} _ _.
Arguments subscribed_to {U} _ _ _.
Arguments traversed {U} _ _ _ _.

End WatcherMethods.

(** ** What the scheduler keeps *)

Module SchedulerSpec.
Import JS Reactive.

(** Before a flush: no watcher is queued twice, the queued watchers are
    those marked in [has], and a flush has been requested once something is
    queued. *)
Definition batched (c : Scheduler) : Prop :=
  flushing c = false
  /\ NoDup (queue c)
  /\ (forall id, id ∈ queue c <-> has_null c id = false)
  /\ (waiting c = false -> queue c = []).

(** What the flush records for one turn on the watcher [v]: its [before]
    hook, when it has one, and its run. *)
Definition turn (hooked : Z -> bool) (v : Z) : list sched_event :=
  (if hooked v then [SBefore v] else []) ++ [SRun v].

End SchedulerSpec.

(** ** The deep traversal

    [src/core/observer/traverse.js]. *)

Module Traverse.
Import JS.

(** What reading a property does: the Deps its getter registers, in order,
    and the value it yields, or what it throws. A plain property, or an
    element of an array, registers nothing. *)
Record Prop_ := mkProp {
  reads : list Z;
  result : completion value
}.

(** An object as [_traverse] sees it. [__ob__] is [val.__ob__.dep.id] when
    the object is observed. [props] are the elements of an array, or the
    properties named by [Object.keys(val)], in order. *)
Record Obj := mkObj {
  isFrozen : bool;           (* Object.isFrozen(val) *)
  isVNode : bool;            (* val instanceof VNode *)
  __ob__ : option Z;
  props : list Prop_
}.

Abbreviation Heap := (gmap nat Obj).

(** What a traversal leaves: the ids marked as seen, the Deps registered,
    in order, and whether it returned or threw. *)
Definition outcome : Type := gset Z * list Z * completion unit.

Section Walk.

Variable h : Heap.

(** [while (i--) _traverse(val[i], seen)], over the properties still to be
    read, the last one first; [rec] is [_traverse]. *)
Fixpoint each_prop (rec : value -> gset Z -> option outcome)
    (todo : list Prop_) (seen : gset Z) (acc : list Z) : option outcome :=
  match todo with
  | [] => Some (seen, acc, Return tt)
  | p :: todo' =>
      match result p with
      | Throw e => Some (seen, acc ++ reads p, Throw e)
      | Return v =>
          match rec v seen with
          | None => None
          | Some (seen', rs, Throw e) => Some (seen', acc ++ reads p ++ rs, Throw e)
          | Some (seen', rs, Return _) => each_prop rec todo' seen' (acc ++ reads p ++ rs)
          end
      end
  end.

(** [_traverse(val, seen)]. [fuel] bounds the depth of the recursion; the
    answer is [None] when it does not suffice. A reference to no object of
    the heap stands for an object without properties. *)
Fixpoint _traverse (fuel : nat) (val : value) (seen : gset Z) : option outcome :=
  match fuel with
  | O => None
  | S f =>
      match val with
      | VObj r =>
          match h !! r with
          | None => Some (seen, [], Return tt)
          | Some o =>
              if isFrozen o || isVNode o then Some (seen, [], Return tt)
              else
                match __ob__ o with
                | Some depId =>
                    if decide (depId ∈ seen) then Some (seen, [], Return tt)
                    else each_prop (_traverse f) (reverse (props o)) ({[depId]} ∪ seen) []
                | None => each_prop (_traverse f) (reverse (props o)) seen []
                end
          end
      | _ => Some (seen, [], Return tt)
      end
  end.

(** [traverse(val)]: [_traverse(val, seenObjects); seenObjects.clear()],
    where [seenObjects] is a variable of the module: it is found as the
    last call left it. *)
Definition traverse (fuel : nat) (val : value) (seenObjects : gset Z) : option outcome :=
  match _traverse fuel val seenObjects with
  | None => None
  | Some (seen', rs, Return _) => Some (∅, rs, Return tt)
  | Some (seen', rs, Throw e) => Some (seen', rs, Throw e)
  end.

(** The ids of the observed objects of the heap. *)
Definition ids : gset Z :=
  list_to_set (omap (fun ro => __ob__ ro.2) (map_to_list h)).

(** Every object that is traversed into is observed. *)
Definition observed : Prop :=
  forall r o, h !! r = Some o -> isFrozen o = false -> isVNode o = false ->
              is_Some (__ob__ o).

End Walk.

End Traverse.

(** ** Callers in the component's life cycle

    [src/core/instance/lifecycle.js]: [callHook] and the statements of
    [$destroy] that deal with the watchers. *)

Module Lifecycle.
Import JS Reactive.

Section Hooks.

Variable U : Type.
Variable production : bool.
Variable config_async : bool.
Variable call_run : Z -> M U unit.
Variable call_flush : M U unit.

(** What a hook handler does, step by step: it reads reactive properties
    (their Deps call [depend()]), or it writes, as a callback does. *)
Inductive act :=
  | Reads (ds : list Z)
  | Writes (code : U -> U * list Z * completion unit).

Definition perform (a : act) : M U unit :=
  match a with
  | Reads ds => modify (read_all ds)
  | Writes code => writes production config_async call_run call_flush code
  end.

(** Modelled from the spec: [invokeWithErrorHandling(handlers[i], vm, null,
    vm, info)], as for the callback of a user watcher above: errors "are
    caught and funneled to an external error handler". What went to
    [handleError] is returned here. *)
Definition invoke (handler : list act) : M U (option JS.value) := fun s =>
  match for_each perform handler s with
  | (s', Some (Return _)) => (s', Some (Return None))
  | (s', Some (Throw e)) => (s', Some (Return (Some e)))
  | (s', None) => (s', None)
  end.

Fixpoint invoke_all (handlers : list (list act)) : M U (list JS.value) :=
  match handlers with
  | [] => ret []
  | hd :: rest =>
      bindM (invoke hd) (fun e =>
      bindM (invoke_all rest) (fun es =>
      ret (match e with Some e' => e' :: es | None => es end)))
  end.

(** [callHook(vm, hook)] with [handlers = vm.$options[hook]]. The method
    [vm.$emit] belongs to [instance/events], which is not among the
    sources: the call [vm.$emit('hook:' + hook)] is the parameter
    [emit_hook].
    The result lists what went to [handleError]. *)
Definition callHook (handlers : list (list act)) (_hasHookEvent : bool)
    (emit_hook : M U unit) : M U (list JS.value) :=
  bindM (modify (pushTarget None)) (fun _ =>
  bindM (invoke_all handlers) (fun es =>
  bindM (if _hasHookEvent then emit_hook else ret tt) (fun _ =>
  bindM (modify popTarget) (fun _ => ret es)))).

(** A handler with its reads taken out. *)
Fixpoint blind (handler : list act) : list act :=
  match handler with
  | [] => []
  | Reads _ :: rest => blind rest
  | Writes code :: rest => Writes code :: blind rest
  end.

(** A computation that leaves the target stack as it found it. *)
Definition keeps_target {A} (m : M U A) : Prop :=
  forall s, targetStack (m s).1 = targetStack s.

(** [let i = vm._watchers.length; while (i--) vm._watchers[i].teardown()],
    for the component [v], from index [i] down. *)
Fixpoint teardown_from (v : nat) (i : nat) (s : World U) : World U * completion unit :=
  match i with
  | O => (s, Return tt)
  | S i' =>
      match vms s !! v with
      | None => (s, Throw TypeError)
      | Some c =>
          match _watchers c !! i' with
          | None => (s, Throw TypeError)
          | Some w =>
              match teardown w s with
              | (s', Return _) => teardown_from v i' s'
              | (s', Throw e) => (s', Throw e)
              end
          end
      end
  end.

(** The statements of [$destroy] that deal with the watchers of the
    component [v], whose render watcher, if it has one, is [_watcher]: from
    [vm._isBeingDestroyed = true] to the end of the loop over
    [vm._watchers]. What lies between them, the removal from the parent's
    list of children, acts on no watcher. *)
Definition destroy_watchers (v : nat) (_watcher : option Z) (s : World U)
  : World U * completion unit :=
  match vms s !! v with
  | None => (s, Throw TypeError)
  | Some c =>
      let s1 := set_vm v (mkVm true (_watchers c)) s in
      let '(s2, r) := match _watcher with
                      | Some w => teardown w s1
                      | None => (s1, Return tt)
                      end in
      match r with
      | Throw e => (s2, Throw e)
      | Return _ =>
          match vms s2 !! v with
          | None => (s2, Throw TypeError)
          | Some c2 => teardown_from v (length (_watchers c2)) s2
          end
      end
  end.

(** Watcher [w] of the component [v] is still to be torn down, or has
    been. *)
Definition pending (v : nat) (w : Z) (s : World U) : Prop :=
  exists x, watchers s !! w = Some x /\ vm x = v
            /\ (active x = true \/ forall d, d ∈ deps x -> w ∉ subs_of d s).

(** Watcher [w] of the component [v] is inactive and subscribes to none of
    its Deps. *)
Definition torn (v : nat) (w : Z) (s : World U) : Prop :=
  exists x, watchers s !! w = Some x /\ vm x = v /\ active x = false
            /\ forall d, d ∈ deps x -> w ∉ subs_of d s.

End Hooks.

Arguments Reads {U} _.
Arguments Writes {U} _.
Arguments perform {U} _ _ _ _ _.
Arguments invoke {U} _ _ _ _ _.
Arguments invoke_all {U} _ _ _ _ _.
Arguments callHook {U} _ _ _ _ _ _ _.
Arguments blind {U} _.
Arguments keeps_target {U A} _.
Arguments teardown_from {U} _ _ _.
Arguments destroy_watchers {U} _ _ _.
Arguments pending {U} _ _ _.
Arguments torn {U} _ _ _.

End Lifecycle.

(** ** What the keyed diff keeps true *)

Module KeyedSpec.
Import JS VDom.
Local Open Scope Z_scope.

(** The host nodes of the nodes [l], in order. *)
Definition elms (l : list VNode) : list nat := omap elm l.

(** The nodes still held by the slots [l]. *)
Definition present (l : list (option VNode)) : list VNode := omap id l.

Definition keyed_by_numbers (l : list VNode) : Prop :=
  Forall (fun n => exists k, key n = VNum k) l.

(** An old and a new child are the same node exactly when their keys are
    equal. *)
Definition told_apart_by_key
    (same : option VNode -> option VNode -> completion bool)
    (olds news : list VNode) : Prop :=
  Forall (fun o =>
    Forall (fun n => same (Some o) (Some n) = Return (bool_decide (key o = key n)))
           news) olds.

(** The new child [n] either took over the host node of the old child with
    its key, or no old child has its key and its host node was created
    (from [f0] on). *)
Definition placed (olds : list VNode) (f0 : nat) (n : VNode) : Prop :=
  (exists o, o ∈ olds /\ key o = key n /\ elm n = elm o)
  \/ ((key n ∉ key <$> olds) /\ exists e, elm n = Some e /\ (f0 <= e)%nat).

(** The key map answers for every new child still to be placed: with the
    index of the old child of its key between the cursors, or with nothing
    when there is none. *)
Definition map_ok (Wo : list (option VNode)) (Wn : list VNode) (d : diff)
    (lo hi : Z) (map : gmap string Z) : Prop :=
  Forall (fun n =>
    match map !! toPropertyKey (key n) with
    | Some i => exists o, lo <= i <= hi
                  /\ oldCh d !! Z.to_nat i = Some (Some o) /\ key o = key n
    | None => forall o, o ∈ present Wo -> key o <> key n
    end) Wn.

(** What holds at every turn of the loop: [Lo], [Wo], [Ro] are the old
    slots before, between and after the old cursors, [Pn], [Wn], [Sn] the
    new children before, between and after the new cursors. *)
Record inv (olds news : list VNode) (f0 : nat)
    (Lo Wo Ro : list (option VNode)) (Pn Wn Sn : list VNode)
    (c : cursors) (d : diff) : Prop := mkInv {
  inv_old : oldCh d = Lo ++ Wo ++ Ro;
  inv_new : newCh d = Pn ++ Wn ++ Sn;
  inv_osi : oldStartIdx c = Z.of_nat (length Lo);
  inv_oei : oldEndIdx c = Z.of_nat (length Lo) + Z.of_nat (length Wo) - 1;
  inv_nsi : newStartIdx c = Z.of_nat (length Pn);
  inv_nei : newEndIdx c = Z.of_nat (length Pn) + Z.of_nat (length Wn) - 1;
  inv_osv : oldStartVnode c = old_at d (oldStartIdx c);
  inv_oev : oldEndVnode c = old_at d (oldEndIdx c);
  inv_nsv : Wn <> [] -> newStartVnode c = new_at d (newStartIdx c);
  inv_nev : Wn <> [] -> newEndVnode c = new_at d (newEndIdx c);
  inv_host : host d = elms Pn ++ elms (present Wo) ++ elms Sn;
  inv_elm_P : Forall (fun n => is_Some (elm n)) Pn;
  inv_elm_W : Forall (fun n => is_Some (elm n)) (present Wo);
  inv_elm_S : Forall (fun n => is_Some (elm n)) Sn;
  inv_nodup : NoDup (host d);
  inv_bound : Forall (fun e => (e < fresh d)%nat) (host d);
  inv_fresh : (f0 <= fresh d)%nat;
  inv_from_old : Forall (fun o => o ∈ olds) (present Wo);
  inv_from_new : Forall (fun n => n ∈ news) Wn;
  inv_keys_W : NoDup (key <$> present Wo);
  inv_keys_new : key <$> (Pn ++ Wn ++ Sn) = key <$> news;
  inv_account : Forall (fun o => o ∈ present Wo \/ key o ∈ key <$> (Pn ++ Sn)) olds;
  inv_placed : Forall (placed olds f0) (Pn ++ Sn);
  inv_map : match oldKeyToIdx c with
            | None => Forall is_Some Wo
            | Some m => map_ok Wo Wn d (oldStartIdx c) (oldEndIdx c) m
            end
}.

End KeyedSpec.

(** ** More of the small application, and three heaps *)

Module Cases.
Import JS Reactive Scenario Traverse.
Local Open Scope Z_scope.

(** The small application at rest: the counter is 1 and watcher 1 holds
    it. *)
Definition at_rest (c : Scheduler) : World Z :=
  mkWorld 1 {[0 := title_watcher; 1 := counting_watcher 1]}
          {[0%nat := mkVm false [0; 1]]} {[10 := [1]; 14 := [0]]} [] c [].

(** Between two runs at rest: watcher 0 holds the title and watcher 1 the
    counter as it is. *)
Definition rests (s : World Z) : Prop :=
  watchers s !! 0 = Some title_watcher
  /\ watchers s !! 1 = Some (counting_watcher (app s)).

(** A watcher of the counter that is not a user watcher and has a [before]
    hook, after an evaluation that found the counter at [n]. *)
Definition hooked_watcher (n : Z) : Watcher :=
  mkWatcher 0 false false false false true false true [10] [] {[10]} ∅ (VNum n).

(** The application with this watcher for the only one, after the counter,
    first seen at 0, has been set to 1. *)
Definition hooked_counting (c : Scheduler) : World Z :=
  mkWorld 1 {[1 := hooked_watcher 0]} {[0%nat := mkVm false [1]]} {[10 := [1]]} [] c [].

(** Between two runs: the watcher holds a count that is no longer the
    counter's, and is the one subscriber of Dep 10. *)
Definition counts_hooked (s : World Z) : Prop :=
  exists n, watchers s !! 1 = Some (hooked_watcher n)
            /\ n <> app s /\ subs_of 10 s = [1].

(** A render watcher, which is not a user watcher and has a [before] hook,
    and a render function that reads Dep 14 and throws. *)
Definition render_watcher : Watcher :=
  mkWatcher 0 false false false false true false true [14] [] {[14]} ∅ VUndef.

Definition failing_getter (w : Z) (u : Z) : list Z * completion JS.value :=
  ([14], Throw (VStr "render failed")).

(** Watcher 0 queued and the flush requested. *)
Definition pending0 : Scheduler :=
  mkSched [0] {[0 := VBool true]} ∅ true false 0 [].

Definition broken (c : Scheduler) : World Z :=
  mkWorld 0 {[0 := render_watcher]} {[0%nat := mkVm false [0]]} {[14 := [0]]} [] c [].

(** The watcher of a computed property, lazy and dirty, before its first
    evaluation. *)
Definition computed_watcher : Watcher :=
  mkWatcher 0 false false true false false true true [] [] ∅ ∅ VUndef.

Definition computing : World Z :=
  mkWorld 0 {[0 := computed_watcher]} {[0%nat := mkVm false [0]]} ∅ [] idle [].

(** Two observed objects that hold each other. *)
Definition ring : Heap :=
  {[0%nat := mkObj false false (Some 20) [mkProp [21] (Return (VObj 1))];
    1%nat := mkObj false false (Some 22) [mkProp [23] (Return (VObj 0))]]}.

(** An observed object one of whose accessors throws. *)
Definition trap : Heap :=
  {[0%nat := mkObj false false (Some 20)
               [mkProp [21] (Return (VNum 1));
                mkProp [24] (Throw (VStr "accessor failed"))]]}.

(** An object that is not observed and holds itself. *)
Definition plain_ring : Heap :=
  {[0%nat := mkObj false false None
               [mkProp [] (Return (VObj 0)); mkProp [] (Return (VNum 1))]]}.

End Cases.

(** ** What the deep traversal reaches *)

Module TraverseSpec.
Import JS Traverse.

Section Reach.

Variable h : Heap.

(** Object [a] can be entered and one of its properties yields object
    [c]. *)
Definition child (a c : nat) : Prop :=
  exists o p, h !! a = Some o /\ isFrozen o = false /\ isVNode o = false
              /\ p ∈ props o /\ result p = Return (VObj c).

(** [x] is reached from [r] through properties of objects that can be
    entered. *)
Inductive reaches : nat -> nat -> Prop :=
  | reaches_here r : reaches r r
  | reaches_step r c x : child r c -> reaches c x -> reaches r x.

(** Object [r] can be entered and is observed, with the id [id]. *)
Definition markable (r : nat) (id : Z) : Prop :=
  exists o, h !! r = Some o /\ isFrozen o = false /\ isVNode o = false
            /\ __ob__ o = Some id.

(** The id of [r] is among the marks [seen]. *)
Definition marked (seen : gset Z) (r : nat) : Prop :=
  exists id, markable r id /\ id ∈ seen.

(** A path of [m] steps from [a] to [b] on which no object is marked. *)
Inductive wpath (seen : gset Z) : nat -> nat -> nat -> Prop :=
  | wpath_here a : ~ marked seen a -> wpath seen 0 a a
  | wpath_step m a c b :
      ~ marked seen a -> child a c -> wpath seen m c b -> wpath seen (S m) a b.

(** A path of [m] steps from [y] to [x] on which no object after [y] is
    marked. *)
Definition tail_path (seen : gset Z) (m : nat) (y x : nat) : Prop :=
  (m = 0%nat /\ x = y)
  \/ exists c m', m = S m' /\ child y c /\ wpath seen m' c x.

(** No two objects are observed under the same id. *)
Definition one_id_each : Prop :=
  forall r1 r2 id, markable r1 id -> markable r2 id -> r1 = r2.

(** Every property of [x] has been read, the Deps it registers being among
    [rs], and [x] is marked if it is observed. *)
Definition covered (rs : list Z) (seen : gset Z) (x : nat) : Prop :=
  forall o, h !! x = Some o -> isFrozen o = false -> isVNode o = false ->
    (forall p d, p ∈ props o -> d ∈ reads p -> d ∈ rs)
    /\ (forall id, __ob__ o = Some id -> id ∈ seen).

(** The walk over the properties [todo], each read and its value
    traversed, from the marks [seen] to the marks [seen'], reading [rs]. *)
Inductive ran (rec : value -> gset Z -> option outcome)
  : list Prop_ -> gset Z -> gset Z -> list Z -> Prop :=
  | ran_nil seen : ran rec [] seen seen []
  | ran_cons p todo v seen s1 rs1 seen' rs :
      result p = Return v ->
      rec v seen = Some (s1, rs1, Return tt) ->
      ran rec todo s1 seen' rs ->
      ran rec (p :: todo) seen seen' (reads p ++ rs1 ++ rs).

(** With a depth [f] of recursion, a call of [_traverse] that returns covers
    what lies at the end of a path of [m] steps none of whose objects was
    marked when the call began. *)
Definition covers_paths (f m : nat) : Prop :=
  forall r seen seen' rs x,
    _traverse h f (VObj r) seen = Some (seen', rs, Return tt) ->
    wpath seen m r x -> covered rs seen' x.

(** And it covers what lies [m] steps behind an object that it has marked,
    when no object in between is marked at its end. *)
Definition covers_marks (f m : nat) : Prop :=
  forall v seen seen' rs y x,
    _traverse h f v seen = Some (seen', rs, Return tt) ->
    ~ marked seen y -> marked seen' y ->
    tail_path seen' m y x -> covered rs seen' x.

End Reach.

End TraverseSpec.

(** * Properties *)

Module JSFacts.
Import JS.

Lemma strict_eq_true a b : strict_eq a b = true <-> identical a b.
Proof.
  unfold strict_eq, identical. destruct a; try rewrite bool_decide_eq_true;
    try (split; [intros H; split; [exact H | discriminate] | by intros [H _]]).
  split; [discriminate | by intros [_ H]].
Qed.

Lemma strict_eq_false a b : strict_eq a b = false <-> a <> b \/ a = VNaN.
Proof.
  destruct (strict_eq a b) eqn:H.
  - apply strict_eq_true in H as [H1 H2]. split; [discriminate | tauto].
  - split; [intros _ | done].
    destruct (decide (a = VNaN)) as [?|Hn]; [by right | left].
    intros Heq. enough (strict_eq a b = true) by congruence.
    by apply strict_eq_true.
Qed.

Lemma strict_eq_ne a b : a <> b -> strict_eq a b = false.
Proof. intros H. apply strict_eq_false. by left. Qed.

Lemma strict_eq_refl a : a <> VNaN -> strict_eq a a = true.
Proof. intros H. by apply strict_eq_true. Qed.

Lemma strict_eq_NaN_r a : strict_eq a VNaN = false.
Proof. apply strict_eq_false. destruct (decide (a = VNaN)); [by right | by left]. Qed.

Lemma strict_eq_sym a b : strict_eq a b = strict_eq b a.
Proof.
  destruct (strict_eq b a) eqn:H.
  - apply strict_eq_true in H as [<- H]. by apply strict_eq_refl.
  - apply strict_eq_false in H as [H| ->]; [by apply strict_eq_ne | apply strict_eq_NaN_r].
Qed.

Lemma pretty_N_char_numeric x : pretty_N_char x ∈ numeric_start.
Proof.
  unfold pretty_N_char, numeric_start.
  repeat case_match; set_solver.
Qed.

Lemma pretty_N_go_numeric x : forall s,
  (0 < x)%N \/ starts_numeric s -> starts_numeric (pretty_N_go x s).
Proof.
  induction (N.lt_wf_0 x) as [x _ IH]; intros s Hs.
  assert (x = 0 \/ 0 < x)%N as [->|Hx] by lia.
  - rewrite pretty_N_go_0. destruct Hs as [Hs|Hs]; [lia | done].
  - rewrite pretty_N_go_step by done. apply IH; [by apply N.div_lt|].
    right. eexists. split; [reflexivity | apply pretty_N_char_numeric].
Qed.

(** A number, read as a property name, begins with a digit or a sign. *)
Lemma pretty_Z_numeric (n : Z) : starts_numeric (pretty n).
Proof.
  destruct n as [|x|x].
  - exists "0"%char. split; [reflexivity | set_solver].
  - change (pretty (Z.pos x)) with (pretty (N.pos x)). unfold pretty, pretty_N.
    rewrite decide_False by done. apply pretty_N_go_numeric. left. lia.
  - exists "-"%char. split; [reflexivity | set_solver].
Qed.

(** So it is no name of [Object.prototype]. *)
Lemma pretty_Z_not_inherited (n : Z) : pretty n ∉ Object_prototype.
Proof.
  intros Hin. destruct (pretty_Z_numeric n) as (c & Hc & Hn).
  unfold Object_prototype in Hin.
  repeat (apply elem_of_cons in Hin as [Hin|Hin];
          [rewrite Hin in Hc; injection Hc as <-; set_solver|]).
  by apply elem_of_nil in Hin.
Qed.

Lemma pretty_Z_not_proto (n : Z) : pretty n <> "__proto__".
Proof.
  intros H. apply (pretty_Z_not_inherited n). rewrite H. set_solver.
Qed.

(** Under a numeric key the plain object is the finite map of its own
    properties. *)
Lemma set_prop_number map (n i : Z) : set_prop map (pretty n) i = <[pretty n := i]> map.
Proof. unfold set_prop. rewrite decide_False; [done | apply pretty_Z_not_proto]. Qed.

Lemma get_prop_number map (n : Z) : get_prop map (pretty n) = found (map !! pretty n).
Proof.
  unfold get_prop. destruct (map !! pretty n); [done|].
  rewrite decide_False; [done | apply pretty_Z_not_inherited].
Qed.

End JSFacts.

Module VDomFacts.
Import JS VDom JSFacts.

Section Sameness.

Variable isTextInputType : value -> bool.
Variable factoryError : nat -> value.

Local Abbreviation same := (sameVnode isTextInputType factoryError).

Lemma sameInputType_spec a b :
  sameInputType isTextInputType a b = true <->
  (tag a = Some "input" ->
     identical (inputType a) (inputType b)
     \/ (isTextInputType (inputType a) = true /\ isTextInputType (inputType b) = true)).
Proof.
  unfold sameInputType. case_bool_decide as Ht; simpl.
  - rewrite orb_true_iff, andb_true_iff, strict_eq_true. tauto.
  - split; [intros _ H; contradiction | reflexivity].
Qed.

(** Nodes with different keys are never the same node. *)
Lemma sameVnode_key_ne a b :
  key a <> key b -> same (Some a) (Some b) = Return false.
Proof.
  intros Hk. unfold sameVnode. rewrite strict_eq_ne by exact Hk. reflexivity.
Qed.

(** A consumed slot cannot be compared. *)
Lemma sameVnode_undefined_l b : same None b = Throw TypeError.
Proof. reflexivity. Qed.

Lemma sameVnode_true_iff a b :
  same (Some a) (Some b) = Return true <->
  sameness isTextInputType factoryError a b.
Proof.
  unfold sameVnode, sameness.
  destruct (strict_eq (key a) (key b)) eqn:Hk; simpl.
  2:{ split; [discriminate|]. intros [Hi _]. apply strict_eq_true in Hi. congruence. }
  apply strict_eq_true in Hk.
  case_bool_decide as Hf; simpl.
  2:{ split; [discriminate | tauto]. }
  destruct (bool_decide (tag a = tag b) && bool_decide (isComment a = isComment b)
            && bool_decide (isDefO (data a) = isDefO (data b))
            && sameInputType isTextInputType a b) eqn:Hfirst.
  - repeat (apply andb_true_iff in Hfirst; destruct Hfirst as [Hfirst ?]).
    repeat match goal with H : bool_decide _ = true |- _ =>
      apply bool_decide_eq_true in H end.
    split; [intros _ | reflexivity].
    split; [done|]. split; [done|]. left.
    split; [done|]. split; [done|]. split; [done|]. by apply sameInputType_spec.
  - assert (Hno : ~ (tag a = tag b /\ isComment a = isComment b /\
                      isDefO (data a) = isDefO (data b) /\
                      (tag a = Some "input" ->
                         identical (inputType a) (inputType b)
                         \/ (isTextInputType (inputType a) = true
                             /\ isTextInputType (inputType b) = true)))).
    { intros (H1 & H2 & H3 & H4). apply sameInputType_spec in H4.
      rewrite !bool_decide_eq_true_2, H4 in Hfirst by done. discriminate. }
    destruct (isAsyncPlaceholder a).
    + destruct (asyncFactory b) as [f|].
      * split.
        -- intros [= Hu]. split; [done|]. split; [done|]. right. split; [done|].
           by exists f.
        -- intros (_ & _ & [H | (_ & f' & [= <-] & Hu)]); [tauto | by rewrite Hu].
      * split; [discriminate|].
        intros (_ & _ & [H | (_ & f' & Hn & _)]); [tauto | discriminate].
    + split; [discriminate|].
      intros (_ & _ & [H | (Hp & _)]); [tauto | discriminate].
Qed.

End Sameness.

Local Arguments sameVnode : simpl never.
Local Open Scope Z_scope.

Section Probes.

Variable isTextInputType : value -> bool.
Variable factoryError : nat -> value.

Local Abbreviation same := (sameVnode isTextInputType factoryError).
Local Abbreviation step := (VDom.step isTextInputType factoryError).
Local Abbreviation loop := (VDom.loop isTextInputType factoryError).

Lemma loop_S f cm c d :
  loop (S f) cm c d =
  if (oldStartIdx c <=? oldEndIdx c) && (newStartIdx c <=? newEndIdx c) then
    match step cm c d with
    | Return (c', d') => loop f cm c' d'
    | Throw e => Some (Throw e)
    end
  else Some (Return (c, d)).
Proof. reflexivity. Qed.

Lemma loop_exit f cm c d :
  (oldStartIdx c <=? oldEndIdx c) && (newStartIdx c <=? newEndIdx c) = false ->
  loop f cm c d = Some (Return (c, d)).
Proof. intros H. destruct f; simpl; rewrite H; reflexivity. Qed.

(** Old start and new start are the same node: patch, both start cursors
    advance. *)
Lemma step_start_start cm osi nsi oei nei o1 o2 nsv nev k2i d :
  same (Some o1) nsv = Return true ->
  step cm (mkCur osi nsi oei nei (Some o1) (Some o2) nsv nev k2i) d =
  let d1 := patchVnode o1 nsi d in
  Return (mkCur (osi + 1) (nsi + 1) oei nei (old_at d1 (osi + 1)) (Some o2)
                (new_at d1 (nsi + 1)) nev k2i, d1).
Proof. intros H. unfold VDom.step. simpl. rewrite H. reflexivity. Qed.

(** Old end and new end are the same node: patch, both end cursors
    retreat. *)
Lemma step_end_end cm osi nsi oei nei o1 o2 nsv nev k2i d :
  same (Some o1) nsv = Return false ->
  same (Some o2) nev = Return true ->
  step cm (mkCur osi nsi oei nei (Some o1) (Some o2) nsv nev k2i) d =
  let d1 := patchVnode o2 nei d in
  Return (mkCur osi nsi (oei - 1) (nei - 1) (Some o1) (old_at d1 (oei - 1))
                nsv (new_at d1 (nei - 1)) k2i, d1).
Proof.
  intros H1 H2. unfold VDom.step. simpl. rewrite H1. simpl. rewrite H2. reflexivity.
Qed.

(** Old end and new start are the same node: patch, and the host node of
    the old end is moved before that of the old start. *)
Lemma step_end_start cm osi nsi oei nei o1 o2 nsv nev k2i d :
  same (Some o1) nsv = Return false ->
  same (Some o2) nev = Return false ->
  same (Some o1) nev = Return false ->
  same (Some o2) nsv = Return true ->
  step cm (mkCur osi nsi oei nei (Some o1) (Some o2) nsv nev k2i) d =
  d2 ← move cm (elm o2) (elm o1) (patchVnode o2 nsi d);
  Return (mkCur osi (nsi + 1) (oei - 1) nei (Some o1) (old_at d2 (oei - 1))
                (new_at d2 (nsi + 1)) nev k2i, d2).
Proof.
  intros H1 H2 H3 H4. unfold VDom.step. simpl.
  rewrite H1. simpl. rewrite H2. simpl. rewrite H3. simpl. rewrite H4. reflexivity.
Qed.

(** [findIdxInOld] answers with an index it has inspected: one from [start]
    up to, but not including, [end]. *)
Lemma findIdxInOld_from_range n node oldCh i j :
  findIdxInOld_from isTextInputType factoryError n node oldCh i = Return (Some j) ->
  i <= j < i + Z.of_nat n.
Proof.
  revert i. induction n as [|n IH]; intros i; simpl; [discriminate|].
  destruct (mjoin (at_index oldCh i)) as [c|].
  - destruct (same node (Some c)) as [[|]|e]; simpl.
    + intros [= <-]. lia.
    + intros H. apply IH in H. lia.
    + discriminate.
  - intros H. apply IH in H. lia.
Qed.

Lemma findIdxInOld_range node oldCh start end_ j :
  findIdxInOld isTextInputType factoryError node oldCh start end_ = Return (Some j) ->
  start <= j < end_.
Proof.
  unfold findIdxInOld. intros H. apply findIdxInOld_from_range in H. lia.
Qed.

Lemma at_index_insert_ne {A} (l : list A) (i j : Z) (x : A) :
  i <> j -> 0 <= j -> at_index (<[Z.to_nat j := x]> l) i = at_index l i.
Proof.
  intros Hne Hj. unfold at_index. destruct (i <? 0) eqn:Hi; [reflexivity|].
  apply Z.ltb_ge in Hi. apply list_lookup_insert_ne. lia.
Qed.

(** What sits in the slot [end] has no part in the answer. *)
Lemma findIdxInOld_from_blind n node oldCh i e x :
  0 <= e -> i + Z.of_nat n <= e ->
  findIdxInOld_from isTextInputType factoryError n node (<[Z.to_nat e := x]> oldCh) i
  = findIdxInOld_from isTextInputType factoryError n node oldCh i.
Proof.
  revert i. induction n as [|n IH]; intros i He Hn; simpl; [reflexivity|].
  rewrite at_index_insert_ne by lia.
  destruct (mjoin (at_index oldCh i)) as [c|].
  - destruct (same node (Some c)) as [[|]|err]; simpl; try reflexivity.
    apply IH; lia.
  - apply IH; lia.
Qed.

Lemma findIdxInOld_blind node oldCh start end_ x :
  0 <= end_ ->
  findIdxInOld isTextInputType factoryError node (<[Z.to_nat end_ := x]> oldCh) start end_
  = findIdxInOld isTextInputType factoryError node oldCh start end_.
Proof.
  intros He. unfold findIdxInOld.
  destruct (Z.le_gt_cases start end_).
  - apply findIdxInOld_from_blind; lia.
  - replace (Z.to_nat (end_ - start)) with 0%nat by lia. reflexivity.
Qed.

(** A search that inspects one index more answers the same, unless nothing
    was found: then the slot at that index decides. *)
Lemma findIdxInOld_from_S n : forall node oldCh i,
  findIdxInOld_from isTextInputType factoryError (S n) node oldCh i =
  match findIdxInOld_from isTextInputType factoryError n node oldCh i with
  | Return None =>
      match mjoin (at_index oldCh (i + Z.of_nat n)) with
      | Some c =>
          s ← same node (Some c);
          Return (if s : bool then Some (i + Z.of_nat n) else None)
      | None => Return None
      end
  | r => r
  end.
Proof.
  induction n as [|n IH]; intros node oldCh i.
  - simpl. rewrite Z.add_0_r.
    destruct (mjoin (at_index oldCh i)) as [c|]; [|done].
    by destruct (same node (Some c)) as [[|]|e].
  - change (findIdxInOld_from isTextInputType factoryError (S (S n)) node oldCh i)
      with (match mjoin (at_index oldCh i) with
            | Some c =>
                s ← same node (Some c);
                if s : bool then Return (Some i)
                else findIdxInOld_from isTextInputType factoryError (S n) node oldCh (i + 1)
            | None => findIdxInOld_from isTextInputType factoryError (S n) node oldCh (i + 1)
            end).
    rewrite IH. simpl.
    replace (i + 1 + Z.of_nat n) with (i + Z.pos (Pos.of_succ_nat n)) by lia.
    destruct (mjoin (at_index oldCh i)) as [c|]; [|done].
    by destruct (same node (Some c)) as [[|]|e].
Qed.

(** The search through the slot [end]. *)
Lemma findIdxInOld_through node oldCh start end_ :
  start <= end_ ->
  findIdxInOld isTextInputType factoryError node oldCh start (end_ + 1) =
  match findIdxInOld isTextInputType factoryError node oldCh start end_ with
  | Return None =>
      match mjoin (at_index oldCh end_) with
      | Some c => s ← same node (Some c); Return (if s : bool then Some end_ else None)
      | None => Return None
      end
  | r => r
  end.
Proof.
  intros Hle. unfold findIdxInOld.
  replace (Z.to_nat (end_ + 1 - start)) with (S (Z.to_nat (end_ - start))) by lia.
  rewrite findIdxInOld_from_S.
  by replace (start + Z.of_nat (Z.to_nat (end_ - start))) with end_ by lia.
Qed.

(** In the fallback the old child at the end cursor has been compared with
    the new start child and is not the same node. Had the search gone
    through its slot, the new start child would have been placed as it
    is. *)
Lemma reuse_or_create_through cm nsi nsv rr d start end_ r r' :
  start <= end_ ->
  same (old_at d end_) nsv = Return false ->
  findIdxInOld isTextInputType factoryError nsv (oldCh d) start end_ = Return r ->
  findIdxInOld isTextInputType factoryError nsv (oldCh d) start (end_ + 1) = Return r' ->
  reuse_or_create isTextInputType factoryError cm nsi nsv rr (found r') d
  = reuse_or_create isTextInputType factoryError cm nsi nsv rr (found r) d.
Proof.
  intros Hle Hp4 Hr. rewrite findIdxInOld_through by done. rewrite Hr.
  destruct r as [i|]; [by intros [= <-]|].
  unfold old_at in Hp4.
  destruct (mjoin (at_index (oldCh d) end_)) as [c|] eqn:Hc; [|by intros [= <-]].
  destruct (same nsv (Some c)) as [[|]|e]; simpl; [|by intros [= <-] | done].
  intros [= <-]. simpl. unfold old_at. rewrite Hc, Hp4. reflexivity.
Qed.

(** The fallback for a new start child without a key. *)
Lemma step_keyless cm osi nsi oei nei o1 o2 n1 nev k2i d m :
  same (Some o1) (Some n1) = Return false ->
  same (Some o2) nev = Return false ->
  same (Some o1) nev = Return false ->
  same (Some o2) (Some n1) = Return false ->
  match k2i with
  | Some m => Return m
  | None => createKeyToOldIdx (oldCh d) osi oei
  end = Return m ->
  isDef (key n1) = false ->
  step cm (mkCur osi nsi oei nei (Some o1) (Some o2) (Some n1) nev k2i) d =
  i ← findIdxInOld isTextInputType factoryError (Some n1) (oldCh d) osi oei;
  d2 ← reuse_or_create isTextInputType factoryError cm nsi (Some n1) (elm o1) (found i) d;
  Return (mkCur osi (nsi + 1) oei nei (Some o1) (Some o2) (new_at d2 (nsi + 1)) nev
                (Some m), d2).
Proof.
  intros H1 H2 H3 H4 Hm Hd. unfold VDom.step. simpl.
  rewrite H1. simpl. rewrite H2. simpl. rewrite H3. simpl. rewrite H4. simpl.
  rewrite Hm. simpl. rewrite Hd. simpl.
  by destruct (findIdxInOld _ _ _ _ _ _) as [[i|]|e].
Qed.

(** Had the search gone through the slot of the end cursor, and returned,
    the turn would be the same. *)
Lemma step_keyless_through cm osi nsi oei nei o1 o2 n1 nev k2i d m r' :
  same (Some o1) (Some n1) = Return false ->
  same (Some o2) nev = Return false ->
  same (Some o1) nev = Return false ->
  same (Some o2) (Some n1) = Return false ->
  match k2i with
  | Some m => Return m
  | None => createKeyToOldIdx (oldCh d) osi oei
  end = Return m ->
  isDef (key n1) = false ->
  old_at d oei = Some o2 ->
  osi <= oei ->
  findIdxInOld isTextInputType factoryError (Some n1) (oldCh d) osi (oei + 1) = Return r' ->
  step cm (mkCur osi nsi oei nei (Some o1) (Some o2) (Some n1) nev k2i) d =
  d2 ← reuse_or_create isTextInputType factoryError cm nsi (Some n1) (elm o1) (found r') d;
  Return (mkCur osi (nsi + 1) oei nei (Some o1) (Some o2) (new_at d2 (nsi + 1)) nev
                (Some m), d2).
Proof.
  intros H1 H2 H3 H4 Hm Hd Ho2 Hle Hthrough.
  rewrite (step_keyless _ _ _ _ _ _ _ _ _ _ _ m) by done.
  destruct (findIdxInOld isTextInputType factoryError (Some n1) (oldCh d) osi oei)
    as [r|e] eqn:Hr.
  2:{ rewrite findIdxInOld_through, Hr in Hthrough by done. discriminate. }
  simpl.
  rewrite (reuse_or_create_through cm nsi (Some n1) (elm o1) d osi oei r r'); try done.
  by rewrite Ho2.
Qed.

Lemma step_progress cm c d c' d' :
  step cm c d = Return (c', d') -> gap c' < gap c.
Proof.
  destruct c as [osi nsi oei nei osv oev nsv nev k2i]. unfold VDom.step, gap.
  unfold mbind, completion_bind.
  repeat (match goal with
          | |- context [match ?x with _ => _ end] => destruct x eqn:?
          | |- context [if ?x then _ else _] => destruct x eqn:?
          end; simpl; try discriminate);
  intros [= <- <-]; simpl; lia.
Qed.

(** A turn moves no cursor outwards. *)
Lemma step_inwards cm c d c' d' :
  step cm c d = Return (c', d') ->
  oldStartIdx c <= oldStartIdx c' /\ oldEndIdx c' <= oldEndIdx c
  /\ newStartIdx c <= newStartIdx c' /\ newEndIdx c' <= newEndIdx c.
Proof.
  destruct c as [osi nsi oei nei osv oev nsv nev k2i]. unfold VDom.step.
  unfold mbind, completion_bind.
  repeat (match goal with
          | |- context [match ?x with _ => _ end] => destruct x eqn:?
          | |- context [if ?x then _ else _] => destruct x eqn:?
          end; simpl; try discriminate);
  intros [= <- <-]; simpl; lia.
Qed.

Lemma loop_total fuel cm c d :
  gap c < Z.of_nat fuel -> loop fuel cm c d <> None.
Proof.
  revert c d. induction fuel as [|f IH]; intros c d Hg.
  - simpl.
    destruct ((oldStartIdx c <=? oldEndIdx c) && (newStartIdx c <=? newEndIdx c))
      eqn:Hc; [|discriminate].
    apply andb_true_iff in Hc as [H1 H2]. apply Z.leb_le in H1, H2.
    unfold gap in Hg. lia.
  - rewrite loop_S.
    destruct ((oldStartIdx c <=? oldEndIdx c) && (newStartIdx c <=? newEndIdx c))
      eqn:Hc; [|discriminate].
    destruct (step cm c d) as [[c' d']|e] eqn:Hs; [|discriminate].
    apply IH. apply step_progress in Hs. lia.
Qed.

(** The diff always comes to an end: the turns it is given suffice. *)
Lemma updateChildren_total removeOnly d :
  updateChildren isTextInputType factoryError removeOnly d <> None.
Proof.
  unfold updateChildren.
  destruct (VDom.loop _ _ _ _ _ _) as [[[c d']|e]|] eqn:Hl; try discriminate.
  exfalso. revert Hl. apply loop_total. unfold gap, init. simpl. lia.
Qed.

End Probes.

(** One turn of the loop: the test is evaluated, the step is rewritten by
    the lemma for its probe, and the step's result is computed. *)
Ltac run_step lem :=
  rewrite loop_S;
  match goal with |- context [(if ?b then _ else _)] =>
     let r := eval vm_compute in b in change b with r end;
  cbv beta iota;
  erewrite lem;
  [ match goal with |- context [match ?t with Return _ => _ | Throw _ => _ end] =>
      let r := eval vm_compute in t in change t with r end; cbv beta iota | .. ].

Ltac start_diff :=
  unfold updateChildren;
  match goal with |- context [init ?d] =>
    let r := eval vm_compute in (init d) in change (init d) with r end;
  match goal with |- context [VDom.loop _ _ ?n] =>
    let r := eval vm_compute in n in change n with r end.

Ltac finish_diff :=
  rewrite loop_exit by reflexivity;
  match goal with |- context [finish ?c ?d] =>
    let r := eval vm_compute in (finish c d) in change (finish c d) with r end.

(** Two [input]s of different text-like types are the same node. *)
Lemma sameVnode_text_number fe :
  sameVnode isTextInputType_web fe
    (Some (input_of_type "text" VUndef)) (Some (input_of_type "number" VUndef))
  = Return true.
Proof. reflexivity. Qed.

End VDomFacts.

(** C1, as the code has it. [sameVnode(a, b)] returns [true] exactly when
    the keys are equal ([===]), the async factories are the same object, and
    either the tags and comment flags are equal, the data bags are both
    present or both absent and, when the tag is [input], the two [type]
    values are equal ([===]) or both text-like; or [a] is an async
    placeholder and the factory of [b] has recorded no error. *)
Theorem C1_sameVnode_characterised
    (isTextInputType : JS.value -> bool) (factoryError : nat -> JS.value)
    (a b : VDom.VNode) :
  VDom.sameVnode isTextInputType factoryError (Some a) (Some b) = JS.Return true
  <-> VDom.sameness isTextInputType factoryError a b.
Proof. apply VDomFacts.sameVnode_true_iff. Qed.

(** C1, as stated, fails: an [input] of type [text] and one of type
    [number] are the same node although their [type]s differ. *)
Lemma C1_stated_sameness_fails :
  ~ (forall a b : VDom.VNode,
       VDom.sameVnode VDom.isTextInputType_web (fun _ => JS.VUndef) (Some a) (Some b)
       = JS.Return true
       <-> VDom.stated_sameness (fun _ => JS.VUndef) a b).
Proof.
  intros H.
  specialize (H (VDom.input_of_type "text" JS.VUndef)
                (VDom.input_of_type "number" JS.VUndef)).
  destruct H as [H _].
  specialize (H (VDomFacts.sameVnode_text_number _)).
  destruct H as (_ & _ & [(_ & _ & _ & Ht) | (Hp & _)]).
  - destruct (Ht eq_refl) as [Ht' _]. vm_compute in Ht'. discriminate.
  - discriminate.
Qed.

Module SchedulerFacts.
Import JS Reactive.
Local Open Scope Z_scope.

(** The backward scan stops at the last index that is not after [idx] or
    holds an id that is not greater than [id]; all it passes over is
    greater. *)
Lemma scan_back_spec (q : list Z) (idx id : Z) (n : nat) :
  (n <= length q)%nat ->
  let i := scan_back q idx id n in
  -1 <= i < Z.of_nat n
  /\ (forall (j : nat) x, i < Z.of_nat j -> (j < n)%nat -> q !! j = Some x ->
        id < x /\ idx < Z.of_nat j)
  /\ (0 <= idx < Z.of_nat n -> idx <= i)
  /\ (0 <= idx < i -> exists x, q !! Z.to_nat i = Some x /\ x <= id).
Proof.
  induction n as [|n IH]; intros Hn; simpl.
  - split; [lia|]. split; [intros; lia|]. split; intros; lia.
  - destruct (q !! n) as [x|] eqn:Hx.
    2:{ apply lookup_ge_None in Hx. lia. }
    destruct ((Z.of_nat n >? idx) && (x >? id)) eqn:Hc.
    + apply andb_true_iff in Hc as [H1 H2].
      rewrite Z.gtb_ltb in H1, H2. apply Z.ltb_lt in H1, H2.
      destruct (IH ltac:(lia)) as (Ha & Hb & Hc & Hd).
      split; [lia|]. split; [|split].
      * intros j y Hij Hj Hy. destruct (decide (j = n)) as [->|Hne].
        -- rewrite Hx in Hy. injection Hy as <-. lia.
        -- apply (Hb j y); [lia | lia | done].
      * intros Hi. lia.
      * exact Hd.
    + split; [lia|]. split; [|split].
      * intros; lia.
      * intros; lia.
      * intros Hlt. exists x. rewrite Nat2Z.id. split; [done|].
        apply andb_false_iff in Hc as [Hc|Hc];
          rewrite Z.gtb_ltb in Hc; apply Z.ltb_ge in Hc; lia.
Qed.

Lemma enqueue_has id c :
  has (enqueue id c) !! id = Some (VBool true)
  /\ forall j, j <> id -> has (enqueue id c) !! j = has c !! j.
Proof.
  unfold enqueue. destruct (negb (flushing c)); simpl.
  - split; [apply lookup_insert_eq | intros; by apply lookup_insert_ne].
  - split; [apply lookup_insert_eq | intros; by apply lookup_insert_ne].
Qed.

Lemma enqueue_idle id c :
  flushing c = false -> queue (enqueue id c) = queue c ++ [id].
Proof. intros Hf. unfold enqueue. rewrite Hf. reflexivity. Qed.

Lemma enqueue_flushing id c :
  flushing c = true -> 0 <= index c < Z.of_nat (length (queue c)) ->
  exists pos : nat,
    index c < Z.of_nat pos <= Z.of_nat (length (queue c))
    /\ queue (enqueue id c) = take pos (queue c) ++ id :: drop pos (queue c)
    /\ Forall (fun x => id < x) (drop pos (queue c))
    /\ (Z.of_nat pos = index c + 1
        \/ exists x, queue c !! (pos - 1)%nat = Some x /\ x <= id).
Proof.
  intros Hf Hi. unfold enqueue. rewrite Hf. simpl.
  destruct (scan_back_spec (queue c) (index c) id (length (queue c)) ltac:(lia))
    as (Ha & Hb & Hc & Hd).
  set (i := scan_back (queue c) (index c) id (length (queue c))) in *.
  specialize (Hc Hi).
  exists (Z.to_nat (i + 1)). split; [lia|]. split; [reflexivity|]. split.
  - apply Forall_forall. intros x Hx. apply list_elem_of_lookup in Hx as [k Hk].
    rewrite lookup_drop in Hk.
    apply (Hb (Z.to_nat (i + 1) + k)%nat x); [lia| |done].
    apply lookup_lt_Some in Hk. lia.
  - destruct (decide (i = index c)) as [->|Hne]; [left; lia|].
    right. destruct (Hd ltac:(lia)) as (x & Hx & Hle). exists x.
    split; [|done]. replace (Z.to_nat (i + 1) - 1)%nat with (Z.to_nat i) by lia. done.
Qed.

(** Putting [id] between what is not greater and what is greater keeps a
    sorted list sorted. *)
Lemma insert_sorted (rest : list Z) (k : nat) (id : Z) :
  StronglySorted Z.le rest ->
  Forall (fun x => id < x) (drop k rest) ->
  (k = 0%nat \/ exists x, rest !! (k - 1)%nat = Some x /\ x <= id) ->
  StronglySorted Z.le (take k rest ++ id :: drop k rest).
Proof.
  intros Hs Hgt Hle.
  rewrite <- (take_drop k rest) in Hs.
  apply StronglySorted_app in Hs as (Hx & Hl & Hr).
  apply StronglySorted_app. split; [|split; [done|]].
  - intros x1 x2 H1 H2.
    assert (x1 <= id) as Hx1.
    { destruct Hle as [->|(x & Hk & Hxid)]; [rewrite take_0 in H1; by inversion H1|].
      destruct k as [|k]; [rewrite take_0 in H1; by inversion H1|].
      replace (S k - 1)%nat with k in Hk by lia.
      rewrite (take_S_r _ _ _ Hk) in H1, Hl.
      apply elem_of_app in H1 as [H1|H1].
      - apply StronglySorted_app in Hl as (Hl & _ & _).
        specialize (Hl x1 x H1 ltac:(apply list_elem_of_singleton; reflexivity)). lia.
      - apply list_elem_of_singleton in H1 as ->. done. }
    apply elem_of_cons in H2 as [Heq|H2]; [by subst|].
    rewrite Forall_forall in Hgt. specialize (Hgt _ H2). lia.
  - apply StronglySorted_cons. split; [|done].
    eapply Forall_impl; [exact Hgt|]. simpl. intros; lia.
Qed.

(** Entries up to the running index stay where they are, and a sorted
    remainder stays sorted. *)
Lemma enqueue_flushing_frame id c :
  flushing c = true -> 0 <= index c < Z.of_nat (length (queue c)) ->
  take (Z.to_nat (index c) + 1) (queue (enqueue id c))
  = take (Z.to_nat (index c) + 1) (queue c)
  /\ (StronglySorted Z.le (drop (Z.to_nat (index c) + 1) (queue c)) ->
      StronglySorted Z.le (drop (Z.to_nat (index c) + 1) (queue (enqueue id c)))).
Proof.
  intros Hf Hi.
  destruct (enqueue_flushing id c Hf Hi) as (pos & Hpos & Hq & Hgt & Hle).
  rewrite Hq. set (n := (Z.to_nat (index c) + 1)%nat).
  assert (n <= pos)%nat as Hn by lia.
  assert (pos <= length (queue c))%nat as Hlen by lia.
  split.
  - rewrite take_app_le by (rewrite length_take; lia).
    rewrite take_take. f_equal. lia.
  - intros Hs.
    rewrite drop_app_le by (rewrite length_take; lia).
    replace (drop n (take pos (queue c)))
      with (take (pos - n) (drop n (queue c))).
    2:{ rewrite take_drop_commute. f_equal. f_equal. lia. }
    replace (drop pos (queue c)) with (drop (pos - n) (drop n (queue c))).
    2:{ rewrite drop_drop. f_equal. lia. }
    apply insert_sorted; [done| |].
    + rewrite drop_drop. replace (n + (pos - n))%nat with pos by lia. done.
    + destruct Hle as [Hp|(x & Hx & Hxid)]; [left; lia|].
      destruct (decide (pos = n)) as [->|Hne]; [left; lia|].
      right. exists x. split; [|done].
      rewrite lookup_drop. rewrite <- Hx. f_equal. lia.
Qed.

End SchedulerFacts.

Module WatcherFacts.
Import JS Reactive.
Local Open Scope Z_scope.

Section Evaluation.

Variable U : Type.
Variable getter : Z -> U -> list Z * completion JS.value.
Variable deepReads : JS.value -> U -> list Z * completion unit.

Implicit Types (s : World U) (w d : Z) (x : Watcher) (ni : gset Z) (l old : list Z).

Lemma same_config_refl x : same_config x x.
Proof. repeat split. Qed.

Lemma same_config_trans x y z : same_config x y -> same_config y z -> same_config x z.
Proof.
  unfold same_config. intros (?&?&?&?&?&?&?&?&?) (?&?&?&?&?&?&?&?&?).
  repeat split; congruence.
Qed.

Lemma evaluates_refl w s : evaluates w s s.
Proof.
  repeat split; try done.
  - intros x Hx. exists x. split; [done | apply same_config_refl].
  - exists []. split; [by rewrite app_nil_r | constructor].
Qed.

Lemma evaluates_trans w s1 s2 s3 :
  evaluates w s1 s2 -> evaluates w s2 s3 -> evaluates w s1 s3.
Proof.
  intros (Ha & Hv & Hc & Ho & Hw & l1 & Hl1 & Hf1) (Ha' & Hv' & Hc' & Ho' & Hw' & l2 & Hl2 & Hf2).
  split; [congruence|]. split; [congruence|]. split; [congruence|].
  split; [intros w' Hne; rewrite Ho', Ho; done|]. split.
  - intros x Hx. destruct (Hw x Hx) as (x' & Hx' & Hxx').
    destruct (Hw' x' Hx') as (x'' & Hx'' & Hxx''). exists x''.
    split; [done | by eapply same_config_trans].
  - exists (l1 ++ l2). split; [by rewrite Hl2, Hl1, app_assoc | by apply Forall_app].
Qed.

Lemma evaluates_emit w e s : own_event w e -> evaluates w s (emit e s).
Proof.
  intros He. repeat split; try done.
  - intros x Hx. exists x. split; [done | apply same_config_refl].
  - exists [e]. split; [done | by constructor].
Qed.

Lemma evaluates_set_subs w d l s : evaluates w s (set_subs d l s).
Proof.
  repeat split; try done.
  - intros x Hx. exists x. split; [done | apply same_config_refl].
  - exists []. split; [by rewrite app_nil_r | constructor].
Qed.

Lemma evaluates_set_stack w t s : evaluates w s (set_stack t s).
Proof.
  repeat split; try done.
  - intros x Hx. exists x. split; [done | apply same_config_refl].
  - exists []. split; [by rewrite app_nil_r | constructor].
Qed.

Lemma evaluates_set_watcher w x x' s :
  watchers s !! w = Some x -> same_config x x' -> evaluates w s (set_watcher w x' s).
Proof.
  intros Hx Hc. repeat split; try done.
  - intros w' Hne. simpl. by rewrite lookup_insert_ne.
  - intros y Hy. exists x'. simpl. rewrite lookup_insert_eq.
    split; [done|]. rewrite Hx in Hy. injection Hy as <-. exact Hc.
  - exists []. split; [by rewrite app_nil_r | constructor].
Qed.

Lemma evaluates_addSub w d s : evaluates w s (addSub d w s).
Proof.
  unfold addSub. eapply evaluates_trans; [|by apply evaluates_emit].
  case_decide; [apply evaluates_refl | apply evaluates_set_subs].
Qed.

Lemma evaluates_removeSub w d s : evaluates w s (removeSub d w s).
Proof.
  unfold removeSub. eapply evaluates_trans; [|by apply evaluates_emit].
  apply evaluates_set_subs.
Qed.

Lemma evaluates_addDep w d s : evaluates w s (addDep w d s).
Proof.
  unfold addDep. destruct (watchers s !! w) as [x|] eqn:Hx; [|apply evaluates_refl].
  case_decide; [apply evaluates_refl|].
  assert (evaluates w s (set_watcher w (with_collect x (newDeps x ++ [d]) ({[d]} ∪ newDepIds x)) s)).
  { apply (evaluates_set_watcher w x); [done | repeat split]. }
  case_decide; [done|].
  eapply evaluates_trans; [done | apply evaluates_addSub].
Qed.

Lemma addDep_target w d s : targetStack (addDep w d s) = targetStack s.
Proof.
  unfold addDep. destruct (watchers s !! w); [|done].
  case_decide; [done|]. case_decide; [done|].
  unfold addSub. case_decide; reflexivity.
Qed.

Lemma read_all_as_addDep w ds s :
  target s = Some w ->
  read_all ds s = foldl (fun s d => addDep w d s) s ds.
Proof.
  revert s. induction ds as [|d ds IH]; intros s Ht; [done|].
  unfold read_all in *. simpl. unfold depend at 2. rewrite Ht.
  apply IH. unfold target. rewrite addDep_target. exact Ht.
Qed.

Lemma evaluates_addDeps w ds s :
  evaluates w s (foldl (fun s d => addDep w d s) s ds).
Proof.
  revert s. induction ds as [|d ds IH]; intros s; [apply evaluates_refl|].
  simpl. eapply evaluates_trans; [apply evaluates_addDep | apply IH].
Qed.

Lemma addDeps_target w ds s :
  targetStack (foldl (fun s d => addDep w d s) s ds) = targetStack s.
Proof.
  revert s. induction ds as [|d ds IH]; intros s; [done|].
  simpl. rewrite IH. apply addDep_target.
Qed.

Lemma evaluates_drop_stale w ni old s : evaluates w s (drop_stale w ni old s).
Proof.
  unfold drop_stale. generalize (reverse old). intros l. revert s.
  induction l as [|d l IH]; intros s; [apply evaluates_refl|].
  simpl. eapply evaluates_trans; [|apply IH].
  case_decide; [apply evaluates_refl | apply evaluates_removeSub].
Qed.

Lemma evaluates_cleanupDeps w s : evaluates w s (cleanupDeps w s).
Proof.
  unfold cleanupDeps. destruct (watchers s !! w) as [x|] eqn:Hx; [|apply evaluates_refl].
  pose proof (evaluates_drop_stale w (newDepIds x) (deps x) s) as Hd.
  eapply evaluates_trans; [exact Hd|].
  destruct Hd as (_ & _ & _ & _ & Hw & _). destruct (Hw x Hx) as (x' & Hx' & Hc).
  apply (evaluates_set_watcher w x'); [done|].
  destruct Hc as (?&?&?&?&?&?&?&?&?). repeat split; simpl; congruence.
Qed.

Lemma evaluates_traverse w v s s' r :
  target s = Some w -> traverse deepReads v s = (s', r) ->
  evaluates w s s' /\ targetStack s' = targetStack s.
Proof.
  intros Ht. unfold traverse. destruct (isObject v).
  - destruct (deepReads v (app s)) as [ds r']. intros [= <- <-].
    rewrite (read_all_as_addDep w) by done.
    split; [apply evaluates_addDeps | apply addDeps_target].
  - intros [= <- <-]. split; [apply evaluates_refl | done].
Qed.

Lemma evaluates_get_finally w b v s s' r :
  target s = Some w -> get_finally deepReads w b v s = (s', r) -> evaluates w s s'.
Proof.
  intros Ht. unfold get_finally.
  destruct (if b then traverse deepReads v s else (s, Return tt)) as [s1 r1] eqn:Htr.
  assert (evaluates w s s1) as H1.
  { destruct b; [by eapply evaluates_traverse | injection Htr as <- <-; apply evaluates_refl]. }
  destruct r1 as [[]|e]; intros [= <- <-]; [|done].
  eapply evaluates_trans; [exact H1|].
  eapply evaluates_trans; [apply evaluates_set_stack | apply evaluates_cleanupDeps].
Qed.

(** An evaluation of [w] touches nothing but what belongs to the
    evaluation of [w]; in particular it calls no callback. *)
Lemma evaluates_get w s s' r : get getter deepReads w s = (s', r) -> evaluates w s s'.
Proof.
  unfold get. destruct (watchers s !! w) as [x|] eqn:Hx.
  2:{ intros [= <- <-]. apply evaluates_refl. }
  destruct (getter w (app (pushTarget (Some w) s))) as [ds r0].
  set (s2 := read_all ds (emit (EGetter w) (pushTarget (Some w) s))).
  assert (target (emit (EGetter w) (pushTarget (Some w) s)) = Some w) as Ht0 by done.
  assert (evaluates w s s2) as H2.
  { unfold s2. rewrite (read_all_as_addDep w) by done.
    eapply evaluates_trans; [|apply evaluates_addDeps].
    eapply evaluates_trans; [apply (evaluates_set_stack w (Some w :: targetStack s))|].
    by apply evaluates_emit. }
  assert (target s2 = Some w) as Ht2.
  { unfold s2. rewrite (read_all_as_addDep w) by done.
    unfold target. by rewrite addDeps_target. }
  destruct r0 as [v|e].
  - destruct (get_finally deepReads w (deep x) v s2) as [s3 f] eqn:Hf.
    intros [= <- <-]. eapply evaluates_trans; [exact H2|].
    by eapply evaluates_get_finally.
  - destruct (user x).
    + destruct (get_finally deepReads w (deep x) VUndef (emit (EHandleError e w) s2))
        as [s3 f] eqn:Hf.
      intros [= <- <-]. eapply evaluates_trans; [exact H2|].
      eapply evaluates_trans; [by apply (evaluates_emit w (EHandleError e w))|].
      by eapply evaluates_get_finally.
    + destruct (get_finally deepReads w (deep x) VUndef s2) as [s3 f] eqn:Hf.
      intros [= <- <-]. eapply evaluates_trans; [exact H2|].
      by eapply evaluates_get_finally.
Qed.

Lemma addSub_watchers d w s : watchers (addSub d w s) = watchers s.
Proof. unfold addSub. case_decide; reflexivity. Qed.

Lemma addDeps_collect w ds s x :
  watchers s !! w = Some x ->
  watchers (foldl (fun s d => addDep w d s) s ds) !! w
  = Some (with_collect x (collect ds (newDeps x) (newDepIds x)).1
                         (collect ds (newDeps x) (newDepIds x)).2).
Proof.
  revert s x. induction ds as [|d ds IH]; intros s x Hx.
  - simpl. rewrite Hx. by destruct x.
  - simpl. unfold addDep at 2. rewrite Hx. unfold collect. simpl.
    case_decide as Hin.
    + apply IH. done.
    + set (x' := with_collect x (newDeps x ++ [d]) ({[d]} ∪ newDepIds x)).
      assert (watchers (if decide (d ∈ depIds x) then set_watcher w x' s
                        else addSub d w (set_watcher w x' s)) !! w = Some x') as Hx'.
      { case_decide; [|rewrite addSub_watchers]; simpl; apply lookup_insert_eq. }
      rewrite (IH _ x' Hx'). reflexivity.
Qed.

Lemma removeSub_not_sub d d' w s :
  w ∉ subs_of d s -> w ∉ subs_of d (removeSub d' w s).
Proof.
  intros Hn. unfold removeSub, subs_of. simpl.
  destruct (decide (d' = d)) as [->|Hne].
  - rewrite lookup_insert_eq. simpl. intros Hin. apply list_elem_of_filter in Hin as [Hne _]. done.
  - rewrite lookup_insert_ne by done. exact Hn.
Qed.

Lemma removeSub_removes d w s : w ∉ subs_of d (removeSub d w s).
Proof.
  unfold removeSub, subs_of. simpl. rewrite lookup_insert_eq. simpl.
  intros Hin. apply list_elem_of_filter in Hin as [Hne _]. done.
Qed.

Lemma drop_stale_watchers w ni old s : watchers (drop_stale w ni old s) = watchers s.
Proof.
  unfold drop_stale. generalize (reverse old). intros l. revert s.
  induction l as [|d l IH]; intros s; [done|]. simpl. rewrite IH.
  case_decide; reflexivity.
Qed.

Lemma drop_stale_stack w ni old s : targetStack (drop_stale w ni old s) = targetStack s.
Proof.
  unfold drop_stale. generalize (reverse old). intros l. revert s.
  induction l as [|d l IH]; intros s; [done|]. simpl. rewrite IH.
  case_decide; reflexivity.
Qed.

Lemma drop_stale_keeps_out w ni l d s :
  w ∉ subs_of d s ->
  w ∉ subs_of d (foldl (fun s d => if decide (d ∈ ni) then s else removeSub d w s) s l).
Proof.
  revert s. induction l as [|d' l IH]; intros s Hn; [done|].
  simpl. apply IH. case_decide; [done | by apply removeSub_not_sub].
Qed.

Lemma drop_stale_unsubscribes w ni old d s :
  d ∈ old -> d ∉ ni -> w ∉ subs_of d (drop_stale w ni old s).
Proof.
  unfold drop_stale. rewrite <- elem_of_reverse. generalize (reverse old). intros l.
  revert s. induction l as [|d' l IH]; intros s Hin Hni; [by inversion Hin|].
  simpl. apply elem_of_cons in Hin as [<-|Hin].
  - apply (drop_stale_keeps_out w ni l d). rewrite decide_False by done. apply removeSub_removes.
  - by apply IH.
Qed.

Lemma drop_stale_logs w ni old d s :
  d ∈ old -> d ∉ ni -> ERemoveSub d w ∈ log (drop_stale w ni old s).
Proof.
  unfold drop_stale. rewrite <- elem_of_reverse. generalize (reverse old). intros l.
  revert s. induction l as [|d' l IH]; intros s Hin Hni; [by inversion Hin|].
  simpl. apply elem_of_cons in Hin as [<-|Hin]; [|by apply IH].
  rewrite decide_False by done.
  destruct (evaluates_drop_stale w ni (reverse l) (removeSub d w s)) as (_&_&_&_&_& l' & Hl & _).
  unfold drop_stale in Hl. rewrite reverse_involutive in Hl. rewrite Hl.
  apply elem_of_app. left. unfold removeSub. simpl. apply elem_of_app. right. by left.
Qed.

Lemma collect_app ds ds' nd ni :
  collect (ds ++ ds') nd ni = collect ds' (collect ds nd ni).1 (collect ds nd ni).2.
Proof.
  unfold collect. rewrite foldl_app.
  by destruct (foldl _ (nd, ni) ds).
Qed.

Lemma cleanupDeps_reconciles w s x :
  watchers s !! w = Some x ->
  targetStack (cleanupDeps w s) = targetStack s
  /\ watchers (cleanupDeps w s) !! w = Some (reconciled x (newDeps x) (newDepIds x))
  /\ (forall d, d ∈ deps x -> d ∉ newDepIds x ->
        (w ∉ subs_of d (cleanupDeps w s)) /\ (ERemoveSub d w ∈ log (cleanupDeps w s)))
  /\ (forall e, e ∈ log s -> e ∈ log (cleanupDeps w s)).
Proof.
  intros Hx. unfold cleanupDeps. rewrite Hx. simpl.
  split; [apply drop_stale_stack|]. split; [apply lookup_insert_eq|]. split.
  - intros d Hd Hn. split; [by apply drop_stale_unsubscribes | by apply drop_stale_logs].
  - intros e He.
    destruct (evaluates_drop_stale w (newDepIds x) (deps x) s) as (_&_&_&_&_& l & -> & _).
    apply elem_of_app. by left.
Qed.

Lemma get_finally_reconciles w (b : bool) v s x (t : list (option Z)) ds' :
  targetStack s = Some w :: t ->
  watchers s !! w = Some x ->
  (if b then if isObject v then deepReads v (app s) else ([], Return tt)
   else ([], Return tt)) = (ds', Return tt) ->
  let nd := (collect ds' (newDeps x) (newDepIds x)).1 in
  let ni := (collect ds' (newDeps x) (newDepIds x)).2 in
  exists s',
    get_finally deepReads w b v s = (s', Return tt)
    /\ targetStack s' = t
    /\ watchers s' !! w = Some (reconciled x nd ni)
    /\ (forall d, d ∈ deps x -> d ∉ ni -> (w ∉ subs_of d s') /\ (ERemoveSub d w ∈ log s'))
    /\ (forall e, e ∈ log s -> e ∈ log s').
Proof.
  intros Ht Hx Hb nd ni.
  assert (target s = Some w) as Htg by (unfold target; by rewrite Ht).
  set (s1 := foldl (fun s d => addDep w d s) s ds').
  assert ((if b then traverse deepReads v s else (s, Return tt)) = (s1, Return tt)) as Htr.
  { unfold traverse, s1. destruct b.
    - destruct (isObject v).
      + rewrite Hb. by rewrite (read_all_as_addDep w).
      + by injection Hb as <-.
    - by injection Hb as <-. }
  unfold get_finally. rewrite Htr.
  assert (watchers (popTarget s1) !! w = Some (with_collect x nd ni)) as Hx1.
  { simpl. unfold s1. by rewrite (addDeps_collect w ds' s x Hx). }
  destruct (cleanupDeps_reconciles w (popTarget s1) _ Hx1) as (Hs & Hw & Hd & Hl).
  eexists. split; [reflexivity|]. split; [|split; [|split]].
  - rewrite Hs. simpl. unfold s1. rewrite (addDeps_target). by rewrite Ht.
  - rewrite Hw. reflexivity.
  - intros d Hin Hni. by apply Hd.
  - intros e He. apply Hl. simpl.
    destruct (evaluates_addDeps w ds' s) as (_&_&_&_&_& l & Hlog & _).
    fold s1 in Hlog. rewrite Hlog. apply elem_of_app. by left.
Qed.

(** An evaluation whose deep traversal does not throw, whether or not the
    getter throws: the watcher is off the target stack again, the Deps it
    read make up its current set, the new-set containers are empty, it is
    removed from every Dep of the old set that it did not read again, and
    what the getter threw went to the error handler (user watcher) or is
    thrown on (otherwise). *)
Lemma get_reconciles w s x ds r ds' :
  watchers s !! w = Some x ->
  getter w (app s) = (ds, r) ->
  (if deep x then
     match r with
     | Return v => if isObject v then deepReads v (app s) else ([], Return tt)
     | Throw _ => ([], Return tt)
     end
   else ([], Return tt)) = (ds', Return tt) ->
  let nd := (collect (ds ++ ds') (newDeps x) (newDepIds x)).1 in
  let ni := (collect (ds ++ ds') (newDeps x) (newDepIds x)).2 in
  exists s',
    get getter deepReads w s
    = (s', match r with
           | Return v => Return v
           | Throw e => if user x then Return VUndef else Throw e
           end)
    /\ targetStack s' = targetStack s
    /\ watchers s' !! w = Some (reconciled x nd ni)
    /\ (forall d, d ∈ deps x -> d ∉ ni -> (w ∉ subs_of d s') /\ (ERemoveSub d w ∈ log s'))
    /\ (forall e, r = Throw e -> user x = true -> EHandleError e w ∈ log s').
Proof.
  intros Hx Hg Hb nd ni. unfold get. rewrite Hx. simpl app. rewrite Hg.
  set (s0 := emit (EGetter w) (pushTarget (Some w) s)).
  assert (target s0 = Some w) as Ht0 by done.
  rewrite (read_all_as_addDep w) by done.
  set (s2 := foldl (fun s d => addDep w d s) s0 ds).
  assert (targetStack s2 = Some w :: targetStack s) as Hst.
  { unfold s2. by rewrite (addDeps_target). }
  set (x2 := with_collect x (collect ds (newDeps x) (newDepIds x)).1
                            (collect ds (newDeps x) (newDepIds x)).2).
  assert (watchers s2 !! w = Some x2) as Hx2.
  { unfold s2. by rewrite (addDeps_collect w ds s0 x Hx). }
  assert (app s2 = app s) as Happ.
  { destruct (evaluates_addDeps w ds s0) as (Ha & _). exact Ha. }
  assert (collect ds' (newDeps x2) (newDepIds x2)
          = collect (ds ++ ds') (newDeps x) (newDepIds x)) as Hcol.
  { by rewrite collect_app. }
  destruct r as [v|e].
  - destruct (get_finally_reconciles w (deep x) v s2 x2 (targetStack s) ds' Hst Hx2)
      as (s' & Hf & Hs & Hw & Hd & Hl).
    { rewrite Happ. destruct (deep x); done. }
    rewrite Hf. exists s'. rewrite Hcol in Hw, Hd.
    split; [done|]. split; [done|]. split; [done|]. split; [done|]. discriminate.
  - assert (ds' = []) as -> by (destruct (deep x); by injection Hb).
    destruct (user x) eqn:Hu.
    + destruct (get_finally_reconciles w (deep x) VUndef (emit (EHandleError e w) s2) x2
                  (targetStack s) [] Hst Hx2) as (s' & Hf & Hs & Hw & Hd & Hl).
      { destruct (deep x); done. }
      rewrite Hf. exists s'. rewrite Hcol in Hw, Hd.
      split; [done|]. split; [done|]. split; [done|]. split; [done|].
      intros e' [= <-] _. apply Hl. simpl. apply elem_of_app. right. by left.
    + destruct (get_finally_reconciles w (deep x) VUndef s2 x2
                  (targetStack s) [] Hst Hx2) as (s' & Hf & Hs & Hw & Hd & Hl).
      { destruct (deep x); done. }
      rewrite Hf. exists s'. rewrite Hcol in Hw, Hd.
      split; [done|]. split; [done|]. split; [done|]. split; [done|]. discriminate.
Qed.

End Evaluation.

End WatcherFacts.

Module TeardownFacts.
Import JS Reactive WatcherFacts.
Local Open Scope Z_scope.

Section Silence.

Variable U : Type.
Variable getter : Z -> U -> list Z * completion JS.value.
Variable deepReads : JS.value -> U -> list Z * completion unit.
Variable cb : Z -> JS.value -> JS.value -> U -> U * list Z * completion unit.
Variable beforeHook : Z -> U -> U * list Z * completion unit.
Variable production config_async : bool.

Variable w : Z.

Implicit Types (s : World U) (x : Watcher).

Lemma silent_refl s : inactive w s -> silent w s s.
Proof. intros H. split; [done|]. exists []. split; [by rewrite app_nil_r | constructor]. Qed.

Lemma silent_trans s1 s2 s3 : silent w s1 s2 -> silent w s2 s3 -> silent w s1 s3.
Proof.
  intros (_ & l1 & Hl1 & Hf1) (Hi & l2 & Hl2 & Hf2). split; [done|].
  exists (l1 ++ l2). split; [by rewrite Hl2, Hl1, app_assoc | by apply Forall_app].
Qed.

(** A step that keeps the watchers and the log is silent. *)
Lemma silent_frame s s' :
  watchers s' = watchers s -> log s' = log s -> inactive w s -> silent w s s'.
Proof.
  intros Hw Hl (x & Hx & Ha). split.
  - exists x. by rewrite Hw.
  - exists []. split; [by rewrite app_nil_r | constructor].
Qed.

Lemma silent_emit e s : not_run_of w e -> inactive w s -> silent w s (emit e s).
Proof.
  intros He Hi. split; [done|]. exists [e]. split; [done | by constructor].
Qed.

Lemma Silent_ret {A} (a : A) : Silent w (ret a : M U A).
Proof. intros s Hi. by apply silent_refl. Qed.

Lemma Silent_bind {A B} (m : M U A) (k : A -> M U B) :
  Silent w m -> (forall a, Silent w (k a)) -> Silent w (bindM m k).
Proof.
  intros Hm Hk s Hi. unfold bindM. pose proof (Hm s Hi) as H1.
  destruct (m s) as [s1 [[a|e]|]]; simpl in *; try done.
  eapply silent_trans; [exact H1|]. apply Hk, H1.
Qed.

Lemma Silent_for_each {A} (body : A -> M U unit) (l : list A) :
  (forall a, Silent w (body a)) -> Silent w (for_each body l).
Proof.
  intros Hb. induction l as [|a l IH]; simpl.
  - apply Silent_ret.
  - apply Silent_bind; [apply Hb | intros _; apply IH].
Qed.

Lemma Silent_on_sched f : Silent w (on_sched f : M U unit).
Proof. intros s Hi. by apply silent_frame. Qed.

(** The evaluation of another watcher is silent for [w]. *)
Lemma Silent_get w' : w' <> w -> Silent w (lift (get getter deepReads w')).
Proof.
  intros Hne s (x & Hx & Ha). unfold lift.
  destruct (get getter deepReads w' s) as [s1 r1] eqn:Hg. simpl.
  destruct (evaluates_get U getter deepReads w' s s1 r1 Hg)
    as (_ & _ & _ & Ho & _ & l & Hl & Hf).
  split.
  - exists x. by rewrite Ho.
  - exists l. split; [done|]. eapply Forall_impl; [exact Hf|].
    intros [] He; simpl in *; try done; congruence.
Qed.

Lemma removeSubs_silent w' l s0 :
  watchers (foldl (fun s d => removeSub d w' s) s0 l) = watchers s0
  /\ exists l', log (foldl (fun s d => removeSub d w' s) s0 l) = log s0 ++ l'
                /\ Forall (not_run_of w) l'.
Proof.
  revert s0. induction l as [|d l IH]; intros s0; simpl.
  - split; [done|]. exists []. split; [by rewrite app_nil_r | constructor].
  - destruct (IH (removeSub d w' s0)) as (Hw & l' & Hl & Hf). split; [by rewrite Hw|].
    exists (ERemoveSub d w' :: l'). split; [|by constructor].
    rewrite Hl. simpl. by rewrite <- app_assoc.
Qed.

Lemma Silent_teardown w' : Silent w (lift (teardown w') : M U unit).
Proof.
  intros s (x & Hx & Ha). unfold lift, teardown.
  destruct (watchers s !! w') as [x'|] eqn:Hx'.
  2:{ apply silent_refl. by exists x. }
  destruct (active x') eqn:Ha'.
  2:{ apply silent_refl. by exists x. }
  destruct (vms s !! vm x') as [v|].
  2:{ apply silent_refl. by exists x. }
  set (s1 := if _isBeingDestroyed v then s
             else set_vm (vm x') (mkVm (_isBeingDestroyed v) (Reactive.remove (_watchers v) w')) s).
  assert (watchers s1 = watchers s /\ log s1 = log s) as [Hw1 Hl1].
  { unfold s1. destruct (_isBeingDestroyed v); done. }
  destruct (removeSubs_silent w' (reverse (deps x')) s1) as (Hw2 & l' & Hl2 & Hf2).
  split.
  - unfold inactive. cbn [fst watchers set_watcher]. rewrite Hw2, Hw1.
    destruct (decide (w' = w)) as [->|Hne].
    + exists (with_active x' false). by rewrite lookup_insert_eq.
    + exists x. by rewrite lookup_insert_ne.
  - exists l'. cbn [fst log set_watcher]. rewrite Hl2, Hl1. done.
Qed.

Section Calls.

Variable call_run : Z -> M U unit.
Variable call_flush : M U unit.
Hypothesis call_run_silent : forall w', Silent w (call_run w').
Hypothesis call_flush_silent : Silent w call_flush.

Lemma Silent_queueWatcher id :
  Silent w (queueWatcher production config_async call_flush id).
Proof.
  intros s Hi. unfold queueWatcher.
  destruct (has_null (sched s) id); [|by apply silent_refl].
  set (s1 := set_sched (enqueue id (sched s)) s).
  assert (silent w s s1) as H1 by (by apply silent_frame).
  destruct (negb (waiting (sched s1))); [|done].
  set (s2 := set_sched (set_waiting true (sched s1)) s1).
  assert (silent w s s2) as H2 by (by apply silent_frame).
  destruct (negb production && negb config_async).
  - eapply silent_trans; [exact H2|]. apply call_flush_silent, H2.
  - eapply silent_trans; [exact H2|]. apply Silent_on_sched, H2.
Qed.

Lemma Silent_update w' :
  Silent w (update production config_async call_run call_flush w').
Proof.
  intros s Hi. unfold update.
  destruct (watchers s !! w') as [x'|] eqn:Hx'; [|by apply silent_refl].
  destruct (lazy x').
  - destruct Hi as (x & Hx & Ha). split.
    + unfold inactive. cbn [fst watchers set_watcher].
      destruct (decide (w' = w)) as [->|Hne].
      * exists (with_dirty x' true). rewrite lookup_insert_eq. split; [done|].
        simpl. congruence.
      * exists x. by rewrite lookup_insert_ne.
    + exists []. split; [by rewrite app_nil_r | constructor].
  - destruct (sync x').
    + by apply call_run_silent.
    + by apply Silent_queueWatcher.
Qed.

Lemma Silent_notify d :
  Silent w (notify production config_async call_run call_flush d).
Proof.
  intros s Hi. unfold notify. apply Silent_for_each; [|done].
  apply Silent_update.
Qed.

Lemma Silent_writes code :
  Silent w (writes production config_async call_run call_flush code).
Proof.
  intros s Hi. unfold writes. destruct (code (app s)) as [[u ds] r0].
  assert (silent w s (set_app u s)) as H1 by (by apply silent_frame).
  eapply silent_trans; [exact H1|].
  apply Silent_bind; [| |apply H1].
  - apply Silent_for_each. apply Silent_notify.
  - intros _ s0 Hi0. by apply silent_refl.
Qed.

Lemma Silent_invoke w' (m : M U unit) :
  Silent w m -> Silent w (invokeWithErrorHandling w' m).
Proof.
  intros Hm s Hi. unfold invokeWithErrorHandling. pose proof (Hm s Hi) as H1.
  destruct (m s) as [s1 [[a|e]|]]; simpl in *; try done.
  eapply silent_trans; [exact H1|]. apply silent_emit; [done | apply H1].
Qed.

(** A run of any watcher is silent for the inactive [w]: the run of [w]
    itself does nothing. *)
Lemma Silent_run w' :
  Silent w (run getter deepReads cb production config_async call_run call_flush w').
Proof.
  intros s Hi. unfold run.
  destruct (watchers s !! w') as [x'|] eqn:Hx'; [|by apply silent_refl].
  destruct (active x') eqn:Ha'; [|by apply silent_refl].
  assert (w' <> w) as Hne.
  { intros ->. destruct Hi as (x & Hx & Ha). congruence. }
  apply Silent_bind; [by apply Silent_get | | done].
  intros v s1 Hi1.
  destruct (watchers s1 !! w') as [x1|] eqn:Hx1; [|by apply silent_refl].
  destruct (negb (strict_eq v (value x1)) || isObject v || deep x1);
    [|by apply silent_refl].
  set (s2 := emit (ECallback w' v (value x1)) (set_watcher w' (with_value x1 v) s1)).
  assert (silent w s1 s2) as H2.
  { destruct Hi1 as (x & Hx & Ha). split.
    - exists x. unfold s2. cbn [watchers emit set_watcher]. by rewrite lookup_insert_ne.
    - exists [ECallback w' v (value x1)]. split; [done|]. by repeat constructor. }
  eapply silent_trans; [exact H2|].
  destruct (user x1).
  - apply Silent_invoke; [apply Silent_writes | apply H2].
  - apply Silent_writes. apply H2.
Qed.

Lemma Silent_run_before w' :
  Silent w (run_before beforeHook production config_async call_run call_flush w').
Proof.
  intros s Hi. unfold run_before.
  destruct (watchers s !! w') as [x'|]; [|by apply silent_refl].
  destruct (before x'); [|by apply silent_refl].
  apply Silent_bind; [apply Silent_on_sched | intros _; apply Silent_writes | done].
Qed.

Lemma Silent_flush_one w' :
  Silent w (flush_one beforeHook production config_async call_run call_flush w').
Proof.
  unfold flush_one.
  apply Silent_bind; [apply Silent_run_before | intros _].
  apply Silent_bind; [apply Silent_on_sched | intros _].
  apply Silent_bind; [apply Silent_on_sched | intros _].
  apply Silent_bind; [apply call_run_silent | intros _].
  intros s Hi.
  destruct (negb production && negb (has_null (sched s) w')); [|by apply silent_refl].
  destruct (_ >? _); by apply silent_frame.
Qed.

Lemma Silent_flush_loop fuel :
  Silent w (flush_loop beforeHook production config_async call_run call_flush fuel).
Proof.
  induction fuel as [|f IH]; intros s Hi; simpl.
  - destruct (_ <? _); by apply silent_refl.
  - destruct (_ <? _); [|by apply silent_refl].
    destruct (at_index _ _) as [w'|]; [|by apply silent_refl].
    apply Silent_bind; [apply Silent_flush_one | | done].
    intros [|]; [apply Silent_ret|].
    apply Silent_bind; [apply Silent_on_sched | intros _; apply IH].
Qed.

Lemma Silent_flushSchedulerQueue fuel :
  Silent w (flushSchedulerQueue beforeHook production config_async call_run call_flush fuel).
Proof.
  unfold flushSchedulerQueue.
  apply Silent_bind; [apply Silent_on_sched | intros _].
  apply Silent_bind; [apply Silent_flush_loop | intros _]. apply Silent_on_sched.
Qed.

End Calls.

Lemma Silent_exec fuel :
  (forall w', Silent w (exec_run getter deepReads cb beforeHook production config_async fuel w'))
  /\ Silent w (exec_flush getter deepReads cb beforeHook production config_async fuel).
Proof.
  induction fuel as [|f [IHr IHf]].
  - split; [intros w'|]; intros s Hi; by apply silent_refl.
  - split; [intros w'|]; simpl.
    + by apply Silent_run.
    + by apply Silent_flushSchedulerQueue.
Qed.

Lemma Silent_stimulate fuel st :
  Silent w (stimulate getter deepReads cb beforeHook production config_async fuel st).
Proof.
  destruct (Silent_exec fuel) as [Hr Hf].
  destruct st as [w'|d| |w']; simpl.
  - by apply Silent_update.
  - by apply Silent_notify.
  - exact Hf.
  - apply Silent_teardown.
Qed.

(** Whatever reaches the system, and however far each stimulus gets, an
    inactive watcher stays inactive and silent. *)
Lemma silent_stimulate_all fuel l s :
  inactive w s ->
  silent w s (stimulate_all getter deepReads cb beforeHook production config_async fuel l s).
Proof.
  revert s. induction l as [|st l IH]; intros s Hi; simpl.
  - by apply silent_refl.
  - pose proof (Silent_stimulate fuel st s Hi) as H1.
    eapply silent_trans; [exact H1|]. apply IH, H1.
Qed.

(** After [teardown] the watcher is inactive; on an inactive watcher
    [teardown] does nothing. *)
Lemma teardown_inactive s s' :
  teardown w s = (s', Return tt) -> inactive w s'.
Proof.
  unfold teardown. destruct (watchers s !! w) as [x|] eqn:Hx; [|discriminate].
  destruct (active x) eqn:Ha.
  - destruct (vms s !! vm x); [|discriminate]. intros [= <-].
    exists (with_active x false). cbn [watchers set_watcher]. by rewrite lookup_insert_eq.
  - intros [= <-]. by exists x.
Qed.

Lemma teardown_idem s : inactive w s -> teardown w s = (s, Return tt).
Proof. intros (x & Hx & Ha). unfold teardown. by rewrite Hx, Ha. Qed.

End Silence.

End TeardownFacts.

Module FlushFacts.
Import JS Reactive SchedulerFacts SchedulerSpec.
Local Open Scope Z_scope.

(** [queueWatcher] on the running watcher puts it right after the running
    entry. *)
Lemma enqueue_requeued w c :
  running w c -> 0 <= index c -> requeued w c (enqueue w c).
Proof.
  intros (Hf & Hwt & Hn & Hat & Hgt) Hi.
  assert (index c < Z.of_nat (length (queue c))) as Hlen.
  { unfold at_index in Hat. destruct (index c <? 0); [discriminate|].
    apply lookup_lt_Some in Hat. lia. }
  destruct (enqueue_flushing w c Hf ltac:(lia)) as (pos & Hpos & Hq & Hall & Hle).
  assert (pos = (Z.to_nat (index c) + 1)%nat) as ->.
  { destruct Hle as [Hp|(x & Hx & Hxw)]; [lia|].
    destruct (decide (pos = (Z.to_nat (index c) + 1)%nat)) as [->|Hne]; [done|].
    exfalso. rewrite Forall_forall in Hgt.
    assert (x ∈ drop (Z.to_nat (index c) + 1) (queue c)) as Hin.
    { apply list_elem_of_lookup. exists (pos - 1 - (Z.to_nat (index c) + 1))%nat.
      rewrite lookup_drop. rewrite <- Hx. f_equal. lia. }
    specialize (Hgt x Hin). lia. }
  unfold requeued. unfold enqueue in *. rewrite Hf in *. simpl in *.
  split; [done|]. split; [done|]. split; [done|]. split; [done|]. split; [done|]. split.
  - unfold has_null. simpl. by rewrite lookup_insert_eq.
  - eexists. split; [exact Hq | exact Hgt].
Qed.

Section Flush.

Variable U : Type.
Variable beforeHook : Z -> U -> U * list Z * completion unit.
Variable config_async : bool.
Variable call_run : Z -> M U unit.
Variable call_flush : M U unit.
Variable W : Z.
Variable pre post : list Z.

(** Which watchers have a [before] hook. *)
Variable hooked : Z -> bool.

Implicit Types (s : World U) (c : Scheduler).

Local Abbreviation watched := (pre ++ [W]).
Local Abbreviation one := (flush_one beforeHook false config_async call_run call_flush).
Local Abbreviation loop := (flush_loop beforeHook false config_async call_run call_flush).
Local Abbreviation hook := (run_before beforeHook false config_async call_run call_flush).

(** What the runs of the watchers keep true of the state, whatever the
    scheduler does in between. *)
Variable Inv : World U -> Prop.

Hypothesis Inv_sched : forall s c, Inv s -> Inv (set_sched c s).

Hypothesis hooks_quiet : forall v s0,
  v ∈ watched -> Inv s0 ->
  exists s1, hook v s0 = (s1, Some (Return tt))
             /\ sched s1 = (if hooked v then note (SBefore v) (sched s0) else sched s0)
             /\ Inv s1.

Hypothesis pre_quiescent : forall v s0,
  v ∈ pre -> Inv s0 ->
  exists s1, call_run v s0 = (s1, Some (Return tt))
             /\ sched s1 = sched s0 /\ Inv s1.

Hypothesis W_requeues : forall s0,
  Inv s0 -> running W (sched s0) ->
  exists s1, call_run W s0 = (s1, Some (Return tt))
             /\ requeued W (sched s0) (sched s1) /\ Inv s1.

(** A hook touches nothing of the scheduler but its trace. *)
Lemma hook_quiet v s :
  v ∈ watched -> Inv s ->
  exists s1, hook v s = (s1, Some (Return tt)) /\ Inv s1
             /\ queue (sched s1) = queue (sched s) /\ has (sched s1) = has (sched s)
             /\ circular (sched s1) = circular (sched s)
             /\ waiting (sched s1) = waiting (sched s)
             /\ flushing (sched s1) = flushing (sched s)
             /\ index (sched s1) = index (sched s)
             /\ trace (sched s1)
                = trace (sched s) ++ (if hooked v then [SBefore v] else []).
Proof.
  intros Hv Hn. destruct (hooks_quiet v s Hv Hn) as (s1 & Hr & Hs & Hn1).
  exists s1. split; [done|]. split; [done|]. rewrite Hs.
  destruct (hooked v); simpl; rewrite ?app_nil_r; done.
Qed.

Lemma has_null_cleared v c : has_null (note (SRun v) (set_has v VNull c)) v = true.
Proof. unfold has_null. simpl. by rewrite lookup_insert_eq. Qed.

(** A watcher ahead of [W] runs once and leaves no mark. *)
Lemma flush_one_pre v s :
  v ∈ pre -> Inv s ->
  exists s1, one v s = (s1, Some (Return false)) /\ Inv s1
             /\ queue (sched s1) = queue (sched s)
             /\ circular (sched s1) = circular (sched s)
             /\ waiting (sched s1) = waiting (sched s)
             /\ flushing (sched s1) = flushing (sched s)
             /\ index (sched s1) = index (sched s)
             /\ trace (sched s1) = trace (sched s) ++ turn hooked v.
Proof.
  intros Hv Hn. unfold flush_one. unfold bindM at 1.
  destruct (hook_quiet v s) as (sb & Hb & Hnb & Bq & Bh & Bc & Bw & Bf & Bi & Bt);
    [apply elem_of_app; by left | done |].
  rewrite Hb. unfold bindM, on_sched, modify. cbn [sched set_sched].
  set (s0 := set_sched _ (set_sched _ sb)).
  destruct (pre_quiescent v s0 Hv) as (s1 & Hr & Hs & Hn1).
  { by do 2 apply Inv_sched. }
  rewrite Hr. exists s1. rewrite Hs. unfold s0. cbn [sched set_sched].
  rewrite has_null_cleared. simpl. split; [done|]. split; [done|].
  rewrite Bq, Bc, Bw, Bf, Bi, Bt. unfold turn. rewrite <- app_assoc. done.
Qed.

(** A run of [W]: it is queued again, and the tally goes up by one. *)
Lemma flush_one_W s :
  Inv s ->
  flushing (sched s) = true -> waiting (sched s) = true -> 0 <= index (sched s) ->
  at_index (queue (sched s)) (index (sched s)) = Some W ->
  Forall (fun v => W < v) (drop (Z.to_nat (index (sched s)) + 1) (queue (sched s))) ->
  let n := default 0 (circular (sched s) !! W) + 1 in
  exists s1 rest u,
    one W s = (s1, Some (Return (n >? MAX_UPDATE_COUNT)))
    /\ Inv s1
    /\ flushing (sched s1) = true
    /\ waiting (sched s1) = true
    /\ index (sched s1) = index (sched s)
    /\ queue (sched s1)
       = take (Z.to_nat (index (sched s)) + 1) (queue (sched s)) ++ W :: rest
    /\ Forall (fun v => W < v) rest
    /\ circular (sched s1) !! W = Some n
    /\ trace (sched s1)
       = trace (sched s) ++ turn hooked W
         ++ (if n >? MAX_UPDATE_COUNT then [SWarn W u] else []).
Proof.
  intros Hn Hf Hwt Hi Hat Hgt n. unfold flush_one. unfold bindM at 1.
  destruct (hook_quiet W s) as (sb & Hb & Hnb & Bq & Bh & Bc & Bw & Bf & Bi & Bt);
    [apply elem_of_app; right; by left | done |].
  rewrite Hb. unfold bindM, on_sched, modify. cbn [sched set_sched].
  set (s0 := set_sched _ (set_sched _ sb)).
  destruct (W_requeues s0) as (s1 & Hr & Hq & Hn1).
  { by do 2 apply Inv_sched. }
  { unfold s0. cbn [sched set_sched]. split; [simpl; congruence|].
    split; [simpl; congruence|].
    split; [apply has_null_cleared|]. simpl. rewrite Bq, Bi. split; done. }
  rewrite Hr. destruct Hq as (Hf1 & Hw1 & Hi1 & Hc1 & Ht1 & Hh1 & rest & Hq1 & Hr1).
  unfold s0 in Hi1, Hc1, Ht1, Hq1. cbn [sched set_sched] in Hi1, Hc1, Ht1, Hq1.
  simpl in Hi1, Hc1, Ht1, Hq1. rewrite Bi in Hi1, Hq1. rewrite Bq in Hq1.
  rewrite Bc in Hc1. rewrite Bt in Ht1.
  rewrite Hh1. simpl. rewrite Hc1. fold n.
  destruct (n >? MAX_UPDATE_COUNT) eqn:Hmax.
  - eexists _, rest, _. split; [reflexivity|]. cbn [sched set_sched]. simpl.
    split; [by apply Inv_sched|]. split; [done|]. split; [done|]. split; [done|].
    split; [done|]. split; [done|]. split; [by rewrite lookup_insert_eq|].
    rewrite Ht1. unfold turn. rewrite <- !app_assoc. done.
  - eexists _, rest, false. split; [reflexivity|]. cbn [sched set_sched]. simpl.
    split; [by apply Inv_sched|]. split; [done|]. split; [done|]. split; [done|].
    split; [done|]. split; [done|]. split; [by rewrite lookup_insert_eq|].
    rewrite Ht1. unfold turn. rewrite <- !app_assoc, app_nil_r. done.
Qed.

(** From a state where [W] is the running entry and has been tallied
    [100 - k] times, the loop runs [W] another [k + 1] times, warns and
    stops. *)
Lemma flush_loop_W k : forall s fuel,
  Inv s ->
  flushing (sched s) = true -> waiting (sched s) = true -> 0 <= index (sched s) ->
  at_index (queue (sched s)) (index (sched s)) = Some W ->
  Forall (fun v => W < v) (drop (Z.to_nat (index (sched s)) + 1) (queue (sched s))) ->
  default 0 (circular (sched s) !! W) = 100 - Z.of_nat k ->
  (k + 1 <= fuel)%nat ->
  exists s' u,
    loop fuel s = (s', Some (Return tt))
    /\ flushing (sched s') = true
    /\ trace (sched s')
       = trace (sched s) ++ concat (replicate (k + 1) (turn hooked W)) ++ [SWarn W u].
Proof.
  induction k as [|k IH]; intros s fuel Hn Hf Hwt Hi Hat Hgt Hc Hfuel.
  - destruct fuel as [|fuel]; [lia|]. simpl.
    assert ((index (sched s) <? Z.of_nat (length (queue (sched s)))) = true) as ->.
    { apply Z.ltb_lt. unfold at_index in Hat. destruct (_ <? 0); [discriminate|].
      apply lookup_lt_Some in Hat. lia. }
    rewrite Hat. unfold bindM.
    destruct (flush_one_W s Hn Hf Hwt Hi Hat Hgt)
      as (s1 & rest & u & H1 & _ & Hf1 & _ & _ & _ & _ & _ & Ht).
    rewrite H1. rewrite Hc in *. simpl in *.
    exists s1, u. split; [done|]. split; [done|]. rewrite Ht, app_nil_r. done.
  - destruct fuel as [|fuel]; [lia|]. simpl.
    assert ((index (sched s) <? Z.of_nat (length (queue (sched s)))) = true) as Hlt.
    { apply Z.ltb_lt. unfold at_index in Hat. destruct (_ <? 0); [discriminate|].
      apply lookup_lt_Some in Hat. lia. }
    rewrite Hlt. apply Z.ltb_lt in Hlt.
    rewrite Hat. unfold bindM.
    destruct (flush_one_W s Hn Hf Hwt Hi Hat Hgt)
      as (s1 & rest & u & H1 & Hn1 & Hf1 & Hw1 & Hi1 & Hq1 & Hr1 & Hc1 & Ht1).
    rewrite H1. rewrite Hc in *.
    assert ((100 - Z.of_nat (S k) + 1 >? MAX_UPDATE_COUNT) = false) as Hmax.
    { unfold MAX_UPDATE_COUNT. rewrite Z.gtb_ltb. apply Z.ltb_ge. lia. }
    rewrite Hmax in *. unfold on_sched, modify.
    set (s2 := set_sched (set_index (index (sched s1) + 1) (sched s1)) s1).
    assert (length (take (Z.to_nat (index (sched s)) + 1) (queue (sched s)))
            = (Z.to_nat (index (sched s)) + 1)%nat) as Hlen.
    { rewrite length_take. lia. }
    assert (Inv s2) as A1 by (by apply Inv_sched).
    assert (flushing (sched s2) = true) as A2 by done.
    assert (waiting (sched s2) = true) as A2' by done.
    assert (0 <= index (sched s2)) as A3.
    { unfold s2. cbn [sched set_sched]. simpl. lia. }
    assert (at_index (queue (sched s2)) (index (sched s2)) = Some W) as A4.
    { unfold s2. cbn [sched set_sched]. simpl. rewrite Hq1, Hi1.
      unfold at_index. destruct (_ <? 0) eqn:Hneg; [apply Z.ltb_lt in Hneg; lia|].
      rewrite lookup_app_r by (rewrite Hlen; lia).
      rewrite Hlen.
      replace (Z.to_nat (index (sched s) + 1) - (Z.to_nat (index (sched s)) + 1))%nat
        with 0%nat by lia.
      done. }
    assert (Forall (fun v => W < v)
              (drop (Z.to_nat (index (sched s2)) + 1) (queue (sched s2)))) as A5.
    { unfold s2. cbn [sched set_sched]. simpl. rewrite Hq1, Hi1.
      rewrite drop_app_ge by (rewrite Hlen; lia). rewrite Hlen.
      replace (Z.to_nat (index (sched s) + 1) + 1 - (Z.to_nat (index (sched s)) + 1))%nat
        with 1%nat by lia.
      done. }
    assert (default 0 (circular (sched s2) !! W) = 100 - Z.of_nat k) as A6.
    { unfold s2. cbn [sched set_sched]. simpl. rewrite Hc1. simpl. lia. }
    destruct (IH s2 fuel A1 A2 A2' A3 A4 A5 A6 ltac:(lia)) as (s' & u' & Hl & Hf' & Ht').
    exists s', u'. split; [done|]. split; [done|].
    rewrite Ht'. unfold s2. cbn [sched set_sched]. simpl. rewrite Ht1.
    rewrite app_nil_r, <- !app_assoc. done.
Qed.

(** The watchers ahead of [W] run once each; then [W] takes over. *)
Lemma flush_loop_pre todo : forall s fuel done,
  (forall v, v ∈ todo -> v ∈ pre) ->
  Inv s ->
  flushing (sched s) = true ->
  waiting (sched s) = true ->
  queue (sched s) = done ++ todo ++ W :: post ->
  index (sched s) = Z.of_nat (length done) ->
  Forall (fun v => W < v) post ->
  circular (sched s) !! W = None ->
  (length todo + 101 <= fuel)%nat ->
  exists s' u,
    loop fuel s = (s', Some (Return tt))
    /\ flushing (sched s') = true
    /\ trace (sched s')
       = trace (sched s) ++ concat (turn hooked <$> todo)
         ++ concat (replicate 101 (turn hooked W)) ++ [SWarn W u].
Proof.
  induction todo as [|v todo IH]; intros s fuel done Hsub Hn Hf Hwt Hq Hi Hpost Hc Hfuel.
  - simpl in Hq.
    assert (at_index (queue (sched s)) (index (sched s)) = Some W) as Hat.
    { rewrite Hq, Hi. unfold at_index.
      destruct (_ <? 0) eqn:Hneg; [apply Z.ltb_lt in Hneg; lia|].
      rewrite Nat2Z.id. by apply list_lookup_middle. }
    assert (0 <= index (sched s)) as A3 by lia.
    assert (Forall (fun v => W < v)
              (drop (Z.to_nat (index (sched s)) + 1) (queue (sched s)))) as A5.
    { rewrite Hq, Hi, Nat2Z.id.
      rewrite drop_app_ge by lia.
      replace (length done + 1 - length done)%nat with 1%nat by lia. done. }
    assert (default 0 (circular (sched s) !! W) = 100 - Z.of_nat 100) as A6.
    { rewrite Hc. done. }
    destruct (flush_loop_W 100 s fuel Hn Hf Hwt A3 Hat A5 A6 ltac:(simpl in Hfuel; lia))
      as (s' & u & Hl & Hf' & Ht).
    exists s', u. split; [done|]. split; [done|]. by rewrite Ht.
  - destruct fuel as [|fuel]; [simpl in Hfuel; lia|]. simpl. simpl in Hq.
    assert (at_index (queue (sched s)) (index (sched s)) = Some v) as Hat.
    { rewrite Hq, Hi. unfold at_index.
      destruct (_ <? 0) eqn:Hneg; [apply Z.ltb_lt in Hneg; lia|].
      rewrite Nat2Z.id. by apply list_lookup_middle. }
    assert ((index (sched s) <? Z.of_nat (length (queue (sched s)))) = true) as ->.
    { apply Z.ltb_lt. unfold at_index in Hat. destruct (_ <? 0); [discriminate|].
      apply lookup_lt_Some in Hat. lia. }
    rewrite Hat. unfold bindM.
    destruct (flush_one_pre v s) as (s1 & H1 & Hn1 & Pq & Pc & Pw & Pf & Pi & Pt);
      [apply Hsub; by left | done |].
    rewrite H1. unfold on_sched, modify.
    set (s2 := set_sched (set_index (index (sched s1) + 1) (sched s1)) s1).
    destruct (IH s2 fuel (done ++ [v])) as (s' & u & Hl & Hf' & Ht).
    + intros v' Hv'. apply Hsub. by right.
    + by apply Inv_sched.
    + unfold s2. cbn [sched set_sched]. simpl. congruence.
    + unfold s2. cbn [sched set_sched]. simpl. congruence.
    + unfold s2. cbn [sched set_sched]. simpl. rewrite Pq, Hq. by rewrite <- app_assoc.
    + unfold s2. cbn [sched set_sched]. simpl. rewrite Pi, Hi, length_app. simpl. lia.
    + done.
    + unfold s2. cbn [sched set_sched]. simpl. by rewrite Pc.
    + simpl in Hfuel. lia.
    + exists s', u. split; [done|]. split; [done|].
      rewrite Ht. unfold s2. cbn [sched set_sched]. simpl. rewrite Pt.
      by rewrite <- !app_assoc.
Qed.

(** In a development build the flush of a queue in which [W] queues itself
    again on every run comes to an end. *)
Lemma flush_stops s fuel :
  merge_sort Z.le (queue (sched s)) = pre ++ W :: post ->
  Forall (fun v => W < v) post ->
  waiting (sched s) = true ->
  circular (sched s) !! W = None ->
  Inv s ->
  (length pre + 101 <= fuel)%nat ->
  exists s' u q,
    flushSchedulerQueue beforeHook false config_async call_run call_flush fuel s
    = (s', Some (Return tt))
    /\ trace (sched s')
       = trace (sched s) ++ concat (turn hooked <$> pre)
         ++ concat (replicate 101 (turn hooked W))
         ++ [SWarn W u; SUpdated q]
    /\ queue (sched s') = [] /\ has (sched s') = ∅
    /\ flushing (sched s') = false /\ waiting (sched s') = false.
Proof.
  intros Hq Hpost Hwt Hc Hn Hfuel.
  unfold flushSchedulerQueue, bindM, on_sched, modify.
  set (s0 := set_sched _ s).
  assert (Inv s0) as A1 by (by apply Inv_sched).
  assert (queue (sched s0) = [] ++ pre ++ W :: post) as A2.
  { unfold s0. cbn [sched set_sched]. simpl. exact Hq. }
  destruct (flush_loop_pre pre s0 fuel [] ltac:(done) A1 ltac:(done) ltac:(done) A2
              ltac:(done) Hpost ltac:(done) Hfuel) as (s1 & u & Hl & Hf & Ht).
  exists (set_sched (note (SUpdated (queue (sched s1))) (resetSchedulerState false (sched s1))) s1),
      u, (queue (sched s1)).
  rewrite Hl. split; [done|]. cbn [sched set_sched]. simpl. rewrite Ht.
  split; [|done]. unfold s0. cbn [sched set_sched]. simpl.
  rewrite <- !app_assoc. done.
Qed.

End Flush.

Section NoTally.

Variable U : Type.
Variable beforeHook : Z -> U -> U * list Z * completion unit.
Variable config_async : bool.
Variable call_run : Z -> M U unit.
Variable call_flush : M U unit.
Variable W : Z.

Implicit Types (s : World U).

Variable Inv : World U -> Prop.

Hypothesis Inv_sched : forall s c, Inv s -> Inv (set_sched c s).

Hypothesis Inv_hook : forall s, Inv s -> no_before_hook [W] s.

Hypothesis W_requeues : forall s0,
  Inv s0 -> running W (sched s0) ->
  exists s1, call_run W s0 = (s1, Some (Return tt))
             /\ requeued W (sched s0) (sched s1) /\ Inv s1.

(** In a production build nothing is tallied: while [W] queues itself again
    the loop goes on, however many turns it is given. *)
Lemma flush_loop_unbounded fuel : forall s,
  Inv s ->
  flushing (sched s) = true -> waiting (sched s) = true ->
  at_index (queue (sched s)) (index (sched s)) = Some W ->
  Forall (fun v => W < v) (drop (Z.to_nat (index (sched s)) + 1) (queue (sched s))) ->
  (flush_loop beforeHook true config_async call_run call_flush fuel s).2 = None.
Proof.
  induction fuel as [|fuel IH]; intros s Hn Hf Hwt Hat Hgt; simpl.
  - assert ((index (sched s) <? Z.of_nat (length (queue (sched s)))) = true) as ->; [|done].
    apply Z.ltb_lt. unfold at_index in Hat. destruct (_ <? 0); [discriminate|].
    apply lookup_lt_Some in Hat. lia.
  - assert (0 <= index (sched s) < Z.of_nat (length (queue (sched s)))) as Hi.
    { unfold at_index in Hat. destruct (_ <? 0) eqn:Hneg; [discriminate|].
      apply Z.ltb_ge in Hneg. apply lookup_lt_Some in Hat. lia. }
    assert ((index (sched s) <? Z.of_nat (length (queue (sched s)))) = true) as ->
      by (apply Z.ltb_lt; lia).
    rewrite Hat. unfold bindM at 1. unfold flush_one, bindM.
    assert (run_before beforeHook true config_async call_run call_flush W s
            = (s, Some (Return tt))) as ->.
    { destruct (Inv_hook s Hn W ltac:(by left)) as (x & Hx & Hb).
      unfold run_before. by rewrite Hx, Hb. }
    unfold on_sched, modify. cbn [sched set_sched].
    set (s0 := set_sched _ (set_sched _ s)).
    destruct (W_requeues s0) as (s1 & Hr & Hq & Hn1).
    { by do 2 apply Inv_sched. }
    { unfold s0. cbn [sched set_sched]. split; [done|]. split; [done|].
      split; [unfold has_null; simpl; by rewrite lookup_insert_eq|]. split; done. }
    rewrite Hr. simpl.
    destruct Hq as (Hf1 & Hw1 & Hi1 & Hc1 & Ht1 & Hh1 & rest & Hq1 & Hr1).
    unfold s0 in Hi1, Hq1. cbn [sched set_sched] in Hi1, Hq1. simpl in Hi1, Hq1.
    assert (length (take (Z.to_nat (index (sched s)) + 1) (queue (sched s)))
            = (Z.to_nat (index (sched s)) + 1)%nat) as Hlen.
    { rewrite length_take. lia. }
    apply IH.
    + by apply Inv_sched.
    + done.
    + done.
    + cbn [sched set_sched]. simpl. rewrite Hq1, Hi1.
      unfold at_index. destruct (_ <? 0) eqn:Hneg; [apply Z.ltb_lt in Hneg; lia|].
      rewrite lookup_app_r by (rewrite Hlen; lia).
      rewrite Hlen.
      replace (Z.to_nat (index (sched s) + 1) - (Z.to_nat (index (sched s)) + 1))%nat
        with 0%nat by lia.
      done.
    + cbn [sched set_sched]. simpl. rewrite Hq1, Hi1.
      rewrite drop_app_ge by (rewrite Hlen; lia). rewrite Hlen.
      replace (Z.to_nat (index (sched s) + 1) + 1 - (Z.to_nat (index (sched s)) + 1))%nat
        with 1%nat by lia.
      done.
Qed.

Lemma flush_unbounded fuel s post :
  merge_sort Z.le (queue (sched s)) = W :: post ->
  Forall (fun v => W < v) post ->
  waiting (sched s) = true ->
  Inv s ->
  (flushSchedulerQueue beforeHook true config_async call_run call_flush fuel s).2 = None.
Proof.
  intros Hq Hpost Hwt Hn. unfold flushSchedulerQueue, on_sched, modify.
  unfold bindM at 1. set (s0 := set_sched _ s).
  pose proof (flush_loop_unbounded fuel s0) as Hl.
  unfold bindM.
  destruct (flush_loop beforeHook true config_async call_run call_flush fuel s0)
    as [s1 [r|]] eqn:Hloop; [|done].
  exfalso. simpl in Hl. enough (Some r = None) by discriminate. apply Hl.
  - by apply Inv_sched.
  - done.
  - done.
  - unfold s0. cbn [sched set_sched]. simpl. by rewrite Hq.
  - unfold s0. cbn [sched set_sched]. simpl. by rewrite Hq.
Qed.

End NoTally.

(** Without a hook nothing is done before the run. *)
Lemma run_before_no_hook (U : Type) beforeHook production config_async call_run call_flush
    (l : list Z) (v : Z) (s : World U) :
  no_before_hook l s -> v ∈ l ->
  run_before beforeHook production config_async call_run call_flush v s
  = (s, Some (Return tt)).
Proof.
  intros Hl Hv. destruct (Hl v Hv) as (x & Hx & Hb).
  unfold run_before. by rewrite Hx, Hb.
Qed.

(** One level of the closed interpreter. *)
Lemma exec_flush_S (U : Type) getter deepReads cb beforeHook production config_async f :
  @exec_flush U getter deepReads cb beforeHook production config_async (S f)
  = flushSchedulerQueue beforeHook production config_async
      (exec_run getter deepReads cb beforeHook production config_async f)
      (exec_flush getter deepReads cb beforeHook production config_async f) f.
Proof. reflexivity. Qed.

(** *** The small application *)

Lemma counts_set_sched s c : Scenario.counts s -> Scenario.counts (set_sched c s).
Proof. intros H. exact H. Qed.

Lemma counts_no_before_hook s : Scenario.counts s -> no_before_hook ([0] ++ [1]) s.
Proof.
  intros [H0 (n & H1 & _)] v Hv.
  apply elem_of_cons in Hv as [->|Hv]; [by eexists|].
  apply list_elem_of_singleton in Hv as ->. by eexists.
Qed.

(** An evaluation of the counter's watcher returns the counter and leaves
    the watcher as it was. *)
Lemma get_counting (s : World Z) n :
  watchers s !! 1 = Some (Scenario.counting_watcher n) ->
  exists s1,
    get Scenario.app_getter Scenario.no_deep_reads 1 s = (s1, Return (VNum (app s)))
    /\ watchers s1 !! 1 = Some (Scenario.counting_watcher n)
    /\ watchers s1 !! 0 = watchers s !! 0
    /\ app s1 = app s /\ subs s1 = subs s /\ sched s1 = sched s.
Proof.
  intros Hx. unfold get. rewrite Hx.
  unfold Scenario.app_getter. simpl.
  unfold depend. simpl. unfold addDep. simpl. rewrite Hx. simpl.
  rewrite decide_False by set_solver. rewrite decide_True by set_solver.
  assert (({[10]} ∪ ∅ : gset Z) = {[10]}) as -> by set_solver.
  unfold cleanupDeps. simpl. rewrite lookup_insert_eq. simpl.
  unfold drop_stale. simpl. rewrite decide_True by set_solver.
  eexists. split; [reflexivity|]. simpl. rewrite lookup_insert_eq.
  rewrite !lookup_insert_ne by done. done.
Qed.

(** A run of the counter's watcher, with the interpreter as it is: the
    callback sets the counter, Dep 10 notifies the watcher, and the watcher
    is queued again. *)
Lemma run_counting production f (s : World Z) :
  Scenario.counts s -> running 1 (sched s) ->
  exists s1,
    exec_run Scenario.app_getter Scenario.no_deep_reads Scenario.bump Scenario.no_hook
             production true (S f) 1 s
    = (s1, Some (Return tt))
    /\ requeued 1 (sched s) (sched s1) /\ Scenario.counts s1.
Proof.
  intros [H0 (n & Hx & Hn & Hs)] Hr. simpl. unfold run. rewrite Hx. simpl.
  destruct (get_counting s n Hx) as (s1 & Hg & Hx1 & H01 & Ha & Hsb & Hsc).
  unfold bindM, lift. rewrite Hg. rewrite Hx1. simpl.
  unfold strict_eq. rewrite bool_decide_eq_false_2 by congruence. simpl.
  unfold invokeWithErrorHandling, writes, Scenario.bump. simpl.
  unfold bindM at 1. unfold bindM at 1. unfold notify. simpl.
  unfold subs_of in *. simpl. rewrite Hsb, Hs. simpl.
  unfold bindM at 1. unfold update. simpl. rewrite lookup_insert_eq. simpl.
  pose proof Hr as (Hf & Hwt & Hh & Hat & Hgt).
  assert (0 <= index (sched s)) as Hi.
  { unfold at_index in Hat. destruct (_ <? 0) eqn:Hneg; [discriminate|].
    by apply Z.ltb_ge in Hneg. }
  pose proof (enqueue_requeued 1 (sched s) Hr Hi) as Hq.
  unfold queueWatcher. simpl. rewrite Hsc, Hh.
  pose proof Hq as (Hf1 & Hw1 & Hrest). rewrite Hw1. simpl.
  eexists. split; [reflexivity|]. simpl. split; [done|]. split.
  - cbn [watchers set_sched set_app emit set_watcher].
    rewrite lookup_insert_ne by done. by rewrite H01.
  - exists (app s). cbn [watchers set_sched set_app emit set_watcher].
    rewrite lookup_insert_eq. unfold subs_of. simpl.
    rewrite Hsb, Hs, Ha. split; [done|]. split; [lia|done].
Qed.

(** A run of the title's watcher finds the title as it was: no callback,
    and the scheduler is left alone. *)
Lemma run_title production f (s : World Z) :
  Scenario.counts s ->
  exists s1,
    exec_run Scenario.app_getter Scenario.no_deep_reads Scenario.bump Scenario.no_hook
             production true (S f) 0 s
    = (s1, Some (Return tt))
    /\ sched s1 = sched s /\ Scenario.counts s1.
Proof.
  intros [H0 (n & Hx & Hn & Hs)]. simpl. unfold run. rewrite H0. simpl.
  unfold bindM, lift, get. rewrite H0.
  unfold Scenario.app_getter. simpl.
  unfold depend. simpl. unfold addDep. simpl. rewrite H0. simpl.
  rewrite decide_False by set_solver. rewrite decide_True by set_solver.
  assert (({[14]} ∪ ∅ : gset Z) = {[14]}) as -> by set_solver.
  unfold cleanupDeps. simpl. rewrite lookup_insert_eq. simpl.
  unfold drop_stale. simpl. rewrite decide_True by set_solver.
  simpl. rewrite lookup_insert_eq. simpl.
  eexists. split; [reflexivity|]. simpl. split; [done|]. split.
  - cbn [watchers set_watcher]. by rewrite lookup_insert_eq.
  - exists n. cbn [watchers set_watcher popTarget set_stack emit pushTarget].
    rewrite !lookup_insert_ne by done. done.
Qed.

(** *** The same with a [before] hook *)

Lemma counts_hooked_set_sched s c :
  Cases.counts_hooked s -> Cases.counts_hooked (set_sched c s).
Proof. intros H. exact H. Qed.

(** The hook of the watcher is recorded; it writes nothing. *)
Lemma hook_counting production call_run call_flush (s : World Z) :
  Cases.counts_hooked s ->
  exists s1,
    run_before Scenario.no_hook production true call_run call_flush 1 s
    = (s1, Some (Return tt))
    /\ sched s1 = note (SBefore 1) (sched s) /\ Cases.counts_hooked s1.
Proof.
  intros (n & Hx & Hn & Hs). unfold run_before. rewrite Hx. simpl.
  unfold bindM, on_sched, modify, writes, Scenario.no_hook. simpl.
  eexists. split; [reflexivity|]. split; [reflexivity|].
  exists n. done.
Qed.

Lemma get_hooked (s : World Z) n :
  watchers s !! 1 = Some (Cases.hooked_watcher n) ->
  exists s1,
    get Scenario.app_getter Scenario.no_deep_reads 1 s = (s1, Return (VNum (app s)))
    /\ watchers s1 !! 1 = Some (Cases.hooked_watcher n)
    /\ app s1 = app s /\ subs s1 = subs s /\ sched s1 = sched s.
Proof.
  intros Hx. unfold get. rewrite Hx.
  unfold Scenario.app_getter. simpl.
  unfold depend. simpl. unfold addDep. simpl. rewrite Hx. simpl.
  rewrite decide_False by set_solver. rewrite decide_True by set_solver.
  assert (({[10]} ∪ ∅ : gset Z) = {[10]}) as -> by set_solver.
  unfold cleanupDeps. simpl. rewrite lookup_insert_eq. simpl.
  unfold drop_stale. simpl. rewrite decide_True by set_solver.
  eexists. split; [reflexivity|]. simpl. rewrite lookup_insert_eq. done.
Qed.

(** A run of the watcher, with the interpreter as it is: the callback sets
    the counter, Dep 10 notifies the watcher, and the watcher is queued
    again. *)
Lemma run_hooked production f (s : World Z) :
  Cases.counts_hooked s -> running 1 (sched s) ->
  exists s1,
    exec_run Scenario.app_getter Scenario.no_deep_reads Scenario.bump Scenario.no_hook
             production true (S f) 1 s
    = (s1, Some (Return tt))
    /\ requeued 1 (sched s) (sched s1) /\ Cases.counts_hooked s1.
Proof.
  intros (n & Hx & Hn & Hs) Hr. simpl. unfold run. rewrite Hx. simpl.
  destruct (get_hooked s n Hx) as (s1 & Hg & Hx1 & Ha & Hsb & Hsc).
  unfold bindM, lift. rewrite Hg. rewrite Hx1. simpl.
  rewrite bool_decide_eq_false_2 by congruence. simpl.
  unfold writes, Scenario.bump. simpl.
  unfold bindM at 1. unfold bindM at 1. unfold notify. simpl.
  unfold subs_of in *. simpl. rewrite Hsb, Hs. simpl.
  unfold bindM at 1. unfold update. simpl. rewrite lookup_insert_eq. simpl.
  pose proof Hr as (Hf & Hwt & Hh & Hat & Hgt).
  assert (0 <= index (sched s)) as Hi.
  { unfold at_index in Hat. destruct (_ <? 0) eqn:Hneg; [discriminate|].
    by apply Z.ltb_ge in Hneg. }
  pose proof (enqueue_requeued 1 (sched s) Hr Hi) as Hq.
  unfold queueWatcher. simpl. rewrite Hsc, Hh.
  pose proof Hq as (Hf1 & Hw1 & Hrest). rewrite Hw1. simpl.
  eexists. split; [reflexivity|]. simpl. split; [done|].
  exists (app s). cbn [watchers set_sched set_app emit set_watcher].
  rewrite lookup_insert_eq. unfold subs_of. simpl.
  rewrite Hsb, Hs, Ha. split; [done|]. split; [lia|done].
Qed.

End FlushFacts.

Section ChildrenDiff.
Import JS VDom VDomFacts.
Local Open Scope Z_scope.

(** C2. Old children [a(key=1), b(key=2), c(key=3)] on host nodes 1, 2, 3
    and new children [c, a, b], each new child being the same node as the
    old child with its key: the diff patches the three pairs and issues one
    move, [insertBefore] of c's host node before a's, so that the host
    children become c, a, b; nothing is created and nothing removed. *)
Theorem C2_rotation_is_one_move
    (isTextInputType : value -> bool) (factoryError : nat -> value)
    (a b c a' b' c' : VNode) (fresh : nat) :
  key a = VNum 1 -> key b = VNum 2 -> key c = VNum 3 ->
  key a' = VNum 1 -> key b' = VNum 2 -> key c' = VNum 3 ->
  elm a = Some 1%nat -> elm b = Some 2%nat -> elm c = Some 3%nat ->
  sameVnode isTextInputType factoryError (Some a) (Some a') = Return true ->
  sameVnode isTextInputType factoryError (Some b) (Some b') = Return true ->
  sameVnode isTextInputType factoryError (Some c) (Some c') = Return true ->
  exists d',
    updateChildren isTextInputType factoryError false
      (mkDiff [Some a; Some b; Some c] [c'; a'; b'] [1; 2; 3]%nat fresh [])
    = Some (Return d')
    /\ ops d' = [Patch (Some 3%nat) 0; Move 3 (Some 1%nat);
                 Patch (Some 1%nat) 1; Patch (Some 2%nat) 2]
    /\ filter (fun o => isMove o = true) (ops d') = [Move 3 (Some 1%nat)]
    /\ filter (fun o => isCreate o = true) (ops d') = []
    /\ filter (fun o => isRemove o = true) (ops d') = []
    /\ host d' = [3; 1; 2]%nat.
Proof.
  intros Ka Kb Kc Ka' Kb' Kc' Ea Eb Ec Ha Hb Hc.
  destruct a as [ta da ka ca fa pa ea], b as [tb db kb cb fb pb eb],
    c as [tc dc kc cc fc pc ec], a' as [ta' da' ka' ca' fa' pa' ea'],
    b' as [tb' db' kb' cb' fb' pb' eb'], c' as [tc' dc' kc' cc' fc' pc' ec'].
  simpl in *. subst.
  start_diff.
  run_step step_end_start;
    try (apply sameVnode_key_ne; simpl; discriminate); try eassumption.
  run_step step_start_start; try eassumption.
  run_step step_start_start; try eassumption.
  finish_diff.
  eexists. split; [reflexivity|]. repeat split; reflexivity.
Qed.

Lemma C2_rotation_witness :
  exists d',
    updateChildren isTextInputType_web (fun _ => VUndef) false
      (mkDiff [Some (li 1 (Some 1%nat)); Some (li 2 (Some 2%nat)); Some (li 3 (Some 3%nat))]
              [li 3 None; li 1 None; li 2 None] [1; 2; 3]%nat 4%nat [])
    = Some (Return d')
    /\ ops d' = [Patch (Some 3%nat) 0; Move 3 (Some 1%nat);
                 Patch (Some 1%nat) 1; Patch (Some 2%nat) 2]
    /\ filter (fun o => isMove o = true) (ops d') = [Move 3 (Some 1%nat)]
    /\ filter (fun o => isCreate o = true) (ops d') = []
    /\ filter (fun o => isRemove o = true) (ops d') = []
    /\ host d' = [3; 1; 2]%nat.
Proof.
  apply (C2_rotation_is_one_move isTextInputType_web (fun _ => VUndef)
           (li 1 (Some 1%nat)) (li 2 (Some 2%nat)) (li 3 (Some 3%nat))
           (li 1 None) (li 2 None) (li 3 None) 4%nat); reflexivity.
Defined.

(** C3. Old children [a(key=1), b(key=2)] on host nodes 1, 2 and new
    children [a, x(key=9), b], the new a and b being the same nodes as the
    old ones: the diff patches the two pairs and creates one host node, for
    x, inserted before b's; nothing is moved or removed. *)
Theorem C3_insertion_is_one_create
    (isTextInputType : value -> bool) (factoryError : nat -> value)
    (a b a' x b' : VNode) :
  key a = VNum 1 -> key b = VNum 2 ->
  key a' = VNum 1 -> key x = VNum 9 -> key b' = VNum 2 ->
  elm a = Some 1%nat -> elm b = Some 2%nat ->
  sameVnode isTextInputType factoryError (Some a) (Some a') = Return true ->
  sameVnode isTextInputType factoryError (Some b) (Some b') = Return true ->
  exists d',
    updateChildren isTextInputType factoryError false
      (mkDiff [Some a; Some b] [a'; x; b'] [1; 2]%nat 3%nat [])
    = Some (Return d')
    /\ ops d' = [Patch (Some 1%nat) 0; Patch (Some 2%nat) 2; Create 3 (Some 2%nat)]
    /\ filter (fun o => isCreate o = true) (ops d') = [Create 3 (Some 2%nat)]
    /\ filter (fun o => isRemove o = true) (ops d') = []
    /\ filter (fun o => isMove o = true) (ops d') = []
    /\ (elm <$> newCh d') !! 1%nat = Some (Some 3%nat)
    /\ host d' = [1; 3; 2]%nat.
Proof.
  intros Ka Kb Ka' Kx Kb' Ea Eb Ha Hb.
  destruct a as [ta da ka ca fa pa ea], b as [tb db kb cb fb pb eb],
    a' as [ta' da' ka' ca' fa' pa' ea'], x as [tx dx kx cx fx px ex],
    b' as [tb' db' kb' cb' fb' pb' eb'].
  simpl in *. subst.
  start_diff.
  run_step step_start_start; try eassumption.
  run_step step_end_end;
    try (apply sameVnode_key_ne; simpl; discriminate); try eassumption.
  finish_diff.
  eexists. split; [reflexivity|]. repeat split; reflexivity.
Qed.

Lemma C3_insertion_witness :
  exists d',
    updateChildren isTextInputType_web (fun _ => VUndef) false
      (mkDiff [Some (li 1 (Some 1%nat)); Some (li 2 (Some 2%nat))]
              [li 1 None; li 9 None; li 2 None] [1; 2]%nat 3%nat [])
    = Some (Return d')
    /\ ops d' = [Patch (Some 1%nat) 0; Patch (Some 2%nat) 2; Create 3 (Some 2%nat)]
    /\ filter (fun o => isCreate o = true) (ops d') = [Create 3 (Some 2%nat)]
    /\ filter (fun o => isRemove o = true) (ops d') = []
    /\ filter (fun o => isMove o = true) (ops d') = []
    /\ (elm <$> newCh d') !! 1%nat = Some (Some 3%nat)
    /\ host d' = [1; 3; 2]%nat.
Proof.
  apply (C3_insertion_is_one_create isTextInputType_web (fun _ => VUndef)
           (li 1 (Some 1%nat)) (li 2 (Some 2%nat))
           (li 1 None) (li 9 None) (li 2 None)); reflexivity.
Defined.

(** C10, as the code has it. [findIdxInOld(node, oldCh, start, end)]
    answers only with an index [i], [start <= i < end], and what the slot
    [end] holds has no part in its answer. No reuse is lost by that. In the
    fallback the old child at the end cursor has been compared with the new
    start child by the fourth probe, which failed, and the same comparison
    guards the reuse of a node the search has found: had the search for a
    new start child without a key gone through the slot of the end cursor,
    and returned, the turn of the loop would be what it is. *)
Theorem C10_findIdxInOld_stops_before_old_end :
  (forall itt fe node oldCh start end_ i,
     findIdxInOld itt fe node oldCh start end_ = Return (Some i) ->
     start <= i < end_)
  /\ (forall itt fe node oldCh start end_ x,
        0 <= end_ ->
        findIdxInOld itt fe node (<[Z.to_nat end_ := x]> oldCh) start end_
        = findIdxInOld itt fe node oldCh start end_)
  /\ (forall itt fe cm osi nsi oei nei o1 o2 n1 nev k2i d m r',
        sameVnode itt fe (Some o1) (Some n1) = Return false ->
        sameVnode itt fe (Some o2) nev = Return false ->
        sameVnode itt fe (Some o1) nev = Return false ->
        sameVnode itt fe (Some o2) (Some n1) = Return false ->
        match k2i with
        | Some m => Return m
        | None => createKeyToOldIdx (oldCh d) osi oei
        end = Return m ->
        isDef (key n1) = false ->
        old_at d oei = Some o2 ->
        osi <= oei ->
        findIdxInOld itt fe (Some n1) (oldCh d) osi (oei + 1) = Return r' ->
        step itt fe cm (mkCur osi nsi oei nei (Some o1) (Some o2) (Some n1) nev k2i) d =
        d2 ← reuse_or_create itt fe cm nsi (Some n1) (elm o1) (found r') d;
        Return (mkCur osi (nsi + 1) oei nei (Some o1) (Some o2) (new_at d2 (nsi + 1)) nev
                      (Some m), d2)).
Proof.
  split; [|split].
  - intros itt fe node oldCh start end_ i. apply findIdxInOld_range.
  - intros itt fe node oldCh start end_ x. apply findIdxInOld_blind.
  - intros itt fe cm osi nsi oei nei o1 o2 n1 nev k2i d m r'.
    apply step_keyless_through.
Qed.

(** Old children [<p>], [<span>] and one new child [<div>], none with a
    key: the turn of the fallback. *)
Lemma C10_findIdxInOld_witness :
  let d := mkDiff [Some (plain "p" (Some 1%nat)); Some (plain "span" (Some 2%nat))]
                  [plain "div" None] [1; 2]%nat 3%nat [] in
  step isTextInputType_web (fun _ => VUndef) true
    (mkCur 0 0 1 0 (Some (plain "p" (Some 1%nat))) (Some (plain "span" (Some 2%nat)))
           (Some (plain "div" None)) (Some (plain "div" None)) None) d
  = d2 ← reuse_or_create isTextInputType_web (fun _ => VUndef) true 0
           (Some (plain "div" None)) (Some 1%nat) (found None) d;
    Return (mkCur 0 (0 + 1) 1 0 (Some (plain "p" (Some 1%nat)))
                  (Some (plain "span" (Some 2%nat))) (new_at d2 (0 + 1))
                  (Some (plain "div" None)) (Some ∅), d2).
Proof.
  apply (proj2 (proj2 C10_findIdxInOld_stops_before_old_end) isTextInputType_web
           (fun _ => VUndef) true 0 0 1 0 (plain "p" (Some 1%nat))
           (plain "span" (Some 2%nat)) (plain "div" None) (Some (plain "div" None)) None
           (mkDiff [Some (plain "p" (Some 1%nat)); Some (plain "span" (Some 2%nat))]
                   [plain "div" None] [1; 2]%nat 3%nat [])
           ∅ None); try reflexivity.
  lia.
Defined.

(** C10, as stated, fails: no element is created in place of a reuse of
    the old child at the end cursor. Wherever the fourth probe has failed
    and the search finds nothing, so that the new start child is created,
    placing it by the answer [oldEndIdx] would create it all the same. *)
Lemma C10_no_reuse_is_lost_at_old_end :
  ~ exists (itt : value -> bool) (fe : nat -> value) (cm : bool) (osi nsi oei : Z)
           (nsv : option VNode) (rr : option nat) (d : diff),
      sameVnode itt fe (old_at d oei) nsv = Return false
      /\ findIdxInOld itt fe nsv (oldCh d) osi oei = Return None
      /\ reuse_or_create itt fe cm nsi nsv rr (Own oei) d <> createElm nsi rr d.
Proof.
  intros (itt & fe & cm & osi & nsi & oei & nsv & rr & d & Hp4 & _ & Hne).
  apply Hne. unfold reuse_or_create. by rewrite Hp4.
Qed.

End ChildrenDiff.

Section Arrays.
Import JS ArrayMethods.

(** C9. Whenever the host's method returns, the patched method has called it
    first, returns its result unchanged, has handed the inserted elements to
    [observeArray] (all arguments for [push] and [unshift], those from the
    third on for [splice], no call for the other four) and has then notified
    the array's Dep, once, as the last thing it does. *)
Theorem C9_mutator_calls
    (R : Type) (original : method -> list value -> list value -> list value * completion R)
    (m : method) (this : Arr) (args items' : list value) (r : R) :
  original m (items this) args = (items', Return r) ->
  exists calls,
    mutator original m this args = (mkArr items' (__ob__ this), calls, Return r)
    /\ head calls = Some (Original m args)
    /\ filter (fun c => isObserveArray c = true) calls
       = match m with
         | push | unshift => [ObserveArray args]
         | splice => [ObserveArray (drop 2 args)]
         | pop | shift | sort | reverse => []
         end
    /\ filter (fun c => isNotify c = true) calls = [Notify (__ob__ this)]
    /\ last calls = Some (Notify (__ob__ this))
    /\ calls = Original m args
               :: filter (fun c => isObserveArray c = true) calls
               ++ [Notify (__ob__ this)].
Proof.
  intros Ho. unfold mutator. rewrite Ho. eexists. split; [reflexivity|].
  destruct m; simpl; repeat split; reflexivity.
Qed.

Lemma C9_mutator_witness :
  exists calls,
    mutator (fun _ => native_push) push (mkArr [VNum 1] 5) [VNum 2; VNum 3]
    = (mkArr [VNum 1; VNum 2; VNum 3] 5, calls, Return (VNum 3))
    /\ head calls = Some (Original push [VNum 2; VNum 3])
    /\ filter (fun c => isObserveArray c = true) calls = [ObserveArray [VNum 2; VNum 3]]
    /\ filter (fun c => isNotify c = true) calls = [Notify 5]
    /\ last calls = Some (Notify 5)
    /\ calls = Original push [VNum 2; VNum 3]
               :: filter (fun c => isObserveArray c = true) calls ++ [Notify 5].
Proof.
  apply (C9_mutator_calls value (fun _ => native_push) push (mkArr [VNum 1] 5)
           [VNum 2; VNum 3] [VNum 1; VNum 2; VNum 3] (VNum 3)).
  reflexivity.
Defined.

End Arrays.

Section Queueing.
Import JS Reactive SchedulerFacts.
Local Open Scope Z_scope.


End Queueing.

Section Evaluating.
Import JS Reactive WatcherFacts Scenario.
Local Open Scope Z_scope.

(** C7. A run of an active watcher whose evaluation returns [v]. The
    evaluation calls no callback and leaves the cached value and the
    application state as they were. When [v] is not the cached value by
    [!==] (it is another value, or it is [NaN]), or is an object, or the
    watcher is deep, the cache is set to [v] and the callback is called
    with [v] and the value cached before: its code runs on the application
    state, the Deps it has written to are notified, and what it throws goes
    to [handleError] for a user watcher and to the caller otherwise. In
    every other case the run ends with the evaluation. *)
Theorem C7_run_calls_back_iff_changed
    (U : Type) (getter : Z -> U -> list Z * completion JS.value)
    (deepReads : JS.value -> U -> list Z * completion unit)
    (cb : Z -> JS.value -> JS.value -> U -> U * list Z * completion unit)
    (production config_async : bool) (call_run : Z -> M U unit) (call_flush : M U unit)
    (w : Z) (s s1 : World U) (x : Watcher) (v : JS.value)
    (u : U) (ds : list Z) (r : completion unit) :
  watchers s !! w = Some x ->
  active x = true ->
  get getter deepReads w s = (s1, Return v) ->
  cb w v (value x) (app s1) = (u, ds, r) ->
  let oldValue := value x in
  let changed := v <> oldValue \/ v = VNaN \/ isObject v = true \/ deep x = true in
  exists x1 l,
    watchers s1 !! w = Some x1 /\ value x1 = oldValue /\ app s1 = app s
    /\ log s1 = log s ++ l /\ Forall (own_event w) l
    /\ (changed ->
        let s2 := mkWorld u (<[w := with_value x1 v]> (watchers s1)) (vms s1) (subs s1)
                          (targetStack s1) (sched s1)
                          (log s1 ++ [ECallback w v oldValue]) in
        run getter deepReads cb production config_async call_run call_flush w s
        = match for_each (notify production config_async call_run call_flush) ds s2 with
          | (s3, None) => (s3, None)
          | (s3, Some (Return _)) =>
              match r with
              | Return _ => (s3, Some (Return tt))
              | Throw e =>
                  if user x then (emit (EHandleError e w) s3, Some (Return tt))
                  else (s3, Some (Throw e))
              end
          | (s3, Some (Throw e)) =>
              if user x then (emit (EHandleError e w) s3, Some (Return tt))
              else (s3, Some (Throw e))
          end)
    /\ (~ changed ->
        run getter deepReads cb production config_async call_run call_flush w s
        = (s1, Some (Return tt))).
Proof.
  intros Hx Ha Hg Hcb oldValue changed.
  destruct (evaluates_get U getter deepReads w s s1 _ Hg)
    as (Happ & _ & _ & _ & Hw & l & Hl & Hf).
  destruct (Hw x Hx) as (x1 & Hx1 & Hc).
  destruct Hc as (_ & Hdeep & Huser & _ & _ & _ & _ & _ & Hval).
  exists x1, l. split; [done|]. split; [done|]. split; [done|]. split; [done|].
  split; [done|].
  assert (changed <-> negb (strict_eq v (value x1)) || isObject v || deep x1 = true)
    as Hch.
  { unfold changed, oldValue. rewrite <- Hval, <- Hdeep.
    rewrite !orb_true_iff, negb_true_iff, JSFacts.strict_eq_false. tauto. }
  unfold run. rewrite Hx, Ha. unfold bindM, lift. rewrite Hg, Hx1. split.
  - intros Hyes. apply Hch in Hyes. rewrite Hyes. cbv zeta.
    unfold invokeWithErrorHandling, writes, bindM, set_app, emit, set_watcher.
    cbn [app watchers vms subs targetStack sched log].
    rewrite <- Hval, <- Huser, Hcb. fold oldValue.
    destruct (for_each _ ds _) as [s3 [[[]|e]|]]; destruct r as [[]|e'];
      destruct (user x); reflexivity.
  - intros Hno.
    destruct (negb (strict_eq v (value x1)) || isObject v || deep x1) eqn:Hb;
      [|reflexivity].
    exfalso. apply Hno. by apply Hch.
Qed.

(** The counter's watcher, which has not run yet, finds the counter at 0:
    the callback is called with 0 and [undefined] and sets the counter to
    1. The title's watcher finds the title it holds: nothing is called. *)
Lemma C7_run_witness :
  (let s' := (run app_getter no_deep_reads bump false true
                  (fun _ s => (s, None)) (fun s => (s, None)) 1 (world idle)).1 in
   app (world idle) = 0 /\ app s' = 1
   /\ log s' = [EGetter 1; EAddSub 10 1; ECallback 1 (VNum 0) VUndef]
   /\ value <$> watchers s' !! 1 = Some (VNum 0))
  /\ (let s' := (run app_getter no_deep_reads bump false true
                     (fun _ s => (s, None)) (fun s => (s, None)) 0 (counting idle)).1 in
      app (counting idle) = 1 /\ app s' = 1
      /\ log s' = [EGetter 0]
      /\ value <$> watchers s' !! 0 = Some (VStr "title")).
Proof.
  split.
  - destruct (C7_run_calls_back_iff_changed Z app_getter no_deep_reads bump false true
                (fun _ s => (s, None)) (fun s => (s, None)) 1 (world idle)
                (get app_getter no_deep_reads 1 (world idle)).1 watcher1 (VNum 0)
                1 [10] (Return tt))
      as (x1 & l & H1 & _ & _ & _ & _ & Hyes & _);
      [reflexivity | reflexivity | reflexivity | reflexivity |].
    vm_compute in H1. injection H1 as <-.
    cbv zeta. rewrite Hyes by (left; discriminate).
    vm_compute. repeat split; reflexivity.
  - destruct (C7_run_calls_back_iff_changed Z app_getter no_deep_reads bump false true
                (fun _ s => (s, None)) (fun s => (s, None)) 0 (counting idle)
                (get app_getter no_deep_reads 0 (counting idle)).1 title_watcher
                (VStr "title") 2 [10] (Return tt))
      as (x1 & l & _ & _ & _ & _ & _ & _ & Hno);
      [reflexivity | reflexivity | reflexivity | reflexivity |].
    cbv zeta. rewrite Hno by (intros [?|[?|[?|?]]]; done).
    vm_compute. repeat split; reflexivity.
Defined.

(** C6, where it fails. Watcher 2 is deep and its value has a nested
    accessor that throws: the traversal in the [finally] block throws, and
    [get] is left with the watcher still on the target stack, its old Deps
    still current and the collected ones still in the new-set containers. *)
Theorem C6_throwing_traversal_skips_cleanup :
  exists s' x',
    get app_getter throwing_accessor 2 (world idle)
    = (s', Throw (VStr "accessor failed"))
    /\ targetStack (world idle) = []
    /\ targetStack s' = [Some 2]
    /\ watchers s' !! 2 = Some x'
    /\ deps x' = [13] /\ newDeps x' = [11; 12]
    /\ subs s' !! 13 = Some [2].
Proof.
  eexists _, _. split; [vm_compute; reflexivity|]. repeat split; reflexivity.
Qed.

End Evaluating.

Section TornDown.
Import JS Reactive TeardownFacts Scenario.
Local Open Scope Z_scope.

(** C8. Once [teardown] has returned the watcher is inactive and stays so:
    whatever invalidations, notifications, flushes and teardowns follow, and
    however far each of them gets, neither the getter nor the callback of
    the watcher is called; and [teardown], called again at once or at any
    later time, changes nothing. *)
Theorem C8_torn_down_watcher_is_never_run
    (U : Type) (getter : Z -> U -> list Z * completion JS.value)
    (deepReads : JS.value -> U -> list Z * completion unit)
    (cb : Z -> JS.value -> JS.value -> U -> U * list Z * completion unit)
    (beforeHook : Z -> U -> U * list Z * completion unit)
    (production config_async : bool) (fuel : nat)
    (w : Z) (s s1 : World U) (stimuli : list stimulus) :
  teardown w s = (s1, Return tt) ->
  let s2 := stimulate_all getter deepReads cb beforeHook production config_async
                          fuel stimuli s1 in
  inactive w s1 /\ inactive w s2
  /\ (exists l, log s2 = log s1 ++ l /\ Forall (not_run_of w) l)
  /\ teardown w s1 = (s1, Return tt)
  /\ teardown w s2 = (s2, Return tt).
Proof.
  intros Ht s2.
  pose proof (teardown_inactive U w s s1 Ht) as Hi1.
  pose proof (silent_stimulate_all U getter deepReads cb beforeHook production
                config_async w fuel stimuli s1 Hi1) as [Hi2 Hl].
  split; [done|]. split; [done|]. split; [done|].
  split; by apply teardown_idem.
Qed.

Lemma C8_torn_down_witness :
  let s1 := (teardown 1 (world pending1)).1 in
  let s2 := stimulate_all app_getter no_deep_reads bump no_hook false true 300
              [Invalidate 1; NextTick; NotifyDep 10; Teardown 1; Invalidate 2; NextTick] s1 in
  inactive 1 s1 /\ inactive 1 s2
  /\ (exists l, log s2 = log s1 ++ l /\ Forall (not_run_of 1) l)
  /\ teardown 1 s1 = (s1, Return tt)
  /\ teardown 1 s2 = (s2, Return tt).
Proof.
  apply (C8_torn_down_watcher_is_never_run Z app_getter no_deep_reads bump no_hook
           false true 300 1 (world pending1)).
  vm_compute. reflexivity.
Defined.

End TornDown.

Section Flushing.
Import JS Reactive SchedulerSpec FlushFacts Scenario Cases.
Local Open Scope Z_scope.





End Flushing.

Module DiffFacts.
Import JS VDom VDomFacts DiffSpec.
Local Arguments sameVnode : simpl never.
Local Open Scope Z_scope.

Section RemoveOnly.

Variable isTextInputType : value -> bool.
Variable factoryError : nat -> value.

Local Abbreviation step := (VDom.step isTextInputType factoryError).
Local Abbreviation loop := (VDom.loop isTextInputType factoryError).


Lemma unmoved_refl d : unmoved d d.
Proof. exists []. split; [unfold issued; by rewrite app_nil_r | constructor]. Qed.

Lemma unmoved_trans d1 d2 d3 : unmoved d1 d2 -> unmoved d2 d3 -> unmoved d1 d3.
Proof.
  intros (l1 & H1 & F1) (l2 & H2 & F2). exists (l1 ++ l2).
  unfold issued in *. split; [by rewrite H2, H1, app_assoc | by apply Forall_app].
Qed.

Lemma unmoved_patch o i d d' : patch o i d = Return d' -> unmoved d d'.
Proof.
  destruct o as [o|]; [|discriminate]. intros [= <-].
  exists [Patch (elm o) i]. split; [reflexivity | by repeat constructor].
Qed.

Lemma unmoved_createElm i r d d' : createElm i r d = Return d' -> unmoved d d'.
Proof.
  unfold createElm. destruct (insert (host d) (fresh d) r) as [h|e]; [|discriminate].
  intros [= <-]. exists [Create (fresh d) r]. split; [reflexivity | by repeat constructor].
Qed.

Lemma unmoved_clear_old i d : unmoved d (clear_old i d).
Proof. exists []. split; [unfold issued; simpl; by rewrite app_nil_r | constructor]. Qed.

Lemma unmoved_move_off e r d d' : move false e r d = Return d' -> unmoved d d'.
Proof. intros [= <-]. apply unmoved_refl. Qed.

Lemma unmoved_reuse_or_create nsi nsv r idx d d' :
  reuse_or_create isTextInputType factoryError false nsi nsv r idx d = Return d' ->
  unmoved d d'.
Proof.
  destruct idx as [i| |]; unfold reuse_or_create, mbind, completion_bind.
  - destruct (sameVnode _ _ (old_at d i) nsv) as [[|]|]; try discriminate;
      [|apply unmoved_createElm].
    destruct (patch (old_at d i) nsi d) as [d1|] eqn:Hp; try discriminate.
    destruct (elm_of (old_at d i)); try discriminate. intros [= <-].
    eapply unmoved_trans; [by apply unmoved_patch in Hp | apply unmoved_clear_old].
  - destruct (sameVnode _ _ None nsv); discriminate.
  - apply unmoved_createElm.
Qed.

Lemma unmoved_step c d c' d' : step false c d = Return (c', d') -> unmoved d d'.
Proof.
  destruct c as [osi nsi oei nei osv oev nsv nev k2i]. unfold VDom.step.
  unfold mbind, completion_bind.
  repeat (match goal with
          | |- context [match ?x with _ => _ end] => destruct x eqn:?
          | |- context [if ?x then _ else _] => destruct x eqn:?
          end; simpl; try discriminate);
  intros [= <- <-];
  repeat match goal with
         | H : patch _ _ _ = Return _ |- _ => apply unmoved_patch in H
         | H : createElm _ _ _ = Return _ |- _ => apply unmoved_createElm in H
         | H : move false _ _ _ = Return _ |- _ => apply unmoved_move_off in H
         | H : reuse_or_create _ _ false _ _ _ _ _ = Return _ |- _ =>
             apply unmoved_reuse_or_create in H
         | H : Return _ = Return _ |- _ => injection H as <-
         end;
  try apply unmoved_refl; try assumption;
  try (eapply unmoved_trans; [eassumption|]; try assumption;
       try (eapply unmoved_trans; [apply unmoved_clear_old|]; assumption)).
Qed.

Lemma unmoved_loop fuel c d c' d' :
  loop fuel false c d = Some (Return (c', d')) -> unmoved d d'.
Proof.
  revert c d. induction fuel as [|f IH]; intros c d; simpl.
  - destruct (_ && _); [discriminate|]. intros [= <- <-]. apply unmoved_refl.
  - destruct (_ && _); [|intros [= <- <-]; apply unmoved_refl].
    destruct (step false c d) as [[c1 d1]|e] eqn:Hs; [|discriminate].
    intros H. eapply unmoved_trans; [by eapply unmoved_step | by eapply IH].
Qed.

Lemma unmoved_addVnodes_from n r i d d' : addVnodes_from n r i d = Return d' -> unmoved d d'.
Proof.
  revert i d. induction n as [|n IH]; intros i d; simpl.
  - intros [= <-]. apply unmoved_refl.
  - destruct (createElm i r d) as [d1|e] eqn:Hc; [|discriminate]. simpl.
    intros H. eapply unmoved_trans; [by eapply unmoved_createElm | by eapply IH].
Qed.

Lemma unmoved_removeVnodes_from n i d d' : removeVnodes_from n i d = Return d' -> unmoved d d'.
Proof.
  revert i d. induction n as [|n IH]; intros i d; simpl.
  - intros [= <-]. apply unmoved_refl.
  - destruct (mjoin (at_index (oldCh d) i)) as [ch|]; simpl.
    + destruct (removeNode (elm ch) d) as [d1|e] eqn:Hr; [|discriminate]. simpl.
      intros H. eapply unmoved_trans; [|by eapply IH].
      unfold removeNode in Hr. destruct (elm ch); [|discriminate]. injection Hr as <-.
      eexists. split; [reflexivity | by repeat constructor].
    + apply IH.
Qed.

Lemma unmoved_updateChildren d d' :
  updateChildren isTextInputType factoryError true d = Some (Return d') -> unmoved d d'.
Proof.
  unfold updateChildren. simpl.
  destruct (VDom.loop _ _ _ _ _ _) as [[[c d1]|e]|] eqn:Hl; try discriminate.
  intros [= Hf]. eapply unmoved_trans; [by eapply unmoved_loop|].
  unfold finish in Hf. destruct (_ >? _).
  - by eapply unmoved_addVnodes_from.
  - destruct (_ >? _); [by eapply unmoved_removeVnodes_from|].
    injection Hf as <-. apply unmoved_refl.
Qed.

End RemoveOnly.
End DiffFacts.

Module SameFacts.
Import JS VDom JSFacts VDomFacts DiffSpec.
Local Open Scope Z_scope.

Section Same.
Variable isTextInputType : value -> bool.
Variable factoryError : nat -> value.
Local Abbreviation same := (sameVnode isTextInputType factoryError).

(** A node that is no async placeholder is the same as itself unless its
    key is [NaN], or it is an [input] whose [type] is [NaN]. *)
Lemma sameVnode_refl a :
  isAsyncPlaceholder a = false ->
  same (Some a) (Some a) = Return true
  <-> key a <> VNaN
      /\ (tag a = Some "input" ->
          inputType a <> VNaN \/ isTextInputType (inputType a) = true).
Proof.
  intros Ha. rewrite sameVnode_true_iff. unfold sameness, identical. split.
  - intros ([_ Hk] & _ & [(_ & _ & _ & Hi)|[Hp _]]); [|congruence].
    split; [done|]. intros Ht. destruct (Hi Ht) as [[_ Hn]|[Hx _]]; [by left | by right].
  - intros [Hk Hi]. split; [done|]. split; [done|]. left.
    split; [done|]. split; [done|]. split; [done|].
    intros Ht. destruct (Hi Ht) as [Hn|Hx]; [by left | by right].
Qed.

Lemma sameInputType_sym a b :
  tag a = tag b -> sameInputType isTextInputType a b = sameInputType isTextInputType b a.
Proof.
  intros Ht. unfold sameInputType. rewrite <- Ht.
  destruct (negb _); [done|].
  rewrite (andb_comm (isTextInputType (inputType b))).
  f_equal. apply strict_eq_sym.
Qed.

Lemma sameVnode_sym a b :
  isAsyncPlaceholder a = false -> isAsyncPlaceholder b = false ->
  same (Some a) (Some b) = same (Some b) (Some a).
Proof.
  intros Ha Hb. unfold sameVnode. rewrite Ha, Hb.
  rewrite (strict_eq_sym (key b) (key a)).
  rewrite (bool_decide_ext (asyncFactory b = asyncFactory a) (asyncFactory a = asyncFactory b))
    by (split; congruence).
  destruct (_ && _); [|done].
  rewrite (bool_decide_ext (tag b = tag a) (tag a = tag b)) by (split; congruence).
  rewrite (bool_decide_ext (isComment b = isComment a) (isComment a = isComment b))
    by (split; congruence).
  rewrite (bool_decide_ext (isDefO (data b) = isDefO (data a))
             (isDefO (data a) = isDefO (data b))) by (split; congruence).
  case_bool_decide as Ht; simpl; [|done].
  by rewrite (sameInputType_sym a b Ht).
Qed.

Lemma sameVnode_trans a b c :
  isAsyncPlaceholder a = false -> isAsyncPlaceholder b = false ->
  same (Some a) (Some b) = Return true -> same (Some b) (Some c) = Return true ->
  same (Some a) (Some c) = Return true.
Proof.
  intros Ha Hb. rewrite !sameVnode_true_iff. unfold sameness.
  unfold identical.
  intros ([K1 N1] & F1 & [(T1 & C1 & D1 & I1)|(P1 & _)])
         ([K2 N2] & F2 & [(T2 & C2 & D2 & I2)|(P2 & _)]);
    try congruence.
  split; [split; congruence|]. split; [congruence|]. left.
  split; [congruence|]. split; [congruence|]. split; [congruence|].
  intros Hin. specialize (I1 Hin). specialize (I2 ltac:(congruence)).
  destruct I1 as [[I1 M1]|[I1 I1']], I2 as [[I2 M2]|[I2 I2']].
  - left. split; congruence.
  - right. split; [congruence | done].
  - right. split; [done | congruence].
  - right. done.
Qed.

End Same.
End SameFacts.

Module UnchangedFacts.
Import JS VDom VDomFacts DiffSpec.
Local Arguments sameVnode : simpl never.
Local Open Scope Z_scope.

Section Unchanged.
Variable isTextInputType : value -> bool.
Variable factoryError : nat -> value.
Local Abbreviation same := (sameVnode isTextInputType factoryError).
Local Abbreviation step := (VDom.step isTextInputType factoryError).
Local Abbreviation loop := (VDom.loop isTextInputType factoryError).

Lemma at_index_app_r {A} (l1 l2 : list A) (i : Z) :
  i = Z.of_nat (length l1) -> at_index (l1 ++ l2) i = head l2.
Proof.
  intros ->. unfold at_index.
  destruct (_ <? 0) eqn:H; [apply Z.ltb_lt in H; lia|].
  rewrite Nat2Z.id. rewrite lookup_app_r by lia.
  replace (length l1 - length l1)%nat with 0%nat by lia. by destruct l2.
Qed.

Lemma set_new_elm_app l1 x l2 i e :
  i = Z.of_nat (length l1) ->
  set_new_elm i e (l1 ++ x :: l2) = l1 ++ set_elm x e :: l2.
Proof.
  intros ->. unfold set_new_elm.
  destruct (_ <? 0) eqn:H; [apply Z.ltb_lt in H; lia|].
  rewrite Nat2Z.id. rewrite alter_app_r_alt by lia.
  replace (length l1 - length l1)%nat with 0%nat by lia. done.
Qed.

Lemma old_at_fmap d (l : list VNode) i :
  oldCh d = Some <$> l -> old_at d i = at_index l i.
Proof.
  intros H. unfold old_at, at_index. rewrite H. destruct (_ <? 0); [done|].
  rewrite list_lookup_fmap. by destruct (l !! _).
Qed.

Lemma loop_unchanged cm (rest : list VNode) :
  forall (rest' : list VNode) done done' d o2 osv nsv nev k2i fuel k e,
  Forall2 (fun o n => same (Some o) (Some n) = Return true) rest rest' ->
  oldCh d = Some <$> (done ++ rest) ->
  newCh d = done' ++ rest' ->
  length done = length done' ->
  (length rest <= fuel)%nat ->
  k = Z.of_nat (length done) ->
  e = k + Z.of_nat (length rest) - 1 ->
  osv = old_at d k -> nsv = new_at d k ->
  exists c',
    loop fuel cm (mkCur k k e e osv (Some o2) nsv nev k2i) d
    = Some (Return (c', mkDiff (oldCh d) (done' ++ zip_with set_elm rest' (elm <$> rest))
                               (host d) (fresh d) (ops d ++ patches_from k rest)))
    /\ oldStartIdx c' = e + 1 /\ oldEndIdx c' = e
    /\ newStartIdx c' = e + 1 /\ newEndIdx c' = e.
Proof.
  induction rest as [|o rest IH];
    intros rest' done done' d o2 osv nsv nev k2i fuel k e HF Ho Hn Hl Hfuel Hk He -> ->.
  - apply Forall2_nil_inv_l in HF as ->. eexists.
    rewrite loop_exit.
    2:{ simpl. apply andb_false_iff. left. apply Z.leb_gt. simpl length in He. clear -He. lia. }
    simpl. rewrite !app_nil_r. rewrite app_nil_r in Hn. rewrite <- Hn.
    destruct d; simpl in *. split; [reflexivity|]. simpl. simpl length in He. clear -He. lia.
  - apply Forall2_cons_inv_l in HF as (nw & rest'' & Hsame & HF & ->).
    destruct fuel as [|fuel]; [simpl in Hfuel; lia|].
    rewrite loop_S. cbn [oldStartIdx oldEndIdx newStartIdx newEndIdx].
    assert ((k <=? e) && (k <=? e) = true) as ->.
    { apply andb_true_iff. split; apply Z.leb_le; simpl length in He; lia. }
    assert (old_at d k = Some o) as Hok.
    { unfold old_at. rewrite Ho, fmap_app.
      rewrite at_index_app_r by (rewrite length_fmap; done). done. }
    assert (new_at d k = Some nw) as Hnk.
    { unfold new_at. rewrite Hn. rewrite at_index_app_r by lia. done. }
    rewrite Hok, Hnk.
    rewrite step_start_start by exact Hsame. cbv zeta.
    set (d1 := patchVnode o k d).
    assert (newCh d1 = (done' ++ [set_elm nw (elm o)]) ++ rest'') as Hn1.
    { unfold d1. simpl. rewrite Hn. rewrite set_new_elm_app by lia.
      by rewrite <- app_assoc. }
    assert (oldCh d1 = Some <$> ((done ++ [o]) ++ rest)) as Ho1.
    { unfold d1. simpl. rewrite Ho. by rewrite <- app_assoc. }
    destruct (IH rest'' (done ++ [o]) (done' ++ [set_elm nw (elm o)]) d1 o2
                (old_at d1 (k + 1)) (new_at d1 (k + 1)) nev k2i fuel (k + 1) e
                HF Ho1 Hn1) as (c' & Hloop & Hc); try done.
    { rewrite !length_app. simpl. lia. }
    { simpl in Hfuel. lia. }
    { rewrite length_app. simpl. lia. }
    { simpl length in He. lia. }
    exists c'. rewrite Hloop. split; [|exact Hc].
    f_equal. f_equal. f_equal. unfold d1. simpl.
    rewrite <- !app_assoc. reflexivity.
Qed.

Lemma updateChildren_unchanged removeOnly (olds news : list VNode) h f ops0 :
  Forall2 (fun o n => same (Some o) (Some n) = Return true) olds news ->
  updateChildren isTextInputType factoryError removeOnly
    (mkDiff (Some <$> olds) news h f ops0)
  = Some (Return (mkDiff (Some <$> olds) (zip_with set_elm news (elm <$> olds)) h f
                         (ops0 ++ patches_from 0 olds))).
Proof.
  intros HF. unfold updateChildren.
  set (d := mkDiff (Some <$> olds) news h f ops0).
  destruct olds as [|o olds].
  - apply Forall2_nil_inv_l in HF as ->. simpl. by rewrite app_nil_r.
  - pose proof HF as HF0.
    apply Forall2_cons_inv_l in HF as (nw & news' & Hsame & HF & ->).
    assert (length (nw :: news') = length (o :: olds)) as Hlen.
    { symmetry. by eapply Forall2_length. }
    assert (exists o2, old_at d (Z.of_nat (length (oldCh d)) - 1) = Some o2) as [o2 Ho2].
    { rewrite (old_at_fmap d (o :: olds)) by done. unfold at_index.
      destruct (_ <? 0) eqn:H; [apply Z.ltb_lt in H; simpl in H; lia|].
      destruct ((o :: olds) !! Z.to_nat (Z.of_nat (length (oldCh d)) - 1)) eqn:Hl.
      - eexists. reflexivity.
      - apply lookup_ge_None in Hl. simpl in Hl. rewrite length_fmap in Hl. lia. }
    unfold init. rewrite Ho2.
    replace (Z.of_nat (length (newCh d)) - 1) with (Z.of_nat (length (oldCh d)) - 1)
      by (simpl; rewrite length_fmap; simpl in Hlen; lia).
    edestruct (loop_unchanged (negb removeOnly) (o :: olds) (nw :: news') [] [] d o2)
      as (c' & Hloop & H1 & H2 & H3 & H4);
      [exact HF0 | reflexivity | reflexivity | reflexivity | | | | | | rewrite Hloop].
    { simpl. rewrite length_fmap. lia. }
    { reflexivity. }
    { simpl. rewrite length_fmap. simpl in Hlen. lia. }
    { reflexivity. }
    { reflexivity. }
    f_equal. unfold finish. rewrite H1, H2, H3, H4.
    rewrite (proj2 (Z.gtb_lt _ _)) by lia.
    unfold addVnodes.
    replace (Z.to_nat _) with 0%nat by lia. reflexivity.
Qed.

End Unchanged.
End UnchangedFacts.

Module KeyMapFacts.
Import JS VDom JSFacts VDomFacts KeyMapSpec.
Local Open Scope Z_scope.

(** The own properties after the child at [i] has been entered. *)
Lemma set_prop_keyed children i c map s j :
  mjoin (at_index children i) = Some c ->
  (if isDef (key c) then set_prop map (toPropertyKey (key c)) i else map) !! s = Some j
  <-> (s <> "__proto__" /\ keyed_at children s i /\ j = i)
      \/ (map !! s = Some j /\ (s = "__proto__" \/ ~ keyed_at children s i)).
Proof.
  intros Hc.
  assert (keyed_at children s i <-> (isDef (key c) = true /\ toPropertyKey (key c) = s))
    as Hki.
  { unfold keyed_at. rewrite Hc. split.
    - intros (c' & [= <-] & H1 & H2). done.
    - intros [H1 H2]. by exists c. }
  rewrite Hki. destruct (isDef (key c)) eqn:Hd.
  2:{ split; [intros H; right; split; [done|]; right; by intros [? _] |].
      intros [(_ & [? _] & _)|[H _]]; done. }
  unfold set_prop. destruct (decide (toPropertyKey (key c) = "__proto__")) as [Hp|Hp].
  - split.
    + intros H. right. split; [done|].
      destruct (decide (s = "__proto__")) as [?|Hs]; [by left|]. right.
      intros [_ Heq]. congruence.
    + intros [(Hs & [_ Heq] & _)|[H _]]; [congruence | done].
  - destruct (decide (toPropertyKey (key c) = s)) as [<-|Hne].
    + rewrite lookup_insert_eq. split.
      * intros [= <-]. by left.
      * intros [(_ & _ & ->)|[_ [?|Hn]]]; [done | done | by destruct Hn].
    + rewrite lookup_insert_ne by done. split.
      * intros H. right. split; [done|]. right. by intros [_ ?].
      * intros [(_ & [_ ?] & _)|[H _]]; done.
Qed.

Lemma createKeyToOldIdx_from_spec n : forall children i map,
  (forall j, i <= j < i + Z.of_nat n -> is_Some (mjoin (at_index children j))) ->
  exists map',
    createKeyToOldIdx_from n children i map = Return map'
    /\ forall s j, map' !! s = Some j <->
         ((s <> "__proto__" /\ last_keyed children i (i + Z.of_nat n - 1) s j)
          \/ (map !! s = Some j
              /\ (s = "__proto__"
                  \/ forall j', i <= j' <= i + Z.of_nat n - 1 -> ~ keyed_at children s j'))).
Proof.
  induction n as [|n IH]; intros children i map Hall.
  - exists map. split; [reflexivity|]. intros s j. split.
    + intros H. right. split; [done|]. right. intros j' Hj'. lia.
    + intros [(_ & Hr & _)|[H _]]; [lia | done].
  - simpl. destruct (Hall i ltac:(lia)) as [c Hc]. rewrite Hc.
    set (map1 := if isDef (key c) then set_prop map (toPropertyKey (key c)) i else map).
    destruct (IH children (i + 1) map1) as (map' & Hm & Hspec).
    { intros j Hj. apply Hall. lia. }
    exists map'. split; [exact Hm|]. intros s j.
    replace (i + 1 + Z.of_nat n - 1) with (i + Z.of_nat (S n) - 1) in Hspec by lia.
    rewrite Hspec. clear Hspec Hm.
    unfold map1. rewrite (set_prop_keyed children i c map s j Hc). clear map1.
    set (hi := i + Z.of_nat (S n) - 1). unfold last_keyed. split.
    + intros [(Hs & Hr & Hk & Hlast)|[[(Hs & Hk & ->)|[Hm0 Hfirst]] Hrest]].
      * left. split; [done|]. split; [lia|]. done.
      * left. split; [done|]. split; [unfold hi; lia|]. split; [done|].
        destruct Hrest as [?|Hrest]; [done|]. intros j' Hj'. apply Hrest. lia.
      * right. split; [done|].
        destruct Hfirst as [?|Hfirst]; [by left|].
        destruct Hrest as [?|Hrest]; [by left|]. right.
        intros j' Hj'. destruct (decide (j' = i)) as [->|?]; [done|]. apply Hrest. lia.
    + intros [(Hs & Hr & Hk & Hlast)|[Hm0 Hnone]].
      * destruct (decide (j = i)) as [->|Hji].
        -- right. split; [left; done|]. right. intros j' Hj'. apply Hlast. lia.
        -- left. split; [done|]. split; [lia|]. done.
      * right. split.
        -- right. split; [done|]. destruct Hnone as [?|Hnone]; [by left|]. right.
           apply Hnone. unfold hi. lia.
        -- destruct Hnone as [?|Hnone]; [by left|]. right.
           intros j' Hj'. apply Hnone. lia.
Qed.

Lemma createKeyToOldIdx_from_hole n : forall children i map j,
  i <= j < i + Z.of_nat n -> mjoin (at_index children j) = None ->
  createKeyToOldIdx_from n children i map = Throw TypeError.
Proof.
  induction n as [|n IH]; intros children i map j Hj Hn; [lia|].
  simpl. destruct (mjoin (at_index children i)) as [c|] eqn:Hc; [|done].
  apply (IH _ _ _ j); [|done].
  destruct (decide (j = i)) as [->|]; [congruence | lia].
Qed.

Lemma createKeyToOldIdx_from_thrown n : forall children i map e,
  createKeyToOldIdx_from n children i map = Throw e ->
  e = TypeError
  /\ exists j, i <= j < i + Z.of_nat n /\ mjoin (at_index children j) = None.
Proof.
  induction n as [|n IH]; intros children i map e; simpl; [done|].
  destruct (mjoin (at_index children i)) as [c|] eqn:Hc.
  - intros H. apply IH in H as (-> & j & Hj & Hn). split; [done|].
    exists j. split; [lia|done].
  - intros [= <-]. split; [done|]. exists i. split; [lia|done].
Qed.

(** A name under which a child is keyed becomes an own property, and
    stays one. *)
Lemma createKeyToOldIdx_from_none n : forall children i map map' s,
  createKeyToOldIdx_from n children i map = Return map' ->
  map' !! s = None -> s <> "__proto__" ->
  map !! s = None
  /\ forall j, i <= j < i + Z.of_nat n -> ~ keyed_at children s j.
Proof.
  induction n as [|n IH]; intros children i map map' s; simpl.
  - intros [= <-] Hn _. split; [done|]. intros j Hj. lia.
  - destruct (mjoin (at_index children i)) as [c|] eqn:Hc; [|done].
    intros Hm Hn Hs. destruct (IH _ _ _ _ _ Hm Hn Hs) as [Hn1 Hrest].
    assert (map !! s = None /\ ~ keyed_at children s i) as [Hn0 Hi].
    { assert (keyed_at children s i -> isDef (key c) = true /\ toPropertyKey (key c) = s)
        as Hki.
      { unfold keyed_at. rewrite Hc. by intros (c' & [= <-] & H1 & H2). }
      destruct (isDef (key c)) eqn:Hd.
      2:{ split; [done|]. by intros [? _]%Hki. }
      unfold set_prop in Hn1.
      destruct (decide (toPropertyKey (key c) = "__proto__")) as [Hp|Hp].
      { split; [done|]. intros [_ Heq]%Hki. congruence. }
      destruct (decide (toPropertyKey (key c) = s)) as [Heq|Hne].
      { rewrite Heq, lookup_insert_eq in Hn1. done. }
      rewrite lookup_insert_ne in Hn1 by done. split; [done|].
      by intros [_ Heq]%Hki. }
    split; [done|]. intros j Hj. destruct (decide (j = i)) as [->|?]; [done|].
    apply Hrest. lia.
Qed.

(** The own properties of the map that [createKeyToOldIdx] returns: the
    last index of every key, except under the name [__proto__]. *)
Lemma createKeyToOldIdx_own children beginIdx endIdx m :
  createKeyToOldIdx children beginIdx endIdx = Return m ->
  (forall j, beginIdx <= j <= endIdx -> is_Some (mjoin (at_index children j)))
  /\ forall s j, m !! s = Some j
                 <-> s <> "__proto__" /\ last_keyed children beginIdx endIdx s j.
Proof.
  unfold createKeyToOldIdx. intros Hm.
  assert (forall j, beginIdx <= j <= endIdx -> is_Some (mjoin (at_index children j)))
    as Hall.
  { intros j Hj. destruct (mjoin (at_index children j)) as [c|] eqn:Hc; [by eexists|].
    rewrite (createKeyToOldIdx_from_hole _ _ _ _ j) in Hm; [done|lia|done]. }
  split; [done|].
  destruct (createKeyToOldIdx_from_spec (Z.to_nat (endIdx - beginIdx + 1)) children
              beginIdx ∅) as (m' & Hm' & Hspec).
  { intros j Hj. apply Hall. lia. }
  rewrite Hm in Hm'. injection Hm' as <-.
  intros s j. rewrite Hspec. rewrite lookup_empty.
  destruct (decide (beginIdx <= endIdx)) as [Hle|Hgt].
  + replace (beginIdx + Z.of_nat (Z.to_nat (endIdx - beginIdx + 1)) - 1) with endIdx by lia.
    split; [intros [H|[H _]]; done | by left].
  + split.
    * intros [(_ & Hr & _)|[H _]]; [lia|done].
    * intros (_ & Hr & _). lia.
Qed.

(** [createKeyToOldIdx]: either every child from [beginIdx] to [endIdx] is
    there, and what the map reads under a name is settled by the keys of
    the children; or a slot is empty, and reading its key throws. *)
Lemma createKeyToOldIdx_spec children beginIdx endIdx :
  match createKeyToOldIdx children beginIdx endIdx with
  | Return m =>
      (forall j, beginIdx <= j <= endIdx -> is_Some (mjoin (at_index children j)))
      /\ forall s,
           match get_prop m s with
           | Own j => s <> "__proto__" /\ last_keyed children beginIdx endIdx s j
           | Inherited =>
               s ∈ Object_prototype
               /\ (s = "__proto__"
                   \/ forall j, beginIdx <= j <= endIdx -> ~ keyed_at children s j)
           | Missing =>
               s ∉ Object_prototype
               /\ forall j, beginIdx <= j <= endIdx -> ~ keyed_at children s j
           end
  | Throw e =>
      e = TypeError
      /\ exists j, beginIdx <= j <= endIdx /\ mjoin (at_index children j) = None
  end.
Proof.
  destruct (createKeyToOldIdx children beginIdx endIdx) as [m|e] eqn:Hm.
  - destruct (createKeyToOldIdx_own _ _ _ _ Hm) as [Hall Hown].
    split; [done|]. intros s.
    assert (m !! s = None ->
            s = "__proto__"
            \/ forall j, beginIdx <= j <= endIdx -> ~ keyed_at children s j) as Hnone.
    { intros Hn. destruct (decide (s = "__proto__")) as [?|Hs]; [by left | right].
      intros j Hj. unfold createKeyToOldIdx in Hm.
      apply (createKeyToOldIdx_from_none _ _ _ _ _ _ Hm Hn Hs). lia. }
    unfold get_prop. destruct (m !! s) as [j|] eqn:Hj.
    + by apply Hown.
    + destruct (decide (s ∈ Object_prototype)) as [Hin|Hin].
      * split; [done|]. by apply Hnone.
      * split; [done|]. destruct (Hnone eq_refl) as [->|H]; [|done].
        exfalso. apply Hin. unfold Object_prototype. set_solver.
  - unfold createKeyToOldIdx in Hm.
    apply createKeyToOldIdx_from_thrown in Hm as (-> & j & Hj & Hn).
    split; [done|]. exists j. split; [lia|done].
Qed.

End KeyMapFacts.

Module InheritedFacts.
Import JS VDom JSFacts VDomFacts KeyMapSpec.
Local Arguments sameVnode : simpl never.
Local Open Scope Z_scope.

Section Inherited.
Variable isTextInputType : value -> bool.
Variable factoryError : nat -> value.
Local Abbreviation same := (sameVnode isTextInputType factoryError).
Local Abbreviation step := (VDom.step isTextInputType factoryError).

(** The fallback for a new start child whose key reads, in the map, as
    something inherited. *)
Lemma step_inherited cm osi nsi oei nei o1 o2 n1 nev k2i d m :
  same (Some o1) (Some n1) = Return false ->
  same (Some o2) nev = Return false ->
  same (Some o1) nev = Return false ->
  same (Some o2) (Some n1) = Return false ->
  match k2i with
  | Some m => Return m
  | None => createKeyToOldIdx (oldCh d) osi oei
  end = Return m ->
  isDef (key n1) = true ->
  get_prop m (toPropertyKey (key n1)) = Inherited ->
  step cm (mkCur osi nsi oei nei (Some o1) (Some o2) (Some n1) nev k2i) d
  = Throw TypeError.
Proof.
  intros H1 H2 H3 H4 Hm Hd Hi. unfold VDom.step. simpl.
  rewrite H1. simpl. rewrite H2. simpl. rewrite H3. simpl. rewrite H4. simpl.
  rewrite Hm. simpl. rewrite Hd. simpl. rewrite Hi. reflexivity.
Qed.

(** The map built from the old children between the cursors reads as
    something inherited under a name of [Object.prototype] that is
    [__proto__] or the key of none of them. *)
Lemma createKeyToOldIdx_inherited children beginIdx endIdx name :
  (forall j, beginIdx <= j <= endIdx -> is_Some (mjoin (at_index children j))) ->
  name ∈ Object_prototype ->
  (name = "__proto__"
   \/ forall j, beginIdx <= j <= endIdx -> ~ keyed_at children name j) ->
  exists m, createKeyToOldIdx children beginIdx endIdx = Return m
            /\ get_prop m name = Inherited.
Proof.
  intros Hall Hin Hno.
  pose proof (KeyMapFacts.createKeyToOldIdx_spec children beginIdx endIdx) as Hspec.
  destruct (createKeyToOldIdx children beginIdx endIdx) as [m|e].
  2:{ destruct Hspec as (_ & j & Hj & Hn). destruct (Hall j Hj) as [c Hc]. congruence. }
  exists m. split; [done|]. destruct Hspec as [_ Hspec]. specialize (Hspec name).
  destruct (get_prop m name) as [j| |]; [|done|by destruct Hspec].
  destruct Hspec as (Hp & Hr & Hk & _). destruct Hno as [?|Hno]; [done|].
  by destruct (Hno j Hr).
Qed.

End Inherited.
End InheritedFacts.

Module HostFacts.
Import JS VDom.

Lemma without_notin e h : e ∉ h -> without e h = h.
Proof.
  intros He. unfold without. induction h as [|x h IH]; [done|].
  rewrite filter_cons. apply not_elem_of_cons in He as [Hne He].
  rewrite decide_True by congruence. by rewrite IH.
Qed.

Lemma without_mid e A B :
  e ∉ A -> e ∉ B -> without e (A ++ e :: B) = A ++ B.
Proof.
  intros HA HB. unfold without. rewrite filter_app, filter_cons.
  rewrite decide_False by (intros H; by apply H).
  fold (without e A). fold (without e B).
  by rewrite !without_notin.
Qed.

Lemma insert_at_ref_mid e r A B :
  r ∉ A -> insert_at_ref e r (A ++ r :: B) = A ++ e :: r :: B.
Proof.
  intros HA. induction A as [|x A IH]; simpl.
  - by rewrite decide_True.
  - apply not_elem_of_cons in HA as [Hne HA].
    rewrite decide_False by congruence. by rewrite IH.
Qed.

Lemma nextSibling_mid x A B :
  x ∉ A -> nextSibling (A ++ x :: B) x = head B.
Proof.
  intros HA. induction A as [|y A IH]; simpl.
  - by rewrite decide_True.
  - apply not_elem_of_cons in HA as [Hne HA].
    rewrite decide_False by congruence. by rewrite IH.
Qed.

(** The last child of the window goes in front of what follows the
    window. *)
Lemma move_start_end A W1 W2 B e1 e2 :
  NoDup (A ++ (e1 :: W1) ++ B) -> e1 :: W1 = W2 ++ [e2] ->
  insertBefore (A ++ (e1 :: W1) ++ B) e1 (nextSibling (A ++ (e1 :: W1) ++ B) e2)
  = Return (A ++ W1 ++ e1 :: B).
Proof.
  intros Hnd HW.
  assert (nextSibling (A ++ (e1 :: W1) ++ B) e2 = head B) as ->.
  { rewrite HW. rewrite HW in Hnd.
    replace (A ++ (W2 ++ [e2]) ++ B) with ((A ++ W2) ++ e2 :: B)
      by (by rewrite <- !app_assoc).
    apply nextSibling_mid.
    replace (A ++ (W2 ++ [e2]) ++ B) with ((A ++ W2) ++ e2 :: B) in Hnd
      by (by rewrite <- !app_assoc).
    apply NoDup_app in Hnd as (_ & Hd & _). intros Hin. apply (Hd _ Hin). left. }
  clear HW W2 e2.
  apply NoDup_app in Hnd as (HA & HAd & Hnd).
  simpl in Hnd. apply NoDup_cons in Hnd as [He1 Hnd].
  assert (e1 ∉ A) as He1A.
  { intros Hin. apply (HAd _ Hin). left. }
  assert (without e1 (A ++ (e1 :: W1) ++ B) = A ++ W1 ++ B) as Hw.
  { simpl. by apply without_mid. }
  destruct B as [|r B]; cbn [head].
  - unfold insertBefore. rewrite Hw. by rewrite <- !app_assoc.
  - unfold insertBefore. cbn [head]. rewrite decide_True.
    2:{ rewrite !elem_of_app. right. right. left. }
    rewrite decide_False.
    2:{ intros ->. apply He1. rewrite elem_of_app. right. left. }
    rewrite Hw. f_equal.
    replace (A ++ W1 ++ r :: B) with ((A ++ W1) ++ r :: B) by (by rewrite <- app_assoc).
    rewrite insert_at_ref_mid; [by rewrite <- app_assoc|].
    rewrite elem_of_app. intros [Hin|Hin].
    + apply (HAd _ Hin). right. rewrite elem_of_app. right. left.
    + apply NoDup_app in Hnd as (_ & Hd & _). apply (Hd _ Hin). left.
Qed.

(** The last child of the window goes in front of the first. *)
Lemma move_end_start A W1 W2 B e1 e2 :
  NoDup (A ++ (e1 :: W1) ++ B) -> e1 :: W1 = W2 ++ [e2] ->
  insertBefore (A ++ (e1 :: W1) ++ B) e2 (Some e1)
  = Return (A ++ (e2 :: W2) ++ B).
Proof.
  intros Hnd HW. unfold insertBefore.
  rewrite decide_True.
  2:{ rewrite !elem_of_app. right. left. left. }
  destruct W2 as [|x W2].
  - simpl in HW. injection HW as -> ->. by rewrite decide_True.
  - simpl in HW. injection HW as <- ->.
    apply NoDup_app in Hnd as (HA & HAd & Hnd).
    assert (e1 <> e2) as Hne.
    { intros ->. simpl in Hnd. apply NoDup_cons in Hnd as [Hn _].
      apply Hn. rewrite !elem_of_app. left. right. left. }
    rewrite decide_False by done. f_equal.
    replace (A ++ (e1 :: W2 ++ [e2]) ++ B) with ((A ++ e1 :: W2) ++ e2 :: B)
      by (simpl; rewrite <- !app_assoc; done).
    rewrite without_mid.
    + rewrite <- app_assoc. simpl. rewrite insert_at_ref_mid; [done|].
      intros Hin. apply (HAd _ Hin). left.
    + rewrite elem_of_app. intros [Hin|Hin].
      * apply (HAd _ Hin). rewrite !elem_of_app. left. right. rewrite elem_of_app. right. left.
      * simpl in Hnd. rewrite <- app_assoc in Hnd.
        change (e1 :: W2 ++ [e2] ++ B) with ((e1 :: W2) ++ e2 :: B) in Hnd.
        apply NoDup_app in Hnd as (_ & Hd & _). apply (Hd _ Hin). left.
    + simpl in Hnd. rewrite <- app_assoc in Hnd.
      change (e1 :: W2 ++ [e2] ++ B) with ((e1 :: W2) ++ e2 :: B) in Hnd.
      apply NoDup_app in Hnd as (_ & _ & Hd). by apply NoDup_cons in Hd as [? _].
Qed.

(** A child from inside the window goes in front of the first. *)
Lemma move_keyed A U V B e1 e :
  NoDup (A ++ (e1 :: U ++ e :: V) ++ B) ->
  insertBefore (A ++ (e1 :: U ++ e :: V) ++ B) e (Some e1)
  = Return (A ++ (e :: e1 :: U ++ V) ++ B).
Proof.
  intros Hnd. unfold insertBefore.
  rewrite decide_True.
  2:{ rewrite !elem_of_app. right. left. left. }
  apply NoDup_app in Hnd as (HA & HAd & Hnd).
  simpl in Hnd. rewrite <- app_assoc in Hnd. simpl in Hnd.
  assert (e1 <> e) as Hne.
  { intros ->. apply NoDup_cons in Hnd as [Hn _].
    apply Hn. rewrite !elem_of_app. right. left. }
  rewrite decide_False by done. f_equal.
  replace (A ++ (e1 :: U ++ e :: V) ++ B) with ((A ++ e1 :: U) ++ e :: V ++ B)
    by (simpl; rewrite <- !app_assoc; done).
  change (e1 :: U ++ e :: V ++ B) with ((e1 :: U) ++ e :: V ++ B) in Hnd.
  rewrite without_mid.
  - rewrite <- app_assoc. simpl. rewrite insert_at_ref_mid.
    + simpl. by rewrite <- app_assoc.
    + intros Hin. apply (HAd _ Hin). left.
  - rewrite elem_of_app. intros [Hin|Hin].
    + apply (HAd _ Hin). rewrite !elem_of_app. left. right. rewrite elem_of_app. right. left.
    + apply NoDup_app in Hnd as (_ & Hd & _). apply (Hd _ Hin). left.
  - apply NoDup_app in Hnd as (_ & _ & Hd). by apply NoDup_cons in Hd as [? _].
Qed.

(** A created node goes in front of its reference node. *)
Lemma insert_created A R f r :
  f ∉ A ++ r :: R -> r ∉ A ->
  insert (A ++ r :: R) f (Some r) = Return (A ++ f :: r :: R).
Proof.
  intros Hf Hr. unfold insert, insertBefore.
  rewrite !decide_True by (rewrite elem_of_app; right; left).
  rewrite decide_False.
  2:{ intros ->. apply Hf. rewrite elem_of_app. right. left. }
  rewrite without_notin by done. by rewrite insert_at_ref_mid.
Qed.

Lemma insert_created_last h f :
  f ∉ h -> insert h f None = Return (h ++ [f]).
Proof. intros Hf. unfold insert. by rewrite without_notin. Qed.

End HostFacts.

Module KeyedFacts.
Import JS VDom VDomFacts KeyMapSpec KeyMapFacts KeyedSpec HostFacts.
Local Arguments sameVnode : simpl never.
Local Open Scope Z_scope.

Lemma at_index_mid {A} (L R : list A) x i :
  i = Z.of_nat (length L) -> at_index (L ++ x :: R) i = Some x.
Proof.
  intros ->. unfold at_index.
  destruct (_ <? 0) eqn:H; [apply Z.ltb_lt in H; lia|].
  rewrite Nat2Z.id. by rewrite list_lookup_middle.
Qed.

Lemma set_new_elm_mid L x R i e :
  i = Z.of_nat (length L) ->
  set_new_elm i e (L ++ x :: R) = L ++ set_elm x e :: R.
Proof.
  intros ->. unfold set_new_elm.
  destruct (_ <? 0) eqn:H; [apply Z.ltb_lt in H; lia|].
  rewrite Nat2Z.id. rewrite alter_app_r_alt by lia.
  replace (length L - length L)%nat with 0%nat by lia. done.
Qed.

Lemma at_index_set_new_elm_ne l i j e :
  i <> j -> at_index (set_new_elm j e l) i = at_index l i.
Proof.
  intros Hne. unfold set_new_elm, at_index.
  destruct (j <? 0) eqn:Hj; [done|]. destruct (i <? 0) eqn:Hi; [done|].
  apply Z.ltb_ge in Hi, Hj. apply list_lookup_alter_ne. lia.
Qed.

Lemma elms_app l1 l2 : elms (l1 ++ l2) = elms l1 ++ elms l2.
Proof. apply omap_app. Qed.

Lemma present_app l1 l2 : present (l1 ++ l2) = present l1 ++ present l2.
Proof. apply omap_app. Qed.

Lemma present_cons_Some o W : present (Some o :: W) = o :: present W.
Proof. reflexivity. Qed.

Lemma present_cons_None W : present (None :: W) = present W.
Proof. reflexivity. Qed.

Lemma present_snoc_Some o W : present (W ++ [Some o]) = present W ++ [o].
Proof. by rewrite present_app. Qed.

Lemma present_snoc_None W : present (W ++ [None]) = present W.
Proof. rewrite present_app. apply app_nil_r. Qed.

Lemma elms_cons n e l : elm n = Some e -> elms (n :: l) = e :: elms l.
Proof. intros H. unfold elms. simpl. by rewrite H. Qed.

Lemma elms_snoc n e l : elm n = Some e -> elms (l ++ [n]) = elms l ++ [e].
Proof. intros H. rewrite elms_app. by rewrite (elms_cons _ e). Qed.

Lemma elms_set_elm n e l : elms (set_elm n (Some e) :: l) = e :: elms l.
Proof. by apply elms_cons. Qed.

Ltac cur_simpl :=
  cbn [oldStartIdx newStartIdx oldEndIdx newEndIdx oldStartVnode oldEndVnode
       newStartVnode newEndVnode oldKeyToIdx length] in *.

Ltac solve_len :=
  repeat first
    [ progress cbn [length] in *
    | match goal with
      | H : context [length (_ ++ _)] |- _ => rewrite length_app in H
      end
    | rewrite length_app ];
  lia.

Ltac norm_present :=
  repeat first [rewrite present_cons_Some | rewrite present_cons_None
               | rewrite present_app].

Ltac diff_simpl :=
  cbn [oldStartIdx newStartIdx oldEndIdx newEndIdx oldStartVnode oldEndVnode
       newStartVnode newEndVnode oldKeyToIdx length
       oldCh newCh host fresh ops patchVnode clear_old].

Lemma elem_of_present W o : o ∈ present W <-> Some o ∈ W.
Proof.
  unfold present. rewrite list_elem_of_omap. split.
  - intros ([x|] & Hin & Hx); simpl in Hx; [by injection Hx as -> | done].
  - intros Hin. by exists (Some o).
Qed.

Lemma present_all W : Forall is_Some W -> W = Some <$> present W.
Proof.
  induction 1 as [|x W [o ->] _ IH]; [done|].
  change (present (Some o :: W)) with (o :: present W). rewrite fmap_cons. by f_equal.
Qed.

Lemma old_at_first d (Lo Wo1 Ro : list (option VNode)) x i :
  oldCh d = Lo ++ (x :: Wo1) ++ Ro -> i = Z.of_nat (length Lo) -> old_at d i = x.
Proof. intros H ->. unfold old_at. rewrite H. simpl. by rewrite at_index_mid. Qed.

Lemma old_at_last d (Lo Wo2 Ro : list (option VNode)) y i :
  oldCh d = Lo ++ (Wo2 ++ [y]) ++ Ro ->
  i = Z.of_nat (length Lo) + Z.of_nat (length (Wo2 ++ [y])) - 1 ->
  old_at d i = y.
Proof.
  intros H ->. unfold old_at. rewrite H.
  replace (Lo ++ (Wo2 ++ [y]) ++ Ro) with ((Lo ++ Wo2) ++ y :: Ro)
    by (by rewrite <- !app_assoc).
  rewrite at_index_mid; [done|]. rewrite !length_app. simpl. lia.
Qed.

Lemma new_at_first d (Pn Wn1 Sn : list VNode) x i :
  newCh d = Pn ++ (x :: Wn1) ++ Sn -> i = Z.of_nat (length Pn) -> new_at d i = Some x.
Proof. intros H ->. unfold new_at. rewrite H. simpl. by rewrite at_index_mid. Qed.

Lemma new_at_last d (Pn Wn2 Sn : list VNode) y i :
  newCh d = Pn ++ (Wn2 ++ [y]) ++ Sn ->
  i = Z.of_nat (length Pn) + Z.of_nat (length (Wn2 ++ [y])) - 1 ->
  new_at d i = Some y.
Proof.
  intros H ->. unfold new_at. rewrite H.
  replace (Pn ++ (Wn2 ++ [y]) ++ Sn) with ((Pn ++ Wn2) ++ y :: Sn)
    by (by rewrite <- !app_assoc).
  rewrite at_index_mid; [done|]. rewrite !length_app. simpl. lia.
Qed.

Lemma last_view {A} (l : list A) : l <> [] -> exists l' y, l = l' ++ [y].
Proof.
  intros H. destruct (exists_last H) as (l' & y & ->). by exists l', y.
Qed.

Section Keyed.

Variable isTextInputType : value -> bool.
Variable factoryError : nat -> value.
Local Abbreviation same := (sameVnode isTextInputType factoryError).
Local Abbreviation step := (VDom.step isTextInputType factoryError).
Local Abbreviation loop := (VDom.loop isTextInputType factoryError).

Variable olds news : list VNode.
Variable f0 : nat.

Hypothesis apart : told_apart_by_key same olds news.
Hypothesis olds_numbered : keyed_by_numbers olds.
Hypothesis news_numbered : keyed_by_numbers news.
Hypothesis news_distinct : NoDup (key <$> news).

Local Abbreviation Inv := (inv olds news f0).

Lemma same_by_key o n :
  o ∈ olds -> n ∈ news -> same (Some o) (Some n) = Return (bool_decide (key o = key n)).
Proof.
  intros Ho Hn. unfold told_apart_by_key in apart.
  rewrite Forall_forall in apart. specialize (apart o Ho).
  rewrite Forall_forall in apart. by apply apart.
Qed.

Lemma map_ok_narrow Wo Wo' Wn Wn' d d' lo hi lo' hi' m :
  map_ok Wo Wn d lo hi m ->
  Wn' ⊆ Wn -> present Wo' ⊆ present Wo ->
  (forall n i o, n ∈ Wn' -> lo <= i <= hi ->
     oldCh d !! Z.to_nat i = Some (Some o) -> key o = key n ->
     lo' <= i <= hi' /\ oldCh d' !! Z.to_nat i = Some (Some o)) ->
  map_ok Wo' Wn' d' lo' hi' m.
Proof.
  unfold map_ok. rewrite !Forall_forall. intros Hm Hn Hp Hr n Hin.
  specialize (Hm n (Hn n Hin)).
  destruct (m !! toPropertyKey (key n)) as [i|].
  - destruct Hm as (o & Hi & Ho & Hk). exists o.
    destruct (Hr n i o Hin Hi Ho Hk). done.
  - intros o Ho. apply Hm. by apply Hp.
Qed.

Lemma case_skip_start Lo Wo1 Ro Pn Wn Sn c d :
  Inv Lo (None :: Wo1) Ro Pn Wn Sn c d ->
  exists c', step true c d = Return (c', d)
    /\ Inv (Lo ++ [None]) Wo1 Ro Pn Wn Sn c' d.
Proof.
  intros [Hold Hnew Hosi Hoei Hnsi Hnei Hosv Hoev Hnsv Hnev Hhost HeP HeW HeS
          Hnd Hb Hf Hfo Hfn HkW Hkn Hacc Hpl Hmap].
  destruct c as [osi nsi oei nei osv oev nsv nev k2i]. cur_simpl.
  assert (osv = None) as ->.
  { rewrite Hosv. by eapply old_at_first. }
  unfold VDom.step. simpl. eexists. split; [reflexivity|].
  rewrite present_cons_None in *.
  constructor; diff_simpl; try done.
  - by rewrite <- app_assoc.
  - rewrite length_app. simpl. lia.
  - rewrite length_app. simpl. lia.
  - destruct k2i as [m|].
    + eapply map_ok_narrow; [exact Hmap|done|done|].
      intros n i o _ Hi Ho _. split; [|done]. split; [|lia].
      destruct (decide (i = osi)) as [->|]; [|lia]. exfalso.
      rewrite Hold, Hosi, Nat2Z.id in Ho. simpl in Ho.
      by rewrite list_lookup_middle in Ho.
    + by apply Forall_cons in Hmap as [[? ?] _].
Qed.

Lemma case_skip_end Lo Wo2 Ro Pn Wn Sn c d :
  Inv Lo (Wo2 ++ [None]) Ro Pn Wn Sn c d ->
  isDefO (oldStartVnode c) = true ->
  exists c', step true c d = Return (c', d)
    /\ Inv Lo Wo2 (None :: Ro) Pn Wn Sn c' d.
Proof.
  intros [Hold Hnew Hosi Hoei Hnsi Hnei Hosv Hoev Hnsv Hnev Hhost HeP HeW HeS
          Hnd Hb Hf Hfo Hfn HkW Hkn Hacc Hpl Hmap] Hdef.
  destruct c as [osi nsi oei nei osv oev nsv nev k2i]. cur_simpl.
  assert (oev = None) as ->.
  { rewrite Hoev. by eapply old_at_last. }
  unfold VDom.step. simpl. rewrite Hdef. simpl. eexists. split; [reflexivity|].
  rewrite present_snoc_None in *. rewrite length_app in Hoei. cur_simpl.
  constructor; diff_simpl; try done.
  - by rewrite <- app_assoc in Hold.
  - lia.
  - destruct k2i as [m|].
    + eapply map_ok_narrow; [exact Hmap|done|by rewrite present_snoc_None|].
      intros n i o _ Hi Ho _. split; [|done]. split; [lia|].
      destruct (decide (i = oei)) as [->|]; [|lia]. exfalso.
      rewrite Hold, Hoei in Ho.
      replace (Lo ++ (Wo2 ++ [None]) ++ Ro) with ((Lo ++ Wo2) ++ None :: Ro) in Ho
        by (by rewrite <- !app_assoc).
      rewrite list_lookup_middle in Ho; [done|]. rewrite length_app. lia.
    + apply Forall_app in Hmap as [_ Hmap]. by apply Forall_cons in Hmap as [[? ?] _].
Qed.

Lemma keys_window Pn Wn Sn :
  key <$> (Pn ++ Wn ++ Sn) = key <$> news ->
  NoDup (key <$> Wn)
  /\ forall n, n ∈ Wn -> key n ∉ key <$> (Pn ++ Sn).
Proof.
  intros H. pose proof news_distinct as Hnd. rewrite <- H in Hnd.
  rewrite !fmap_app in Hnd.
  apply NoDup_app in Hnd as (_ & HP & Hnd).
  apply NoDup_app in Hnd as (HW & HS & _).
  split; [done|]. intros n Hn. rewrite fmap_app, elem_of_app.
  intros [Hin|Hin].
  - apply (HP _ Hin). rewrite elem_of_app. left. by apply list_elem_of_fmap_2.
  - apply (HS (key n)); [by apply list_elem_of_fmap_2 | done].
Qed.

Lemma account_step (PW PW' : list VNode) (PS PS' : list VNode) :
  Forall (fun o => o ∈ PW \/ key o ∈ key <$> PS) olds ->
  (forall o, o ∈ PW -> o ∈ PW' \/ key o ∈ key <$> PS') ->
  (forall k, k ∈ key <$> PS -> k ∈ key <$> PS') ->
  Forall (fun o => o ∈ PW' \/ key o ∈ key <$> PS') olds.
Proof.
  intros H H1 H2. eapply Forall_impl; [exact H|]. simpl.
  intros o [Ho|Ho]; [by apply H1 | right; by apply H2].
Qed.

Lemma placed_reused o n :
  o ∈ olds -> key o = key n -> placed olds f0 (set_elm n (elm o)).
Proof. intros Ho Hk. left. exists o. by repeat split. Qed.

Lemma case_start_start Lo o1 Wo1 Ro Pn n1 Wn1 Sn c d :
  Inv Lo (Some o1 :: Wo1) Ro Pn (n1 :: Wn1) Sn c d ->
  isDefO (oldEndVnode c) = true ->
  key o1 = key n1 ->
  exists c' d', step true c d = Return (c', d')
    /\ Inv (Lo ++ [Some o1]) Wo1 Ro (Pn ++ [set_elm n1 (elm o1)]) Wn1 Sn c' d'.
Proof.
  intros [Hold Hnew Hosi Hoei Hnsi Hnei Hosv Hoev Hnsv Hnev Hhost HeP HeW HeS
          Hnd Hb Hf Hfo Hfn HkW Hkn Hacc Hpl Hmap] Hdef Hk.
  destruct c as [osi nsi oei nei osv oev nsv nev k2i]. cur_simpl.
  assert (osv = Some o1) as ->.
  { rewrite Hosv. by eapply old_at_first. }
  assert (nsv = Some n1) as ->.
  { rewrite Hnsv by done. by eapply new_at_first. }
  destruct oev as [o2|]; [clear Hdef|done].
  rewrite present_cons_Some in *.
  apply Forall_cons in Hfo as [Ho1 Hfo]. apply Forall_cons in Hfn as [Hn1 Hfn].
  apply Forall_cons in HeW as [[e1 He1] HeW].
  destruct (keys_window _ _ _ Hkn) as [HkWn HkPS].
  rewrite step_start_start.
  2:{ rewrite same_by_key by done. by rewrite bool_decide_eq_true_2. }
  cbv zeta. do 2 eexists. split; [reflexivity|].
  constructor; diff_simpl; try done.
  - rewrite Hold. by rewrite <- app_assoc.
  - rewrite Hnew. simpl. rewrite set_new_elm_mid by done. by rewrite <- app_assoc.
  - rewrite length_app. simpl. lia.
  - rewrite length_app. simpl. lia.
  - rewrite length_app. simpl. lia.
  - rewrite length_app. simpl. lia.
  - intros Hne. rewrite Hnev by done. unfold new_at. diff_simpl.
    rewrite at_index_set_new_elm_ne; [done|]. destruct Wn1; [done|]. cur_simpl. lia.
  - rewrite Hhost. rewrite (elms_cons _ _ _ He1). rewrite He1, (elms_snoc _ e1) by done.
    by rewrite <- app_assoc.
  - apply Forall_app. split; [done|]. apply Forall_singleton. simpl. by rewrite He1.
  - rewrite fmap_cons in HkW. by apply NoDup_cons in HkW as [_ ?].
  - rewrite <- Hkn. rewrite !fmap_app. simpl. by rewrite <- app_assoc.
  - eapply account_step; [exact Hacc| |].
    + intros o [->|Ho]%elem_of_cons; [|by left]. right.
      rewrite !fmap_app. simpl. rewrite !elem_of_app. left. right. rewrite Hk. left.
    + intros k. rewrite !fmap_app, !elem_of_app. tauto.
  - apply Forall_app in Hpl as [HplP HplS]. rewrite <- app_assoc. apply Forall_app. split; [done|].
    apply Forall_cons. split; [by apply placed_reused|done].
  - destruct k2i as [m|].
    + eapply map_ok_narrow; [exact Hmap| | |].
      * intros n Hn. by right.
      * intros o Ho. rewrite present_cons_Some. by right.
      * intros n i o Hn Hi Ho Hkon. split; [|done]. split; [|lia].
        destruct (decide (i = osi)) as [->|]; [|lia]. exfalso.
        rewrite Hold, Hosi, Nat2Z.id in Ho. simpl in Ho.
        rewrite list_lookup_middle in Ho by done. injection Ho as <-.
        rewrite fmap_cons in HkWn.
        apply NoDup_cons in HkWn as [Hno _]. apply Hno.
        rewrite <- Hk, Hkon. by apply list_elem_of_fmap_2.
    + by apply Forall_cons in Hmap as [_ ?].
Qed.

Lemma keys_last_fresh (Wn2 : list VNode) n2 n :
  NoDup (key <$> (Wn2 ++ [n2])) -> n ∈ Wn2 -> key n <> key n2.
Proof.
  rewrite fmap_app. intros Hnd Hn Heq.
  apply NoDup_app in Hnd as (_ & Hd & _).
  apply (Hd (key n)); [by apply list_elem_of_fmap_2|]. rewrite Heq. simpl. left.
Qed.

Lemma keys_first_fresh (Wn1 : list VNode) n1 n :
  NoDup (key <$> (n1 :: Wn1)) -> n ∈ Wn1 -> key n <> key n1.
Proof.
  rewrite fmap_cons. intros Hnd Hn Heq.
  apply NoDup_cons in Hnd as [Hno _]. apply Hno. rewrite <- Heq.
  by apply list_elem_of_fmap_2.
Qed.

Lemma slot_first (Lo Wo1 Ro : list (option VNode)) x d i o :
  oldCh d = Lo ++ (x :: Wo1) ++ Ro -> i = Z.of_nat (length Lo) ->
  oldCh d !! Z.to_nat i = Some (Some o) -> x = Some o.
Proof.
  intros H -> Ho. rewrite H, Nat2Z.id in Ho. simpl in Ho.
  rewrite list_lookup_middle in Ho by done. by injection Ho.
Qed.

Lemma slot_last (Lo Wo2 Ro : list (option VNode)) y d i o :
  oldCh d = Lo ++ (Wo2 ++ [y]) ++ Ro ->
  i = Z.of_nat (length Lo) + Z.of_nat (length (Wo2 ++ [y])) - 1 ->
  oldCh d !! Z.to_nat i = Some (Some o) -> y = Some o.
Proof.
  intros H -> Ho. rewrite H in Ho.
  replace (Lo ++ (Wo2 ++ [y]) ++ Ro) with ((Lo ++ Wo2) ++ y :: Ro) in Ho
    by (by rewrite <- !app_assoc).
  rewrite list_lookup_middle in Ho; [by injection Ho|].
  rewrite !length_app. simpl. lia.
Qed.

Lemma case_end_end Lo Wo2 o2 Ro Pn Wn2 n2 Sn c d o1 n1 :
  Inv Lo (Wo2 ++ [Some o2]) Ro Pn (Wn2 ++ [n2]) Sn c d ->
  oldStartVnode c = Some o1 -> newStartVnode c = Some n1 ->
  o1 ∈ olds -> n1 ∈ news ->
  key o1 <> key n1 -> key o2 = key n2 ->
  exists c' d', step true c d = Return (c', d')
    /\ Inv Lo Wo2 (Some o2 :: Ro) Pn Wn2 (set_elm n2 (elm o2) :: Sn) c' d'.
Proof.
  intros [Hold Hnew Hosi Hoei Hnsi Hnei Hosv Hoev Hnsv Hnev Hhost HeP HeW HeS
          Hnd Hb Hf Hfo Hfn HkW Hkn Hacc Hpl Hmap] Hc1 Hc2 Ho1 Hn1 Hk1 Hk.
  destruct c as [osi nsi oei nei osv oev nsv nev k2i]. cur_simpl. subst nsv. rewrite Hc1 in Hosv |- *. clear Hc1.
  assert (Hwn : Wn2 ++ [n2] <> []) by (by destruct Wn2).
  assert (oev = Some o2) as ->.
  { rewrite Hoev. by eapply old_at_last. }
  assert (nev = Some n2) as ->.
  { rewrite Hnev by done. by eapply new_at_last. }
  rewrite present_snoc_Some in *.
  apply Forall_app in Hfo as [Hfo Ho2]. apply Forall_inv in Ho2.
  apply Forall_app in Hfn as [Hfn Hn2]. apply Forall_inv in Hn2.
  apply Forall_app in HeW as [HeW [e2 He2]%Forall_inv].
  destruct (keys_window _ _ _ Hkn) as [HkWn HkPS].
  rewrite step_end_end.
  2:{ rewrite same_by_key by done. by rewrite bool_decide_eq_false_2. }
  2:{ rewrite same_by_key by done. by rewrite bool_decide_eq_true_2. }
  cbv zeta. do 2 eexists. split; [reflexivity|].
  rewrite !length_app in *. cur_simpl.
  constructor; diff_simpl; try done.
  - rewrite Hold. by rewrite <- !app_assoc.
  - rewrite Hnew.
    replace (Pn ++ (Wn2 ++ [n2]) ++ Sn) with ((Pn ++ Wn2) ++ n2 :: Sn)
      by (by rewrite <- !app_assoc).
    rewrite set_new_elm_mid by (rewrite length_app; lia). by rewrite <- app_assoc.
  - lia.
  - lia.
  - intros Hne. rewrite Hnsv by done. unfold new_at. diff_simpl.
    rewrite at_index_set_new_elm_ne; [done|]. destruct Wn2; [done|]. cur_simpl. lia.
  - rewrite Hhost. rewrite He2, (elms_snoc _ e2), elms_set_elm by done.
    by rewrite <- !app_assoc.
  - apply Forall_cons. split; [|done]. simpl. by rewrite He2.
  - rewrite fmap_app in HkW. by apply NoDup_app in HkW as (? & _).
  - rewrite <- Hkn. rewrite !fmap_app. simpl. by rewrite <- !app_assoc.
  - eapply account_step; [exact Hacc| |].
    + intros o [Ho| ->%list_elem_of_singleton]%elem_of_app; [by left|]. right.
      rewrite !fmap_app. simpl. rewrite !elem_of_app. right. rewrite Hk. left.
    + intros k. rewrite !fmap_app, fmap_cons, !elem_of_app, elem_of_cons. tauto.
  - apply Forall_app in Hpl as [HplP HplS]. apply Forall_app. split; [done|].
    apply Forall_cons. split; [by apply placed_reused|done].
  - destruct k2i as [m|].
    + eapply map_ok_narrow; [exact Hmap| | |].
      * intros n Hn. apply elem_of_app. by left.
      * intros o Ho. rewrite present_snoc_Some. apply elem_of_app. by left.
      * intros n i o Hn Hi Ho Hkon. split; [|done]. split; [lia|].
        destruct (decide (i = oei)) as [->|]; [|lia]. exfalso.
        eapply slot_last in Ho; [|exact Hold|rewrite length_app; simpl; lia].
        injection Ho as <-.
        by apply (keys_last_fresh _ _ _ HkWn Hn); rewrite <- Hkon.
    + by apply Forall_app in Hmap as [? _].
Qed.

Lemma step_start_end osi nsi oei nei o1 o2 nsv nev k2i d :
  same (Some o1) nsv = Return false ->
  same (Some o2) nev = Return false ->
  same (Some o1) nev = Return true ->
  step true (mkCur osi nsi oei nei (Some o1) (Some o2) nsv nev k2i) d =
  match elm o2 with
  | Some r =>
      d2 ← move true (elm o1) (nextSibling (host d) r) (patchVnode o1 nei d);
      Return (mkCur (osi + 1) nsi oei (nei - 1) (old_at d2 (osi + 1)) (Some o2)
                    nsv (new_at d2 (nei - 1)) k2i, d2)
  | None => Throw TypeError
  end.
Proof.
  intros H1 H2 H3. unfold VDom.step. simpl.
  rewrite H1. simpl. rewrite H2. simpl. rewrite H3. simpl.
  by destruct (elm o2).
Qed.

Lemma case_start_end Lo Wo Ro Pn Wn2 n2 Sn c d o1 Wo1 o2 Wo2 n1 :
  Inv Lo Wo Ro Pn (Wn2 ++ [n2]) Sn c d ->
  Wo = Some o1 :: Wo1 -> Wo = Wo2 ++ [Some o2] ->
  newStartVnode c = Some n1 -> n1 ∈ news ->
  key o1 <> key n1 -> key o2 <> key n2 -> key o1 = key n2 ->
  exists c' d', step true c d = Return (c', d')
    /\ Inv (Lo ++ [Some o1]) Wo1 Ro Pn Wn2 (set_elm n2 (elm o1) :: Sn) c' d'.
Proof.
  intros [Hold Hnew Hosi Hoei Hnsi Hnei Hosv Hoev Hnsv Hnev Hhost HeP HeW HeS
          Hnd Hb Hf Hfo Hfn HkW Hkn Hacc Hpl Hmap] HW1 HW2 Hc2 Hn1 Hk1 Hk2 Hk.
  destruct c as [osi nsi oei nei osv oev nsv nev k2i]. cur_simpl. subst nsv.
  assert (Hwn : Wn2 ++ [n2] <> []) by (by destruct Wn2).
  assert (osv = Some o1) as ->.
  { rewrite Hosv. eapply old_at_first; [|done]. by rewrite Hold, HW1. }
  assert (oev = Some o2) as ->.
  { rewrite Hoev. eapply old_at_last; [|by rewrite <- HW2]. by rewrite Hold, HW2. }
  assert (nev = Some n2) as ->.
  { rewrite Hnev by done. by eapply new_at_last. }
  assert (o2 ∈ olds /\ exists e2, elm o2 = Some e2
          /\ elms (present Wo) = elms (present Wo2) ++ [e2]) as (Ho2 & e2 & He2 & HE2).
  { rewrite HW2, present_snoc_Some in Hfo, HeW |- *.
    apply Forall_app in Hfo as [_ Ho2%Forall_inv].
    apply Forall_app in HeW as [_ [e2 He2]%Forall_inv].
    split; [done|]. exists e2. split; [done|]. by apply elms_snoc. }
  subst Wo. rewrite present_cons_Some in *.
  apply Forall_cons in Hfo as [Ho1 Hfo].
  apply Forall_app in Hfn as [Hfn Hn2]. apply Forall_inv in Hn2.
  apply Forall_cons in HeW as [[e1 He1] HeW].
  destruct (keys_window _ _ _ Hkn) as [HkWn HkPS].
  rewrite (elms_cons _ _ _ He1) in Hhost, HE2.
  rewrite step_start_end.
  2:{ rewrite same_by_key by done. by rewrite bool_decide_eq_false_2. }
  2:{ rewrite same_by_key by done. by rewrite bool_decide_eq_false_2. }
  2:{ rewrite same_by_key by done. by rewrite bool_decide_eq_true_2. }
  rewrite He2, He1. unfold move. diff_simpl.
  rewrite Hhost. rewrite move_start_end with (W2 := elms (present Wo2));
    [|by rewrite <- Hhost|done].
  simpl. do 2 eexists. split; [reflexivity|].
  assert (elms Pn ++ elms (present Wo1) ++ e1 :: elms Sn ≡ₚ host d) as Hperm.
  { rewrite Hhost. apply Permutation_app_head. simpl. symmetry. apply Permutation_middle. }
  rewrite !length_app in *. cur_simpl.
  constructor; diff_simpl; try done.
  - rewrite Hold. by rewrite <- !app_assoc.
  - rewrite Hnew.
    replace (Pn ++ (Wn2 ++ [n2]) ++ Sn) with ((Pn ++ Wn2) ++ n2 :: Sn)
      by (by rewrite <- !app_assoc).
    rewrite set_new_elm_mid by (rewrite length_app; lia). rewrite He1. by rewrite <- app_assoc.
  - solve_len.
  - solve_len.
  - solve_len.
  - intros Hne. rewrite Hnsv by done. unfold new_at. diff_simpl.
    rewrite at_index_set_new_elm_ne; [done|]. destruct Wn2; [done|]. cur_simpl. lia.
  - apply Forall_cons. split; [|done]. by eexists.
  - by rewrite Hperm.
  - by rewrite Hperm.
  - rewrite fmap_cons in HkW. by apply NoDup_cons in HkW as [_ ?].
  - rewrite <- Hkn. rewrite !fmap_app. simpl. by rewrite <- !app_assoc.
  - eapply account_step; [exact Hacc| |].
    + intros o [->|Ho]%elem_of_cons; [|by left]. right.
      rewrite !fmap_app. simpl. rewrite !elem_of_app. right. rewrite Hk. left.
    + intros k. rewrite !fmap_app, fmap_cons, !elem_of_app, elem_of_cons. tauto.
  - apply Forall_app in Hpl as [HplP HplS]. apply Forall_app. split; [done|].
    apply Forall_cons. split; [rewrite <- He1; by apply placed_reused|done].
  - destruct k2i as [m|].
    + eapply map_ok_narrow; [exact Hmap| | |].
      * intros n Hn. apply elem_of_app. by left.
      * intros o Ho. rewrite present_cons_Some. by right.
      * intros n i o Hn Hi Ho Hkon. split; [|done]. split; [|lia].
        destruct (decide (i = osi)) as [->|]; [|lia]. exfalso.
        eapply slot_first in Ho; [|exact Hold|done].
        injection Ho as <-.
        by apply (keys_last_fresh _ _ _ HkWn Hn); rewrite <- Hkon.
    + by apply Forall_cons in Hmap as [_ ?].
Qed.

Lemma case_end_start Lo Wo Ro Pn n1 Wn1 Sn c d o1 Wo1 o2 Wo2 n2 :
  Inv Lo Wo Ro Pn (n1 :: Wn1) Sn c d ->
  Wo = Some o1 :: Wo1 -> Wo = Wo2 ++ [Some o2] ->
  newEndVnode c = Some n2 -> n2 ∈ news ->
  key o1 <> key n1 -> key o2 <> key n2 -> key o1 <> key n2 -> key o2 = key n1 ->
  exists c' d', step true c d = Return (c', d')
    /\ Inv Lo Wo2 (Some o2 :: Ro) (Pn ++ [set_elm n1 (elm o2)]) Wn1 Sn c' d'.
Proof.
  intros [Hold Hnew Hosi Hoei Hnsi Hnei Hosv Hoev Hnsv Hnev Hhost HeP HeW HeS
          Hnd Hb Hf Hfo Hfn HkW Hkn Hacc Hpl Hmap] HW1 HW2 Hc2 Hn2 Hk1 Hk2 Hk3 Hk.
  destruct c as [osi nsi oei nei osv oev nsv nev k2i]. cur_simpl. subst nev.
  assert (osv = Some o1) as ->.
  { rewrite Hosv. eapply old_at_first; [|done]. by rewrite Hold, HW1. }
  assert (oev = Some o2) as ->.
  { rewrite Hoev. eapply old_at_last; [|by rewrite <- HW2]. by rewrite Hold, HW2. }
  assert (nsv = Some n1) as ->.
  { rewrite Hnsv by done. by eapply new_at_first. }
  assert (o1 ∈ olds /\ exists e1, elm o1 = Some e1
          /\ elms (present Wo) = e1 :: elms (present Wo1)) as (Ho1 & e1 & He1 & HE1).
  { rewrite HW1, present_cons_Some in Hfo, HeW |- *.
    apply Forall_cons in Hfo as [Ho1 _].
    apply Forall_cons in HeW as [[e1 He1] _].
    split; [done|]. exists e1. split; [done|]. by apply elms_cons. }
  pose proof HW1 as HWlen. apply (f_equal length) in HWlen. rewrite HW2 in HWlen.
  clear HW1. subst Wo. rewrite present_snoc_Some in *.
  apply Forall_app in Hfo as [Hfo Ho2%Forall_inv].
  apply Forall_cons in Hfn as [Hn1 Hfn].
  apply Forall_app in HeW as [HeW [e2 He2]%Forall_inv].
  destruct (keys_window _ _ _ Hkn) as [HkWn HkPS].
  rewrite (elms_snoc _ _ _ He2) in Hhost, HE1.
  rewrite step_end_start.
  2:{ rewrite same_by_key by done. by rewrite bool_decide_eq_false_2. }
  2:{ rewrite same_by_key by done. by rewrite bool_decide_eq_false_2. }
  2:{ rewrite same_by_key by done. by rewrite bool_decide_eq_false_2. }
  2:{ rewrite same_by_key by done. by rewrite bool_decide_eq_true_2. }
  rewrite He2, He1. unfold move. diff_simpl.
  rewrite Hhost, HE1. rewrite move_end_start with (W2 := elms (present Wo2));
    [|by rewrite <- HE1, <- Hhost|done].
  simpl. do 2 eexists. split; [reflexivity|].
  assert (elms Pn ++ e2 :: elms (present Wo2) ++ elms Sn ≡ₚ host d) as Hperm.
  { rewrite Hhost. apply Permutation_app_head. rewrite <- app_assoc. simpl.
    apply Permutation_middle. }
  rewrite !length_app in *. cur_simpl.
  constructor; diff_simpl; try done.
  - rewrite Hold. by rewrite <- !app_assoc.
  - rewrite Hnew. simpl. rewrite set_new_elm_mid by done. rewrite He2. by rewrite <- app_assoc.
  - solve_len.
  - solve_len.
  - solve_len.
  - intros Hne. rewrite Hnev by done. unfold new_at. diff_simpl.
    rewrite at_index_set_new_elm_ne; [done|]. destruct Wn1; [done|]. cur_simpl. lia.
  - rewrite (elms_snoc _ e2) by done. by rewrite <- app_assoc.
  - apply Forall_app. split; [done|]. apply Forall_singleton. by eexists.
  - by rewrite Hperm.
  - by rewrite Hperm.
  - rewrite fmap_app in HkW. by apply NoDup_app in HkW as (? & _).
  - rewrite <- Hkn. rewrite !fmap_app. simpl. by rewrite <- !app_assoc.
  - eapply account_step; [exact Hacc| |].
    + intros o [Ho| ->%list_elem_of_singleton]%elem_of_app; [by left|]. right.
      rewrite !fmap_app. simpl. rewrite !elem_of_app. left. right. rewrite Hk. left.
    + intros k. rewrite !fmap_app, !elem_of_app. tauto.
  - apply Forall_app in Hpl as [HplP HplS]. rewrite <- app_assoc. apply Forall_app.
    split; [done|]. apply Forall_cons. split; [rewrite <- He2; by apply placed_reused|done].
  - destruct k2i as [m|].
    + eapply map_ok_narrow; [exact Hmap| | |].
      * intros n Hn. by right.
      * intros o Ho. rewrite present_snoc_Some. apply elem_of_app. by left.
      * intros n i o Hn Hi Ho Hkon. split; [|done]. split; [lia|].
        destruct (decide (i = oei)) as [->|]; [|lia]. exfalso.
        eapply slot_last in Ho; [|exact Hold|rewrite length_app; simpl; lia].
        injection Ho as <-.
        by apply (keys_first_fresh _ _ _ HkWn Hn); rewrite <- Hkon.
    + by apply Forall_app in Hmap as [? _].
Qed.

Lemma window_slot (Lo Wo Ro : list (option VNode)) d j :
  oldCh d = Lo ++ Wo ++ Ro ->
  Z.of_nat (length Lo) <= j < Z.of_nat (length Lo) + Z.of_nat (length Wo) ->
  at_index (oldCh d) j = Wo !! (Z.to_nat j - length Lo)%nat
  /\ oldCh d !! Z.to_nat j = Wo !! (Z.to_nat j - length Lo)%nat.
Proof.
  intros H Hj. unfold at_index.
  destruct (j <? 0) eqn:Hneg; [apply Z.ltb_lt in Hneg; lia|].
  rewrite H. rewrite lookup_app_r by lia.
  rewrite lookup_app_l by lia. done.
Qed.

Lemma numbered_inj (a b : VNode) :
  (exists k, key a = VNum k) -> (exists k, key b = VNum k) ->
  toPropertyKey (key a) = toPropertyKey (key b) -> key a = key b.
Proof.
  intros [ka Ha] [kb Hb]. rewrite Ha, Hb. simpl. intros H.
  by apply (inj pretty) in H as ->.
Qed.

Lemma old_numbered o : o ∈ olds -> exists k, key o = VNum k.
Proof.
  intros H. unfold keyed_by_numbers in olds_numbered.
  rewrite Forall_forall in olds_numbered. by apply olds_numbered.
Qed.

Lemma new_numbered n : n ∈ news -> exists k, key n = VNum k.
Proof.
  intros H. unfold keyed_by_numbers in news_numbered.
  rewrite Forall_forall in news_numbered. by apply news_numbered.
Qed.

(** The key map built from the old children between the cursors answers
    for every new child between the cursors. *)
Lemma map_created Lo Wo Ro Wn d osi oei :
  oldCh d = Lo ++ Wo ++ Ro ->
  osi = Z.of_nat (length Lo) ->
  oei = Z.of_nat (length Lo) + Z.of_nat (length Wo) - 1 ->
  Forall is_Some Wo ->
  Forall (fun o => o ∈ olds) (present Wo) ->
  Forall (fun n => n ∈ news) Wn ->
  NoDup (key <$> present Wo) ->
  exists m, createKeyToOldIdx (oldCh d) osi oei = Return m
            /\ map_ok Wo Wn d osi oei m.
Proof.
  intros Hold -> -> Hall Hfo Hfn HkW.
  rewrite Forall_forall in Hfo. rewrite Forall_forall in Hfn.
  unfold createKeyToOldIdx.
  replace (Z.to_nat (_ - _ + 1)) with (length Wo) by lia.
  assert (forall j, Z.of_nat (length Lo) <= j < Z.of_nat (length Lo) + Z.of_nat (length Wo) ->
            exists c, Wo !! (Z.to_nat j - length Lo)%nat = Some (Some c)
                      /\ mjoin (at_index (oldCh d) j) = Some c
                      /\ oldCh d !! Z.to_nat j = Some (Some c)
                      /\ c ∈ olds) as Hslot.
  { intros j Hj. destruct (window_slot _ _ _ _ _ Hold Hj) as [Ha Hl].
    destruct (Wo !! (Z.to_nat j - length Lo)%nat) as [x|] eqn:Hx.
    2:{ apply lookup_ge_None in Hx. lia. }
    rewrite Forall_forall in Hall. destruct (Hall x) as [c ->].
    { by eapply list_elem_of_lookup_2. }
    exists c. rewrite Ha, Hl. repeat split; try done.
    apply Hfo. apply elem_of_present. by eapply list_elem_of_lookup_2. }
  destruct (createKeyToOldIdx_from_spec (length Wo) (oldCh d) (Z.of_nat (length Lo)) ∅)
    as (m & Hm & Hspec).
  { intros j Hj. destruct (Hslot j Hj) as (c & _ & -> & _). by eexists. }
  exists m. split; [done|].
  unfold map_ok. rewrite Forall_forall. intros n Hn.
  destruct (m !! toPropertyKey (key n)) as [i|] eqn:Hmi.
  - apply Hspec in Hmi as [(_ & Hr & (c & Hc & _ & Hpk) & _)|[Hemp _]].
    2:{ by rewrite lookup_empty in Hemp. }
    destruct (Hslot i ltac:(lia)) as (c' & _ & Hc' & Hl & Hin).
    rewrite Hc in Hc'. injection Hc' as <-.
    exists c. split; [lia|]. split; [done|].
    apply numbered_inj; [by apply old_numbered | by apply new_numbered; apply Hfn | done].
  - intros o Ho Hk.
    apply elem_of_present in Ho as Hin. apply list_elem_of_lookup_1 in Hin as [j Hj].
    assert (j < length Wo)%nat as Hjl by (by eapply lookup_lt_Some).
    assert (m !! toPropertyKey (key n) = Some (Z.of_nat (length Lo) + Z.of_nat j)) as Hyes.
    { apply Hspec. left. split.
      { destruct (new_numbered n (Hfn n Hn)) as [k ->]. apply JSFacts.pretty_Z_not_proto. }
      split; [lia|].
      destruct (Hslot (Z.of_nat (length Lo) + Z.of_nat j) ltac:(lia)) as (c & Hc & Hat & _ & _).
      replace (Z.to_nat (Z.of_nat (length Lo) + Z.of_nat j) - length Lo)%nat with j in Hc by lia.
      rewrite Hj in Hc. injection Hc as <-.
      split.
      - exists o. split; [done|]. split; [|by rewrite Hk].
        destruct (old_numbered o (Hfo o Ho)) as [k ->]. done.
      - intros j' Hj' (c' & Hc' & _ & Hpk).
        destruct (Hslot j' ltac:(lia)) as (c'' & Hw & Hat' & _ & Hin'').
        rewrite Hc' in Hat'. injection Hat' as <-.
        assert (key c' = key o) as Hkk.
        { rewrite Hk. apply numbered_inj;
            [by apply old_numbered | by apply new_numbered; apply Hfn | done]. }
        rewrite (present_all Wo Hall) in Hj, Hw.
        rewrite list_lookup_fmap in Hj, Hw.
        destruct (present Wo !! j) as [oj|] eqn:Hpj; [|done].
        destruct (present Wo !! (Z.to_nat j' - length Lo)%nat) as [oj'|] eqn:Hpj'; [|done].
        simpl in Hj, Hw. injection Hj as ->. injection Hw as ->.
        assert (j = (Z.to_nat j' - length Lo)%nat); [|lia].
        eapply NoDup_lookup; [exact HkW| |].
        + rewrite list_lookup_fmap, Hpj. done.
        + rewrite list_lookup_fmap, Hpj'. simpl. by rewrite Hkk. }
    rewrite Hmi in Hyes. done.
Qed.

Lemma step_keyed osi nsi oei nei o1 o2 n1 n2 k2i d m :
  same (Some o1) (Some n1) = Return false ->
  same (Some o2) (Some n2) = Return false ->
  same (Some o1) (Some n2) = Return false ->
  same (Some o2) (Some n1) = Return false ->
  match k2i with
  | Some m => Return m
  | None => createKeyToOldIdx (oldCh d) osi oei
  end = Return m ->
  (exists k, key n1 = VNum k) ->
  step true (mkCur osi nsi oei nei (Some o1) (Some o2) (Some n1) (Some n2) k2i) d =
  d2 ← match m !! toPropertyKey (key n1) with
       | None => createElm nsi (elm o1) d
       | Some i =>
           s5 ← same (old_at d i) (Some n1);
           if s5 : bool then
             d1 ← patch (old_at d i) nsi d;
             e ← elm_of (old_at d i);
             move true e (elm o1) (clear_old i d1)
           else createElm nsi (elm o1) d
       end;
  Return (mkCur osi (nsi + 1) oei nei (Some o1) (Some o2) (new_at d2 (nsi + 1))
                (Some n2) (Some m), d2).
Proof.
  intros H1 H2 H3 H4 Hm [k Hk]. unfold VDom.step. simpl.
  rewrite H1. simpl. rewrite H2. simpl. rewrite H3. simpl. rewrite H4. simpl.
  rewrite Hm. simpl. rewrite Hk. simpl. rewrite JSFacts.get_prop_number.
  destruct (m !! pretty k); reflexivity.
Qed.

Lemma insert_mid {A} (L R : list A) x y n :
  n = length L -> <[n := y]> (L ++ x :: R) = L ++ y :: R.
Proof.
  intros ->. rewrite insert_app_r_alt by lia.
  by replace (length L - length L)%nat with 0%nat by lia.
Qed.

Lemma bound_fresh (h : list nat) f : Forall (fun e => (e < f)%nat) h -> f ∉ h.
Proof. rewrite Forall_forall. intros H Hin. apply H in Hin. lia. Qed.

Lemma case_keyed Lo Wo Ro Pn n1 Wn1 Sn c d o1 Wo1 o2 Wo2 n2 :
  Inv Lo Wo Ro Pn (n1 :: Wn1) Sn c d ->
  Wo = Some o1 :: Wo1 -> Wo = Wo2 ++ [Some o2] ->
  newEndVnode c = Some n2 -> n2 ∈ news ->
  key o1 <> key n1 -> key o2 <> key n2 -> key o1 <> key n2 -> key o2 <> key n1 ->
  exists Wo' n1' c' d', step true c d = Return (c', d')
    /\ Inv Lo Wo' Ro (Pn ++ [n1']) Wn1 Sn c' d'
    /\ length Wo' = length Wo.
Proof.
  intros [Hold Hnew Hosi Hoei Hnsi Hnei Hosv Hoev Hnsv Hnev Hhost HeP HeW HeS
          Hnd Hb Hf Hfo Hfn HkW Hkn Hacc Hpl Hmap] HW1 HW2 Hc2 Hn2 Hk1 Hk2 Hk3 Hk4.
  destruct c as [osi nsi oei nei osv oev nsv nev k2i]. cur_simpl. subst nev.
  assert (Hwn : n1 :: Wn1 <> []) by done.
  specialize (Hnsv Hwn). specialize (Hnev Hwn).
  assert (osv = Some o1) as ->.
  { rewrite Hosv. eapply old_at_first; [|done]. by rewrite Hold, HW1. }
  assert (oev = Some o2) as ->.
  { rewrite Hoev. eapply old_at_last; [|by rewrite <- HW2]. by rewrite Hold, HW2. }
  assert (nsv = Some n1) as ->.
  { rewrite Hnsv. by eapply new_at_first. }
  assert (o2 ∈ olds) as Ho2.
  { rewrite HW2, present_snoc_Some in Hfo.
    by apply Forall_app in Hfo as [_ Ho2%Forall_inv]. }
  assert (forall i o, oldCh d !! Z.to_nat i = Some (Some o) -> i = oei -> o = o2) as Hlast.
  { intros i o Ho ->. eapply slot_last in Ho; [| by rewrite Hold, HW2 | by rewrite <- HW2].
    by injection Ho. }
  clear HW2 Wo2.
  assert (exists m,
    match k2i with
    | Some m => Return m
    | None => createKeyToOldIdx (oldCh d) osi oei
    end = Return m /\ map_ok Wo (n1 :: Wn1) d osi oei m) as (m & Hmeq & Hmok).
  { destruct k2i as [m|]; [by exists m|]. by eapply map_created. }
  clear Hmap.
  subst Wo. rewrite present_cons_Some in *.
  apply Forall_cons in Hfo as [Ho1 Hfo].
  apply Forall_cons in Hfn as [Hn1 Hfn].
  apply Forall_cons in HeW as [[e1 He1] HeW].
  destruct (keys_window _ _ _ Hkn) as [HkWn HkPS].
  rewrite (elms_cons _ _ _ He1) in Hhost.
  rewrite (step_keyed _ _ _ _ _ _ _ _ _ _ m).
  2-5: rewrite same_by_key by done; by rewrite bool_decide_eq_false_2.
  2: done.
  2:{ by apply new_numbered. }
  pose proof Hmok as Hhead. apply Forall_cons in Hhead as [Hhead Hrest].
  destruct (m !! toPropertyKey (key n1)) as [i|] eqn:Hlook.
  - (* the key is found among the old children *)
    destruct Hhead as (o & Hi & Hslot & Hko).
    assert (old_at d i = Some o) as Hat.
    { unfold old_at, at_index. destruct (i <? 0) eqn:Hneg; [apply Z.ltb_lt in Hneg; lia|].
      by rewrite Hslot. }
    destruct (window_slot Lo (Some o1 :: Wo1) Ro d i Hold) as [_ Hw]; [cur_simpl; lia|].
    rewrite Hslot in Hw. symmetry in Hw.
    destruct (Z.to_nat i - length Lo)%nat as [|j] eqn:Hj.
    { simpl in Hw. injection Hw as ->. done. }
    simpl in Hw. apply list_elem_of_split_length in Hw as (U & V & -> & ->).
    rewrite !present_app, present_cons_Some in *.
    assert (o ∈ olds) as Ho.
    { apply Forall_app in Hfo as [_ Hfo]. by apply Forall_cons in Hfo as [? _]. }
    assert (exists e, elm o = Some e) as [e He].
    { apply Forall_app in HeW as [_ HeW]. by apply Forall_cons in HeW as [? _]. }
    assert (o1 :: present U ++ o :: present V ≡ₚ o :: o1 :: present U ++ present V) as HpW.
    { transitivity (o1 :: o :: present U ++ present V); [|apply perm_swap].
      apply perm_skip. symmetry. apply Permutation_middle. }
    rewrite Hat. rewrite same_by_key by done. rewrite bool_decide_eq_true_2 by done.
    simpl. rewrite He, He1. unfold move. diff_simpl.
    rewrite !elms_app, (elms_cons _ _ _ He) in Hhost.
    rewrite Hhost. rewrite move_keyed by (by rewrite <- Hhost).
    simpl. exists (Some o1 :: U ++ None :: V). do 3 eexists.
    split; [reflexivity|]. split; [|simpl; rewrite !length_app; simpl; done].
    assert (elms Pn ++ (e :: e1 :: elms (present U) ++ elms (present V)) ++ elms Sn
            ≡ₚ host d) as Hperm.
    { rewrite Hhost. apply Permutation_app_head. apply Permutation_app_tail.
      transitivity (e1 :: e :: elms (present U) ++ elms (present V)); [apply perm_swap|].
      apply perm_skip. apply Permutation_middle. }
    assert (i <> oei) as Hioei.
    { intros ->. apply Hk4. by rewrite <- (Hlast _ _ Hslot eq_refl). }
    assert ((i <? 0) = false) as Hineg by (apply Z.ltb_ge; lia).
    constructor; diff_simpl; rewrite ?Hineg; try done.
    + rewrite Hold.
      replace (Lo ++ (Some o1 :: U ++ Some o :: V) ++ Ro)
        with ((Lo ++ Some o1 :: U) ++ Some o :: V ++ Ro)
        by (simpl; by rewrite <- !app_assoc).
      rewrite insert_mid by (rewrite length_app; simpl; lia).
      simpl. by rewrite <- !app_assoc.
    + rewrite Hnew. simpl. rewrite set_new_elm_mid by done. by rewrite <- app_assoc.
    + solve_len.
    + solve_len.
    + solve_len.
    + unfold old_at. diff_simpl. rewrite ?Hineg.
      rewrite at_index_insert_ne by lia. exact Hosv.
    + unfold old_at. diff_simpl. rewrite ?Hineg.
      rewrite at_index_insert_ne by lia. exact Hoev.
    + intros Hne. rewrite Hnev. unfold new_at. diff_simpl.
      rewrite at_index_set_new_elm_ne; [done|]. destruct Wn1; [done|]. cur_simpl. lia.
    + norm_present.
      rewrite (elms_snoc _ e) by done. rewrite (elms_cons _ e1) by done.
      rewrite !elms_app. simpl. rewrite <- !app_assoc. done.
    + apply Forall_app. split; [done|]. apply Forall_singleton. by eexists.
    + norm_present.
      apply Forall_cons. split; [by eexists|].
      apply Forall_app in HeW as [HeU HeV]. apply Forall_cons in HeV as [_ HeV].
      by apply Forall_app.
    + by rewrite Hperm.
    + by rewrite Hperm.
    + norm_present.
      apply Forall_cons. split; [done|].
      apply Forall_app in Hfo as [HfU HfV]. apply Forall_cons in HfV as [_ HfV].
      by apply Forall_app.
    + norm_present.
      rewrite HpW in HkW. rewrite fmap_cons in HkW. by apply NoDup_cons in HkW as [_ ?].
    + rewrite <- Hkn. rewrite !fmap_app. simpl. by rewrite <- !app_assoc.
    + eapply account_step; [exact Hacc| |].
      * intros o' Ho'. rewrite HpW in Ho'. apply elem_of_cons in Ho' as [->|Ho'].
        -- right. rewrite !fmap_app. simpl. rewrite !elem_of_app. left. right.
           rewrite Hko. left.
        -- left. by norm_present.
      * intros k. rewrite !fmap_app, !elem_of_app. tauto.
    + apply Forall_app in Hpl as [HplP HplS]. rewrite <- app_assoc. apply Forall_app.
      split; [done|]. apply Forall_cons. split; [|done].
      rewrite <- He. by apply placed_reused.
    + eapply map_ok_narrow; [exact Hmok| | |].
      * intros n Hn. by right.
      * intros o' Ho'. revert Ho'. norm_present. intros Ho'. rewrite HpW.
        by right.
      * intros n i' o' Hn Hi' Ho' Hkon. split; [done|]. diff_simpl. rewrite ?Hineg.
        rewrite list_lookup_insert_ne; [done|]. intros Heq.
        assert (i' = i) as -> by lia. rewrite Hslot in Ho'. injection Ho' as <-.
        apply (keys_first_fresh _ _ _ HkWn Hn). by rewrite <- Hkon.
  - (* no old child has the key: a node is created *)
    unfold createElm. rewrite He1.
    assert (host d = elms Pn ++ e1 :: (elms (present Wo1) ++ elms Sn)) as Hh by done.
    assert (insert (host d) (fresh d) (Some e1)
            = Return (elms Pn ++ fresh d :: e1 :: (elms (present Wo1) ++ elms Sn))) as ->.
    { rewrite Hh. apply insert_created.
      - rewrite <- Hh. by apply bound_fresh.
      - rewrite Hh in Hnd. apply NoDup_app in Hnd as (_ & Hd & _).
        intros Hin. apply (Hd _ Hin). left. }
    simpl. exists (Some o1 :: Wo1). do 3 eexists.
    split; [reflexivity|]. split; [|done].
    assert (elms Pn ++ fresh d :: e1 :: elms (present Wo1) ++ elms Sn
            ≡ₚ fresh d :: host d) as Hperm.
    { rewrite Hh. symmetry. apply Permutation_middle. }
    constructor; diff_simpl; try done.
    + rewrite Hnew. simpl. rewrite set_new_elm_mid by done. by rewrite <- app_assoc.
    + solve_len.
    + solve_len.
    + intros Hne. rewrite Hnev. unfold new_at. diff_simpl.
      rewrite at_index_set_new_elm_ne; [done|]. destruct Wn1; [done|]. cur_simpl. lia.
    + rewrite present_cons_Some. rewrite (elms_snoc _ (fresh d)) by done.
      rewrite (elms_cons _ e1) by done. by rewrite <- !app_assoc.
    + apply Forall_app. split; [done|]. apply Forall_singleton. by eexists.
    + rewrite present_cons_Some. apply Forall_cons. split; [by eexists|done].
    + rewrite Hperm. apply NoDup_cons. split; [by apply bound_fresh|done].
    + rewrite Hperm. apply Forall_cons. split; [lia|].
      eapply Forall_impl; [exact Hb|]. simpl. intros; lia.
    + lia.
    + rewrite present_cons_Some. by apply Forall_cons.
    + rewrite <- Hkn. rewrite !fmap_app. simpl. by rewrite <- !app_assoc.
    + eapply account_step; [exact Hacc| |].
      * intros o' Ho'. left. by rewrite present_cons_Some.
      * intros k. rewrite !fmap_app, !elem_of_app. tauto.
    + apply Forall_app in Hpl as [HplP HplS]. rewrite <- app_assoc. apply Forall_app.
      split; [done|]. apply Forall_cons. split; [|done].
      right. split; [|exists (fresh d); split; [done|lia]].
      simpl. intros (o' & Hko' & Ho')%list_elem_of_fmap.
      rewrite Forall_forall in Hacc. destruct (Hacc o' Ho') as [Hin|Hin].
      * by apply (Hhead o' Hin).
      * apply (HkPS n1); [by left|]. by rewrite Hko'.
Qed.

Lemma inv_views Lo Wo Ro Pn Wn Sn c d x Wo1 Wo2 y n1 Wn1 Wn2 n2 :
  Inv Lo Wo Ro Pn Wn Sn c d ->
  Wo = x :: Wo1 -> Wo = Wo2 ++ [y] -> Wn = n1 :: Wn1 -> Wn = Wn2 ++ [n2] ->
  oldStartVnode c = x /\ oldEndVnode c = y
  /\ newStartVnode c = Some n1 /\ newEndVnode c = Some n2
  /\ (forall o, x = Some o -> o ∈ olds) /\ (forall o, y = Some o -> o ∈ olds)
  /\ n1 ∈ news /\ n2 ∈ news.
Proof.
  intros [Hold Hnew Hosi Hoei Hnsi Hnei Hosv Hoev Hnsv Hnev Hhost HeP HeW HeS
          Hnd Hb Hf Hfo Hfn HkW Hkn Hacc Hpl Hmap] HW1 HW2 HN1 HN2.
  assert (Wn <> []) as Hwn by (by rewrite HN1).
  rewrite Forall_forall in Hfo. rewrite Forall_forall in Hfn.
  repeat split.
  - rewrite Hosv. eapply old_at_first; [|done]. by rewrite Hold, HW1.
  - rewrite Hoev. eapply old_at_last; [|by rewrite <- HW2]. by rewrite Hold, HW2.
  - rewrite Hnsv by done. eapply new_at_first; [|done]. by rewrite Hnew, HN1.
  - rewrite Hnev by done. eapply new_at_last; [|by rewrite <- HN2]. by rewrite Hnew, HN2.
  - intros o ->. apply Hfo, elem_of_present. rewrite HW1. left.
  - intros o ->. apply Hfo, elem_of_present. rewrite HW2. apply elem_of_app. right. left.
  - apply Hfn. rewrite HN1. left.
  - apply Hfn. rewrite HN2. apply elem_of_app. right. left.
Qed.

(** One turn of the loop keeps what holds, and brings the cursors closer. *)
Lemma step_inv Lo Wo Ro Pn Wn Sn c d :
  Inv Lo Wo Ro Pn Wn Sn c d -> Wo <> [] -> Wn <> [] ->
  exists Lo' Wo' Ro' Pn' Wn' Sn' c' d',
    step true c d = Return (c', d')
    /\ Inv Lo' Wo' Ro' Pn' Wn' Sn' c' d'
    /\ (length Wo' + length Wn' < length Wo + length Wn)%nat.
Proof.
  intros HI Hwo Hwn.
  destruct (last_view Wo Hwo) as (Wo2 & y & HW2).
  destruct (last_view Wn Hwn) as (Wn2 & n2 & HN2).
  destruct Wo as [|x Wo1]; [done|]. destruct Wn as [|n1 Wn1]; [done|].
  destruct (inv_views _ _ _ _ _ _ _ _ _ _ _ _ _ _ _ _ HI eq_refl HW2 eq_refl HN2)
    as (Hosv & Hoev & Hnsv & Hnev & Hx & Hy & Hn1 & Hn2).
  assert (length (x :: Wo1) = length (Wo2 ++ [y])) as HlW by (by rewrite HW2).
  assert (length (n1 :: Wn1) = length (Wn2 ++ [n2])) as HlN by (by rewrite HN2).
  rewrite !length_app in HlW, HlN. cbn [length] in HlW, HlN.
  destruct x as [o1|].
  2:{ destruct (case_skip_start _ _ _ _ _ _ _ _ HI) as (c' & Hs & HI').
      exists (Lo ++ [None]), Wo1, Ro, Pn, (n1 :: Wn1), Sn, c', d.
      split; [done|]. split; [done|]. cbn [length]. lia. }
  destruct y as [o2|].
  2:{ pose proof HI as HI0. rewrite HW2 in HI0.
      destruct (case_skip_end _ _ _ _ _ _ _ _ HI0) as (c' & Hs & HI').
      { by rewrite Hosv. }
      exists Lo, Wo2, (None :: Ro), Pn, (n1 :: Wn1), Sn, c', d.
      split; [done|]. split; [done|]. cbn [length]. lia. }
  specialize (Hx o1 eq_refl). specialize (Hy o2 eq_refl).
  destruct (decide (key o1 = key n1)) as [Hk1|Hk1].
  { destruct (case_start_start _ _ _ _ _ _ _ _ _ _ HI) as (c' & d' & Hs & HI');
      [by rewrite Hoev | done |].
    exists (Lo ++ [Some o1]), Wo1, Ro, (Pn ++ [set_elm n1 (elm o1)]), Wn1, Sn, c', d'.
    split; [done|]. split; [done|]. cbn [length]. lia. }
  destruct (decide (key o2 = key n2)) as [Hk2|Hk2].
  { pose proof HI as HI0. rewrite HW2, HN2 in HI0.
    destruct (case_end_end _ _ _ _ _ _ _ _ _ _ o1 n1 HI0) as (c' & d' & Hs & HI');
      try done.
    exists Lo, Wo2, (Some o2 :: Ro), Pn, Wn2, (set_elm n2 (elm o2) :: Sn), c', d'.
    split; [done|]. split; [done|]. cbn [length]. lia. }
  destruct (decide (key o1 = key n2)) as [Hk3|Hk3].
  { pose proof HI as HI0. rewrite HN2 in HI0.
    destruct (case_start_end _ _ _ _ _ _ _ _ _ o1 Wo1 o2 Wo2 n1 HI0)
      as (c' & d' & Hs & HI'); try done.
    exists (Lo ++ [Some o1]), Wo1, Ro, Pn, Wn2, (set_elm n2 (elm o1) :: Sn), c', d'.
    split; [done|]. split; [done|]. cbn [length]. lia. }
  destruct (decide (key o2 = key n1)) as [Hk4|Hk4].
  { destruct (case_end_start _ _ _ _ _ _ _ _ _ o1 Wo1 o2 Wo2 n2 HI)
      as (c' & d' & Hs & HI'); try done.
    exists Lo, Wo2, (Some o2 :: Ro), (Pn ++ [set_elm n1 (elm o2)]), Wn1, Sn, c', d'.
    split; [done|]. split; [done|]. cbn [length]. lia. }
  destruct (case_keyed _ _ _ _ _ _ _ _ _ o1 Wo1 o2 Wo2 n2 HI)
    as (Wo' & n1' & c' & d' & Hs & HI' & Hlen); try done.
  exists Lo, Wo', Ro, (Pn ++ [n1']), Wn1, Sn, c', d'.
  split; [done|]. split; [done|]. rewrite Hlen. cbn [length]. lia.
Qed.

(** The loop runs until one of the two windows is empty. *)
Lemma loop_inv fuel : forall Lo Wo Ro Pn Wn Sn c d,
  Inv Lo Wo Ro Pn Wn Sn c d ->
  (length Wo + length Wn <= fuel)%nat ->
  exists Lo' Wo' Ro' Pn' Wn' Sn' c' d',
    loop fuel true c d = Some (Return (c', d'))
    /\ Inv Lo' Wo' Ro' Pn' Wn' Sn' c' d'
    /\ (Wo' = [] \/ Wn' = []).
Proof.
  induction fuel as [|fuel IH]; intros Lo Wo Ro Pn Wn Sn c d HI Hfuel.
  - exists Lo, Wo, Ro, Pn, Wn, Sn, c, d.
    assert (Wo = []) as -> by (destruct Wo; [done|simpl in Hfuel; lia]).
    split; [|split; [done|by left]].
    apply loop_exit. apply andb_false_iff. left. apply Z.leb_gt.
    rewrite (inv_osi _ _ _ _ _ _ _ _ _ _ _ HI), (inv_oei _ _ _ _ _ _ _ _ _ _ _ HI).
    simpl. lia.
  - destruct (decide (Wo = [])) as [->|Hwo].
    { exists Lo, [], Ro, Pn, Wn, Sn, c, d. split; [|split; [done|by left]].
      apply loop_exit. apply andb_false_iff. left. apply Z.leb_gt.
      rewrite (inv_osi _ _ _ _ _ _ _ _ _ _ _ HI), (inv_oei _ _ _ _ _ _ _ _ _ _ _ HI).
      simpl. lia. }
    destruct (decide (Wn = [])) as [->|Hwn].
    { exists Lo, Wo, Ro, Pn, [], Sn, c, d. split; [|split; [done|by right]].
      apply loop_exit. apply andb_false_iff. right. apply Z.leb_gt.
      rewrite (inv_nsi _ _ _ _ _ _ _ _ _ _ _ HI), (inv_nei _ _ _ _ _ _ _ _ _ _ _ HI).
      simpl. lia. }
    destruct (step_inv _ _ _ _ _ _ _ _ HI Hwo Hwn)
      as (Lo1 & Wo1 & Ro1 & Pn1 & Wn1 & Sn1 & c1 & d1 & Hs & HI1 & Hlt).
    destruct (IH _ _ _ _ _ _ _ _ HI1 ltac:(lia))
      as (Lo' & Wo' & Ro' & Pn' & Wn' & Sn' & c' & d' & Hl & HI' & Hex).
    exists Lo', Wo', Ro', Pn', Wn', Sn', c', d'. split; [|done].
    rewrite loop_S.
    rewrite (inv_osi _ _ _ _ _ _ _ _ _ _ _ HI), (inv_oei _ _ _ _ _ _ _ _ _ _ _ HI),
            (inv_nsi _ _ _ _ _ _ _ _ _ _ _ HI), (inv_nei _ _ _ _ _ _ _ _ _ _ _ HI).
    assert ((Z.of_nat (length Lo) <=? Z.of_nat (length Lo) + Z.of_nat (length Wo) - 1)
            && (Z.of_nat (length Pn) <=? Z.of_nat (length Pn) + Z.of_nat (length Wn) - 1)
            = true) as ->.
    { apply andb_true_iff. split; apply Z.leb_le.
      - destruct Wo; [done|]. simpl length. lia.
      - destruct Wn; [done|]. simpl length. lia. }
    by rewrite Hs.
Qed.

Lemma elm_fmap_elms (l : list VNode) :
  Forall (fun n => is_Some (elm n)) l -> elm <$> l = Some <$> elms l.
Proof.
  induction 1 as [|n l [e He] _ IH]; [done|].
  rewrite (elms_cons _ _ _ He). rewrite !fmap_cons. by rewrite He, IH.
Qed.

Lemma elms_of_fmap (l : list VNode) h :
  elm <$> l = Some <$> h -> elms l = h /\ Forall (fun n => is_Some (elm n)) l.
Proof.
  revert h. induction l as [|n l IH]; intros [|e h] H; try done.
  rewrite !fmap_cons in H. injection H as He Hl. destruct (IH _ Hl) as [<- HF].
  split; [by apply elms_cons|]. apply Forall_cons. split; [by eexists|done].
Qed.

Lemma present_fmap_Some (l : list VNode) : present (Some <$> l) = l.
Proof.
  induction l as [|x l IH]; [done|]. rewrite fmap_cons. by rewrite present_cons_Some, IH.
Qed.

Lemma head_elms (Sn : list VNode) :
  Forall (fun n => is_Some (elm n)) Sn ->
  match head Sn with None => None | Some n => elm n end = head (elms Sn).
Proof.
  intros [|n l [e He] _]; [done|]. cbn [head]. by rewrite (elms_cons _ _ _ He), He.
Qed.

(** [addVnodes] creates a host node for each new child between the
    cursors, in order, in front of the reference node. *)
Lemma addVnodes_from_all Sn ref : forall Wn Pn d,
  newCh d = Pn ++ Wn ++ Sn ->
  host d = elms Pn ++ elms Sn ->
  ref = head (elms Sn) ->
  NoDup (host d) -> Forall (fun e => (e < fresh d)%nat) (host d) ->
  exists d' Wn',
    addVnodes_from (length Wn) ref (Z.of_nat (length Pn)) d = Return d'
    /\ newCh d' = Pn ++ Wn' ++ Sn
    /\ host d' = elms Pn ++ elms Wn' ++ elms Sn
    /\ key <$> Wn' = key <$> Wn
    /\ Forall (fun n => exists e, elm n = Some e /\ (fresh d <= e)%nat) Wn'
    /\ NoDup (host d').
Proof.
  induction Wn as [|n Wn IH]; intros Pn d Hnew Hhost Href Hnd Hb.
  - exists d, []. simpl. by repeat split.
  - cbn [length addVnodes_from]. unfold createElm.
    assert (insert (host d) (fresh d) ref = Return (elms Pn ++ fresh d :: elms Sn)) as ->.
    { rewrite Href. destruct (elms Sn) as [|r rest] eqn:HS; cbn [head].
      - rewrite Hhost, app_nil_r. rewrite insert_created_last; [done|].
        rewrite Hhost, app_nil_r in Hb. by apply bound_fresh.
      - rewrite Hhost. apply insert_created.
        + rewrite <- Hhost. by apply bound_fresh.
        + rewrite Hhost in Hnd. apply NoDup_app in Hnd as (_ & Hd & _).
          intros Hin. apply (Hd _ Hin). left. }
    cbn [mbind completion_bind].
    set (d1 := mkDiff _ _ _ _ _).
    destruct (IH (Pn ++ [set_elm n (Some (fresh d))]) d1)
      as (d' & Wn' & Hadd & Hnew' & Hhost' & Hk' & Hfr & Hnd').
    + unfold d1. diff_simpl. rewrite Hnew. simpl.
      rewrite set_new_elm_mid by done. by rewrite <- app_assoc.
    + unfold d1. diff_simpl. rewrite (elms_snoc _ (fresh d)) by done.
      by rewrite <- app_assoc.
    + done.
    + unfold d1. diff_simpl.
      assert (elms Pn ++ fresh d :: elms Sn ≡ₚ fresh d :: host d) as ->.
      { rewrite Hhost. symmetry. apply Permutation_middle. }
      apply NoDup_cons. split; [by apply bound_fresh|done].
    + unfold d1. diff_simpl.
      assert (elms Pn ++ fresh d :: elms Sn ≡ₚ fresh d :: host d) as ->.
      { rewrite Hhost. symmetry. apply Permutation_middle. }
      apply Forall_cons. split; [lia|]. eapply Forall_impl; [exact Hb|].
      simpl. intros; lia.
    + exists d', (set_elm n (Some (fresh d)) :: Wn').
      rewrite length_app in Hadd. simpl in Hadd.
      replace (Z.of_nat (length Pn) + 1) with (Z.of_nat (length Pn + 1)) by lia.
      split; [done|]. split; [by rewrite Hnew', <- app_assoc|].
      split.
      { rewrite Hhost'. rewrite (elms_snoc _ (fresh d)) by done.
        rewrite elms_set_elm. by rewrite <- app_assoc. }
      split; [by rewrite !fmap_cons, Hk'|]. split; [|done].
      apply Forall_cons. split; [exists (fresh d); split; [done|lia]|].
      eapply Forall_impl; [exact Hfr|]. unfold d1. simpl.
      intros x (e & He & Hle). exists e. split; [done|lia].
Qed.

(** [removeVnodes] takes the host nodes of the old children left between
    the cursors out of the parent. *)
Lemma removeVnodes_from_all A B Ro : forall Wo Lo d,
  oldCh d = Lo ++ Wo ++ Ro ->
  host d = A ++ elms (present Wo) ++ B ->
  NoDup (host d) ->
  Forall (fun n => is_Some (elm n)) (present Wo) ->
  exists d', removeVnodes_from (length Wo) (Z.of_nat (length Lo)) d = Return d'
    /\ host d' = A ++ B /\ newCh d' = newCh d.
Proof.
  induction Wo as [|x Wo IH]; intros Lo d Hold Hhost Hnd He.
  - exists d. simpl. by repeat split.
  - cbn [length removeVnodes_from].
    assert (mjoin (at_index (oldCh d) (Z.of_nat (length Lo))) = x) as ->.
    { rewrite Hold. simpl. by rewrite at_index_mid. }
    destruct x as [ch|].
    + rewrite present_cons_Some in He, Hhost.
      apply Forall_cons in He as [[e Hch] He].
      rewrite (elms_cons _ _ _ Hch) in Hhost.
      rewrite Hch. cbn [removeNode mbind completion_bind].
      set (d1 := mkDiff _ _ _ _ _).
      assert (without e (host d) = A ++ elms (present Wo) ++ B) as Hw.
      { rewrite Hhost in Hnd |- *. simpl.
        apply NoDup_app in Hnd as (_ & HAd & Hnd). simpl in Hnd.
        apply NoDup_cons in Hnd as [Hno _].
        apply without_mid; [|done]. intros Hin. apply (HAd _ Hin). left. }
      destruct (IH (Lo ++ [Some ch]) d1) as (d' & Hr & Hh' & Hn').
      * unfold d1. diff_simpl. rewrite Hold. by rewrite <- app_assoc.
      * unfold d1. diff_simpl. done.
      * unfold d1. diff_simpl. rewrite Hw. rewrite Hhost in Hnd.
        apply NoDup_app in Hnd as (HA & HAd & Hnd). simpl in Hnd.
        apply NoDup_cons in Hnd as [_ Hnd].
        apply NoDup_app. repeat split; [done| |done].
        intros y Hy Hin. apply (HAd _ Hy). by right.
      * done.
      * exists d'. rewrite length_app in Hr. simpl in Hr.
        replace (Z.of_nat (length Lo) + 1) with (Z.of_nat (length Lo + 1)) by lia.
        done.
    + rewrite present_cons_None in He, Hhost. cbn [mbind completion_bind].
      destruct (IH (Lo ++ [None]) d) as (d' & Hr & Hh' & Hn'); try done.
      * rewrite Hold. by rewrite <- app_assoc.
      * exists d'. rewrite length_app in Hr. simpl in Hr.
        replace (Z.of_nat (length Lo) + 1) with (Z.of_nat (length Lo + 1)) by lia.
        done.
Qed.

(** What follows the loop leaves the parent with the host nodes of the new
    children. *)
Lemma finish_inv Lo Wo Ro Pn Wn Sn c d :
  Inv Lo Wo Ro Pn Wn Sn c d -> Wo = [] \/ Wn = [] ->
  exists d', finish c d = Return d'
    /\ elm <$> newCh d' = Some <$> host d'
    /\ NoDup (host d')
    /\ key <$> newCh d' = key <$> news
    /\ Forall (placed olds f0) (newCh d').
Proof.
  intros [Hold Hnew Hosi Hoei Hnsi Hnei Hosv Hoev Hnsv Hnev Hhost HeP HeW HeS
          Hnd Hb Hf Hfo Hfn HkW Hkn Hacc Hpl Hmap] Hex.
  unfold finish. rewrite Hosi, Hoei, Hnsi, Hnei.
  destruct Wo as [|x Wo].
  - assert ((Z.of_nat (length Lo) >? Z.of_nat (length Lo) + Z.of_nat (length (@nil (option VNode))) - 1)
            = true) as ->.
    { rewrite Z.gtb_ltb. apply Z.ltb_lt. simpl. lia. }
    unfold addVnodes.
    replace (Z.to_nat _) with (length Wn) by lia.
    assert (new_at d (Z.of_nat (length Pn) + Z.of_nat (length Wn) - 1 + 1) = head Sn) as ->.
    { unfold new_at. rewrite Hnew, app_assoc.
      apply UnchangedFacts.at_index_app_r. rewrite length_app. lia. }
    rewrite head_elms by done.
    destruct (addVnodes_from_all Sn (head (elms Sn)) Wn Pn d)
      as (d' & Wn' & Hadd & Hnew' & Hhost' & Hk' & Hfr & Hnd'); try done.
    exists d'. split; [done|].
    assert (Forall (fun n => is_Some (elm n)) Wn') as HeW'.
    { eapply Forall_impl; [exact Hfr|]. simpl. intros n (e & -> & _). by eexists. }
    destruct (keys_window _ _ _ Hkn) as [HkWn HkPS].
    split.
    { rewrite Hnew', Hhost'. rewrite elm_fmap_elms; [by rewrite !elms_app|].
      by repeat (apply Forall_app; split). }
    split; [done|]. split.
    { rewrite Hnew', <- Hkn. rewrite !fmap_app. by rewrite Hk'. }
    rewrite Hnew'. apply Forall_app in Hpl as [HplP HplS].
    apply Forall_app. split; [done|]. apply Forall_app. split; [|done].
    rewrite Forall_forall. intros n' Hn'.
    rewrite Forall_forall in Hfr. destruct (Hfr n' Hn') as (e & He & Hle).
    right. split; [|exists e; split; [done|lia]].
    intros (o & Hko & Ho)%list_elem_of_fmap.
    assert (key n' ∈ key <$> Wn) as (n & Hkn' & Hn)%list_elem_of_fmap.
    { rewrite <- Hk'. by apply list_elem_of_fmap_2. }
    rewrite Forall_forall in Hacc. destruct (Hacc o Ho) as [Hin|Hin].
    + by apply elem_of_nil in Hin.
    + apply (HkPS n Hn). by rewrite <- Hkn', Hko.
  - destruct Hex as [?| ->]; [done|].
    assert ((Z.of_nat (length Lo) >? Z.of_nat (length Lo) + Z.of_nat (length (x :: Wo)) - 1)
            = false) as ->.
    { rewrite Z.gtb_ltb. apply Z.ltb_ge. simpl length. lia. }
    assert ((Z.of_nat (length Pn) >? Z.of_nat (length Pn) + Z.of_nat (length (@nil VNode)) - 1)
            = true) as ->.
    { rewrite Z.gtb_ltb. apply Z.ltb_lt. simpl. lia. }
    unfold removeVnodes.
    replace (Z.to_nat _) with (length (x :: Wo)) by lia.
    destruct (removeVnodes_from_all (elms Pn) (elms Sn) Ro (x :: Wo) Lo d)
      as (d' & Hr & Hh' & Hn'); try done.
    exists d'. split; [done|]. rewrite Hn', Hh', Hnew. simpl.
    split.
    { rewrite elm_fmap_elms; [by rewrite !elms_app|]. by apply Forall_app. }
    split.
    { rewrite Hhost in Hnd. apply NoDup_app in Hnd as (HA & HAd & Hnd).
      apply NoDup_app in Hnd as (_ & _ & HB).
      apply NoDup_app. repeat split; [done| |done].
      intros y Hy Hin. apply (HAd _ Hy). apply elem_of_app. by right. }
    done.
Qed.

Lemma init_inv h ops0 :
  elm <$> olds = Some <$> h -> NoDup h -> Forall (fun e => (e < f0)%nat) h ->
  NoDup (key <$> olds) ->
  Inv [] (Some <$> olds) [] [] news []
      (init (mkDiff (Some <$> olds) news h f0 ops0))
      (mkDiff (Some <$> olds) news h f0 ops0).
Proof.
  intros He Hnd Hb Hk. destruct (elms_of_fmap _ _ He) as [Hh HF].
  constructor; unfold init; diff_simpl; rewrite ?present_fmap_Some, ?app_nil_r;
    try done.
  - by apply Forall_forall.
  - by apply Forall_forall.
  - apply Forall_forall. intros o Ho. by left.
  - apply Forall_forall. intros x (o & -> & _)%list_elem_of_fmap. by eexists.
Qed.

(** The keyed diff: when old and new children are told apart by numeric
    keys, the parent ends up with the host nodes of the new children, in
    their order; a new child whose key an old child had has taken over that
    child's host node, any other new child a created one. *)
Lemma updateChildren_keyed h ops0 :
  elm <$> olds = Some <$> h -> NoDup h -> Forall (fun e => (e < f0)%nat) h ->
  NoDup (key <$> olds) ->
  exists d',
    updateChildren isTextInputType factoryError false
      (mkDiff (Some <$> olds) news h f0 ops0) = Some (Return d')
    /\ elm <$> newCh d' = Some <$> host d'
    /\ NoDup (host d')
    /\ key <$> newCh d' = key <$> news
    /\ Forall (placed olds f0) (newCh d').
Proof.
  intros He Hnd Hb Hk. pose proof (init_inv h ops0 He Hnd Hb Hk) as HI.
  unfold updateChildren. cbn [negb oldCh newCh].
  destruct (loop_inv (length (Some <$> olds) + length news) _ _ _ _ _ _ _ _ HI)
    as (Lo' & Wo' & Ro' & Pn' & Wn' & Sn' & c' & d1 & Hl & HI' & Hex); [lia|].
  rewrite Hl.
  destruct (finish_inv _ _ _ _ _ _ _ _ HI' Hex) as (d' & Hfin & Hrest).
  exists d'. by rewrite Hfin.
Qed.

End Keyed.
End KeyedFacts.

Module TrackingFacts.
Import JS Reactive WatcherFacts WatcherMethods.
Local Open Scope Z_scope.

Section Subscriptions.

Variable U : Type.

Implicit Types (s : World U) (w d : Z) (x : Watcher) (ni : gset Z) (l ds nd : list Z).

Lemma collect_spec ds : forall nd ni,
  (collect ds nd ni).2 = ni ∪ list_to_set ds
  /\ (forall d, d ∈ (collect ds nd ni).1 <-> d ∈ nd \/ (d ∈ ds /\ d ∉ ni))
  /\ ((forall d, d ∈ nd -> d ∈ ni) -> NoDup nd -> NoDup (collect ds nd ni).1).
Proof.
  induction ds as [|d0 ds IH]; intros nd ni.
  - simpl. split; [set_solver|]. split; [|done]. intros d. split; [by left|].
    intros [H|[H _]]; [done | by inversion H].
  - unfold collect. simpl. case_decide as Hin.
    + destruct (IH nd ni) as (H1 & H2 & H3). unfold collect in *.
      split; [rewrite H1; set_solver|]. split; [|done].
      intros d. rewrite H2. split.
      * intros [H|[H H']]; [by left|]. right. split; [by right | done].
      * intros [H|[H H']]; [by left|]. apply elem_of_cons in H as [->|H]; [done|].
        right. done.
    + destruct (IH (nd ++ [d0]) ({[d0]} ∪ ni)) as (H1 & H2 & H3). unfold collect in *.
      split; [rewrite H1; set_solver|]. split.
      * intros d. rewrite H2. rewrite elem_of_app, list_elem_of_singleton. split.
        -- intros [[H| ->]|[H H']]; [by left | right; split; [by left | done] |].
           right. split; [by right | set_solver].
        -- intros [H|[H H']]; [left; by left|].
           apply elem_of_cons in H as [->|H]; [left; by right|].
           destruct (decide (d = d0)) as [->|Hne]; [left; by right|].
           right. split; [done | set_solver].
      * intros Hsub Hnd. apply H3.
        -- intros d Hd. apply elem_of_app in Hd as [Hd|Hd]; [set_solver|].
           apply list_elem_of_singleton in Hd as ->. set_solver.
        -- apply NoDup_app. split; [done|]. split; [|apply NoDup_singleton].
           intros d Hd Hd0. apply list_elem_of_singleton in Hd0 as ->. by apply Hin, Hsub.
Qed.

Lemma subs_of_set_watcher w x d s : subs_of d (set_watcher w x s) = subs_of d s.
Proof. reflexivity. Qed.

Lemma addSub_subs d0 w0 d w s :
  w ∈ subs_of d (addSub d0 w0 s) <-> w ∈ subs_of d s \/ (d = d0 /\ w = w0).
Proof.
  unfold addSub. case_decide as Hin.
  - unfold subs_of in *. simpl. split; [by left|]. intros [H|[-> ->]]; done.
  - unfold subs_of in *. simpl. destruct (decide (d = d0)) as [->|Hne].
    + rewrite lookup_insert_eq. simpl. rewrite elem_of_app, list_elem_of_singleton.
      split; intros [H|H]; try (by left); right; [done | by destruct H].
    + rewrite lookup_insert_ne by done. split; [by left|]. intros [H|[-> _]]; done.
Qed.

Lemma removeSub_subs d0 w0 d w s :
  w ∈ subs_of d (removeSub d0 w0 s) <-> w ∈ subs_of d s /\ ~ (d = d0 /\ w = w0).
Proof.
  unfold removeSub, subs_of. simpl. destruct (decide (d = d0)) as [->|Hne].
  - rewrite lookup_insert_eq. simpl. rewrite list_elem_of_filter. split.
    + intros [H1 H2]. split; [done|]. intros [_ ->]. done.
    + intros [H1 H2]. split; [|done]. intros ->. by apply H2.
  - rewrite lookup_insert_ne by done. split; [|tauto]. intros H. split; [done|].
    intros [-> _]. done.
Qed.

Lemma addDep_subs w0 d0 x s d w :
  watchers s !! w0 = Some x ->
  w ∈ subs_of d (addDep w0 d0 s)
  <-> w ∈ subs_of d s \/ (d = d0 /\ w = w0 /\ (d0 ∉ newDepIds x) /\ (d0 ∉ depIds x)).
Proof.
  intros Hx. unfold addDep. rewrite Hx. case_decide as H1; [tauto|].
  case_decide as H2.
  - rewrite subs_of_set_watcher. tauto.
  - rewrite addSub_subs, subs_of_set_watcher. tauto.
Qed.

Lemma addDep_depIds w0 d0 x s :
  watchers s !! w0 = Some x ->
  exists x', watchers (addDep w0 d0 s) !! w0 = Some x'
             /\ depIds x' = depIds x
             /\ newDepIds x' = {[d0]} ∪ newDepIds x.
Proof.
  intros Hx. unfold addDep. rewrite Hx. case_decide as H1.
  - exists x. split; [done|]. split; [done|]. set_solver.
  - eexists. split.
    + case_decide; [|rewrite (addSub_watchers U)]; simpl; apply lookup_insert_eq.
    + done.
Qed.

Lemma addDeps_subs w0 ds : forall s x d w,
  watchers s !! w0 = Some x ->
  w ∈ subs_of d (foldl (fun s d => addDep w0 d s) s ds)
  <-> w ∈ subs_of d s
      \/ (w = w0 /\ d ∈ ds /\ (d ∉ newDepIds x) /\ (d ∉ depIds x)).
Proof.
  induction ds as [|d0 ds IH]; intros s x d w Hx; simpl.
  - split; [by left|]. intros [H|(_ & H & _)]; [done | by inversion H].
  - destruct (addDep_depIds w0 d0 x s Hx) as (x' & Hx' & Hd & Hn).
    rewrite (IH _ x' d w Hx'). rewrite (addDep_subs w0 d0 x s d w Hx). rewrite Hd, Hn.
    split.
    + intros [[H|(-> & -> & H1 & H2)]|(-> & H1 & H2 & H3)].
      * by left.
      * right. split; [done|]. split; [by left | done].
      * right. split; [done|]. split; [by right|]. split; [set_solver | done].
    + intros [H|(-> & H1 & H2 & H3)]; [left; by left|].
      destruct (decide (d = d0)) as [->|Hne].
      * left. right. done.
      * apply elem_of_cons in H1 as [->|H1]; [done|].
        right. split; [done|]. split; [done|]. split; [set_solver | done].
Qed.

Lemma drop_stale_subs w0 ni old : forall s d w,
  w ∈ subs_of d (drop_stale w0 ni old s)
  <-> w ∈ subs_of d s /\ ~ (w = w0 /\ d ∈ old /\ d ∉ ni).
Proof.
  unfold drop_stale. intros s d w.
  rewrite <- (elem_of_reverse _ old). generalize (reverse old). intros l. revert s.
  induction l as [|d0 l IH]; intros s; simpl.
  - split; [|tauto]. intros H. split; [done|]. intros (_ & H' & _). by inversion H'.
  - rewrite IH. case_decide as Hin.
    + split; intros [H1 H2]; (split; [done|]); intros (-> & H3 & H4); apply H2.
      * apply elem_of_cons in H3 as [->|H3]; [done|]. done.
      * split; [done|]. split; [by right | done].
    + rewrite removeSub_subs. split.
      * intros [[H1 H2] H3]. split; [done|]. intros (-> & H4 & H5).
        apply elem_of_cons in H4 as [->|H4]; [by apply H2 | by apply H3].
      * intros [H1 H2]. split; [split; [done|]|].
        -- intros [-> ->]. apply H2. split; [done|]. split; [by left | done].
        -- intros (-> & H3 & H4). apply H2. split; [done|]. split; [by right | done].
Qed.

Lemma cleanupDeps_subs w0 s x d w :
  watchers s !! w0 = Some x ->
  w ∈ subs_of d (cleanupDeps w0 s)
  <-> w ∈ subs_of d s /\ ~ (w = w0 /\ d ∈ deps x /\ d ∉ newDepIds x).
Proof.
  intros Hx. unfold cleanupDeps. rewrite Hx. rewrite subs_of_set_watcher.
  apply drop_stale_subs.
Qed.

(** [teardown] takes an active watcher off the subscriber list of each of
    its Deps and, unless the component is being destroyed, off the
    component's list of watchers; other watchers keep their subscriptions. *)
Lemma teardown_unsubscribes w s x v :
  watchers s !! w = Some x -> active x = true -> vms s !! vm x = Some v ->
  exists s',
    teardown w s = (s', Return tt)
    /\ (forall d, d ∈ deps x -> w ∉ subs_of d s')
    /\ (forall d, w ∈ subs_of d s' -> w ∈ subs_of d s)
    /\ (forall w' d, w' <> w -> w' ∈ subs_of d s' <-> w' ∈ subs_of d s)
    /\ vms s' !! vm x
       = Some (if _isBeingDestroyed v then v
               else mkVm false (remove (_watchers v) w))
    /\ watchers s' !! w = Some (with_active x false).
Proof.
  intros Hx Ha Hv. unfold teardown. rewrite Hx, Ha, Hv.
  set (s1 := if _isBeingDestroyed v then s
             else set_vm (vm x) (mkVm (_isBeingDestroyed v) (remove (_watchers v) w)) s).
  assert (forall d w', w' ∈ subs_of d s1 <-> w' ∈ subs_of d s) as Hs1.
  { intros d w'. unfold s1. by destruct (_isBeingDestroyed v). }
  assert (forall l (s0 : World U) d w',
            w' ∈ subs_of d (foldl (fun s d => removeSub d w s) s0 l)
            <-> w' ∈ subs_of d s0 /\ ~ (w' = w /\ d ∈ l)) as Hfold.
  { induction l as [|d0 l IH]; intros s0 d w'; simpl.
    - split; [|tauto]. intros H. split; [done|]. intros [_ H']. by inversion H'.
    - rewrite IH, removeSub_subs. rewrite elem_of_cons.
      destruct (decide (d = d0)); tauto. }
  assert (vms (foldl (fun s d => removeSub d w s) s1 (reverse (deps x))) = vms s1) as Hvm.
  { generalize (reverse (deps x)). intros l. generalize s1.
    induction l as [|d0 l IH]; intros s0; [done|]. simpl. by rewrite IH. }
  eexists. split; [reflexivity|].
  split; [|split; [|split; [|split]]].
  - intros d Hd. cbn [subs_of subs set_watcher]. change (w ∉ subs_of d (foldl (fun s d => removeSub d w s) s1 (reverse (deps x)))).
    rewrite Hfold. intros [_ H]. apply H. split; [done|]. by apply elem_of_reverse.
  - intros d. change (subs_of d (set_watcher w (with_active x false) ?s0)) with (subs_of d s0).
    rewrite Hfold, Hs1. tauto.
  - intros w' d Hne.
    change (subs_of d (set_watcher w (with_active x false) ?s0)) with (subs_of d s0).
    rewrite Hfold, Hs1. tauto.
  - cbn [vms set_watcher]. rewrite Hvm. unfold s1.
    destruct (_isBeingDestroyed v) eqn:Hb; [done|].
    cbn [vms set_vm]. by rewrite lookup_insert_eq.
  - cbn [watchers set_watcher]. apply lookup_insert_eq.
Qed.

(** [depend()] hands the Deps of [w] to the watcher being evaluated: they
    become part of what that watcher has collected, and it subscribes to
    those it was not subscribed to. Without a watcher being evaluated
    nothing happens. *)
Lemma depend_hands_over w s x :
  watchers s !! w = Some x ->
  (target s = None -> depend w s = (s, Return tt))
  /\ (forall t xt,
        target s = Some t -> watchers s !! t = Some xt ->
        exists s' xt',
          depend w s = (s', Return tt)
          /\ targetStack s' = targetStack s
          /\ watchers s' !! t = Some xt'
          /\ same_config xt xt' /\ depIds xt' = depIds xt /\ deps xt' = deps xt
          /\ newDepIds xt' = newDepIds xt ∪ list_to_set (deps x)
          /\ (forall d w', w' ∈ subs_of d s'
                <-> w' ∈ subs_of d s
                    \/ (w' = t /\ d ∈ deps x /\ (d ∉ newDepIds xt) /\ (d ∉ depIds xt)))).
Proof.
  intros Hx. unfold depend. rewrite Hx. split.
  - intros Ht. f_equal. generalize (reverse (deps x)). intros l.
    induction l as [|d l IH] using rev_ind; [done|].
    rewrite foldl_app. simpl. rewrite IH. unfold Reactive.depend. by rewrite Ht.
  - intros t xt Ht Hxt.
    change (foldl Reactive.depend s (reverse (deps x))) with (read_all (reverse (deps x)) s).
    rewrite (read_all_as_addDep U t) by done.
    eexists _, _. split; [reflexivity|].
    split; [apply (addDeps_target U)|].
    split; [apply (addDeps_collect U t _ s xt Hxt)|].
    destruct (collect_spec (reverse (deps x)) (newDeps xt) (newDepIds xt)) as (Hc2 & _ & _).
    split; [repeat split|]. split; [done|]. split; [done|]. split.
    + cbn [newDepIds with_collect]. rewrite Hc2. f_equal.
      apply set_eq. intros d. rewrite !elem_of_list_to_set. apply elem_of_reverse.
    + intros d w'. rewrite (addDeps_subs t _ s xt d w' Hxt). rewrite elem_of_reverse. tauto.
Qed.

End Subscriptions.

Section Tracking.

Variable U : Type.
Variable getter : Z -> U -> list Z * completion JS.value.
Variable deepReads : JS.value -> U -> list Z * completion unit.

Implicit Types (s : World U) (w d : Z) (x : Watcher) (ni : gset Z) (l ds nd : list Z).

(** The subscriptions after an evaluation whose traversal does not throw:
    what there was, plus the Deps read that were not current, minus the
    current Deps that were not read. *)
Lemma get_subs w0 s x ds r ds' d w :
  watchers s !! w0 = Some x ->
  getter w0 (app s) = (ds, r) ->
  (if deep x then
     match r with
     | Return v => if isObject v then deepReads v (app s) else ([], Return tt)
     | Throw _ => ([], Return tt)
     end
   else ([], Return tt)) = (ds', Return tt) ->
  let ni := (collect (ds ++ ds') (newDeps x) (newDepIds x)).2 in
  w ∈ subs_of d (get getter deepReads w0 s).1
  <-> (w ∈ subs_of d s
       \/ (w = w0 /\ d ∈ ds ++ ds' /\ (d ∉ newDepIds x) /\ (d ∉ depIds x)))
      /\ ~ (w = w0 /\ d ∈ deps x /\ d ∉ ni).
Proof.
  intros Hx Hg Hb ni. unfold get. rewrite Hx. simpl app. rewrite Hg.
  set (s0 := emit (EGetter w0) (pushTarget (Some w0) s)).
  assert (target s0 = Some w0) as Ht0 by done.
  assert (watchers s0 !! w0 = Some x) as Hx0 by done.
  rewrite (read_all_as_addDep U w0) by done.
  set (s2 := foldl (fun s d => addDep w0 d s) s0 ds).
  set (x2 := with_collect x (collect ds (newDeps x) (newDepIds x)).1
                            (collect ds (newDeps x) (newDepIds x)).2).
  assert (watchers s2 !! w0 = Some x2) as Hx2.
  { unfold s2. by rewrite (addDeps_collect U w0 ds s0 x Hx0). }
  assert (target s2 = Some w0) as Ht2.
  { unfold target, s2. by rewrite (addDeps_target U). }
  assert (app s2 = app s) as Happ.
  { destruct (evaluates_addDeps U w0 ds s0) as (Ha & _). exact Ha. }
  assert (forall s2' : World U,
            watchers s2' = watchers s2 -> targetStack s2' = targetStack s2 ->
            app s2' = app s2 ->
            (forall d w, w ∈ subs_of d s2' <-> w ∈ subs_of d s2) ->
            forall v, (if deep x then if isObject v then deepReads v (app s) else ([], Return tt)
                       else ([], Return tt)) = (ds', Return tt) ->
            w ∈ subs_of d (get_finally deepReads w0 (deep x) v s2').1
            <-> (w ∈ subs_of d s
                 \/ (w = w0 /\ d ∈ ds ++ ds' /\ (d ∉ newDepIds x) /\ (d ∉ depIds x)))
                /\ ~ (w = w0 /\ d ∈ deps x /\ d ∉ ni)) as Hfin.
  { intros s2' Hw' Hs' Ha' Hsub' v Hv. unfold get_finally.
    assert ((if deep x then traverse deepReads v s2' else (s2', Return tt))
            = (foldl (fun s d => addDep w0 d s) s2' ds', Return tt)) as ->.
    { destruct (deep x); [|by injection Hv as <-].
      unfold traverse. rewrite Ha', Happ. destruct (isObject v).
      - rewrite Hv. rewrite (read_all_as_addDep U w0); [done|].
        unfold target. rewrite Hs'. exact Ht2.
      - by injection Hv as <-. }
    set (s3 := foldl (fun s d => addDep w0 d s) s2' ds').
    assert (watchers s2' !! w0 = Some x2) as Hx2' by (by rewrite Hw').
    assert (watchers (popTarget s3) !! w0
            = Some (with_collect x2 (collect ds' (newDeps x2) (newDepIds x2)).1
                                    (collect ds' (newDeps x2) (newDepIds x2)).2)) as Hx3.
    { simpl. unfold s3. by rewrite (addDeps_collect U w0 ds' s2' x2 Hx2'). }
    cbn [fst]. rewrite (cleanupDeps_subs U w0 _ _ d w Hx3).
    change (subs_of d (popTarget s3)) with (subs_of d s3).
    unfold s3. rewrite (addDeps_subs U w0 ds' s2' x2 d w Hx2').
    rewrite Hsub'. unfold s2. rewrite (addDeps_subs U w0 ds s0 x d w Hx0).
    change (subs_of d s0) with (subs_of d s).
    unfold x2. cbn [newDepIds newDeps depIds deps with_collect].
    rewrite <- collect_app. fold ni.
    destruct (collect_spec ds (newDeps x) (newDepIds x)) as (Hc2 & _ & _).
    rewrite Hc2. rewrite elem_of_app, elem_of_union, elem_of_list_to_set.
    destruct (decide (d ∈ ds)); tauto. }
  destruct r as [v|e].
  - destruct (get_finally deepReads w0 (deep x) v s2) as [s3 f] eqn:Hf. cbn [fst].
    specialize (Hfin s2 eq_refl eq_refl eq_refl ltac:(done) v).
    rewrite Hf in Hfin. apply Hfin. destruct (deep x); done.
  - assert (ds' = []) as Hds' by (destruct (deep x); by injection Hb).
    destruct (user x).
    + destruct (get_finally deepReads w0 (deep x) VUndef (emit (EHandleError e w0) s2))
        as [s3 f] eqn:Hf. cbn [fst].
      specialize (Hfin (emit (EHandleError e w0) s2) eq_refl eq_refl eq_refl ltac:(done) VUndef).
      rewrite Hf in Hfin. apply Hfin. rewrite Hds'. destruct (deep x); done.
    + destruct (get_finally deepReads w0 (deep x) VUndef s2) as [s3 f] eqn:Hf. cbn [fst].
      specialize (Hfin s2 eq_refl eq_refl eq_refl ltac:(done) VUndef).
      rewrite Hf in Hfin. apply Hfin. rewrite Hds'. destruct (deep x); done.
Qed.

(** Between evaluations the watcher is subscribed to exactly its current
    Deps; an evaluation makes the current Deps those it read. *)
Lemma get_tracks w s x ds r ds' :
  watchers s !! w = Some x ->
  settled x ->
  subscribed_to w s (depIds x) ->
  getter w (app s) = (ds, r) ->
  (if deep x then
     match r with
     | Return v => if isObject v then deepReads v (app s) else ([], Return tt)
     | Throw _ => ([], Return tt)
     end
   else ([], Return tt)) = (ds', Return tt) ->
  exists s' x',
    get getter deepReads w s
    = (s', match r with
           | Return v => Return v
           | Throw e => if user x then Return VUndef else Throw e
           end)
    /\ targetStack s' = targetStack s
    /\ watchers s' !! w = Some x'
    /\ settled x' /\ NoDup (deps x')
    /\ depIds x' = list_to_set (ds ++ ds')
    /\ subscribed_to w s' (depIds x')
    /\ (forall w' d, w' <> w -> w' ∈ subs_of d s' <-> w' ∈ subs_of d s).
Proof.
  intros Hx (Hnd & Hni & Hdeps) Hsub Hg Hb.
  destruct (get_reconciles U getter deepReads w s x ds r ds' Hx Hg Hb)
    as (s' & Hget & Hst & Hx' & _ & _).
  rewrite Hnd, Hni in Hx'.
  destruct (collect_spec (ds ++ ds') [] ∅) as (Hc2 & Hc1 & Hc3).
  exists s', (reconciled x (collect (ds ++ ds') [] ∅).1 (collect (ds ++ ds') [] ∅).2).
  split; [exact Hget|]. split; [exact Hst|]. split; [exact Hx'|].
  assert (forall d w', w' ∈ subs_of d s'
            <-> (w' ∈ subs_of d s
                 \/ (w' = w /\ d ∈ ds ++ ds' /\ (d ∉ newDepIds x) /\ (d ∉ depIds x)))
                /\ ~ (w' = w /\ d ∈ deps x
                      /\ d ∉ (collect (ds ++ ds') (newDeps x) (newDepIds x)).2)) as Hs'.
  { intros d w'. pose proof (get_subs w s x ds r ds' d w' Hx Hg Hb) as H.
    rewrite Hget in H. exact H. }
  split; [|split; [|split; [|split]]].
  - split; [done|]. split; [done|]. simpl. intros d. rewrite Hc1, Hc2.
    rewrite elem_of_union, elem_of_list_to_set. split.
    + intros [H|[H _]]; [by inversion H | by right].
    + intros [H|H]; [by apply elem_of_empty in H | right; split; [done | apply not_elem_of_empty]].
  - simpl. apply Hc3; [intros d H; by inversion H | constructor].
  - simpl. rewrite Hc2. apply set_eq. intros d.
    rewrite elem_of_union, !elem_of_list_to_set. split; [intros [H|H]; [by apply elem_of_empty in H | done] | by right].
  - intros d. rewrite Hs'. simpl. rewrite Hnd, Hni, Hc2.
    rewrite elem_of_union, elem_of_list_to_set. rewrite (Hsub d). rewrite (Hdeps d).
    pose proof (not_elem_of_empty (C := gset Z) d).
    destruct (decide (d ∈ ds ++ ds')); destruct (decide (d ∈ depIds x)); tauto.
  - intros w' d Hne. rewrite Hs'. tauto.
Qed.

(** [evaluate()] on a watcher whose getter returns: the value is cached,
    the watcher is clean, its Deps are those read, and the target is as
    before. When the getter of a watcher that is not a user watcher throws,
    [evaluate()] throws and the watcher stays as dirty as it was. *)
Lemma evaluate_caches w s x ds r :
  watchers s !! w = Some x ->
  deep x = false ->
  getter w (app s) = (ds, r) ->
  let nd := (collect ds (newDeps x) (newDepIds x)).1 in
  let ni := (collect ds (newDeps x) (newDepIds x)).2 in
  exists s',
    targetStack s' = targetStack s
    /\ match r with
       | Return v =>
           evaluate getter deepReads w s = (s', Return tt)
           /\ watchers s' !! w = Some (with_dirty (with_value (reconciled x nd ni) v) false)
       | Throw e =>
           if user x then
             evaluate getter deepReads w s = (s', Return tt)
             /\ watchers s' !! w
                = Some (with_dirty (with_value (reconciled x nd ni) VUndef) false)
           else
             evaluate getter deepReads w s = (s', Throw e)
             /\ watchers s' !! w = Some (reconciled x nd ni)
       end.
Proof.
  intros Hx Hd Hg nd ni.
  destruct (get_reconciles U getter deepReads w s x ds r [] Hx Hg)
    as (s' & Hget & Hst & Hx' & _ & _).
  { by rewrite Hd. }
  rewrite app_nil_r in Hx'. fold nd ni in Hx'.
  unfold evaluate. rewrite Hget.
  destruct r as [v|e]; [|destruct (user x)].
  - rewrite Hx'. eexists. split; [|split; [reflexivity|]].
    + exact Hst.
    + cbn [watchers set_watcher]. apply lookup_insert_eq.
  - rewrite Hx'. eexists. split; [|split; [reflexivity|]].
    + exact Hst.
    + cbn [watchers set_watcher]. apply lookup_insert_eq.
  - exists s'. split; [exact Hst|]. split; [reflexivity | exact Hx'].
Qed.

End Tracking.
End TrackingFacts.

Module BatchFacts.
Import JS Reactive SchedulerFacts SchedulerSpec.
Local Open Scope Z_scope.

Section Batch.

Variable U : Type.
Variable production config_async : bool.
Variable call_flush : M U unit.
Hypothesis deferred : negb production && negb config_async = false.

Implicit Types (s : World U) (c : Scheduler).

Local Abbreviation queueW := (queueWatcher production config_async call_flush).

Lemma has_null_enqueue id id' c :
  has_null (enqueue id c) id' = if decide (id' = id) then false else has_null c id'.
Proof.
  unfold has_null. destruct (enqueue_has id c) as [H1 H2].
  case_decide as Heq.
  - subst. by rewrite H1.
  - by rewrite H2.
Qed.

Lemma queueWatcher_batched id s :
  batched (sched s) ->
  exists s',
    queueW id s = (s', Some (Return tt))
    /\ batched (sched s')
    /\ waiting (sched s') = true
    /\ queue (sched s') = queue (sched s) ++ (if has_null (sched s) id then [id] else [])
    /\ trace (sched s')
       = trace (sched s) ++ (if waiting (sched s) then [] else [SNextTick])
    /\ circular (sched s') = circular (sched s) /\ index (sched s') = index (sched s)
    /\ app s' = app s /\ watchers s' = watchers s /\ vms s' = vms s /\ subs s' = subs s
    /\ targetStack s' = targetStack s /\ log s' = log s.
Proof.
  intros (Hf & Hnd & Hq & Hw). unfold queueWatcher.
  destruct (has_null (sched s) id) eqn:Hn.
  - assert (id ∉ queue (sched s)) as Hnotin.
    { intros Hin. apply Hq in Hin. congruence. }
    assert (queue (enqueue id (sched s)) = queue (sched s) ++ [id]) as Hqe
      by (by apply enqueue_idle).
    assert (flushing (enqueue id (sched s)) = false) as Hfe.
    { unfold enqueue. rewrite Hf. done. }
    assert (waiting (enqueue id (sched s)) = waiting (sched s)) as Hwe.
    { unfold enqueue. rewrite Hf. done. }
    assert (trace (enqueue id (sched s)) = trace (sched s)) as Hte.
    { unfold enqueue. rewrite Hf. done. }
    assert (circular (enqueue id (sched s)) = circular (sched s)
            /\ index (enqueue id (sched s)) = index (sched s)) as [Hce Hie].
    { unfold enqueue. rewrite Hf. done. }
    assert (forall c', queue c' = queue (enqueue id (sched s)) ->
                       has c' = has (enqueue id (sched s)) ->
                       flushing c' = false -> waiting c' = true -> batched c') as Hb.
    { intros c' Hq' Hh' Hf' Hw'. split; [done|]. split; [|split].
      - rewrite Hq', Hqe. apply NoDup_app. split; [done|]. split; [|apply NoDup_singleton].
        intros x Hx Hx'. apply list_elem_of_singleton in Hx' as ->. done.
      - intros id'. rewrite Hq', Hqe.
        replace (has_null c' id') with (has_null (enqueue id (sched s)) id')
          by (unfold has_null; by rewrite Hh').
        rewrite has_null_enqueue. rewrite elem_of_app, list_elem_of_singleton, Hq.
        case_decide as Hd; [tauto|]. split; [intros [H0|H0]; done | by left].
      - congruence. }
    cbn [sched set_sched]. rewrite Hwe.
    destruct (waiting (sched s)) eqn:Hws; cbn [negb].
    + eexists. split; [reflexivity|]. cbn [sched set_sched].
      split; [by apply Hb|]. split; [congruence|]. split; [done|].
      split; [by rewrite Hte, app_nil_r|]. done.
    + rewrite deferred. unfold on_sched, modify. cbn [sched set_sched].
      eexists. split; [reflexivity|]. cbn [sched set_sched].
      split; [by apply Hb|]. split; [done|]. split; [done|].
      split; [simpl; by rewrite Hte|]. done.
  - exists s. split; [done|]. split; [done|].
    assert (waiting (sched s) = true) as Hws.
    { destruct (waiting (sched s)) eqn:Hws; [done|].
      assert (id ∈ queue (sched s)) as Hin by (by apply Hq).
      rewrite (Hw eq_refl) in Hin. by inversion Hin. }
    rewrite Hws. rewrite !app_nil_r. done.
Qed.

(** However often, and in whatever order, watchers are invalidated before
    the flush: each is queued once, and the flush is requested once. *)
Lemma for_each_queueWatcher_batched ids : forall s,
  batched (sched s) ->
  exists s',
    for_each queueW ids s = (s', Some (Return tt))
    /\ batched (sched s')
    /\ (forall id, id ∈ queue (sched s') <-> id ∈ queue (sched s) \/ id ∈ ids)
    /\ (exists new, queue (sched s') = queue (sched s) ++ new)
    /\ trace (sched s')
       = trace (sched s)
         ++ (if waiting (sched s) then [] else match ids with [] => [] | _ => [SNextTick] end)
    /\ app s' = app s /\ watchers s' = watchers s /\ subs s' = subs s /\ log s' = log s.
Proof.
  induction ids as [|id ids IH]; intros s Hb.
  - exists s. split; [done|]. split; [done|]. split.
    { intros id. split; [by left|]. intros [H|H]; [done | by inversion H]. }
    split; [exists []; by rewrite app_nil_r|].
    split; [destruct (waiting _); by rewrite app_nil_r|]. done.
  - simpl. unfold bindM.
    destruct (queueWatcher_batched id s Hb)
      as (s1 & H1 & Hb1 & Hw1 & Hq1 & Ht1 & _ & _ & Ha1 & Hws1 & _ & Hs1 & _ & Hl1).
    rewrite H1.
    destruct (IH s1 Hb1) as (s' & H' & Hb' & Hq' & (new & Hn') & Ht' & Ha' & Hws' & Hs' & Hl').
    exists s'. split; [done|]. split; [done|]. split; [|split; [|split]].
    + intros id'. rewrite Hq', Hq1. rewrite elem_of_app, elem_of_cons.
      destruct Hb as (_ & _ & Hq & _).
      destruct (has_null (sched s) id) eqn:Hn.
      * rewrite list_elem_of_singleton. tauto.
      * split; [intros [[H|H]|H]; [tauto | by inversion H | tauto]|].
        intros [H|[->|H]]; [tauto | | tauto]. left. left. by apply Hq.
    + rewrite Hn', Hq1. rewrite <- app_assoc. by eexists.
    + rewrite Ht', Ht1, Hw1. rewrite app_nil_r. done.
    + repeat split; congruence.
Qed.

End Batch.
End BatchFacts.

Module QuietFlushFacts.
Import JS Reactive SchedulerFacts SchedulerSpec WatcherFacts.
Local Open Scope Z_scope.

Section Quiet.

Variable U : Type.
Variable beforeHook : Z -> U -> U * list Z * completion unit.
Variable production config_async : bool.
Variable call_run : Z -> M U unit.
Variable call_flush : M U unit.
Variable ws : list Z.
Variable Inv : World U -> Prop.

Implicit Types (s : World U) (c : Scheduler).

Local Abbreviation one := (flush_one beforeHook production config_async call_run call_flush).
Local Abbreviation loop := (flush_loop beforeHook production config_async call_run call_flush).

Hypothesis Inv_sched : forall s c, Inv s -> Inv (set_sched c s).
Hypothesis Inv_hook : forall s, Inv s -> no_before_hook ws s.
Hypothesis quiet_run : forall v s0,
  v ∈ ws -> Inv s0 ->
  exists s1, call_run v s0 = (s1, Some (Return tt)) /\ sched s1 = sched s0 /\ Inv s1.

Lemma flush_one_quiet v s :
  v ∈ ws -> Inv s ->
  exists s1, one v s = (s1, Some (Return false))
             /\ sched s1 = note (SRun v) (set_has v VNull (sched s))
             /\ Inv s1.
Proof.
  intros Hv Hn. unfold flush_one, bindM.
  assert (run_before beforeHook production config_async call_run call_flush v s
          = (s, Some (Return tt))) as ->.
  { destruct (Inv_hook s Hn v Hv) as (x & Hx & Hb). unfold run_before. by rewrite Hx, Hb. }
  unfold on_sched, modify. cbn [sched set_sched].
  set (s0 := set_sched _ (set_sched _ s)).
  destruct (quiet_run v s0 Hv) as (s1 & Hr & Hs & Hn1).
  { by do 2 apply Inv_sched. }
  rewrite Hr. exists s1. rewrite Hs. unfold s0. cbn [sched set_sched].
  assert (has_null (note (SRun v) (set_has v VNull (sched s))) v = true) as ->.
  { unfold has_null. simpl. by rewrite lookup_insert_eq. }
  rewrite andb_false_r. done.
Qed.

Lemma flush_loop_quiet todo : forall s fuel done,
  (forall v, v ∈ todo -> v ∈ ws) ->
  Inv s ->
  queue (sched s) = done ++ todo ->
  index (sched s) = Z.of_nat (length done) ->
  (length todo <= fuel)%nat ->
  exists s',
    loop fuel s = (s', Some (Return tt))
    /\ Inv s'
    /\ queue (sched s') = queue (sched s)
    /\ flushing (sched s') = flushing (sched s)
    /\ circular (sched s') = circular (sched s)
    /\ trace (sched s') = trace (sched s) ++ (SRun <$> todo).
Proof.
  induction todo as [|v todo IH]; intros s fuel done Hsub Hn Hq Hi Hfuel.
  - exists s. rewrite app_nil_r in Hq. split.
    + destruct fuel; simpl; rewrite Hq, Hi, Z.ltb_irrefl; done.
    + simpl. by rewrite app_nil_r.
  - destruct fuel as [|fuel]; [simpl in Hfuel; lia|]. simpl.
    assert (at_index (queue (sched s)) (index (sched s)) = Some v) as Hat.
    { rewrite Hq, Hi. unfold at_index.
      destruct (_ <? 0) eqn:Hneg; [apply Z.ltb_lt in Hneg; lia|].
      rewrite Nat2Z.id. by apply list_lookup_middle. }
    assert ((index (sched s) <? Z.of_nat (length (queue (sched s)))) = true) as ->.
    { apply Z.ltb_lt. unfold at_index in Hat. destruct (_ <? 0); [discriminate|].
      apply lookup_lt_Some in Hat. lia. }
    rewrite Hat. unfold bindM.
    destruct (flush_one_quiet v s) as (s1 & H1 & Hs1 & Hn1); [apply Hsub; by left | done |].
    rewrite H1. unfold on_sched, modify.
    set (s2 := set_sched (set_index (index (sched s1) + 1) (sched s1)) s1).
    assert (sched s2 = set_index (index (sched s) + 1)
                         (note (SRun v) (set_has v VNull (sched s)))) as Hs2.
    { unfold s2. cbn [sched set_sched]. by rewrite Hs1. }
    destruct (IH s2 fuel (done ++ [v])) as (s' & Hl & Hn' & Hq' & Hf' & Hc' & Ht').
    + intros v' Hv'. apply Hsub. by right.
    + by apply Inv_sched.
    + rewrite Hs2. simpl. rewrite Hq. by rewrite <- app_assoc.
    + rewrite Hs2. simpl. rewrite Hi, length_app. simpl. lia.
    + simpl in Hfuel. lia.
    + exists s'. split; [done|]. split; [done|].
      rewrite Hq', Hf', Hc', Ht', Hs2. simpl. by rewrite <- app_assoc.
Qed.

(** A flush none of whose runs touches the scheduler: every queued watcher
    is run once, in the order of the ids, and the scheduler is reset. *)
Lemma flush_quiet s fuel :
  (forall v, v ∈ queue (sched s) -> v ∈ ws) ->
  Inv s ->
  (length (queue (sched s)) <= fuel)%nat ->
  let sorted := merge_sort Z.le (queue (sched s)) in
  exists s',
    flushSchedulerQueue beforeHook production config_async call_run call_flush fuel s
    = (s', Some (Return tt))
    /\ Inv s'
    /\ trace (sched s') = trace (sched s) ++ (SRun <$> sorted) ++ [SUpdated sorted]
    /\ Sorted Z.le sorted /\ sorted ≡ₚ queue (sched s)
    /\ queue (sched s') = [] /\ has (sched s') = ∅ /\ index (sched s') = 0
    /\ flushing (sched s') = false /\ waiting (sched s') = false.
Proof.
  intros Hsub Hn Hfuel sorted.
  assert (sorted ≡ₚ queue (sched s)) as Hperm by apply merge_sort_Permutation.
  unfold flushSchedulerQueue, bindM, on_sched, modify.
  set (s0 := set_sched _ s).
  destruct (flush_loop_quiet sorted s0 fuel []) as (s1 & Hl & Hn1 & Hq1 & Hf1 & Hc1 & Ht1).
  - intros v Hv. apply Hsub. by rewrite <- Hperm.
  - by apply Inv_sched.
  - done.
  - done.
  - by rewrite Hperm.
  - rewrite Hl. eexists. split; [reflexivity|]. cbn [sched set_sched].
    split; [by apply Inv_sched|]. split.
    + simpl. rewrite Ht1, Hq1. unfold s0. cbn [sched set_sched]. simpl.
      by rewrite <- app_assoc.
    + split; [|done]. apply Sorted_merge_sort. intros x y. lia.
Qed.

End Quiet.

Section Thrown.

Variable U : Type.
Variable beforeHook : Z -> U -> U * list Z * completion unit.
Variable production config_async : bool.
Variable call_run : Z -> M U unit.
Variable call_flush : M U unit.

Implicit Types (s : World U) (c : Scheduler).

(** What the getter of a watcher that is not a user watcher throws, its
    run throws; the scheduler is as it was. *)
Lemma run_getter_throws getter deepReads cb w x ds e s :
  watchers s !! w = Some x -> active x = true -> user x = false ->
  getter w (app s) = (ds, Throw e) ->
  exists s1,
    run getter deepReads cb production config_async call_run call_flush w s
    = (s1, Some (Throw e))
    /\ sched s1 = sched s.
Proof.
  intros Hx Ha Hu Hg.
  assert (exists s1, get getter deepReads w s = (s1, Throw e)) as [s1 Hget].
  { unfold get. rewrite Hx. cbn [app pushTarget set_stack]. rewrite Hg, Hu.
    unfold get_finally, traverse. cbn [isObject].
    destruct (deep x); eexists; reflexivity. }
  exists s1. unfold run. rewrite Hx, Ha. unfold bindM, lift. rewrite Hget.
  split; [done|].
  by destruct (evaluates_get U getter deepReads w s s1 _ Hget) as (_ & _ & Hs & _).
Qed.

(** The [before] hook of a watcher that has one, when it returns and has
    written to no Dep: it is recorded and the application state is what it
    has made of it. *)
Lemma run_before_writes_nothing w x u0 s :
  watchers s !! w = Some x ->
  (before x = true -> beforeHook w (app s) = (u0, [], Return tt)) ->
  exists s1,
    run_before beforeHook production config_async call_run call_flush w s
    = (s1, Some (Return tt))
    /\ watchers s1 = watchers s
    /\ app s1 = (if before x then u0 else app s)
    /\ queue (sched s1) = queue (sched s) /\ has (sched s1) = has (sched s)
    /\ waiting (sched s1) = waiting (sched s)
    /\ flushing (sched s1) = flushing (sched s)
    /\ index (sched s1) = index (sched s)
    /\ trace (sched s1) = trace (sched s) ++ (if before x then [SBefore w] else []).
Proof.
  intros Hx Hh. unfold run_before. rewrite Hx. destruct (before x).
  - unfold bindM, on_sched, modify, writes. cbn [app set_sched].
    rewrite (Hh eq_refl). cbn [for_each]. unfold ret, bindM.
    eexists. split; [reflexivity|]. done.
  - exists s. rewrite app_nil_r. done.
Qed.

(** While a flush is marked as requested, [queueWatcher] requests none. *)
Lemma queueWatcher_waiting id s :
  waiting (sched s) = true ->
  exists s',
    queueWatcher production config_async call_flush id s = (s', Some (Return tt))
    /\ waiting (sched s') = true
    /\ flushing (sched s') = flushing (sched s)
    /\ index (sched s') = index (sched s)
    /\ trace (sched s') = trace (sched s)
    /\ app s' = app s /\ watchers s' = watchers s /\ log s' = log s.
Proof.
  intros Hw. unfold queueWatcher. destruct (has_null (sched s) id); [|by exists s].
  assert (waiting (enqueue id (sched s)) = true
          /\ flushing (enqueue id (sched s)) = flushing (sched s)
          /\ index (enqueue id (sched s)) = index (sched s)
          /\ trace (enqueue id (sched s)) = trace (sched s)) as (H1 & H2 & H3 & H4).
  { unfold enqueue. destruct (negb (flushing (sched s))); done. }
  cbn [sched set_sched]. rewrite H1. simpl. eexists. split; [reflexivity|]. done.
Qed.

Lemma for_each_queueWatcher_waiting ids : forall s,
  waiting (sched s) = true ->
  exists s',
    for_each (queueWatcher production config_async call_flush) ids s = (s', Some (Return tt))
    /\ waiting (sched s') = true
    /\ flushing (sched s') = flushing (sched s)
    /\ index (sched s') = index (sched s)
    /\ trace (sched s') = trace (sched s)
    /\ app s' = app s /\ watchers s' = watchers s /\ log s' = log s.
Proof.
  induction ids as [|id ids IH]; intros s Hw.
  - by exists s.
  - simpl. unfold bindM.
    destruct (queueWatcher_waiting id s Hw) as (s1 & H1 & Hw1 & Hf1 & Hi1 & Ht1 & Ha1 & Hx1 & Hl1).
    rewrite H1. destruct (IH s1 Hw1) as (s' & H' & Hw' & Hf' & Hi' & Ht' & Ha' & Hx' & Hl').
    exists s'. split; [done|]. split; [done|]. repeat split; congruence.
Qed.

End Thrown.
End QuietFlushFacts.

Module TraverseFacts.
Import JS Traverse.

Section Walk.
Variable h : Heap.

Lemma ids_elem r o id : h !! r = Some o -> __ob__ o = Some id -> id ∈ ids h.
Proof.
  intros Hr Hid. unfold ids. apply elem_of_list_to_set.
  apply list_elem_of_omap. exists (r, o). split; [|done].
  by apply elem_of_map_to_list.
Qed.

Lemma size_list_to_set_le (l : list Z) : size (list_to_set l : gset Z) <= length l.
Proof.
  induction l as [|x l IH].
  - rewrite list_to_set_nil, size_empty. done.
  - rewrite list_to_set_cons. simpl length.
    destruct (decide (x ∈ (list_to_set l : gset Z))) as [Hin|Hin].
    + replace ({[x]} ∪ list_to_set l) with (list_to_set l : gset Z) by set_solver. lia.
    + rewrite size_union by set_solver. rewrite size_singleton. lia.
Qed.

Lemma length_omap_le {A B} (f : A -> option B) (l : list A) : length (omap f l) <= length l.
Proof.
  induction l as [|x l IH]; [done|].
  change (omap f (x :: l)) with (match f x with Some y => y :: omap f l | None => omap f l end).
  destruct (f x); simpl length; lia.
Qed.

Lemma size_ids : size (ids h) <= size h.
Proof.
  unfold ids.
  pose proof (size_list_to_set_le (omap (fun ro : nat * Obj => __ob__ ro.2) (map_to_list h))) as H1.
  pose proof (length_omap_le (fun ro : nat * Obj => __ob__ ro.2) (map_to_list h)) as H2.
  pose proof (length_map_to_list h) as H3. lia.
Qed.

(** The marks only grow. *)
Lemma each_prop_grows rec :
  (forall v seen seen' rs r, rec v seen = Some (seen', rs, r) -> seen ⊆ seen') ->
  forall todo seen acc seen' rs r,
    each_prop rec todo seen acc = Some (seen', rs, r) -> seen ⊆ seen'.
Proof.
  intros Hrec. induction todo as [|p todo IH]; intros seen acc seen' rs r; simpl.
  - intros [= <- <- <-]. done.
  - destruct (result p) as [v|e]; [|intros [= <- <- <-]; done].
    destruct (rec v seen) as [[[seen1 rs1] [[]|e]]|] eqn:Hr; [| |done].
    + intros H. apply IH in H. apply Hrec in Hr. set_solver.
    + intros [= <- <- <-]. by apply Hrec in Hr.
Qed.

Lemma _traverse_grows fuel : forall v seen seen' rs r,
  _traverse h fuel v seen = Some (seen', rs, r) -> seen ⊆ seen'.
Proof.
  induction fuel as [|f IH]; intros v seen seen' rs r; simpl; [done|].
  destruct v; try (intros [= <- <- <-]; done).
  destruct (h !! ref) as [o|]; [|intros [= <- <- <-]; done].
  destruct (isFrozen o || isVNode o); [intros [= <- <- <-]; done|].
  destruct (__ob__ o) as [id|].
  - case_decide as Hin; [intros [= <- <- <-]; done|].
    intros H. apply (each_prop_grows _ IH) in H. set_solver.
  - intros H. by apply (each_prop_grows _ IH) in H.
Qed.

(** An observed object that is entered is marked. *)
Lemma _traverse_marks fuel r o id seen seen' rs res :
  h !! r = Some o -> isFrozen o = false -> isVNode o = false -> __ob__ o = Some id ->
  _traverse h fuel (VObj r) seen = Some (seen', rs, res) -> id ∈ seen'.
Proof.
  intros Hr Hf Hv Hid. destruct fuel as [|f]; simpl; [done|].
  rewrite Hr, Hf, Hv, Hid. simpl. case_decide as Hin.
  - intros [= <- <- <-]. done.
  - intros H. apply (each_prop_grows _ (_traverse_grows f)) in H. set_solver.
Qed.

Hypothesis Hobs : observed h.

Lemma each_prop_total rec (bound : nat) :
  (forall v seen, size (ids h ∖ seen) < bound -> is_Some (rec v seen)) ->
  (forall v seen seen' rs r, rec v seen = Some (seen', rs, r) -> seen ⊆ seen') ->
  forall todo seen acc,
    size (ids h ∖ seen) < bound -> is_Some (each_prop rec todo seen acc).
Proof.
  intros Htot Hgrow. induction todo as [|p todo IH]; intros seen acc Hs; simpl; [done|].
  destruct (result p) as [v|e]; [|done].
  destruct (Htot v seen Hs) as [[[seen1 rs1] r1] Hr]. rewrite Hr.
  destruct r1 as [[]|e]; [|done].
  apply IH. apply Hgrow in Hr.
  assert (ids h ∖ seen1 ⊆ ids h ∖ seen) as Hsub by set_solver.
  apply subseteq_size in Hsub. lia.
Qed.

(** On a heap whose objects are observed the traversal comes to an end,
    cycles or not: each object entered is marked, and there are only so
    many to mark. *)
Lemma _traverse_total fuel : forall v seen,
  size (ids h ∖ seen) < fuel -> is_Some (_traverse h fuel v seen).
Proof.
  induction fuel as [|f IH]; intros v seen Hs; [lia|]. simpl.
  destruct v; try done.
  destruct (h !! ref) as [o|] eqn:Hr; [|done].
  destruct (isFrozen o) eqn:Hf; [done|]. destruct (isVNode o) eqn:Hv; [done|]. simpl.
  destruct (Hobs ref o Hr Hf Hv) as [id Hid]. rewrite Hid.
  case_decide as Hin; [done|].
  apply (each_prop_total _ f); [exact IH | apply _traverse_grows |].
  assert (id ∈ ids h) as Hidin by (by eapply ids_elem).
  assert (ids h ∖ ({[id]} ∪ seen) ⊂ ids h ∖ seen) as Hsub by set_solver.
  apply subset_size in Hsub. lia.
Qed.

End Walk.

(** A traversal that returns leaves no mark behind. *)
Lemma traverse_clears h fuel v seen seen' rs :
  traverse h fuel v seen = Some (seen', rs, Return tt) -> seen' = ∅.
Proof.
  unfold traverse. destruct (_traverse h fuel v seen) as [[[s1 rs1] [[]|e]]|]; try done.
  by intros [= <- _].
Qed.

(** A traversal that throws leaves its marks behind, that of the object it
    was started on among them. *)
Lemma traverse_thrown_marks h fuel r o id seen seen' rs e :
  h !! r = Some o -> isFrozen o = false -> isVNode o = false -> __ob__ o = Some id ->
  traverse h fuel (VObj r) seen = Some (seen', rs, Throw e) -> id ∈ seen'.
Proof.
  intros Hr Hf Hv Hid. unfold traverse.
  destruct (_traverse h fuel (VObj r) seen) as [[[s1 rs1] [[]|e1]]|] eqn:Ht; try done.
  intros [= <- _ _]. by eapply _traverse_marks.
Qed.

(** An observed object whose mark is found is not entered. *)
Lemma traverse_marked h fuel r o id seen :
  h !! r = Some o -> __ob__ o = Some id -> id ∈ seen ->
  traverse h (S fuel) (VObj r) seen = Some (∅, [], Return tt).
Proof.
  intros Hr Hid Hin. unfold traverse. simpl. rewrite Hr, Hid.
  destruct (isFrozen o || isVNode o); [done|]. by rewrite decide_True.
Qed.

(** When the walk over the properties returns, every property was read
    and the traversal of its value returned. *)
Lemma each_prop_returned rec : forall todo seen acc seen' rs,
  each_prop rec todo seen acc = Some (seen', rs, Return tt) ->
  forall p, p ∈ todo ->
    exists v sk sk' rk, result p = Return v /\ rec v sk = Some (sk', rk, Return tt).
Proof.
  induction todo as [|q todo IH]; intros seen acc seen' rs H p Hp.
  - by apply elem_of_nil in Hp.
  - simpl in H. destruct (result q) as [v|e] eqn:Hq; [|done].
    destruct (rec v seen) as [[[seen1 rs1] [[]|e]]|] eqn:Hr; try done.
    apply elem_of_cons in Hp as [->|Hp].
    + by exists v, seen, seen1, rs1.
    + by eapply IH.
Qed.

(** An object that is not observed and holds itself: however deep the
    recursion may go, the traversal does not return. *)
Lemma _traverse_plain_cycle h r o p :
  h !! r = Some o -> isFrozen o = false -> isVNode o = false -> __ob__ o = None ->
  p ∈ props o -> result p = Return (VObj r) ->
  forall fuel seen seen' rs, _traverse h fuel (VObj r) seen <> Some (seen', rs, Return tt).
Proof.
  intros Hr Hf Hv Hid Hp Hres. induction fuel as [|f IH]; intros seen seen' rs; [done|].
  simpl. rewrite Hr, Hf, Hv, Hid. simpl. intros H.
  destruct (each_prop_returned _ _ _ _ _ _ H p) as (v & sk & sk' & rk & Hv' & Hrec).
  { by apply elem_of_reverse. }
  rewrite Hres in Hv'. injection Hv' as <-. by apply IH in Hrec.
Qed.

End TraverseFacts.

Module ReachFacts.
Import JS Traverse TraverseSpec TraverseFacts.

Section Cover.

Variable h : Heap.
Hypothesis Hone : one_id_each h.

Local Abbreviation marked := (TraverseSpec.marked h).
Local Abbreviation wpath := (TraverseSpec.wpath h).
Local Abbreviation tail_path := (TraverseSpec.tail_path h).
Local Abbreviation covered := (TraverseSpec.covered h).
Local Abbreviation child := (TraverseSpec.child h).
Local Abbreviation A := (TraverseSpec.covers_paths h).
Local Abbreviation B := (TraverseSpec.covers_marks h).

Lemma marked_mono seen seen' r : seen ⊆ seen' -> marked seen r -> marked seen' r.
Proof. intros Hs (id & Hm & Hin). exists id. split; [done|]. set_solver. Qed.

Lemma wpath_anti seen seen' m a b :
  seen ⊆ seen' -> wpath seen' m a b -> wpath seen m a b.
Proof.
  intros Hs. induction 1 as [a Ha|m a c b Ha Hc _ IH].
  - apply wpath_here. intros Hm. apply Ha. by eapply marked_mono.
  - eapply wpath_step; [|done|done]. intros Hm. apply Ha. by eapply marked_mono.
Qed.

Lemma tail_path_anti seen seen' m y x :
  seen ⊆ seen' -> tail_path seen' m y x -> tail_path seen m y x.
Proof.
  intros Hs [H|(c & m' & -> & Hc & Hp)]; [by left|].
  right. exists c, m'. split; [done|]. split; [done|]. by eapply wpath_anti.
Qed.

Lemma wpath_of_tail seen m y x :
  ~ marked seen y -> tail_path seen m y x -> wpath seen m y x.
Proof.
  intros Hy [[-> ->]|(c & m' & -> & Hc & Hp)]; [by apply wpath_here|].
  by eapply wpath_step.
Qed.

Lemma covered_mono rs rs' seen seen' x :
  (forall d, d ∈ rs -> d ∈ rs') -> seen ⊆ seen' ->
  covered rs seen x -> covered rs' seen' x.
Proof.
  intros Hr Hs Hc o Ho Hf Hv. destruct (Hc o Ho Hf Hv) as [H1 H2]. split.
  - intros p d Hp Hd. apply Hr. by eapply H1.
  - intros id Hid. apply Hs. by apply H2.
Qed.

Lemma marked_dec seen r : marked seen r \/ ~ marked seen r.
Proof.
  destruct (h !! r) as [o|] eqn:Ho.
  2:{ right. intros (id & (o & Ho' & _) & _). congruence. }
  destruct (isFrozen o) eqn:Hf.
  { right. intros (id & (o' & Ho' & Hf' & _) & _). congruence. }
  destruct (isVNode o) eqn:Hv.
  { right. intros (id & (o' & Ho' & _ & Hv' & _) & _). congruence. }
  destruct (__ob__ o) as [id|] eqn:Hid.
  2:{ right. intros (id & (o' & Ho' & _ & _ & Hid') & _). congruence. }
  destruct (decide (id ∈ seen)) as [Hin|Hin].
  - left. exists id. split; [by exists o|done].
  - right. intros (id' & (o' & Ho' & _ & _ & Hid') & Hin'). congruence.
Qed.

(** On a path no object of which is marked in [seen], either no object is
    marked in [sk], or there is a last one that is. *)
Lemma wpath_last_marked seen sk m c x :
  wpath seen m c x ->
  wpath sk m c x
  \/ exists y m3, (m3 <= m)%nat /\ marked sk y /\ ~ marked seen y /\ tail_path sk m3 y x.
Proof.
  induction 1 as [a Ha|m a c b Ha Hc _ IH].
  - destruct (marked_dec sk a) as [Hm|Hm].
    + right. exists a, 0%nat. split; [done|]. split; [done|]. split; [done|]. by left.
    + left. by apply wpath_here.
  - destruct IH as [Hp|(y & m3 & Hle & Hy & Hny & Ht)].
    + destruct (marked_dec sk a) as [Hm|Hm].
      * right. exists a, (S m). split; [done|]. split; [done|]. split; [done|].
        right. by exists c, m.
      * left. by eapply wpath_step.
    + right. exists y, m3. split; [lia|]. done.
Qed.

Lemma each_prop_ran rec todo : forall seen acc seen' out,
  each_prop rec todo seen acc = Some (seen', out, Return tt) ->
  exists rs, out = acc ++ rs /\ ran rec todo seen seen' rs.
Proof.
  induction todo as [|p todo IH]; intros seen acc seen' out; simpl.
  - intros [= <- <-]. exists []. split; [by rewrite app_nil_r | constructor].
  - destruct (result p) as [v|e] eqn:Hp; [|done].
    destruct (rec v seen) as [[[s1 rs1] [[]|e]]|] eqn:Hr; try done.
    intros H. apply IH in H as (rs & -> & Hran).
    exists (reads p ++ rs1 ++ rs). split; [by rewrite <- !app_assoc|].
    by econstructor.
Qed.

Section Chain.

Variable rec : value -> gset Z -> option outcome.
Hypothesis rec_grows :
  forall v s s' rs r, rec v s = Some (s', rs, r) -> s ⊆ s'.

Lemma ran_grows todo seen seen' rs : ran rec todo seen seen' rs -> seen ⊆ seen'.
Proof.
  induction 1 as [|p todo v seen s1 rs1 seen' rs Hp Hr _ IH]; [done|].
  apply rec_grows in Hr. set_solver.
Qed.

Lemma ran_reads todo seen seen' rs :
  ran rec todo seen seen' rs -> forall p d, p ∈ todo -> d ∈ reads p -> d ∈ rs.
Proof.
  induction 1 as [|p0 todo v seen s1 rs1 seen' rs Hp Hr _ IH]; intros p d Hin Hd.
  - by apply elem_of_nil in Hin.
  - rewrite !elem_of_app. apply elem_of_cons in Hin as [->|Hin]; [by left|].
    right. right. by eapply IH.
Qed.

(** The traversal of the value of a property, with what went before it and
    what came after. *)
Lemma ran_split todo seen seen' rs p v :
  ran rec todo seen seen' rs -> p ∈ todo -> result p = Return v ->
  exists pre sk sk1 rs_pre rsk,
    ran rec pre seen sk rs_pre
    /\ rec v sk = Some (sk1, rsk, Return tt)
    /\ sk1 ⊆ seen'
    /\ (forall d, d ∈ rsk -> d ∈ rs)
    /\ (forall d, d ∈ rs_pre -> d ∈ rs).
Proof.
  induction 1 as [|p0 todo v0 seen s1 rs1 seen' rs Hp Hr Hran IH]; intros Hin Hv.
  - by apply elem_of_nil in Hin.
  - apply elem_of_cons in Hin as [->|Hin].
    + rewrite Hv in Hp. injection Hp as <-.
      exists [], seen, s1, [], rs1. split; [constructor|]. split; [done|].
      split; [by eapply ran_grows|]. split.
      * intros d Hd. rewrite !elem_of_app. right. by left.
      * intros d Hd. by apply elem_of_nil in Hd.
    + destruct (IH Hin Hv) as (pre & sk & sk1 & rs_pre & rsk & Hpre & Hk & Hs & Hd1 & Hd2).
      exists (p0 :: pre), sk, sk1, (reads p0 ++ rs1 ++ rs_pre), rsk.
      split; [by econstructor|]. split; [done|]. split; [done|]. split.
      * intros d Hd. rewrite !elem_of_app. right. right. by apply Hd1.
      * intros d. rewrite !elem_of_app. intros [?|[?|?]]; [by left|right; by left|].
        right. right. by apply Hd2.
Qed.

(** An object that the walk has marked was marked by the traversal of the
    value of one of the properties. *)
Lemma ran_new_mark todo seen seen' rs y :
  ran rec todo seen seen' rs -> ~ marked seen y -> marked seen' y ->
  exists v si si1 rsi,
    rec v si = Some (si1, rsi, Return tt)
    /\ si1 ⊆ seen' /\ (forall d, d ∈ rsi -> d ∈ rs)
    /\ ~ marked si y /\ marked si1 y.
Proof.
  induction 1 as [|p0 todo v0 seen s1 rs1 seen' rs Hp Hr Hran IH]; intros Hn Hm; [done|].
  destruct (marked_dec s1 y) as [H1|H1].
  - exists v0, seen, s1, rs1. split; [done|]. split; [by eapply ran_grows|].
    split; [|done]. intros d Hd. rewrite !elem_of_app. right. by left.
  - destruct (IH H1 Hm) as (v & si & si1 & rsi & Hc & Hs & Hd & Hni & Hmi).
    exists v, si, si1, rsi. split; [done|]. split; [done|]. split; [|done].
    intros d Hd'. rewrite !elem_of_app. right. right. by apply Hd.
Qed.

End Chain.

(** What a call of [_traverse] on an object that returns has done. *)
Lemma call_shape f r seen seen' rs :
  _traverse h (S f) (VObj r) seen = Some (seen', rs, Return tt) ->
  (seen' = seen
   /\ (forall o, h !! r = Some o -> isFrozen o = false -> isVNode o = false ->
         exists id, __ob__ o = Some id /\ id ∈ seen))
  \/ exists o seen1,
       h !! r = Some o /\ isFrozen o = false /\ isVNode o = false
       /\ ran (_traverse h f) (reverse (props o)) seen1 seen' rs
       /\ ((exists id, __ob__ o = Some id /\ (id ∉ seen) /\ seen1 = {[id]} ∪ seen)
           \/ (__ob__ o = None /\ seen1 = seen)).
Proof.
  simpl. destruct (h !! r) as [o|] eqn:Ho.
  2:{ intros [= <- <-]. left. split; [done|]. intros o [=]. }
  destruct (isFrozen o) eqn:Hf; simpl.
  { intros [= <- <-]. left. split; [done|]. intros o' [= <-]. congruence. }
  destruct (isVNode o) eqn:Hv; simpl.
  { intros [= <- <-]. left. split; [done|]. intros o' [= <-]. congruence. }
  destruct (__ob__ o) as [id|] eqn:Hid.
  - case_decide as Hin.
    + intros [= <- <-]. left. split; [done|]. intros o' [= <-] _ _. by exists id.
    + intros H. apply each_prop_ran in H as (rs' & -> & Hran).
      right. exists o, ({[id]} ∪ seen). repeat split; try done. left. by exists id.
  - intros H. apply each_prop_ran in H as (rs' & -> & Hran).
    right. exists o, seen. repeat split; try done. by right.
Qed.

Lemma newly_marked_is_root r o id seen y :
  h !! r = Some o -> isFrozen o = false -> isVNode o = false -> __ob__ o = Some id ->
  ~ marked seen y -> marked ({[id]} ∪ seen) y -> y = r.
Proof.
  intros Ho Hf Hv Hid Hn (id' & Hm & Hin).
  apply elem_of_union in Hin as [Hin|Hin].
  - apply elem_of_singleton in Hin as ->. apply (Hone y r id); [done|]. by exists o.
  - exfalso. apply Hn. by exists id'.
Qed.

Lemma covers_paths_step m :
  (forall m', (m' < m)%nat -> (forall f, A f m') /\ (forall f, B f m')) ->
  forall f, A f m.
Proof.
  intros IH f r seen seen' rs x Hcall Hpath.
  destruct f as [|f]; [done|].
  apply call_shape in Hcall as [(-> & Hskip)|(o & seen1 & Ho & Hf & Hv & Hran & Hseen1)].
  - (* the object is not entered *)
    assert (~ marked seen r) as Hr by (by inversion Hpath).
    assert (forall o, h !! r = Some o -> isFrozen o = false -> isVNode o = false -> False)
      as Hno.
    { intros o Ho Hf Hv. destruct (Hskip o Ho Hf Hv) as (id & Hid & Hin).
      apply Hr. exists id. split; [by exists o|done]. }
    inversion Hpath as [a Ha|m0 a c b Ha Hc Hp]; subst.
    + intros o Ho Hf Hv. by destruct (Hno o Ho Hf Hv).
    + destruct Hc as (o & p & Ho & Hf & Hv & _). by destruct (Hno o Ho Hf Hv).
  - assert (seen ⊆ seen1) as Hs1.
    { destruct Hseen1 as [(id & _ & _ & ->)|[_ ->]]; set_solver. }
    pose proof (ran_grows _ (_traverse_grows h f) _ _ _ _ Hran) as Hs1'.
    inversion Hpath as [a Ha|m0 a c b Ha Hc Hp]; subst.
    + (* the object itself *)
      intros o' Ho' _ _. rewrite Ho in Ho'. injection Ho' as <-. split.
      * intros p d Hp Hd. eapply ran_reads; [exact Hran| |done]. by apply elem_of_reverse.
      * intros id Hid. destruct Hseen1 as [(id' & Hid' & _ & ->)|[Hid' _]]; [|congruence].
        rewrite Hid in Hid'. injection Hid' as <-. set_solver.
    + (* through the property [p] *)
      destruct Hc as (o' & p & Ho' & _ & _ & Hp' & Hres).
      rewrite Ho in Ho'. injection Ho' as <-.
      destruct (ran_split _ (_traverse_grows h f) _ _ _ _ p (VObj c) Hran)
        as (pre & sk & sk1 & rs_pre & rsk & Hpre & Hk & Hsk1 & Hdk & Hdpre);
        [by apply elem_of_reverse | done |].
      pose proof (ran_grows _ (_traverse_grows h f) _ _ _ _ Hpre) as Hsk.
      destruct (wpath_last_marked seen sk _ _ _ Hp) as [Hw|(y & m3 & Hle & Hy & Hny & Ht)].
      * destruct (IH m0 ltac:(lia)) as [HA _].
        eapply covered_mono; [exact Hdk | exact Hsk1 |].
        by eapply (HA f c sk sk1 rsk x).
      * destruct (marked_dec seen1 y) as [Hy1|Hy1].
        -- destruct Hseen1 as [(id & Hid & Hnin & ->)|[_ ->]]; [|done].
           assert (y = r) as -> by (by eapply newly_marked_is_root).
           destruct (IH m3 ltac:(lia)) as [HA _].
           apply (HA (S f) r seen seen' rs x).
           ++ simpl. rewrite Ho, Hf, Hv, Hid. simpl. rewrite decide_False by done.
              revert Hran. clear. generalize ({[id]} ∪ seen). intros s0 Hran.
              assert (forall todo s acc s' rs0, ran (_traverse h f) todo s s' rs0 ->
                        each_prop (_traverse h f) todo s acc = Some (s', acc ++ rs0, Return tt))
                as Hback.
              { intros todo s acc s' rs0 H. revert acc.
                induction H as [|p0 todo v0 s s1 rs1 s'' rs0 Hp Hr _ IHr]; intros acc; simpl.
                - by rewrite app_nil_r.
                - rewrite Hp, Hr, IHr. by rewrite <- !app_assoc. }
              by rewrite (Hback _ _ [] _ _ Hran).
           ++ apply wpath_of_tail; [done|]. eapply tail_path_anti; [|exact Ht]. set_solver.
        -- destruct (ran_new_mark _ (_traverse_grows h f) _ _ _ _ y Hpre Hy1 Hy)
             as (v & si & si1 & rsi & Hci & Hsi & Hdi & Hni & Hmi).
           destruct (IH m3 ltac:(lia)) as [_ HB].
           eapply covered_mono; [| |eapply (HB f v si si1 rsi y x Hci Hni Hmi)].
           ++ intros d Hd. by apply Hdpre, Hdi.
           ++ pose proof (_traverse_grows h f _ _ _ _ _ Hk) as Hkk.
              etrans; [exact Hsi|]. etrans; [exact Hkk|]. exact Hsk1.
           ++ by eapply tail_path_anti.
Qed.

Lemma covers_marks_step m : (forall f, A f m) -> forall f, B f m.
Proof.
  intros HA. induction f as [|f IHf]; intros v seen seen' rs y x Hcall Hn Hm Ht; [done|].
  destruct v as [| | | | | |r]; try (simpl in Hcall; injection Hcall as <- <-; done).
  pose proof Hcall as Hcall0.
  apply call_shape in Hcall as [(-> & _)|(o & seen1 & Ho & Hf & Hv & Hran & Hseen1)];
    [done|].
  pose proof (ran_grows _ (_traverse_grows h f) _ _ _ _ Hran) as Hs1'.
  destruct (marked_dec seen1 y) as [Hy1|Hy1].
  - destruct Hseen1 as [(id & Hid & Hnin & ->)|[_ ->]]; [|done].
    assert (y = r) as -> by (by eapply newly_marked_is_root).
    apply (HA (S f) r seen seen' rs x Hcall0).
    apply wpath_of_tail; [done|]. eapply tail_path_anti; [|exact Ht].
    by eapply _traverse_grows.
  - destruct (ran_new_mark _ (_traverse_grows h f) _ _ _ _ y Hran Hy1 Hm)
      as (v & si & si1 & rsi & Hci & Hsi & Hdi & Hni & Hmi).
    eapply covered_mono; [exact Hdi | exact Hsi |].
    eapply (IHf v si si1 rsi y x Hci Hni Hmi). by eapply tail_path_anti.
Qed.

Lemma covers m : (forall f, A f m) /\ (forall f, B f m).
Proof.
  induction m as [m IH] using lt_wf_ind.
  assert (forall f, A f m) as HA by (by apply covers_paths_step).
  split; [done|]. by apply covers_marks_step.
Qed.

Lemma reaches_wpath r x : reaches h r x -> exists m, wpath ∅ m r x.
Proof.
  assert (forall a, ~ marked ∅ a) as Hno.
  { intros a (id & _ & Hin). set_solver. }
  induction 1 as [r|r c x Hc _ [m IH]].
  - exists 0%nat. by apply wpath_here.
  - exists (S m). by eapply wpath_step.
Qed.

(** A deep traversal that returns has read every property of every object
    it can reach. *)
Lemma traverse_reads_all fuel r seen' rs x o p d :
  traverse h fuel (VObj r) ∅ = Some (seen', rs, Return tt) ->
  reaches h r x ->
  h !! x = Some o -> isFrozen o = false -> isVNode o = false ->
  p ∈ props o -> d ∈ reads p -> d ∈ rs.
Proof.
  unfold traverse.
  destruct (_traverse h fuel (VObj r) ∅) as [[[s1 rs1] [[]|e]]|] eqn:Ht; try done.
  intros [= <- <-] Hreach Ho Hf Hv Hp Hd.
  destruct (reaches_wpath _ _ Hreach) as [m Hw].
  destruct (covers m) as [HA _].
  destruct (HA fuel r ∅ s1 rs1 x Ht Hw o Ho Hf Hv) as [Hreads _].
  by eapply Hreads.
Qed.

End Cover.
End ReachFacts.

Module LifecycleFacts.
Import JS Reactive WatcherFacts Lifecycle.
Local Open Scope Z_scope.

Section Hooks.

Variable U : Type.
Variable production config_async : bool.
Variable call_run : Z -> M U unit.
Variable call_flush : M U unit.

Hypothesis run_keeps : forall w, keeps_target (call_run w).
Hypothesis flush_keeps : keeps_target call_flush.

Implicit Types (s : World U).

Local Abbreviation perform := (Lifecycle.perform production config_async call_run call_flush).
Local Abbreviation invoke := (Lifecycle.invoke production config_async call_run call_flush).
Local Abbreviation invoke_all := (Lifecycle.invoke_all production config_async call_run call_flush).

Lemma keeps_bind {A B} (m : M U A) (k : A -> M U B) :
  keeps_target m -> (forall a, keeps_target (k a)) -> keeps_target (bindM m k).
Proof.
  intros Hm Hk s. unfold bindM. specialize (Hm s).
  destruct (m s) as [s1 [[a|e]|]]; simpl in *; try done.
  rewrite Hk. done.
Qed.

Lemma keeps_ret {A} (a : A) : keeps_target (ret a : M U A).
Proof. done. Qed.

Lemma keeps_for_each {A} (body : A -> M U unit) l :
  (forall a, keeps_target (body a)) -> keeps_target (for_each body l).
Proof.
  intros Hb. induction l as [|a l IH]; simpl; [apply keeps_ret|].
  apply keeps_bind; [apply Hb | intros _; apply IH].
Qed.

Lemma keeps_queueWatcher id :
  keeps_target (queueWatcher production config_async call_flush id).
Proof.
  intros s. unfold queueWatcher. destruct (has_null _ _); [|done].
  destruct (negb (waiting _)); [|done].
  destruct (negb production && negb config_async); [|done].
  rewrite flush_keeps. done.
Qed.

Lemma keeps_update w : keeps_target (update production config_async call_run call_flush w).
Proof.
  intros s. unfold update. destruct (watchers s !! w) as [x|]; [|done].
  destruct (lazy x); [done|]. destruct (sync x); [apply run_keeps | apply keeps_queueWatcher].
Qed.

Lemma keeps_writes code :
  keeps_target (writes production config_async call_run call_flush code).
Proof.
  intros s. unfold writes. destruct (code (app s)) as [[u ds] r].
  assert (keeps_target (for_each (notify production config_async call_run call_flush) ds)) as Hk.
  { apply keeps_for_each. intros d s0. unfold notify.
    apply keeps_for_each. apply keeps_update. }
  unfold bindM. specialize (Hk (set_app u s)).
  destruct (for_each _ ds (set_app u s)) as [s1 [[a|e]|]]; simpl in *; done.
Qed.

(** Without a watcher being evaluated a read registers nothing. *)
Lemma read_all_blind ds s : target s = None -> read_all ds s = s.
Proof.
  intros Ht. unfold read_all. induction ds as [|d ds IH] using rev_ind; [done|].
  rewrite foldl_app. simpl. rewrite IH. unfold depend. by rewrite Ht.
Qed.

Lemma target_of_stack s s' : targetStack s' = targetStack s -> target s' = target s.
Proof. unfold target. by intros ->. Qed.

Lemma for_each_perform_blind handler : forall s,
  target s = None ->
  for_each perform handler s = for_each perform (blind handler) s.
Proof.
  induction handler as [|a handler IH]; intros s Ht; [done|].
  destruct a as [ds|code]; simpl.
  - unfold bindM, modify. rewrite read_all_blind by done. by apply IH.
  - unfold bindM. pose proof (keeps_writes code s) as Hk.
    destruct (writes _ _ _ _ code s) as [s1 [[a|e]|]]; simpl in *; try done.
    apply IH. rewrite (target_of_stack s s1); done.
Qed.

Lemma read_all_stack ds s : targetStack (read_all ds s) = targetStack s.
Proof.
  unfold read_all. induction ds as [|d ds IH] using rev_ind; [done|].
  rewrite foldl_app. simpl. unfold depend at 1.
  destruct (target _); [|done]. by rewrite (addDep_target U).
Qed.

Lemma keeps_perform a : keeps_target (perform a).
Proof.
  destruct a as [ds|code]; [|apply keeps_writes].
  intros s. apply read_all_stack.
Qed.

Lemma keeps_invoke handler : keeps_target (invoke handler).
Proof.
  intros s. unfold Lifecycle.invoke.
  pose proof (keeps_for_each perform handler keeps_perform s) as Hk.
  destruct (for_each _ handler s) as [s1 [[a|e]|]]; done.
Qed.

Lemma invoke_blind handler s :
  target s = None -> invoke handler s = invoke (blind handler) s.
Proof. intros Ht. unfold Lifecycle.invoke. by rewrite for_each_perform_blind. Qed.

Lemma keeps_invoke_all handlers : keeps_target (invoke_all handlers).
Proof.
  induction handlers as [|hd rest IH]; simpl; [apply keeps_ret|].
  apply keeps_bind; [apply keeps_invoke | intros e].
  apply keeps_bind; [apply IH | intros es; apply keeps_ret].
Qed.

Lemma invoke_all_blind handlers : forall s,
  target s = None -> invoke_all handlers s = invoke_all (blind <$> handlers) s.
Proof.
  induction handlers as [|hd rest IH]; intros s Ht; [done|].
  simpl. unfold bindM at 1 3. rewrite invoke_blind by done.
  pose proof (keeps_invoke (blind hd) s) as Hk.
  destruct (invoke (blind hd) s) as [s1 [[a|e]|]]; try done.
  unfold bindM. rewrite IH; [done|]. rewrite (target_of_stack s s1); done.
Qed.

Lemma invoke_all_returns handlers : forall s s' r,
  invoke_all handlers s = (s', Some r) -> exists es, r = Return es.
Proof.
  induction handlers as [|hd rest IH]; intros s s' r; simpl.
  - intros [= <- <-]. by eexists.
  - unfold bindM, Lifecycle.invoke.
    destruct (for_each _ hd s) as [s1 [[a|e]|]]; try done.
    + destruct (invoke_all rest s1) as [s2 [r2|]] eqn:H2; [|done].
      destruct (IH _ _ _ H2) as [es ->]. intros [= <- <-]. by eexists.
    + destruct (invoke_all rest s1) as [s2 [r2|]] eqn:H2; [|done].
      destruct (IH _ _ _ H2) as [es ->]. intros [= <- <-]. by eexists.
Qed.

(** [callHook] switches the collection of Deps off: what the handlers read
    is registered with no watcher, so that the hook does what it would do
    with handlers that read nothing; when it returns, the watcher being
    evaluated is the one that was; and without hook events it returns
    whatever the handlers throw. *)
Lemma callHook_blind handlers hev emit s :
  keeps_target emit ->
  Lifecycle.callHook production config_async call_run call_flush handlers hev emit s
  = Lifecycle.callHook production config_async call_run call_flush
      (blind <$> handlers) hev emit s
  /\ (forall s' es,
       Lifecycle.callHook production config_async call_run call_flush handlers hev emit s
       = (s', Some (Return es)) -> targetStack s' = targetStack s)
  /\ (hev = false ->
      forall s' r,
       Lifecycle.callHook production config_async call_run call_flush handlers hev emit s
       = (s', Some r) -> exists es, r = Return es).
Proof.
  intros Hemit. unfold Lifecycle.callHook, bindM, modify.
  set (s0 := pushTarget None s).
  assert (target s0 = None) as Ht0 by done.
  rewrite (invoke_all_blind handlers s0 Ht0).
  pose proof (keeps_invoke_all (blind <$> handlers) s0) as Hk1.
  destruct (invoke_all (blind <$> handlers) s0) as [s1 [r1|]] eqn:H1.
  2:{ split; [done|]. split; [intros s' r [=] | intros _ s' r [=]]. }
  destruct (invoke_all_returns _ _ _ _ H1) as [es ->]. simpl in Hk1.
  assert (keeps_target (if hev then emit else ret tt)) as Hk2.
  { destruct hev; [done | apply keeps_ret]. }
  specialize (Hk2 s1).
  destruct ((if hev then emit else ret tt) s1) as [s2 [[[]|e]|]] eqn:H2.
  - split; [done|]. split.
    + intros s' es' [= <- _]. simpl in *. rewrite Hk2, Hk1. done.
    + intros _ s' r [= <- <-]. by eexists.
  - split; [done|]. split; [intros s' es' [=]|].
    intros -> s' r. simpl in H2. done.
  - split; [done|]. split; [intros s' r [=] | intros _ s' r [=]].
Qed.

End Hooks.

Section Destroy.

Variable U : Type.
Variable v : nat.

Implicit Types (s : World U) (w : Z).

Local Abbreviation pending := (Lifecycle.pending v).
Local Abbreviation torn := (Lifecycle.torn v).

Lemma torn_pending w s : torn w s -> pending w s.
Proof. intros (x & H1 & H2 & H3 & H4). exists x. split; [done|]. split; [done|]. by right. Qed.

Lemma teardown_destroying w s c :
  vms s !! v = Some c -> _isBeingDestroyed c = true -> pending w s ->
  exists s',
    teardown w s = (s', Return tt)
    /\ vms s' = vms s
    /\ torn w s'
    /\ (forall w', pending w' s -> pending w' s')
    /\ (forall w', torn w' s -> torn w' s').
Proof.
  intros Hc Hb (x & Hx & Hv & Hact).
  destruct (active x) eqn:Ha.
  - rewrite <- Hv in Hc.
    destruct (TrackingFacts.teardown_unsubscribes U w s x c Hx Ha Hc)
      as (s' & Ht & Hun & Hsub & Hoth & Hvm & Hw').
    assert (vms s' = vms s) as Hvms.
    { unfold teardown in Ht. rewrite Hx, Ha, Hc, Hb in Ht. injection Ht as <-.
      cbn [vms set_watcher].
      generalize (reverse (deps x)). intros l. generalize s.
      induction l as [|d0 l IH]; intros s0; [done|]. simpl. by rewrite IH. }
    assert (forall w', w' <> w -> watchers s' !! w' = watchers s !! w') as Hfr.
    { intros w' Hne. unfold teardown in Ht. rewrite Hx, Ha, Hc, Hb in Ht. injection Ht as <-.
      cbn [watchers set_watcher]. rewrite lookup_insert_ne by done.
      generalize (reverse (deps x)). intros l. generalize s.
      induction l as [|d0 l IH]; intros s0; [done|]. simpl. by rewrite IH. }
    assert (forall w' d, w' ∈ subs_of d s' -> w' ∈ subs_of d s) as Hmono.
    { intros w' d. destruct (decide (w' = w)) as [->|Hne]; [apply Hsub | by rewrite Hoth]. }
    exists s'. split; [done|]. split; [done|]. split; [|split].
    + exists (with_active x false). split; [done|]. split; [done|]. split; [done|]. exact Hun.
    + intros w' (x' & Hx' & Hv' & Hact').
      destruct (decide (w' = w)) as [->|Hne].
      * exists (with_active x false). split; [done|]. split; [done|]. right. exact Hun.
      * exists x'. rewrite Hfr by done. split; [done|]. split; [done|].
        destruct Hact' as [H|H]; [by left|]. right. intros d Hd Hin. by apply (H d Hd), Hmono.
    + intros w' (x' & Hx' & Hv' & Ha' & Hun').
      destruct (decide (w' = w)) as [->|Hne]; [congruence|].
      exists x'. rewrite Hfr by done. split; [done|]. split; [done|]. split; [done|].
      intros d Hd Hin. by apply (Hun' d Hd), Hmono.
  - exists s. split.
    + unfold teardown. by rewrite Hx, Ha.
    + split; [done|]. split; [|done].
      exists x. split; [done|]. split; [done|]. split; [done|].
      destruct Hact as [H|H]; [congruence | done].
Qed.

Lemma teardown_from_destroying c : forall i s,
  vms s !! v = Some c -> _isBeingDestroyed c = true ->
  (i <= length (_watchers c))%nat ->
  (forall w, w ∈ _watchers c -> pending w s) ->
  exists s',
    teardown_from v i s = (s', Return tt)
    /\ vms s' = vms s
    /\ (forall w, w ∈ take i (_watchers c) -> torn w s')
    /\ (forall w, pending w s -> pending w s')
    /\ (forall w, torn w s -> torn w s').
Proof.
  induction i as [|i IH]; intros s Hc Hb Hi Hall.
  - exists s. split; [done|]. split; [done|]. split; [|done].
    intros w Hw. rewrite take_0 in Hw. by inversion Hw.
  - simpl. rewrite Hc.
    destruct (_watchers c !! i) as [w|] eqn:Hw.
    2:{ apply lookup_ge_None in Hw. lia. }
    destruct (teardown_destroying w s c Hc Hb) as (s1 & Ht & Hvm & Htorn & Hp & Hd).
    { apply Hall. by eapply list_elem_of_lookup_2. }
    rewrite Ht.
    destruct (IH s1) as (s' & Hl & Hvm' & Htorn' & Hp' & Hd'); try done.
    + by rewrite Hvm.
    + lia.
    + intros w' Hw'. by apply Hp, Hall.
    + exists s'. split; [done|]. split; [congruence|]. split; [|split].
      * intros w' Hw'. rewrite (take_S_r _ _ _ Hw) in Hw'.
        apply elem_of_app in Hw' as [Hw'|Hw']; [by apply Htorn'|].
        apply list_elem_of_singleton in Hw' as ->. by apply Hd'.
      * intros w' Hw'. by apply Hp', Hp.
      * intros w' Hw'. by apply Hd', Hd.
Qed.

(** [$destroy] deactivates every watcher of the component and takes it off
    the subscriber lists of its Deps; the component's list of watchers
    stays as it is, the flag having been set before the first [teardown]. *)
Lemma destroy_watchers_tears_down s c rw :
  vms s !! v = Some c ->
  (forall w, w ∈ _watchers c \/ rw = Some w ->
     exists x, watchers s !! w = Some x /\ vm x = v /\ active x = true) ->
  exists s',
    destroy_watchers v rw s = (s', Return tt)
    /\ vms s' !! v = Some (mkVm true (_watchers c))
    /\ (forall w, w ∈ _watchers c \/ rw = Some w -> torn w s').
Proof.
  intros Hc Hall. unfold destroy_watchers. rewrite Hc.
  set (c1 := mkVm true (_watchers c)).
  set (s1 := set_vm v c1 s).
  assert (vms s1 !! v = Some c1) as Hc1 by (cbn; apply lookup_insert_eq).
  assert (forall w, w ∈ _watchers c \/ rw = Some w -> pending w s1) as Hp1.
  { intros w Hw. destruct (Hall w Hw) as (x & Hx & Hv & Ha).
    exists x. split; [done|]. split; [done|]. by left. }
  assert (exists s2, (match rw with Some w => teardown w s1 | None => (s1, Return tt) end)
                     = (s2, Return tt)
                     /\ vms s2 = vms s1
                     /\ (forall w, pending w s1 -> pending w s2)
                     /\ (forall w, rw = Some w -> torn w s2)) as (s2 & -> & Hvm2 & Hp2 & Hrw).
  { destruct rw as [w0|].
    - destruct (teardown_destroying w0 s1 c1 Hc1 eq_refl) as (s2 & Ht & Hvm & Htorn & Hp & _).
      { apply Hp1. by right. }
      exists s2. split; [done|]. split; [done|]. split; [done|].
      intros w [= <-]. done.
    - exists s1. split; [done|]. split; [done|]. split; [done|]. intros w [=]. }
  rewrite Hvm2, Hc1.
  destruct (teardown_from_destroying c1 (length (_watchers c1)) s2)
    as (s' & Hl & Hvm' & Htorn' & _ & Hd'); try done.
  - by rewrite Hvm2.
  - intros w Hw. apply Hp2, Hp1. by left.
  - exists s'. split; [done|]. split; [by rewrite Hvm', Hvm2|].
    intros w [Hw|Hw].
    + apply Htorn'. by rewrite firstn_all.
    + by apply Hd', Hrw.
Qed.

End Destroy.
End LifecycleFacts.

Section MoreOfTheChildrenDiff.
Import JS VDom VDomFacts DiffSpec KeyMapSpec KeyedSpec.
Local Open Scope Z_scope.

(** X1. The keyed diff places the children. Old children that sit on the
    host nodes [h], in order, and new children, all with numeric keys, no
    key twice in either list, an old and a new child being the same node
    exactly when their keys are equal: [updateChildren] returns, the
    children of the parent are then the host nodes of the new children, in
    the order of the new children and none twice, the new children have
    kept their keys, and every new child has either taken over the host node
    of the old child with its key or, no old child having its key, been
    given a created host node. *)
Theorem X1_keyed_diff_places_children
    (isTextInputType : value -> bool) (factoryError : nat -> value)
    (olds news : list VNode) (h : list nat) (f0 : nat) (ops0 : list op) :
  told_apart_by_key (sameVnode isTextInputType factoryError) olds news ->
  keyed_by_numbers olds -> keyed_by_numbers news ->
  NoDup (key <$> olds) -> NoDup (key <$> news) ->
  elm <$> olds = Some <$> h -> NoDup h -> Forall (fun e => (e < f0)%nat) h ->
  exists d',
    updateChildren isTextInputType factoryError false
      (mkDiff (Some <$> olds) news h f0 ops0) = Some (Return d')
    /\ elm <$> newCh d' = Some <$> host d'
    /\ NoDup (host d')
    /\ key <$> newCh d' = key <$> news
    /\ Forall (placed olds f0) (newCh d').
Proof.
  intros Hap Hko Hkn Hdo Hdn He Hnd Hb.
  by apply (KeyedFacts.updateChildren_keyed isTextInputType factoryError olds news f0
              Hap Hko Hkn Hdn h ops0).
Qed.

(** Old children 1, 2, 3 and new children 3, 4, 1. *)
Lemma X1_keyed_diff_witness :
  exists d',
    updateChildren isTextInputType_web (fun _ => VUndef) false
      (mkDiff (Some <$> [li 1 (Some 0%nat); li 2 (Some 1%nat); li 3 (Some 2%nat)])
              [li 3 None; li 4 None; li 1 None] [0; 1; 2]%nat 3%nat [])
    = Some (Return d')
    /\ elm <$> newCh d' = Some <$> host d'
    /\ NoDup (host d')
    /\ key <$> newCh d' = key <$> [li 3 None; li 4 None; li 1 None]
    /\ Forall (placed [li 1 (Some 0%nat); li 2 (Some 1%nat); li 3 (Some 2%nat)] 3)
              (newCh d').
Proof.
  apply (X1_keyed_diff_places_children isTextInputType_web (fun _ => VUndef)
           [li 1 (Some 0%nat); li 2 (Some 1%nat); li 3 (Some 2%nat)]
           [li 3 None; li 4 None; li 1 None] [0; 1; 2]%nat 3%nat []).
  - repeat constructor.
  - repeat constructor; by eexists.
  - repeat constructor; by eexists.
  - compute_done.
  - compute_done.
  - reflexivity.
  - compute_done.
  - repeat constructor.
Defined.

(** X2. With [removeOnly] nothing is moved: whatever the children, the
    operations the diff has issued when it returns hold no move. *)
Theorem X2_removeOnly_moves_nothing
    (isTextInputType : value -> bool) (factoryError : nat -> value) (d d' : diff) :
  updateChildren isTextInputType factoryError true d = Some (Return d') ->
  unmoved d d'.
Proof. apply DiffFacts.unmoved_updateChildren. Qed.

(** The rotation of C2 with [removeOnly]: three patches. *)
Lemma X2_removeOnly_witness :
  unmoved
    (mkDiff [Some (li 1 (Some 1%nat)); Some (li 2 (Some 2%nat)); Some (li 3 (Some 3%nat))]
            [li 3 None; li 1 None; li 2 None] [1; 2; 3]%nat 4%nat [])
    (mkDiff [Some (li 1 (Some 1%nat)); Some (li 2 (Some 2%nat)); Some (li 3 (Some 3%nat))]
            [li 3 (Some 3%nat); li 1 (Some 1%nat); li 2 (Some 2%nat)] [1; 2; 3]%nat 4%nat
            [Patch (Some 3%nat) 0; Patch (Some 1%nat) 1; Patch (Some 2%nat) 2]).
Proof.
  apply (X2_removeOnly_moves_nothing isTextInputType_web (fun _ => VUndef)).
  vm_compute. reflexivity.
Defined.

(** X3. Children that have not changed: when the new children are, one by
    one, the same nodes as the old children, the diff patches each pair, in
    order, hands each new child the host node of its old child, and leaves
    the children of the parent as they are; nothing is created, moved or
    removed. *)
Theorem X3_unchanged_children_are_patched_in_place
    (isTextInputType : value -> bool) (factoryError : nat -> value)
    (removeOnly : bool) (olds news : list VNode) (h : list nat) (f : nat)
    (ops0 : list op) :
  Forall2 (fun o n => sameVnode isTextInputType factoryError (Some o) (Some n) = Return true)
          olds news ->
  updateChildren isTextInputType factoryError removeOnly
    (mkDiff (Some <$> olds) news h f ops0)
  = Some (Return (mkDiff (Some <$> olds) (zip_with set_elm news (elm <$> olds)) h f
                         (ops0 ++ patches_from 0 olds))).
Proof. apply UnchangedFacts.updateChildren_unchanged. Qed.

Lemma X3_unchanged_children_witness :
  updateChildren isTextInputType_web (fun _ => VUndef) false
    (mkDiff (Some <$> [li 1 (Some 1%nat); li 2 (Some 2%nat)]) [li 1 None; li 2 None]
            [1; 2]%nat 3%nat [])
  = Some (Return (mkDiff (Some <$> [li 1 (Some 1%nat); li 2 (Some 2%nat)])
                         (zip_with set_elm [li 1 None; li 2 None]
                            (elm <$> [li 1 (Some 1%nat); li 2 (Some 2%nat)]))
                         [1; 2]%nat 3%nat
                         ([] ++ patches_from 0 [li 1 (Some 1%nat); li 2 (Some 2%nat)]))).
Proof.
  apply (X3_unchanged_children_are_patched_in_place isTextInputType_web (fun _ => VUndef)
           false [li 1 (Some 1%nat); li 2 (Some 2%nat)] [li 1 None; li 2 None]).
  repeat constructor.
Defined.

(** X4. The diff ends. Whatever the children and whatever [sameVnode]
    answers, a turn of the loop of [updateChildren] that returns has moved
    no cursor outwards and at least one inwards: the distance between the
    cursors, which is below the number of old and new children when the
    loop begins, has gone down. So the loop is over within as many turns as
    there are old and new children, and [updateChildren] returns or
    throws. *)
Theorem X4_updateChildren_ends
    (isTextInputType : value -> bool) (factoryError : nat -> value)
    (removeOnly : bool) (d : diff) :
  (forall canMove c d0 c' d',
     step isTextInputType factoryError canMove c d0 = Return (c', d') ->
     oldStartIdx c <= oldStartIdx c' /\ oldEndIdx c' <= oldEndIdx c
     /\ newStartIdx c <= newStartIdx c' /\ newEndIdx c' <= newEndIdx c
     /\ gap c' < gap c)
  /\ gap (init d) < Z.of_nat (length (oldCh d) + length (newCh d))
  /\ exists r, updateChildren isTextInputType factoryError removeOnly d = Some r.
Proof.
  split; [|split].
  - intros canMove c d0 c' d' Hs.
    destruct (step_inwards _ _ _ _ _ _ _ Hs) as (H1 & H2 & H3 & H4).
    apply step_progress in Hs. done.
  - unfold gap, init. simpl. lia.
  - pose proof (updateChildren_total isTextInputType factoryError removeOnly d) as H.
    destruct (updateChildren _ _ _ _) as [r|]; [by exists r | done].
Qed.

(** The first turn of the rotation of C2: the end cursor of the old
    children and the start cursor of the new ones move inwards. *)
Lemma X4_updateChildren_witness :
  let d0 := mkDiff [Some (li 1 (Some 1%nat)); Some (li 2 (Some 2%nat));
                    Some (li 3 (Some 3%nat))]
                   [li 3 None; li 1 None; li 2 None] [1; 2; 3]%nat 4%nat [] in
  exists c1 d1,
    step isTextInputType_web (fun _ => VUndef) true (init d0) d0 = Return (c1, d1)
    /\ oldStartIdx (init d0) <= oldStartIdx c1 /\ oldEndIdx c1 <= oldEndIdx (init d0)
    /\ newStartIdx (init d0) <= newStartIdx c1 /\ newEndIdx c1 <= newEndIdx (init d0)
    /\ gap c1 < gap (init d0).
Proof.
  cbv zeta. eexists _, _. split; [vm_compute; reflexivity|].
  set (d0 := mkDiff [Some (li 1 (Some 1%nat)); Some (li 2 (Some 2%nat));
                     Some (li 3 (Some 3%nat))]
                    [li 3 None; li 1 None; li 2 None] [1; 2; 3]%nat 4%nat []).
  eapply (proj1 (X4_updateChildren_ends isTextInputType_web (fun _ => VUndef) false d0)
            true _ d0).
  vm_compute. reflexivity.
Defined.


(** X6. On nodes that are not async placeholders [sameVnode] is a partial
    equivalence: the answer for two nodes does not depend on their order
    and carries over from [a], [b] and [b], [c] to [a], [c]; and a node is
    the same as itself exactly when its key is not [NaN] and, if it is an
    [input], its [type] is not [NaN] or is text-like. *)
Theorem X6_sameVnode_is_a_partial_equivalence
    (isTextInputType : value -> bool) (factoryError : nat -> value) (a b c : VNode) :
  isAsyncPlaceholder a = false -> isAsyncPlaceholder b = false ->
  (sameVnode isTextInputType factoryError (Some a) (Some a) = Return true
   <-> key a <> VNaN
       /\ (tag a = Some "input" ->
           inputType a <> VNaN \/ isTextInputType (inputType a) = true))
  /\ sameVnode isTextInputType factoryError (Some a) (Some b)
     = sameVnode isTextInputType factoryError (Some b) (Some a)
  /\ (sameVnode isTextInputType factoryError (Some a) (Some b) = Return true ->
      sameVnode isTextInputType factoryError (Some b) (Some c) = Return true ->
      sameVnode isTextInputType factoryError (Some a) (Some c) = Return true).
Proof.
  intros Ha Hb. split; [by apply SameFacts.sameVnode_refl|].
  split; [by apply SameFacts.sameVnode_sym|]. by apply SameFacts.sameVnode_trans.
Qed.

(** An input keyed [NaN], which is not the same as itself, and two inputs
    of text-like types. *)
Lemma X6_sameVnode_witness :
  (sameVnode isTextInputType_web (fun _ => VUndef)
     (Some (input_of_type "text" VNaN)) (Some (input_of_type "text" VNaN)) = Return true
   <-> VNaN <> VNaN
       /\ (Some "input" = Some "input" ->
           VStr "text" <> VNaN \/ isTextInputType_web (VStr "text") = true))
  /\ sameVnode isTextInputType_web (fun _ => VUndef)
       (Some (input_of_type "text" VNaN)) (Some (input_of_type "number" VUndef))
     = sameVnode isTextInputType_web (fun _ => VUndef)
         (Some (input_of_type "number" VUndef)) (Some (input_of_type "text" VNaN))
  /\ (sameVnode isTextInputType_web (fun _ => VUndef)
        (Some (input_of_type "text" VNaN)) (Some (input_of_type "number" VUndef))
      = Return true ->
      sameVnode isTextInputType_web (fun _ => VUndef)
        (Some (input_of_type "number" VUndef)) (Some (input_of_type "email" VUndef))
      = Return true ->
      sameVnode isTextInputType_web (fun _ => VUndef)
        (Some (input_of_type "text" VNaN)) (Some (input_of_type "email" VUndef))
      = Return true).
Proof.
  apply (X6_sameVnode_is_a_partial_equivalence isTextInputType_web (fun _ => VUndef)
           (input_of_type "text" VNaN) (input_of_type "number" VUndef)
           (input_of_type "email" VUndef)); reflexivity.
Defined.

(** X20. A key that names a property of [Object.prototype]. In the
    fallback, when the key map is built from old children that are all
    there, and the key of the new start child reads as [__proto__], or as
    another name of [Object.prototype] that is the key of no old child
    between the cursors, the turn throws a [TypeError]: what the map reads
    under that name is inherited and selects no old child, and [sameVnode]
    reads the key of [undefined]. *)
Theorem X20_inherited_key_throws
    (isTextInputType : value -> bool) (factoryError : nat -> value) (cm : bool)
    (osi nsi oei nei : Z) (o1 o2 n1 : VNode) (nev : option VNode) (d : diff) :
  sameVnode isTextInputType factoryError (Some o1) (Some n1) = Return false ->
  sameVnode isTextInputType factoryError (Some o2) nev = Return false ->
  sameVnode isTextInputType factoryError (Some o1) nev = Return false ->
  sameVnode isTextInputType factoryError (Some o2) (Some n1) = Return false ->
  (forall j, osi <= j <= oei -> is_Some (old_at d j)) ->
  isDef (key n1) = true ->
  toPropertyKey (key n1) ∈ Object_prototype ->
  (toPropertyKey (key n1) = "__proto__"
   \/ forall j, osi <= j <= oei -> ~ keyed_at (oldCh d) (toPropertyKey (key n1)) j) ->
  step isTextInputType factoryError cm
       (mkCur osi nsi oei nei (Some o1) (Some o2) (Some n1) nev None) d
  = Throw TypeError.
Proof.
  intros H1 H2 H3 H4 Hall Hd Hin Hno.
  destruct (InheritedFacts.createKeyToOldIdx_inherited (oldCh d) osi oei
              (toPropertyKey (key n1)) Hall Hin Hno) as (m & Hm & Hi).
  by apply (InheritedFacts.step_inherited isTextInputType factoryError cm osi nsi oei nei
              o1 o2 n1 nev None d m).
Qed.

(** Old child [<li key=1>] and new child [<li key="constructor">]: the
    turn throws, and so does the diff. *)
Lemma X20_inherited_key_witness :
  step isTextInputType_web (fun _ => VUndef) true
       (mkCur 0 0 0 0 (Some (li 1 (Some 1%nat))) (Some (li 1 (Some 1%nat)))
              (Some (named "constructor" None)) (Some (named "constructor" None)) None)
       (mkDiff [Some (li 1 (Some 1%nat))] [named "constructor" None] [1%nat] 2%nat [])
  = Throw TypeError
  /\ updateChildren isTextInputType_web (fun _ => VUndef) false
       (mkDiff [Some (li 1 (Some 1%nat))] [named "constructor" None] [1%nat] 2%nat [])
     = Some (Throw TypeError).
Proof.
  split; [|vm_compute; reflexivity].
  apply (X20_inherited_key_throws isTextInputType_web (fun _ => VUndef) true 0 0 0 0
           (li 1 (Some 1%nat)) (li 1 (Some 1%nat)) (named "constructor" None)
           (Some (named "constructor" None))
           (mkDiff [Some (li 1 (Some 1%nat))] [named "constructor" None] [1%nat] 2%nat []));
    try reflexivity.
  - intros j Hj. assert (j = 0) as -> by lia. by eexists.
  - unfold Object_prototype. simpl. set_solver.
  - right. intros j Hj (c & Hc & _ & Hk). assert (j = 0) as -> by lia.
    injection Hc as <-. vm_compute in Hk. discriminate.
Defined.

End MoreOfTheChildrenDiff.

Module CasesFacts.
Import JS Reactive WatcherFacts FlushFacts Scenario Cases.
Local Open Scope Z_scope.

Lemma rests_set_sched s c : rests s -> rests (set_sched c s).
Proof. intros H. exact H. Qed.

Lemma rests_no_before_hook s : rests s -> no_before_hook [1; 0] s.
Proof.
  intros [H0 H1] v Hv.
  apply elem_of_cons in Hv as [->|Hv]; [by eexists|].
  apply list_elem_of_singleton in Hv as ->. by eexists.
Qed.

(** At rest a run of either watcher finds the value it holds: no callback,
    and the scheduler is left alone. *)
Lemma run_at_rest production f v (s : World Z) :
  v ∈ [1; 0] -> rests s ->
  exists s1,
    exec_run app_getter no_deep_reads bump no_hook production true (S f) v s
    = (s1, Some (Return tt))
    /\ sched s1 = sched s /\ rests s1.
Proof.
  intros Hv [H0 H1].
  apply elem_of_cons in Hv as [->|Hv]; [|apply list_elem_of_singleton in Hv as ->].
  - simpl. unfold run. rewrite H1. simpl.
    destruct (get_counting s (app s) H1) as (s1 & Hg & Hx1 & H01 & Ha & Hsb & Hsc).
    unfold bindM, lift. rewrite Hg. rewrite Hx1. simpl.
    unfold strict_eq. rewrite bool_decide_eq_true_2 by done. simpl.
    exists s1. split; [done|]. split; [done|]. split; [by rewrite H01 | by rewrite Ha].
  - simpl. unfold run. rewrite H0. simpl.
    unfold bindM, lift, get. rewrite H0.
    unfold Scenario.app_getter. simpl.
    unfold depend. simpl. unfold addDep. simpl. rewrite H0. simpl.
    rewrite decide_False by set_solver. rewrite decide_True by set_solver.
    assert (({[14]} ∪ ∅ : gset Z) = {[14]}) as -> by set_solver.
    unfold cleanupDeps. simpl. rewrite lookup_insert_eq. simpl.
    unfold drop_stale. simpl. rewrite decide_True by set_solver.
    simpl. rewrite lookup_insert_eq. simpl.
    eexists. split; [reflexivity|]. simpl. split; [done|]. split.
    + cbn [watchers set_watcher]. by rewrite lookup_insert_eq.
    + cbn [watchers set_watcher popTarget set_stack emit pushTarget app].
      rewrite !lookup_insert_ne by done. done.
Qed.

End CasesFacts.

Section MoreOfTheWatcher.
Import JS Reactive WatcherFacts WatcherMethods Scenario Cases.
Local Open Scope Z_scope.

(** X7. An evaluation renews the subscriptions. Take a watcher between two
    evaluations (nothing being collected, [deps] and [depIds] holding the
    same Deps) that is a subscriber of exactly the Deps in [depIds], and an
    evaluation whose getter reads the Deps [ds] and whose deep traversal
    reads [ds'] and does not throw. Then [get] returns what the getter
    returned (for a user watcher [undefined] when the getter threw) or
    throws what it threw, the target stack is as before, the watcher is
    again between two evaluations, [deps] holds no Dep twice, [depIds] is
    the set of the Deps read, the watcher is a subscriber of exactly these,
    and the subscriptions of every other watcher are as they were. *)
Theorem X7_get_renews_subscriptions
    (U : Type) (getter : Z -> U -> list Z * completion JS.value)
    (deepReads : JS.value -> U -> list Z * completion unit)
    (w : Z) (s : World U) (x : Watcher) (ds ds' : list Z) (r : completion JS.value) :
  watchers s !! w = Some x ->
  settled x ->
  subscribed_to w s (depIds x) ->
  getter w (app s) = (ds, r) ->
  traversed deepReads x r (app s) = (ds', Return tt) ->
  exists s' x',
    get getter deepReads w s
    = (s', match r with
           | Return v => Return v
           | Throw e => if user x then Return VUndef else Throw e
           end)
    /\ targetStack s' = targetStack s
    /\ watchers s' !! w = Some x'
    /\ settled x' /\ NoDup (deps x')
    /\ depIds x' = list_to_set (ds ++ ds')
    /\ subscribed_to w s' (depIds x')
    /\ (forall w' d, w' <> w -> w' ∈ subs_of d s' <-> w' ∈ subs_of d s).
Proof. apply TrackingFacts.get_tracks. Qed.

(** Watcher 2 of the small application subscribes to Dep 13 and reads
    Dep 11. *)
Lemma X7_get_witness :
  exists s' x',
    get app_getter no_deep_reads 2 (world idle) = (s', Return (VObj 0))
    /\ targetStack s' = []
    /\ watchers s' !! 2 = Some x'
    /\ settled x' /\ NoDup (deps x')
    /\ depIds x' = list_to_set ([11] ++ [])
    /\ subscribed_to 2 s' (depIds x')
    /\ (forall w' d, w' <> 2 -> w' ∈ subs_of d s' <-> w' ∈ subs_of d (world idle)).
Proof.
  apply (X7_get_renews_subscriptions Z app_getter no_deep_reads 2 (world idle) watcher2
           [11] [] (Return (VObj 0))).
  - reflexivity.
  - split; [reflexivity|]. split; [reflexivity|]. intros d. simpl. set_solver.
  - intros d. unfold subs_of. simpl. destruct (decide (d = 13)) as [->|Hne].
    + rewrite lookup_singleton_eq. simpl. set_solver.
    + rewrite lookup_singleton_ne by done. simpl. set_solver.
  - reflexivity.
  - reflexivity.
Defined.

(** X8. [teardown] of an active watcher returns; the watcher is then
    inactive and a subscriber of none of its Deps, it has been added to no
    Dep, the subscriptions of the other watchers are as they were, and it
    has been taken off the list of watchers of its component unless the
    component is being destroyed. *)
Theorem X8_teardown_unsubscribes
    (U : Type) (w : Z) (s : World U) (x : Watcher) (v : Vm) :
  watchers s !! w = Some x -> active x = true -> vms s !! vm x = Some v ->
  exists s',
    teardown w s = (s', Return tt)
    /\ (forall d, d ∈ deps x -> w ∉ subs_of d s')
    /\ (forall d, w ∈ subs_of d s' -> w ∈ subs_of d s)
    /\ (forall w' d, w' <> w -> w' ∈ subs_of d s' <-> w' ∈ subs_of d s)
    /\ vms s' !! vm x
       = Some (if _isBeingDestroyed v then v
               else mkVm false (remove (_watchers v) w))
    /\ watchers s' !! w = Some (with_active x false).
Proof. apply TrackingFacts.teardown_unsubscribes. Qed.

Lemma X8_teardown_witness :
  exists s',
    teardown 2 (world idle) = (s', Return tt)
    /\ (forall d, d ∈ [13] -> 2 ∉ subs_of d s')
    /\ (forall d, 2 ∈ subs_of d s' -> 2 ∈ subs_of d (world idle))
    /\ (forall w' d, w' <> 2 -> w' ∈ subs_of d s' <-> w' ∈ subs_of d (world idle))
    /\ vms s' !! 0%nat = Some (mkVm false (remove [1; 2] 2))
    /\ watchers s' !! 2 = Some (with_active watcher2 false).
Proof.
  apply (X8_teardown_unsubscribes Z 2 (world idle) watcher2 (mkVm false [1; 2]));
    reflexivity.
Defined.

(** X9. [evaluate] of a watcher that is not deep: when the getter returns
    [v] the watcher caches [v] and is no longer dirty; when the getter of a
    user watcher throws, [undefined] is cached in the same way; when the
    getter of any other watcher throws, [evaluate] throws the same value,
    and the cached value and the dirty flag stay as they were. In each case
    the Deps read have become the watcher's Deps and the target stack is as
    before. *)
Theorem X9_evaluate_caches_or_stays_dirty
    (U : Type) (getter : Z -> U -> list Z * completion JS.value)
    (deepReads : JS.value -> U -> list Z * completion unit)
    (w : Z) (s : World U) (x : Watcher) (ds : list Z) (r : completion JS.value) :
  watchers s !! w = Some x ->
  deep x = false ->
  getter w (app s) = (ds, r) ->
  exists s',
    targetStack s' = targetStack s
    /\ match r with
       | Return v =>
           evaluate getter deepReads w s = (s', Return tt)
           /\ watchers s' !! w
              = Some (with_dirty (with_value
                        (reconciled x (collect ds (newDeps x) (newDepIds x)).1
                                      (collect ds (newDeps x) (newDepIds x)).2) v) false)
       | Throw e =>
           if user x then
             evaluate getter deepReads w s = (s', Return tt)
             /\ watchers s' !! w
                = Some (with_dirty (with_value
                          (reconciled x (collect ds (newDeps x) (newDepIds x)).1
                                        (collect ds (newDeps x) (newDepIds x)).2) VUndef) false)
           else
             evaluate getter deepReads w s = (s', Throw e)
             /\ watchers s' !! w
                = Some (reconciled x (collect ds (newDeps x) (newDepIds x)).1
                                     (collect ds (newDeps x) (newDepIds x)).2)
       end.
Proof. apply TrackingFacts.evaluate_caches. Qed.

(** A computed property whose getter throws: its watcher, lazy and dirty,
    stays dirty. *)
Lemma X9_evaluate_witness :
  exists s',
    targetStack s' = []
    /\ evaluate failing_getter no_deep_reads 0 computing
       = (s', Throw (VStr "render failed"))
    /\ watchers s' !! 0
       = Some (reconciled computed_watcher (collect [14] [] ∅).1 (collect [14] [] ∅).2).
Proof.
  apply (X9_evaluate_caches_or_stays_dirty Z failing_getter no_deep_reads 0
           computing computed_watcher [14] (Throw (VStr "render failed"))); reflexivity.
Defined.

(** X10. [depend] of a watcher hands its Deps to the watcher being
    evaluated. Without one nothing changes. With the watcher [t] being
    evaluated, [depend] returns, every Dep of the watcher is among the Deps
    [t] has collected, [t] has become a subscriber of those Deps of the
    watcher that it had neither collected nor held before, no other
    subscription has changed, and the Deps [t] holds from its last
    evaluation are as they were. *)
Theorem X10_depend_hands_deps_over
    (U : Type) (w : Z) (s : World U) (x : Watcher) :
  watchers s !! w = Some x ->
  (target s = None -> WatcherMethods.depend w s = (s, Return tt))
  /\ (forall t xt,
        target s = Some t -> watchers s !! t = Some xt ->
        exists s' xt',
          WatcherMethods.depend w s = (s', Return tt)
          /\ targetStack s' = targetStack s
          /\ watchers s' !! t = Some xt'
          /\ same_config xt xt' /\ depIds xt' = depIds xt /\ deps xt' = deps xt
          /\ newDepIds xt' = newDepIds xt ∪ list_to_set (deps x)
          /\ (forall d w', w' ∈ subs_of d s'
                <-> w' ∈ subs_of d s
                    \/ (w' = t /\ d ∈ deps x /\ (d ∉ newDepIds xt) /\ (d ∉ depIds xt)))).
Proof. apply TrackingFacts.depend_hands_over. Qed.

(** While watcher 1 is being evaluated, watcher 2 hands it Dep 13. *)
Lemma X10_depend_witness :
  (target (pushTarget (Some 1) (world idle)) = None ->
   WatcherMethods.depend 2 (pushTarget (Some 1) (world idle))
   = (pushTarget (Some 1) (world idle), Return tt))
  /\ (forall t xt,
        target (pushTarget (Some 1) (world idle)) = Some t ->
        watchers (pushTarget (Some 1) (world idle)) !! t = Some xt ->
        exists s' xt',
          WatcherMethods.depend 2 (pushTarget (Some 1) (world idle)) = (s', Return tt)
          /\ targetStack s' = targetStack (pushTarget (Some 1) (world idle))
          /\ watchers s' !! t = Some xt'
          /\ same_config xt xt' /\ depIds xt' = depIds xt /\ deps xt' = deps xt
          /\ newDepIds xt' = newDepIds xt ∪ list_to_set (deps watcher2)
          /\ (forall d w', w' ∈ subs_of d s'
                <-> w' ∈ subs_of d (pushTarget (Some 1) (world idle))
                    \/ (w' = t /\ d ∈ deps watcher2 /\ (d ∉ newDepIds xt)
                        /\ (d ∉ depIds xt)))).
Proof.
  apply (X10_depend_hands_deps_over Z 2 (pushTarget (Some 1) (world idle)) watcher2).
  reflexivity.
Defined.

End MoreOfTheWatcher.

Section MoreOfTheScheduler.
Import JS Reactive SchedulerFacts SchedulerSpec FlushFacts Scenario Cases.
Local Open Scope Z_scope.

(** X11. Batching. Outside a flush, and when flushes are requested through
    [nextTick] (in production, or with [config.async]), start from a
    scheduler in which no watcher is queued twice, the queued watchers are
    the ones marked in [has], and nothing is queued unless a flush has been
    requested. Queueing the watchers [ids] one after the other, in any
    number and with repetitions, returns and keeps all that; the queue has
    only grown at its end and holds what it held and the watchers of [ids];
    and exactly one flush has been requested if none was requested before
    and [ids] is not empty, none otherwise. Nothing else of the state has
    changed. *)
Theorem X11_queueWatcher_batches
    (U : Type) (production config_async : bool) (call_flush : M U unit)
    (ids : list Z) (s : World U) :
  negb production && negb config_async = false ->
  batched (sched s) ->
  exists s',
    for_each (queueWatcher production config_async call_flush) ids s
    = (s', Some (Return tt))
    /\ batched (sched s')
    /\ (forall id, id ∈ queue (sched s') <-> id ∈ queue (sched s) \/ id ∈ ids)
    /\ (exists new, queue (sched s') = queue (sched s) ++ new)
    /\ trace (sched s')
       = trace (sched s)
         ++ (if waiting (sched s) then [] else match ids with [] => [] | _ => [SNextTick] end)
    /\ app s' = app s /\ watchers s' = watchers s /\ subs s' = subs s /\ log s' = log s.
Proof. intros Hd Hb. by apply BatchFacts.for_each_queueWatcher_batched. Qed.

(** Watchers 2, 1, 2, 1 are queued in the idle application. *)
Lemma X11_queueWatcher_witness :
  exists s',
    for_each (queueWatcher false true (fun s => (s, None))) [2; 1; 2; 1] (world idle)
    = (s', Some (Return tt))
    /\ batched (sched s')
    /\ (forall id, id ∈ queue (sched s') <-> id ∈ [] \/ id ∈ [2; 1; 2; 1])
    /\ (exists new, queue (sched s') = [] ++ new)
    /\ trace (sched s') = [] ++ [SNextTick]
    /\ app s' = 0 /\ watchers s' = watchers (world idle)
    /\ subs s' = subs (world idle) /\ log s' = [].
Proof.
  apply (X11_queueWatcher_batches Z false true (fun s => (s, None)) [2; 1; 2; 1]
           (world idle)).
  - reflexivity.
  - split; [reflexivity|]. split; [constructor|]. split; [|reflexivity].
    intros id. split; [by intros ?%elem_of_nil | by intros [=]].
Defined.

(** X12. A flush in which no run queues anything. Take a property [Inv]
    that the state has between runs, whatever the scheduler does, under
    which none of the queued watchers has a [before] hook and a run of a
    queued watcher returns and leaves the scheduler alone. Then the flush
    returns; the queued watchers have run once each, in ascending order of
    their ids, whatever the order in which they were queued; the [updated]
    hooks are called for them; and the scheduler is reset: the queue and
    [has] are empty, the index is 0, and neither a flush is running nor one
    requested. *)
Theorem X12_flush_runs_each_watcher_once_in_id_order
    (U : Type) (beforeHook : Z -> U -> U * list Z * completion unit)
    (production config_async : bool) (call_run : Z -> M U unit) (call_flush : M U unit)
    (Inv : World U -> Prop) (s : World U) (fuel : nat) :
  Inv s ->
  (forall s0 c, Inv s0 -> Inv (set_sched c s0)) ->
  (forall s0, Inv s0 -> no_before_hook (queue (sched s)) s0) ->
  (forall v s0,
     v ∈ queue (sched s) -> Inv s0 ->
     exists s1, call_run v s0 = (s1, Some (Return tt))
                /\ sched s1 = sched s0 /\ Inv s1) ->
  (length (queue (sched s)) <= fuel)%nat ->
  exists s',
    flushSchedulerQueue beforeHook production config_async call_run call_flush fuel s
    = (s', Some (Return tt))
    /\ Inv s'
    /\ trace (sched s')
       = trace (sched s) ++ (SRun <$> merge_sort Z.le (queue (sched s)))
         ++ [SUpdated (merge_sort Z.le (queue (sched s)))]
    /\ Sorted Z.le (merge_sort Z.le (queue (sched s)))
    /\ merge_sort Z.le (queue (sched s)) ≡ₚ queue (sched s)
    /\ queue (sched s') = [] /\ has (sched s') = ∅ /\ index (sched s') = 0
    /\ flushing (sched s') = false /\ waiting (sched s') = false.
Proof.
  intros Hs Hsched Hhook Hrun Hfuel.
  by apply (QuietFlushFacts.flush_quiet U beforeHook production config_async call_run
              call_flush (queue (sched s)) Inv Hsched Hhook Hrun).
Qed.

(** The small application at rest, watcher 1 queued before watcher 0: the
    flush, with the interpreter as it is, runs 0, then 1. *)
Lemma X12_flush_witness :
  exists s',
    exec_flush app_getter no_deep_reads bump no_hook false true 3 (at_rest pending10)
    = (s', Some (Return tt))
    /\ rests s'
    /\ trace (sched s')
       = [] ++ (SRun <$> merge_sort Z.le [1; 0]) ++ [SUpdated (merge_sort Z.le [1; 0])]
    /\ Sorted Z.le (merge_sort Z.le [1; 0])
    /\ merge_sort Z.le [1; 0] ≡ₚ [1; 0]
    /\ queue (sched s') = [] /\ has (sched s') = ∅ /\ index (sched s') = 0
    /\ flushing (sched s') = false /\ waiting (sched s') = false.
Proof.
  rewrite (exec_flush_S Z app_getter no_deep_reads bump no_hook false true 2).
  apply (X12_flush_runs_each_watcher_once_in_id_order Z no_hook false true
           (exec_run app_getter no_deep_reads bump no_hook false true 2)
           (exec_flush app_getter no_deep_reads bump no_hook false true 2)
           rests (at_rest pending10) 2).
  - split; reflexivity.
  - intros s0 c. apply CasesFacts.rests_set_sched.
  - apply CasesFacts.rests_no_before_hook.
  - intros v s0 Hv Hr. by apply CasesFacts.run_at_rest.
  - simpl. lia.
Defined.

(** X13. A flush whose first run throws is not cleaned up after. Let the
    first watcher [w] of the sorted queue be active and no user watcher, let
    its [before] hook, if it has one, return without writing to a Dep, and
    let its getter then throw [e]. The flush, with the interpreter as it
    is, throws [e]; the scheduler is not reset: the hook and the run are
    recorded, a flush still counts as running and as requested, and the
    queue still holds its watchers. From then on queueing watchers,
    whichever and however many, requests no flush. *)
Theorem X13_throwing_run_leaves_the_scheduler_flushing
    (U : Type) (getter : Z -> U -> list Z * completion JS.value)
    (deepReads : JS.value -> U -> list Z * completion unit)
    (cb : Z -> JS.value -> JS.value -> U -> U * list Z * completion unit)
    (beforeHook : Z -> U -> U * list Z * completion unit)
    (production config_async : bool)
    (s : World U) (fuel : nat) (w : Z) (rest : list Z) (x : Watcher)
    (u0 : U) (ds : list Z) (e : JS.value) :
  merge_sort Z.le (queue (sched s)) = w :: rest ->
  watchers s !! w = Some x -> active x = true -> user x = false ->
  waiting (sched s) = true ->
  (before x = true -> beforeHook w (app s) = (u0, [], Return tt)) ->
  getter w (if before x then u0 else app s) = (ds, Throw e) ->
  exists s1,
    exec_flush getter deepReads cb beforeHook production config_async (S (S fuel)) s
    = (s1, Some (Throw e))
    /\ flushing (sched s1) = true /\ waiting (sched s1) = true
    /\ queue (sched s1) = w :: rest /\ index (sched s1) = 0
    /\ trace (sched s1) = trace (sched s) ++ turn (fun _ => before x) w
    /\ forall (call_flush : M U unit) ids, exists s2,
         for_each (queueWatcher production config_async call_flush) ids s1
         = (s2, Some (Return tt))
         /\ trace (sched s2) = trace (sched s1)
         /\ flushing (sched s2) = true /\ waiting (sched s2) = true.
Proof.
  intros Hq Hx Ha Hu Hw Hhook Hget.
  rewrite exec_flush_S.
  unfold flushSchedulerQueue. unfold bindM at 1. unfold on_sched at 1, modify.
  rewrite Hq. set (s0 := set_sched _ s).
  unfold bindM at 1. cbn [flush_loop].
  assert ((index (sched s0) <? Z.of_nat (length (queue (sched s0)))) = true) as ->
    by done.
  assert (at_index (queue (sched s0)) (index (sched s0)) = Some w) as -> by done.
  unfold bindM at 1. unfold flush_one. unfold bindM at 1.
  destruct (QuietFlushFacts.run_before_writes_nothing U beforeHook production config_async
              (exec_run getter deepReads cb beforeHook production config_async (S fuel))
              (exec_flush getter deepReads cb beforeHook production config_async (S fuel))
              w x u0 s0 Hx Hhook)
    as (sb & Hb & Bx & Ba & Bq & Bh & Bw & Bf & Bi & Bt).
  rewrite Hb. unfold bindM at 1. unfold on_sched at 1, modify.
  unfold bindM at 1. unfold on_sched at 1, modify.
  unfold bindM at 1. cbn [sched set_sched].
  set (sr := set_sched _ (set_sched _ sb)).
  destruct (QuietFlushFacts.run_getter_throws U production config_async
              (exec_run getter deepReads cb beforeHook production config_async fuel)
              (exec_flush getter deepReads cb beforeHook production config_async fuel)
              getter deepReads cb w x ds e sr)
    as (s1 & Hrun & Hs1);
    [ unfold sr; cbn [watchers set_sched]; rewrite Bx; exact Hx | done | done
    | unfold sr; cbn [app set_sched]; rewrite Ba; exact Hget |].
  change (exec_run getter deepReads cb beforeHook production config_async (S fuel) w sr)
    with (run getter deepReads cb production config_async
            (exec_run getter deepReads cb beforeHook production config_async fuel)
            (exec_flush getter deepReads cb beforeHook production config_async fuel) w sr).
  rewrite Hrun. exists s1. split; [done|].
  assert (flushing (sched s1) = true /\ waiting (sched s1) = true) as [Hf1 Hw1].
  { rewrite Hs1. unfold sr. cbn [sched set_sched]. simpl. by rewrite Bf, Bw. }
  split; [done|]. split; [done|].
  split; [rewrite Hs1; unfold sr; cbn [sched set_sched]; simpl; by rewrite Bq|].
  split; [rewrite Hs1; unfold sr; cbn [sched set_sched]; simpl; by rewrite Bi|].
  split.
  { rewrite Hs1. unfold sr. cbn [sched set_sched]. simpl. rewrite Bt.
    unfold turn. by rewrite <- app_assoc. }
  intros call_flush ids.
  destruct (QuietFlushFacts.for_each_queueWatcher_waiting U production config_async
              call_flush ids s1 Hw1) as (s2 & Hfe & Hw2 & Hf2 & _ & Ht2 & _).
  exists s2. split; [done|]. split; [done|]. split; [congruence|done].
Qed.

(** A render watcher whose render function throws, queued alone: the flush,
    with the interpreter as it is, calls the hook, throws and leaves the
    scheduler flushing. *)
Lemma X13_throwing_run_witness :
  exists s1,
    exec_flush failing_getter no_deep_reads bump no_hook false true 2 (broken pending0)
    = (s1, Some (Throw (VStr "render failed")))
    /\ flushing (sched s1) = true /\ waiting (sched s1) = true
    /\ queue (sched s1) = 0 :: [] /\ index (sched s1) = 0
    /\ trace (sched s1) = [] ++ [SBefore 0; SRun 0]
    /\ forall (call_flush : M Z unit) ids, exists s2,
         for_each (queueWatcher false true call_flush) ids s1 = (s2, Some (Return tt))
         /\ trace (sched s2) = trace (sched s1)
         /\ flushing (sched s2) = true /\ waiting (sched s2) = true.
Proof.
  apply (X13_throwing_run_leaves_the_scheduler_flushing Z failing_getter no_deep_reads
           bump no_hook false true (broken pending0) 0 0 [] render_watcher 0 [14]
           (VStr "render failed")); reflexivity.
Defined.

End MoreOfTheScheduler.

Section TheDeepTraversal.
Import JS Traverse Cases.
Local Open Scope Z_scope.

(** X14. The deep traversal ends on observed objects: when every object of
    the heap that can be entered (neither frozen nor a [VNode]) is observed,
    [traverse] comes back, with a return or with what an accessor threw, at
    a depth of recursion that the number of objects bounds, whatever
    references the objects hold to each other and whatever marks were left
    in [seenObjects]. *)
Theorem X14_traverse_ends_on_observed_objects
    (h : Heap) (fuel : nat) (val : value) (seenObjects : gset Z) :
  observed h -> (size h < fuel)%nat ->
  is_Some (traverse h fuel val seenObjects).
Proof.
  intros Hobs Hfuel.
  destruct (TraverseFacts._traverse_total h Hobs fuel val seenObjects) as [out Hout].
  - eapply Nat.le_lt_trans; [|exact Hfuel].
    etrans; [|apply TraverseFacts.size_ids].
    apply subseteq_size. set_solver.
  - unfold traverse. rewrite Hout. destruct out as [[seen' rs] [[]|e]]; by eexists.
Qed.

(** Two observed objects that hold each other. *)
Lemma X14_traverse_witness : is_Some (traverse ring 3 (VObj 0) ∅).
Proof.
  apply (X14_traverse_ends_on_observed_objects ring 3 (VObj 0) ∅).
  - intros r o Hr _ _. unfold ring in Hr.
    apply lookup_insert_Some in Hr as [[_ <-]|[_ Hr]]; [by eexists|].
    apply lookup_singleton_Some in Hr as [_ <-]. by eexists.
  - vm_compute. lia.
Defined.

(** X15. A traversal that throws leaves its marks. When [traverse] of an
    observed object throws (an accessor below it has thrown), the id of the
    object stays in [seenObjects]; and the next traversal of this object,
    finding the mark, enters nothing and reads nothing. It returns, and only
    then is [seenObjects] empty again. *)
Theorem X15_throwing_traverse_leaves_its_marks
    (h : Heap) (fuel : nat) (r : nat) (o : Obj) (id : Z)
    (seenObjects seen' : gset Z) (rs : list Z) (e : value) :
  h !! r = Some o -> isFrozen o = false -> isVNode o = false -> __ob__ o = Some id ->
  traverse h fuel (VObj r) seenObjects = Some (seen', rs, Throw e) ->
  id ∈ seen'
  /\ forall fuel', traverse h (S fuel') (VObj r) seen' = Some (∅, [], Return tt).
Proof.
  intros Hr Hf Hv Hid Ht.
  assert (id ∈ seen') as Hin by (by eapply TraverseFacts.traverse_thrown_marks).
  split; [done|]. intros fuel'. by eapply TraverseFacts.traverse_marked.
Qed.

(** An observed object with an accessor that throws. *)
Lemma X15_throwing_traverse_witness :
  20 ∈ ({[20]} ∪ ∅ : gset Z)
  /\ forall fuel', traverse trap (S fuel') (VObj 0) ({[20]} ∪ ∅) = Some (∅, [], Return tt).
Proof.
  apply (X15_throwing_traverse_leaves_its_marks trap 2 0
           (mkObj false false (Some 20)
              [mkProp [21] (Return (VNum 1)); mkProp [24] (Throw (VStr "accessor failed"))])
           20 ∅ ({[20]} ∪ ∅) [24] (VStr "accessor failed")); reflexivity.
Defined.

(** X16. An object that is not observed and holds itself: the traversal
    recurses without bound. Whatever depth of recursion is allowed, and
    whatever marks [seenObjects] holds, [traverse] of such an object does
    not return. *)
Theorem X16_traverse_of_a_plain_ring_does_not_return
    (h : Heap) (r : nat) (o : Obj) (p : Prop_)
    (fuel : nat) (seenObjects seen' : gset Z) (rs : list Z) :
  h !! r = Some o -> isFrozen o = false -> isVNode o = false -> __ob__ o = None ->
  p ∈ props o -> result p = Return (VObj r) ->
  traverse h fuel (VObj r) seenObjects <> Some (seen', rs, Return tt).
Proof.
  intros Hr Hf Hv Hid Hp Hres. unfold traverse.
  destruct (_traverse h fuel (VObj r) seenObjects) as [[[s1 rs1] [[]|e]]|] eqn:Ht;
    try done.
  by apply (TraverseFacts._traverse_plain_cycle h r o p Hr Hf Hv Hid Hp Hres) in Ht.
Qed.

(** An object that holds itself in its first property. *)
Lemma X16_traverse_witness :
  mkProp [] (Return (VObj 0)) ∈ [mkProp [] (Return (VObj 0)); mkProp [] (Return (VNum 1))]
  /\ traverse plain_ring 5 (VObj 0) ∅ <> Some (∅, [], Return tt).
Proof.
  split; [left|].
  apply (X16_traverse_of_a_plain_ring_does_not_return plain_ring 0
           (mkObj false false None
              [mkProp [] (Return (VObj 0)); mkProp [] (Return (VNum 1))])
           (mkProp [] (Return (VObj 0))) 5 ∅ ∅ []); try reflexivity.
  left.
Defined.

(** X19. A deep traversal that returns has read every nested property.
    When the observed objects that can be entered have ids of their own,
    and [traverse] of an object returns, having begun with [seenObjects]
    empty, then every property of every object that can be entered and
    that is reached from this object through property values has been read:
    the Deps that reading it registers are among those the traversal has
    registered, whatever references the objects hold to each other. *)
Theorem X19_deep_traverse_reads_every_reachable_property
    (h : Heap) (fuel : nat) (r x : nat) (o : Obj) (p : Prop_) (d : Z)
    (seen' : gset Z) (rs : list Z) :
  TraverseSpec.one_id_each h ->
  traverse h fuel (VObj r) ∅ = Some (seen', rs, Return tt) ->
  TraverseSpec.reaches h r x ->
  h !! x = Some o -> isFrozen o = false -> isVNode o = false ->
  p ∈ props o -> d ∈ reads p ->
  d ∈ rs.
Proof.
  intros Hone Ht Hreach Ho Hf Hv Hp Hd.
  by eapply (ReachFacts.traverse_reads_all h Hone fuel r seen' rs x o p d).
Qed.

(** Two observed objects that hold each other: the property of the second
    is read in the traversal of the first. *)
Lemma X19_deep_traverse_witness :
  TraverseSpec.reaches ring 0 1 /\ 23 ∈ [21; 23].
Proof.
  assert (TraverseSpec.reaches ring 0 1) as Hreach.
  { eapply TraverseSpec.reaches_step; [|apply TraverseSpec.reaches_here].
    exists (mkObj false false (Some 20) [mkProp [21] (Return (VObj 1))]),
           (mkProp [21] (Return (VObj 1))).
    split; [reflexivity|]. split; [reflexivity|]. split; [reflexivity|].
    split; [left|reflexivity]. }
  split; [exact Hreach|].
  apply (X19_deep_traverse_reads_every_reachable_property ring 3 0 1
           (mkObj false false (Some 22) [mkProp [23] (Return (VObj 0))])
           (mkProp [23] (Return (VObj 0))) 23 ∅ [21; 23]);
    try reflexivity; try exact Hreach; try left.
  intros r1 r2 id (o1 & H1 & _ & _ & Hi1) (o2 & H2 & _ & _ & Hi2).
  unfold ring in H1, H2.
  apply lookup_insert_Some in H1 as [[<- <-]|[_ H1]];
    [|apply lookup_singleton_Some in H1 as [<- <-]];
    (apply lookup_insert_Some in H2 as [[<- <-]|[_ H2]];
      [|apply lookup_singleton_Some in H2 as [<- <-]]);
    simpl in Hi1, Hi2; congruence.
Defined.

End TheDeepTraversal.

Section TheLifeCycle.
Import JS Reactive Lifecycle Scenario Cases.
Local Open Scope Z_scope.

(** X17. [callHook] collects no dependency. Provided that the runs and
    flushes the handlers set off, and the hook event, leave the target stack
    as they find it: a hook does what it would do if its handlers read no
    reactive property at all, so that no watcher becomes a subscriber
    through a hook; when the hook returns, the watcher being evaluated is
    the one that was; and without hook events the hook returns, whatever the
    handlers throw. *)
Theorem X17_callHook_collects_no_dependency
    (U : Type) (production config_async : bool)
    (call_run : Z -> M U unit) (call_flush : M U unit)
    (handlers : list (list (act U))) (_hasHookEvent : bool) (emit_hook : M U unit)
    (s : World U) :
  (forall w, keeps_target (call_run w)) ->
  keeps_target call_flush ->
  keeps_target emit_hook ->
  callHook production config_async call_run call_flush handlers _hasHookEvent emit_hook s
  = callHook production config_async call_run call_flush
      (blind <$> handlers) _hasHookEvent emit_hook s
  /\ (forall s' es,
        callHook production config_async call_run call_flush handlers _hasHookEvent
          emit_hook s = (s', Some (Return es)) ->
        targetStack s' = targetStack s)
  /\ (_hasHookEvent = false ->
      forall s' r,
        callHook production config_async call_run call_flush handlers _hasHookEvent
          emit_hook s = (s', Some r) ->
        exists es, r = Return es).
Proof.
  intros Hrun Hflush Hemit.
  by apply (LifecycleFacts.callHook_blind U production config_async call_run call_flush
              Hrun Hflush).
Qed.

(** A hook of the small application whose handler reads the counter and
    sets it, while watcher 2 is being evaluated. *)
Lemma X17_callHook_witness :
  callHook false true (fun _ s => (s, Some (Return tt))) (fun s => (s, Some (Return tt)))
    [[Reads [10]; Writes (bump 0 VUndef VUndef)]] false (ret tt)
    (pushTarget (Some 2) (world idle))
  = callHook false true (fun _ s => (s, Some (Return tt))) (fun s => (s, Some (Return tt)))
      (blind <$> [[Reads [10]; Writes (bump 0 VUndef VUndef)]]) false (ret tt)
      (pushTarget (Some 2) (world idle))
  /\ (forall s' es,
        callHook false true (fun _ s => (s, Some (Return tt)))
          (fun s => (s, Some (Return tt)))
          [[Reads [10]; Writes (bump 0 VUndef VUndef)]] false (ret tt)
          (pushTarget (Some 2) (world idle)) = (s', Some (Return es)) ->
        targetStack s' = targetStack (pushTarget (Some 2) (world idle)))
  /\ (false = false ->
      forall s' r,
        callHook false true (fun _ s => (s, Some (Return tt)))
          (fun s => (s, Some (Return tt)))
          [[Reads [10]; Writes (bump 0 VUndef VUndef)]] false (ret tt)
          (pushTarget (Some 2) (world idle)) = (s', Some r) ->
        exists es, r = Return es).
Proof.
  apply (X17_callHook_collects_no_dependency Z false true
           (fun _ s => (s, Some (Return tt))) (fun s => (s, Some (Return tt)))
           [[Reads [10]; Writes (bump 0 VUndef VUndef)]] false (ret tt)
           (pushTarget (Some 2) (world idle))).
  - intros w s. reflexivity.
  - intros s. reflexivity.
  - intros s. reflexivity.
Defined.

(** X18. [$destroy] tears every watcher down. From a component whose
    watchers, its render watcher among them or besides, are all active, the
    statements of [$destroy] that deal with the watchers return; every
    watcher of the component is then inactive and a subscriber of none of
    its Deps; and the component's list of watchers is as it was, since the
    flag [_isBeingDestroyed], set first, keeps [teardown] from taking the
    watchers off the list the loop runs over. *)
Theorem X18_destroy_tears_every_watcher_down
    (U : Type) (v : nat) (s : World U) (c : Vm) (_watcher : option Z) :
  vms s !! v = Some c ->
  (forall w, w ∈ _watchers c \/ _watcher = Some w ->
     exists x, watchers s !! w = Some x /\ vm x = v /\ active x = true) ->
  exists s',
    destroy_watchers v _watcher s = (s', Return tt)
    /\ vms s' !! v = Some (mkVm true (_watchers c))
    /\ (forall w, w ∈ _watchers c \/ _watcher = Some w -> torn v w s').
Proof. apply LifecycleFacts.destroy_watchers_tears_down. Qed.

(** The component of the small application, watcher 1 being its render
    watcher. *)
Lemma X18_destroy_witness :
  exists s',
    destroy_watchers 0 (Some 1) (world idle) = (s', Return tt)
    /\ vms s' !! 0%nat = Some (mkVm true [1; 2])
    /\ (forall w, w ∈ [1; 2] \/ Some 1 = Some w -> torn 0 w s').
Proof.
  apply (X18_destroy_tears_every_watcher_down Z 0 (world idle) (mkVm false [1; 2])
           (Some 1)).
  - reflexivity.
  - intros w Hw.
    assert (w = 1 \/ w = 2) as [-> | ->].
    { destruct Hw as [Hw|[= <-]]; [|by left].
      apply elem_of_cons in Hw as [->|Hw]; [by left|].
      apply list_elem_of_singleton in Hw as ->. by right. }
    + by exists watcher1.
    + by exists watcher2.
Defined.

End TheLifeCycle.
